(* ===== verification/_CoqProject ===== *)
-Q . S2P
Prelude.v
Errors.v
Process.v
Regexp.v
Routing.v
CoreQueue.v
QueueSpec.v
QueueTrace.v
CoreExchange.v
CoreSafety.v
Scenario.v
ExchangeSpec.v
AppConfig.v
Connect.v
Repository.v
Service.v
Transport.v
Client.v
ClientCalls.v
ServiceSafety.v
Database.v
Postgres.v
PostgresSpec.v
ServerSafety.v
Hazards.v
FrontEnd.v
ConfigSpec.v
Mirror.v
MirrorCore.v
MirrorHeap.v
MirrorService.v
Recovery.v
History.v
Main.v
FetchSpec.v
Lost.v
StreamSpec.v
PublishSpec.v
Answered.v
ClientSpec.v
