(* ===== verification/Prelude.v ===== *)
(** * A message broker, verified

    A model of the Go message broker of this repository and the theorems that make
    it correct.  Producers publish messages with a routing key to an exchange; the
    exchange puts a delivery into each of its queues that has a matching filter;
    consumers fetch deliveries from queues under a lease and acknowledge them or
    give them back.  Durable queues and their deliveries are mirrored in PostgreSQL
    and restored at start-up.  Calls arrive over gRPC and run concurrently.

    ** The parts, and the files that model them

    - [Prelude]: machine integers, the state monad with panics ([GoM]), list and
      map lemmas, tactics.  [Errors]: [internal/errors/errors.go], results.
    - [Process]: goroutines.  A handler is a [prog]: atomic steps (the bodies that
      run under a mutex, the statements sent to storage), [select]s and unbounded
      loops.  [run] is the sequential meaning of a straight-line program, [exec]
      the meaning with fuel of one that waits or loops, [pool_step] the interleaving
      of any number of them.  The file has the rely-guarantee rules ([spec]) and
      the invariant rule for every interleaving ([pool_safe]).
    - [Regexp], [Routing]: [internal/core/routing_key.go], [routing_filter.go],
      [message.go].  The two regular expressions are syntax trees with a matcher
      that is proved against the usual semantics.
    - [CoreQueue] (module [Queue]): [internal/core/queue.go], every method, with
      the notification channel; [delivery.go], [dead_letter.go].  [QueueSpec] has
      the invariant of a queue and the delivery life cycle it implements,
      [QueueTrace] the theorems about whole histories of calls.
    - [CoreExchange] (modules [Exchange], [Broker]): [internal/core/exchange.go]
      and [broker.go] over a heap, since handlers keep pointers to exchanges and
      queues across other goroutines' steps.  [CoreSafety]: the invariant of the
      heap and the rely-guarantee specification of every method; [ExchangeSpec]:
      what each method does when it is not interfered with; [Scenario]: a concrete
      runtime and broker to evaluate on.
    - [AppConfig]: [internal/config]; [ConfigSpec]: what loading guarantees.
      [Connect]: [internal/db/db.go], the attempts to connect and their waits.
    - [Repository]: the interface [Repository] of [internal/service/broker.go] as a
      type class, and [internal/repository/state.go].  [Service] (module
      [BrokerService]): every method of [internal/service/broker.go], over any
      repository.  [ServiceSafety]: their specifications under interference, for
      any repository that meets [RepositoryCalm].
    - [Database]: the tables of [migrations/00001_init.sql] with keys, foreign
      keys, cascades and checks, and the statements sent to them.  [Postgres]:
      [internal/repository/postgres.go], the instance of [Repository];
      [PostgresSpec]: its theorems, and the proof that it meets [RepositoryCalm].
    - [Mirror]: the durable state as an abstract object ([Abs]: exchanges, durable
      queues, letters), what it is in the tables and what each statement does to it.
      [MirrorCore], [MirrorHeap]: what it is in memory and what each method of the
      core does to it.  [MirrorService]: the logic of a goroutine that is alone, and
      [agree], which every method of the service keeps unless storage fails.
      [Recovery]: what [Restore] does after a crash; [History]: calls one after the
      other, crashes and restarts.
    - [FetchSpec], [StreamSpec], [PublishSpec]: what [BlockingFetch], the handler of
      [StreamFetch] and [Publish] do, run alone; [Answered]: the same on a storage
      that answers.
    - [Transport] (modules [BrokerHandler], [AuthInterceptor]): the gRPC handlers,
      the error mapping and the interceptors of [internal/transport/grpc], and
      [serve], the goroutine of a call.  [ServerSafety]: any number of calls at once;
      [FrontEnd]: authentication, statuses, conversions; [Hazards]: schedules that do
      lose something; [Lost]: statements whose loss does, on any broker.
    - [Main]: [cmd/broker/main.go], from the environment to the server that takes
      calls and to the end of the process; it joins [AppConfig], [Connect], [Recovery]
      and [ServerSafety].
    - [Client] (modules [Client], [ClientMessage]): the library [pkg/brokerclient]
      over the interface [GrpcConn], which stands for the generated stub, and
      [Loopback], the laws of a connection to this broker.  [ClientCalls]: the calls
      that a client makes to an arbitrary peer; [ClientSpec]: clients and broker
      together.

    ** Correspondence

    A field [F] of a Go struct is a record field with a prefix ([q_Ready] of
    [Queue]); [int] is [Z] within 64 bits, with the wrap-around written where the
    code can reach it (attempts, durations, the 32-bit attempts of a reply).  A
    method that returns [(T, error)] has type [result T].  Pointers to queues and
    exchanges are references into [Core].  A channel is a number in [Chans], which
    says which are closed; closing one twice panics.  The order of a range over a
    map and the UUIDs that are drawn are arguments ([GoEnv]), about which the
    theorems assume only that a range visits every key once and that UUIDs do not
    repeat ([GoEnvOk]).  A critical section is one atomic step; where the code
    takes a second lock inside one (HasConsumers in DeleteQueue), [Process] says
    why one step is right.  The database server is an argument too ([PgEnv]):
    every statement may fail before or after it was executed.

    ** What is shown

    - Safety under every interleaving: [server_never_crashes].
    - The queue, over every history of calls: its invariant, conservation of
      deliveries, first in first out, exclusive leases, no redelivery of what was
      settled, the in-flight limit, no lost wake-ups, and refinement of the
      delivery life cycle.
    - Exchanges: exact routing, fan-out of a publication, registration,
      negative acknowledgement and dead letters, departure of consumers and
      auto-deletion.
    - Memory and tables: every call that is alone keeps them in agreement or
      reports a storage error; [Restore] rebuilds what the tables hold, and durable
      messages survive a crash.
    - The service, run alone: the outcome of a fetch on every branch, and of a wait
      that ends in whatever the broker has become; a stream disconnects its consumer
      whatever ends it; publishing is the core's [Publish] on memory and stores the durable deliveries in order.
    - Storage: all-or-nothing [SaveQueue], integrity of the tables, exact loading.
    - Start: connecting ends and leaks no pool; [main] ends for the right reason or
      serves on a restored memory, and closes the pool when the server has stopped.
    - Front end and configuration: authentication, statuses, the range of
      timeouts, what a loaded configuration guarantees.
    - Clients: authentication end to end, what becomes of numbers and options on the
      wire, a published message is the one that is fetched, what [Close] and [New] do.
    - Hazards: races, lost statements and a subscription that outlives its consumer,
      which break what one might expect.

    ** Fuel

    Only [exec] and the printing of witnesses use fuel.  [exec_more_fuel] shows
    that more fuel never changes a result and [exec_straight] that a straight-line
    program needs only finitely much; [finishes] says that some fuel gives the
    result, and theorems about handlers that wait or loop are stated with it.

    ** Not modelled

    Log lines; how the gRPC library listens and drains calls in [GracefulStop], whose
    errors are arguments of [main]; the text of wrapped errors of [internal/db]; what happens to a client's call when its context
    ends while the call is under way; generated code ([proto], [mock_repository.go])
    and tests.  The transaction of [SaveQueue] is one step, as its rows are invisible
    to other sessions until it commits.  An empty payload is nil, and
    NULL to the tables, which refuse it ([Database] says why nothing else is empty). *)

From Stdlib Require Export ZArith Lia.
From stdpp Require Export base strings gmap fin_maps sets sorting option list.

#[global] Unset Program Cases.

Declare Scope go_scope.
Delimit Scope go_scope with go.

(** ** Machine integers

    Go's [int] is 64 bits wide on the platforms the broker is built for,
    [int32] and Postgres' [INTEGER] are 32 bits wide.  Arithmetic on them wraps
    around; conversions truncate. *)

Definition wrap (w : Z) (z : Z) : Z :=
  ((z + 2 ^ (w - 1)) mod 2 ^ w - 2 ^ (w - 1))%Z.

Definition int64 (z : Z) : Z := wrap 64 z.

Definition int32 (z : Z) : Z := wrap 32 z.

Definition in_int64 (z : Z) : Prop := (- 2 ^ 63 ≤ z < 2 ^ 63)%Z.

Definition in_int32 (z : Z) : Prop := (- 2 ^ 31 ≤ z < 2 ^ 31)%Z.

Lemma int64_id z : in_int64 z → int64 z = z.
Proof.
  unfold in_int64, int64, wrap. intros H.
  rewrite Z.mod_small; lia.
Qed.

Lemma int32_id z : in_int32 z → int32 z = z.
Proof.
  unfold in_int32, int32, wrap. intros H.
  rewrite Z.mod_small; lia.
Qed.

Lemma int64_range z : in_int64 (int64 z).
Proof.
  unfold in_int64, int64, wrap.
  pose proof (Z.mod_pos_bound (z + 2 ^ (64 - 1)) (2 ^ 64) ltac:(lia)). lia.
Qed.

Lemma int32_range z : in_int32 (int32 z).
Proof.
  unfold in_int32, int32, wrap.
  pose proof (Z.mod_pos_bound (z + 2 ^ (32 - 1)) (2 ^ 32) ltac:(lia)). lia.
Qed.

(** ** Outcomes: a Go computation may panic

    A panic in a handler goroutine is not recovered anywhere in the program, so
    it takes the whole process down; it is kept apart from the [error] values
    that functions return. *)

Inductive outcome (A : Type) : Type :=
| Val (a : A)
| Panic.
Arguments Val {A} a.
Arguments Panic {A}.

(** State-passing computations that may panic. *)
Definition GoM (S A : Type) : Type := S → outcome (A * S).

#[export] Instance GoM_ret {S} : MRet (GoM S) := λ A a s, Val (a, s).

#[export] Instance GoM_bind {S} : MBind (GoM S) := λ A B k m s,
  match m s with
  | Val (a, s') => k a s'
  | Panic => Panic
  end.

#[export] Instance GoM_fmap {S} : FMap (GoM S) := λ A B f m s,
  match m s with
  | Val (a, s') => Val (f a, s')
  | Panic => Panic
  end.

Definition get {S} : GoM S S := λ s, Val (s, s).

Definition gets {S A} (f : S → A) : GoM S A := λ s, Val (f s, s).

Definition modify {S} (f : S → S) : GoM S unit := λ s, Val (tt, f s).

Definition panic {S A} : GoM S A := λ _, Panic.

(** The law that drives every sequential computation of the development. *)
Lemma GoM_bind_val {S A B} (m : GoM S A) (k : A → GoM S B) s a s' :
  m s = Val (a, s') → (m ≫= k) s = k a s'.
Proof. intros H. unfold mbind, GoM_bind. by rewrite H. Qed.

(** Unfolds the monad, so that a computation on a known state reduces. *)
Ltac go_unfold :=
  cbv [mbind mret fmap GoM_bind GoM_ret GoM_fmap get gets modify]; simpl.

(** ** Lists *)

Section lists.
Context {A : Type}.
Implicit Types l : list A.

Lemma NoDup_snoc l x : NoDup l → x ∉ l → NoDup (l ++ [x]).
Proof.
  intros Hl Hx. apply NoDup_app. split_and!; [done| |apply NoDup_singleton].
  intros y Hy ->%list_elem_of_singleton. done.
Qed.

Lemma filter_all (P : A → Prop) `{!∀ x, Decision (P x)} l :
  Forall P l → filter P l = l.
Proof.
  induction 1 as [|x l Hx _ IH]; [done|].
  by rewrite filter_cons_True, IH.
Qed.

Lemma filter_none (P : A → Prop) `{!∀ x, Decision (P x)} l :
  Forall (λ x, ¬ P x) l → filter P l = [].
Proof.
  induction 1 as [|x l Hx _ IH]; [done|].
  by rewrite filter_cons_False.
Qed.
End lists.

Lemma string_app_nil_r (s : string) : s +:+ "" = s.
Proof. induction s as [|c s IH]; [done|]. change (String c (s +:+ "") = String c s). by rewrite IH. Qed.

(** ** Keys and values of a finite map, in the map's own order *)

Definition keys {K V} `{Countable K} (m : gmap K V) : list K :=
  (map_to_list m).*1.

Section keys.
Context {K V : Type} `{Countable K}.
Implicit Types m : gmap K V.

Lemma elem_of_keys m k : k ∈ keys m ↔ is_Some (m !! k).
Proof.
  unfold keys. rewrite list_elem_of_fmap. split.
  - intros ([k' v] & -> & Hin). apply elem_of_map_to_list in Hin. eauto.
  - intros [v Hv]. exists (k, v). split; [done|]. by apply elem_of_map_to_list.
Qed.

Lemma NoDup_keys m : NoDup (keys m).
Proof. apply NoDup_fst_map_to_list. Qed.
End keys.

(** ** Automation *)

Create HintDb broker discriminated.

(** Case analysis on the scrutinee of a [match] or [if] of the goal or of a
    hypothesis, keeping the equation. *)
Ltac break_match :=
  match goal with
  | |- context [match ?x with _ => _ end] =>
      lazymatch x with
      | context [match _ with _ => _ end] => fail
      | _ => destruct x eqn:?
      end
  | H : context [match ?x with _ => _ end] |- _ =>
      lazymatch x with
      | context [match _ with _ => _ end] => fail
      | _ => destruct x eqn:?
      end
  end.

Ltac break := repeat (break_match; simplify_eq/=).

