(* ===== verification/Errors.v ===== *)
(** * The broker's error values ([internal/errors/errors.go])

    Every sentinel of the package is a constructor.  [StorageError] stands for
    the errors that the database driver reports (its text is whatever the
    driver says), [CtxError] for the error of a cancelled or expired
    [context.Context]; the program never wraps a sentinel, so [errors.Is] is
    equality. *)

From S2P Require Import Prelude.

Inductive ctx_error : Type :=
| Canceled
| DeadlineExceeded.

Inductive error : Type :=
| ExchangeAlreadyExist
| ExchangeNotFound
| ExchangeHasConsumers
| QueueAlreadyExist
| QueueNotFound
| QueueHasConsumers
| QueueFlagsConflict
| QueueEmpty
| FiltersIncorrect
| MaxAttemptsIncorrect
| MessageTooLarge
| RoutingKeyTooLong
| TooManyQueueFilters
| MessageNotMatch
| InvalidRoutingKey
| DeliveryNotFound
| ConsumerNotFound
| TooManyInFlight
| DeliveryOwnerMismatch
| Unauthorized
| StorageError (text : string)
| CtxError (e : ctx_error).

#[export] Instance ctx_error_eq_dec : EqDecision ctx_error.
Proof. solve_decision. Defined.

#[export] Instance error_eq_dec : EqDecision error.
Proof. solve_decision. Defined.

(** [errors.Is]: no error of the program wraps a sentinel. *)
Definition errors_Is (err target : error) : bool := bool_decide (err = target).

(** The text of each error ([err.Error()]). *)
Definition Error_text (err : error) : string :=
  match err with
  | ExchangeAlreadyExist => "exchange with this name already exists"
  | ExchangeNotFound => "exchange not found"
  | ExchangeHasConsumers => "exchange has queues with active consumers"
  | QueueAlreadyExist => "queue with this name already exists"
  | QueueNotFound => "queue not found"
  | QueueHasConsumers => "queue has active consumers"
  | QueueFlagsConflict => "IsDurable and IsAutoDelete cant be true in one time"
  | QueueEmpty => "queue empty"
  | FiltersIncorrect => "filters are Incorrect"
  | MaxAttemptsIncorrect => "max attempts must be non-negative"
  | MessageTooLarge => "message exceeds maximum size"
  | RoutingKeyTooLong => "routing key exceeds maximum length"
  | TooManyQueueFilters => "too many queue filters"
  | MessageNotMatch => "message doesnt match to queue filters"
  | InvalidRoutingKey => "invalid routing key"
  | DeliveryNotFound => "delivery not found"
  | ConsumerNotFound => "consumer not found"
  | TooManyInFlight => "consumer reached max in-flight deliveries"
  | DeliveryOwnerMismatch => "delivery belongs to another consumer"
  | Unauthorized => "invalid root token"
  | StorageError text => text
  | CtxError Canceled => "context canceled"
  | CtxError DeadlineExceeded => "context deadline exceeded"
  end.

(** A Go [(T, error)] pair: the value is meaningful only when the error is
    [nil]. *)
Inductive result (A : Type) : Type :=
| Ok (a : A)
| Err (err : error).
Arguments Ok {A} a.
Arguments Err {A} err.

#[export] Instance result_eq_dec {A} `{EqDecision A} : EqDecision (result A).
Proof. solve_decision. Defined.

Definition is_ok {A} (r : result A) : bool :=
  match r with Ok _ => true | Err _ => false end.
