(* ===== verification/Process.v ===== *)
(** * Goroutines: programs made of atomic sections

    A request handler is a program over a shared state [S].  Its atomic steps
    are the critical sections of the source (the body of a method that runs
    under its mutex), the accesses to fields that are never written after
    construction, and the statements sent to the database; between two of them
    any other goroutine may run.  A critical section that takes a second mutex
    for one nested call (for instance [Exchange.DeleteQueue], which calls
    [queue.HasConsumers] under [e.mu]) is one atomic step: whatever another
    goroutine does to the queue after the nested call commutes with the rest of
    the section, which only touches data that [e.mu] protects.

    [Select] is Go's [select] over [ctx.Done()], [timer.C] and a notification
    channel; [Loop] is Go's [for { ... }] whose body ends an iteration with
    [None] and leaves the loop with [Some x].

    The file gives the small-step semantics of one goroutine and of a pool of
    goroutines with the invariant rule for every interleaving, and the
    sequential semantics ([run]) of a goroutine that is alone, with the lemmas
    that relate the two. *)

From S2P Require Import Prelude Errors.

(** What ends a [select]: the context is done, the timer fired, or the
    notification channel is closed. *)
Inductive wake : Type :=
| CtxDone (e : ctx_error)
| TimerFired
| Woken.

#[export] Instance wake_eq_dec : EqDecision wake.
Proof. solve_decision. Defined.

Inductive prog (S A : Type) : Type :=
| Ret (a : A)
| Atom {X} (f : GoM S X) (k : X → prog S A)
| Select (closed : S → bool) (k : wake → prog S A)
| Loop {X} (body : prog S (option X)) (k : X → prog S A).
Arguments Ret {S A} a.
Arguments Atom {S A X} f k.
Arguments Select {S A} closed k.
Arguments Loop {S A X} body k.

#[export] Instance prog_ret {S} : MRet (prog S) := λ A a, Ret a.

#[export] Instance prog_bind {S} : MBind (prog S) := λ A B k,
  fix bind (p : prog S A) : prog S B :=
    match p with
    | Ret a => k a
    | Atom f h => Atom f (λ x, bind (h x))
    | Select closed h => Select closed (λ w, bind (h w))
    | Loop body h => Loop body (λ x, bind (h x))
    end.

(** One critical section. *)
Definition atomic {S A} (f : GoM S A) : prog S A := Atom f Ret.

(** [if err != nil { return err }]: run [p], leave the function on an error. *)
Definition try {S A B} (p : prog S (result A)) (k : A → prog S (result B)) :
    prog S (result B) :=
  r ← p; match r with Ok a => k a | Err e => Ret (Err e) end.

Notation "x '<-?' p ;; k" := (try p (λ x, k))
  (at level 100, p at next level, right associativity,
   format "'[v' x  '<-?'  p ;;  '/' k ']'") : go_scope.

Notation "p '?;' k" := (try p (λ _, k))
  (at level 100, right associativity) : go_scope.

Open Scope go_scope.

(** A Go [for range] over a slice whose body may return early with an error. *)
Fixpoint for_each {S A} (l : list A) (body : A → prog S (result unit)) :
    prog S (result unit) :=
  match l with
  | [] => Ret (Ok tt)
  | x :: l => body x ?; for_each l body
  end.

(** A [for range] that collects a result per element. *)
Fixpoint map_prog {S A B} (f : A → prog S B) (l : list A) : prog S (list B) :=
  match l with
  | [] => Ret []
  | x :: l => y ← f x; ys ← map_prog f l; Ret (y :: ys)
  end.

(** ** Components of a larger state *)

Record lens (S T : Type) : Type := Lens {
  view : S → T;
  over : T → S → S;
}.
Arguments Lens {S T} view over.
Arguments view {S T} l s.
Arguments over {S T} l t s.

Class LensOk {S T} (l : lens S T) : Prop := {
  view_over : ∀ t s, view l (over l t s) = t;
  over_view : ∀ s, over l (view l s) s = s;
  over_over : ∀ t t' s, over l t (over l t' s) = over l t s;
}.

Definition zoomM {S T A} (l : lens S T) (m : GoM T A) : GoM S A := λ s,
  match m (view l s) with
  | Val (a, t) => Val (a, over l t s)
  | Panic => Panic
  end.

Fixpoint zoom {S T A} (l : lens S T) (p : prog T A) : prog S A :=
  match p with
  | Ret a => Ret a
  | Atom f k => Atom (zoomM l f) (λ x, zoom l (k x))
  | Select closed k => Select (λ s, closed (view l s)) (λ w, zoom l (k w))
  | Loop body k => Loop (zoom l body) (λ x, zoom l (k x))
  end.

(** ** One goroutine *)

(** What the scheduler and the environment choose at a step. *)
Inductive choice : Type :=
| Go
| Wake (w : wake).

(** [step c p s]: [None] when the goroutine cannot take that step. *)
Definition step {S A} (c : choice) (p : prog S A) (s : S) :
    option (outcome (prog S A * S)) :=
  match p, c with
  | Atom f k, Go =>
      Some (match f s with Val (x, s') => Val (k x, s') | Panic => Panic end)
  | Select closed k, Wake w =>
      if (if decide (w = Woken) then closed s else true)
      then Some (Val (k w, s)) else None
  | Loop body k, Go =>
      Some (Val (r ← body;
                 match r with Some x => k x | None => Loop body k end, s))
  | _, _ => None
  end.

(** A finished run, a panic, a goroutine that waits in a [select] and has used
    up the given choices, or one that needs more fuel. *)
Inductive exec_result (S A : Type) : Type :=
| Finished (a : A) (s : S) (ws : list wake)
| Panicked
| Waiting (p : prog S A) (s : S)
| OutOfFuel.
Arguments Finished {S A} a s ws.
Arguments Panicked {S A}.
Arguments Waiting {S A} p s.
Arguments OutOfFuel {S A}.

(** Runs a goroutine that is alone; [ws] says how its [select]s end.  A [Woken]
    that the state does not allow leaves the goroutine waiting. *)
Fixpoint exec {S A} (fuel : nat) (ws : list wake) (p : prog S A) (s : S) :
    exec_result S A :=
  match fuel with
  | O => OutOfFuel
  | Datatypes.S fuel =>
      match p with
      | Ret a => Finished a s ws
      | Atom f k =>
          match f s with
          | Val (x, s') => exec fuel ws (k x) s'
          | Panic => Panicked
          end
      | Select closed k =>
          match ws with
          | [] => Waiting p s
          | w :: ws =>
              if (if decide (w = Woken) then closed s else true)
              then exec fuel ws (k w) s else Waiting p s
          end
      | Loop body k =>
          exec fuel ws (r ← body;
                        match r with Some x => k x | None => Loop body k end) s
      end
  end.

(** ** Sequential runs

    Most handlers neither loop nor wait; for those [run] is the whole story: it
    is defined by recursion on the program, so it is total. *)

Fixpoint straight {S A} (p : prog S A) : Prop :=
  match p with
  | Ret _ => True
  | Atom f k => ∀ x, straight (k x)
  | Select _ _ | Loop _ _ => False
  end.

Fixpoint run {S A} (p : prog S A) : GoM S A :=
  match p with
  | Ret a => λ s, Val (a, s)
  | Atom f k => λ s, match f s with Val (x, s') => run (k x) s' | Panic => Panic end
  | Select _ _ | Loop _ _ => λ _, Panic
  end.

(** ** Laws of sequential runs *)

Section run.
Context {S : Type}.
Implicit Types s : S.

Lemma run_ret {A} (a : A) s : run (Ret a) s = Val (a, s).
Proof. done. Qed.

Lemma run_atomic {A} (f : GoM S A) s : run (atomic f) s = f s.
Proof. unfold atomic; simpl. by destruct (f s) as [[]|]. Qed.

Lemma straight_bind {A B} (p : prog S A) (k : A → prog S B) :
  straight p → (∀ a, straight (k a)) → straight (p ≫= k).
Proof. intros Hp Hk. induction p; simpl in *; eauto; done. Qed.

Lemma run_bind {A B} (p : prog S A) (k : A → prog S B) s :
  run (p ≫= k) s =
  match run p s with Val (a, s') => run (k a) s' | Panic => Panic end.
Proof.
  revert k s. induction p as [A a|A X f h IH|A h IH|A X body IHb h IH];
    intros k' s; simpl; [done| |done|done].
  destruct (f s) as [[x s']|]; [|done]. apply IH.
Qed.

Lemma run_bind_val {A B} (p : prog S A) (k : A → prog S B) s a s' :
  run p s = Val (a, s') → run (p ≫= k) s = run (k a) s'.
Proof. intros H. by rewrite run_bind, H. Qed.

Lemma run_try {A B} (p : prog S (result A)) (k : A → prog S (result B)) s :
  run (try p k) s =
  match run p s with
  | Val (Ok a, s') => run (k a) s'
  | Val (Err e, s') => Val (Err e, s')
  | Panic => Panic
  end.
Proof.
  unfold try. rewrite run_bind. by destruct (run p s) as [[[] ?]|].
Qed.

Lemma run_try_ok {A B} (p : prog S (result A)) (k : A → prog S (result B)) s a s' :
  run p s = Val (Ok a, s') → run (try p k) s = run (k a) s'.
Proof. intros H. by rewrite run_try, H. Qed.

Lemma run_try_err {A B} (p : prog S (result A)) (k : A → prog S (result B)) s e s' :
  run p s = Val (Err e, s') → run (try p k) s = Val (Err e, s').
Proof. intros H. by rewrite run_try, H. Qed.

(** A straight line at the start of a program is run first, in so many steps. *)
Lemma exec_bind_run {A B} (p : prog S A) (k : A → prog S B) s a s' :
  straight p → run p s = Val (a, s') →
  ∃ m : nat, ∀ n ws, exec (m + n) ws (p ≫= k) s = exec n ws (k a) s'.
Proof.
  revert s. induction p as [A a0|A X f h IH|A h IH|A X body IHb h IH];
    intros s Hs Hr; simpl in *; [|  |done|done].
  - simplify_eq. exists 0. done.
  - destruct (f s) as [[x s1]|] eqn:Hf; [|done].
    destruct (IH x k a s1 (Hs x) Hr) as [m Hm].
    exists (Datatypes.S m). intros n ws. simpl. by rewrite Hf.
Qed.

(** [p'] goes on with [k] where [p] returns. *)
Inductive binds {A B} (k : A → prog S B) : prog S A → prog S B → Prop :=
| binds_ret a : binds k (Ret a) (k a)
| binds_atom X (f : GoM S X) h h' :
    (∀ x, binds k (h x) (h' x)) → binds k (Atom f h) (Atom f h')
| binds_select closed h h' :
    (∀ w, binds k (h w) (h' w)) → binds k (Select closed h) (Select closed h')
| binds_loop X (body : prog S (option X)) h h' :
    (∀ x, binds k (h x) (h' x)) → binds k (Loop body h) (Loop body h').

Lemma binds_bind {A B} (p : prog S A) (k : A → prog S B) : binds k p (p ≫= k).
Proof. induction p; simpl; by constructor. Qed.

Lemma binds_after {A B C} (body : prog S C) (k : A → prog S B) h h' :
  (∀ c, binds k (h c) (h' c)) → binds k (body ≫= h) (body ≫= h').
Proof.
  intros Hh. induction body as [C c|C X f g IH|C closed g IH|C X b IHb g IH]; simpl;
    [done|constructor; intros; by apply IH..].
Qed.

(** A first part that loops or waits, but finishes. *)
Lemma exec_binds {A B} n ws (p : prog S A) (k : A → prog S B) p' s a s' ws' :
  binds k p p' → exec n ws p s = Finished a s' ws' →
  ∃ j : nat, ∀ m, exec (j + m) ws p' s = exec m ws' (k a) s'.
Proof.
  intros Hp. revert ws p p' s Hp. induction n as [|n IH]; [done|].
  intros ws p p' s Hp H.
  destruct Hp as [a0|X f h h' Hh|closed h h' Hh|X body h h' Hh]; simpl in H.
  - injection H as -> -> ->. by exists 0.
  - destruct (f s) as [[x s1]|] eqn:Hf; [|done].
    destruct (IH _ _ _ _ (Hh x) H) as [j Hj]. exists (Datatypes.S j). intros m.
    simpl. by rewrite Hf.
  - destruct ws as [|w ws]; [done|].
    destruct (if decide (w = Woken) then closed s else true) eqn:Hw; [|done].
    destruct (IH _ _ _ _ (Hh w) H) as [j Hj]. exists (Datatypes.S j). intros m.
    simpl. by rewrite Hw.
  - assert (binds k (body ≫= λ x, match x with Some x => h x | None => Loop body h end)
      (body ≫= λ x, match x with Some x => h' x | None => Loop body h' end)) as Hb.
    { apply binds_after. intros [x|]; [done|]. by constructor. }
    destruct (IH _ _ _ _ Hb H) as [j Hj]. exists (Datatypes.S j). exact Hj.
Qed.

Lemma exec_bind_exec {A B} n ws (p : prog S A) (k : A → prog S B) s a s' ws' :
  exec n ws p s = Finished a s' ws' →
  ∃ j : nat, ∀ m, exec (j + m) ws (p ≫= k) s = exec m ws' (k a) s'.
Proof. apply exec_binds, binds_bind. Qed.

Lemma exec_bind_bind_run {A B C} (p : prog S A) (k : A → prog S B) (k' : B → prog S C)
    s a s' :
  straight p → run p s = Val (a, s') →
  ∃ m : nat, ∀ n ws, exec (m + n) ws ((p ≫= k) ≫= k') s = exec n ws (k a ≫= k') s'.
Proof.
  revert s. induction p as [A a0|A X f h IH|A h IH|A X body IHb h IH];
    intros s Hs Hr; simpl in *; [|  |done|done].
  - simplify_eq. exists 0. done.
  - destruct (f s) as [[x s1]|] eqn:Hf; [|done].
    destruct (IH x k a s1 (Hs x) Hr) as [m Hm].
    exists (Datatypes.S m). intros n ws. simpl. by rewrite Hf.
Qed.

(** With enough fuel the small steps of a straight-line goroutine that is
    alone compute exactly [run]. *)
Lemma exec_straight {A} ws (p : prog S A) s a s' :
  straight p → run p s = Val (a, s') →
  ∃ n, exec n ws p s = Finished a s' ws.
Proof.
  revert s. induction p as [A a0|A X f h IH|A h IH|A X body IHb h IH];
    intros s Hs Hr; simpl in *; [| |done|done].
  - simplify_eq. by exists 1.
  - destruct (f s) as [[x s1]|] eqn:Hf; [|done].
    destruct (IH x _ s1 (Hs x) Hr) as [n Hn].
    exists (Datatypes.S n). simpl. by rewrite Hf.
Qed.

(** More fuel never changes a result. *)
Lemma exec_more_fuel {A} n m ws (p : prog S A) s :
  n ≤ m → exec n ws p s ≠ OutOfFuel → exec m ws p s = exec n ws p s.
Proof.
  revert m ws p s. induction n as [|n IH]; intros m ws p s Hle Hne; [done|].
  destruct m as [|m]; [lia|]. simpl in *.
  destruct p as [a|X f k|closed k|X body k]; [done| | |].
  - destruct (f s) as [[x s']|]; [|done]. apply IH; [lia|done].
  - destruct ws as [|w ws]; [done|].
    destruct (if decide (w = Woken) then closed s else true); [|done].
    apply IH; [lia|done].
  - apply IH; [lia|done].
Qed.
End run.

Section straight.
Context {S : Type}.

Lemma straight_ret {A} (a : A) : straight (S:=S) (Ret a).
Proof. done. Qed.

Lemma straight_atomic {A} (f : GoM S A) : straight (atomic f).
Proof. done. Qed.

Lemma straight_try {A B} (p : prog S (result A)) (k : A → prog S (result B)) :
  straight p → (∀ a, straight (k a)) → straight (try p k).
Proof. intros Hp Hk. apply straight_bind; [done|]. by intros []. Qed.

Lemma straight_for_each {A} (l : list A) (body : A → prog S (result unit)) :
  (∀ x, straight (body x)) → straight (for_each l body).
Proof.
  intros Hb. induction l as [|x l IH]; simpl; [done|]. by apply straight_try.
Qed.

Lemma straight_map_prog {A B} (f : A → prog S B) (l : list A) :
  (∀ x, straight (f x)) → straight (map_prog f l).
Proof.
  intros Hf. induction l as [|x l IH]; simpl; [done|].
  apply straight_bind; [done|]. intros y. by apply straight_bind.
Qed.
End straight.

Create HintDb straight discriminated.
#[export] Hint Resolve straight_ret straight_atomic : straight.

(** Walks through the text of a program without loops of [for { }] and [select]. *)
Ltac straight_tac :=
  repeat first
    [ progress intros
    | apply straight_ret | apply straight_atomic
    | solve [eauto with straight]
    | apply straight_try | apply straight_bind
    | apply straight_for_each | apply straight_map_prog
    | match goal with |- straight (match ?x with _ => _ end) => destruct x end
    | match goal with |- straight (let '_ := ?x in _) => destruct x end ].

Section zoom.
Context {S T : Type} (l : lens S T) `{!LensOk l}.

Lemma zoomM_val {A} (m : GoM T A) s a t :
  m (view l s) = Val (a, t) → zoomM l m s = Val (a, over l t s).
Proof. intros H. unfold zoomM. by rewrite H. Qed.

Lemma run_zoom {A} (p : prog T A) s :
  run (zoom l p) s = zoomM l (run p) s.
Proof.
  revert s. induction p as [A a|A X f h IH|A h IH|A X body IHb h IH];
    intros s; unfold zoomM; simpl; [|  |done|done].
  - by rewrite over_view.
  - unfold zoomM. destruct (f (view l s)) as [[x t]|]; [|done].
    rewrite IH. unfold zoomM. rewrite view_over.
    destruct (run (h x) t) as [[a t']|]; [|done].
    by rewrite over_over.
Qed.

Lemma straight_zoom {A} (p : prog T A) : straight p → straight (zoom l p).
Proof. induction p; simpl; eauto. Qed.

(** [p'] does to the component what [p] does. *)
Inductive zooms : ∀ {A : Type}, prog T A → prog S A → Prop :=
| zooms_ret A (a : A) : zooms (Ret a) (Ret a)
| zooms_atom A X (f : GoM T X) (k : X → prog T A) k' :
    (∀ x, zooms (k x) (k' x)) → zooms (Atom f k) (Atom (zoomM l f) k')
| zooms_select A closed (k : wake → prog T A) k' :
    (∀ w, zooms (k w) (k' w)) → zooms (Select closed k) (Select (λ s, closed (view l s)) k')
| zooms_loop A X (body : prog T (option X)) body' (k : X → prog T A) k' :
    zooms body body' → (∀ x, zooms (k x) (k' x)) → zooms (Loop body k) (Loop body' k').

Lemma zooms_zoom {A} (p : prog T A) : zooms p (zoom l p).
Proof. induction p; simpl; by constructor. Qed.

Lemma zooms_bind {A B} (p : prog T A) p' (k : A → prog T B) k' :
  zooms p p' → (∀ a, zooms (k a) (k' a)) → zooms (p ≫= k) (p' ≫= k').
Proof.
  intros Hp. revert k k'.
  induction Hp as [|A X f h h' Hh IH|A closed h h' Hh IH|A X body body' h h' Hb IHb Hh IH];
    intros k k' Hk; simpl; [done|constructor; intros; try done; by apply IH..].
Qed.

(** A program on a component finishes as it does on the component alone. *)
Lemma exec_zooms {A} n ws (p : prog T A) p' s a t ws' :
  zooms p p' → exec n ws p (view l s) = Finished a t ws' →
  exec n ws p' s = Finished a (over l t s) ws'.
Proof.
  intros Hp. revert A p p' Hp ws s a t ws'. induction n as [|n IH]; [done|].
  intros A p p' Hp ws s a t ws' H.
  destruct Hp as [A a0|A X f k k' Hk|A closed k k' Hk|A X body body' k k' Hb Hk];
    simpl in *.
  - injection H as -> <- ->. by rewrite over_view.
  - unfold zoomM. destruct (f (view l s)) as [[x t0]|]; [|done].
    rewrite <- (over_over t t0 s). apply (IH _ (k x)); [done|]. by rewrite view_over.
  - destruct ws as [|w ws]; [done|].
    destruct (if decide (w = Woken) then closed (view l s) else true); [|done].
    by apply (IH _ (k w)).
  - eapply (IH _ _ _ (zooms_bind _ _ _ _ Hb _)), H. Unshelve.
    intros [x|]; [done|]. by constructor.
Qed.

Lemma exec_zoom {A} n ws (p : prog T A) s a t ws' :
  exec n ws p (view l s) = Finished a t ws' →
  exec n ws (zoom l p) s = Finished a (over l t s) ws'.
Proof. apply exec_zooms, zooms_zoom. Qed.
End zoom.

#[export] Hint Resolve straight_zoom : straight.

(** ** Executions that finish *)

Definition finishes {S A} (ws : list wake) (p : prog S A) (s : S) (a : A) (s' : S)
    (ws' : list wake) : Prop := ∃ n, exec n ws p s = Finished a s' ws'.

Lemma finishes_ret {S A} ws (a : A) (s : S) : finishes ws (Ret a) s a s ws.
Proof. by exists 1. Qed.

(** A sequential run finishes; it does not wait, so any wakes are left. *)
Lemma finishes_run {S A} ws (p : prog S A) s a s' :
  run p s = Val (a, s') → finishes ws p s a s' ws.
Proof.
  revert s. induction p as [A a0|A X f k IH|A c k IH|A X body IHb k IH];
    intros s H; simpl in H; [|  |done|done].
  - injection H as -> ->. apply finishes_ret.
  - destruct (f s) as [[x s1]|] eqn:Hf; [|done]. destruct (IH x a s1 H) as [n Hn].
    exists (Datatypes.S n). simpl. by rewrite Hf.
Qed.

Lemma finishes_bind {S A B} ws (p : prog S A) (k : A → prog S B) s a s1 ws1 b s2 ws2 :
  finishes ws p s a s1 ws1 → finishes ws1 (k a) s1 b s2 ws2 →
  finishes ws (p ≫= k) s b s2 ws2.
Proof.
  intros [n Hn] [m Hm]. destruct (exec_bind_exec n ws p k s a s1 ws1 Hn) as [j Hj].
  exists (j + m). by rewrite Hj.
Qed.

Lemma finishes_zoom {S T A} (l : lens S T) `{!LensOk l} ws (p : prog T A) s a t ws' :
  finishes ws p (view l s) a t ws' → finishes ws (zoom l p) s a (over l t s) ws'.
Proof. intros [n Hn]. exists n. by apply exec_zoom. Qed.

Lemma finishes_det {S A} ws (p : prog S A) s a s1 ws1 b s2 ws2 :
  finishes ws p s a s1 ws1 → finishes ws p s b s2 ws2 → a = b ∧ s1 = s2 ∧ ws1 = ws2.
Proof.
  intros [n Hn] [m Hm].
  assert (exec (n + m) ws p s = Finished a s1 ws1) as H1
    by (rewrite (exec_more_fuel n) by (done || lia || by rewrite Hn); done).
  assert (exec (n + m) ws p s = Finished b s2 ws2) as H2
    by (rewrite (exec_more_fuel m) by (done || lia || by rewrite Hm); done).
  rewrite H1 in H2. by injection H2 as -> -> ->.
Qed.

(** ** Rely and guarantee

    The specification logic of one goroutine among others.  [I] is an invariant
    of the shared state, [R] what the other goroutines may do to it, [G] what
    this one may do.  [wpc p Q s]: started now, in [s], whatever the others do
    within [R] before each of its steps, [p] never panics, preserves [I], moves
    only along [G], and returns in a state that satisfies [Q]. *)

Section rely_guarantee.
Context {S : Type} (I : S → Prop) (R G : S → S → Prop).

Fixpoint wpc {A} (p : prog S A) (Q : A → S → Prop) (s : S) : Prop :=
  match p with
  | Ret a => Q a s
  | Atom f k =>
      ∀ s1, R s s1 → I s1 →
      ∃ x s2, f s1 = Val (x, s2) ∧ I s2 ∧ G s1 s2 ∧ wpc (k x) Q s2
  | Select closed k =>
      ∀ w s1, R s s1 → I s1 → (w = Woken → closed s1 = true) → wpc (k w) Q s1
  | Loop body k =>
      ∃ J : S → Prop, J s ∧
      ∀ s1, J s1 →
        wpc body (λ r s2, match r with
                          | Some x => wpc (k x) Q s2
                          | None => J s2
                          end) s1
  end.

Lemma wpc_mono {A} (p : prog S A) (Q Q' : A → S → Prop) s :
  (∀ a s, Q a s → Q' a s) → wpc p Q s → wpc p Q' s.
Proof.
  revert Q Q' s.
  induction p as [A a|A X f h IH|A c h IH|A X body IHb h IH];
    intros Q Q' s HQ; simpl; [by auto| | |].
  - intros H s1 HR HI. destruct (H s1 HR HI) as (x & s2 & ? & ? & ? & ?).
    exists x, s2. split_and!; eauto.
  - intros H w s1 HR HI Hw. eauto.
  - intros (J & HJ & Hb). exists J. split; [done|]. intros s1 HJ1.
    eapply IHb; [|by apply Hb]. intros [x|] s2 H2; eauto.
Qed.

Lemma wpc_bind {A B} (p : prog S A) (k : A → prog S B) Q s :
  wpc p (λ a s', wpc (k a) Q s') s → wpc (p ≫= k) Q s.
Proof.
  revert k Q s.
  induction p as [A a|A X f h IH|A c h IH|A X body IHb h IH];
    intros k' Q s; simpl; [by auto| | |].
  - intros H s1 HR HI. destruct (H s1 HR HI) as (x & s2 & ? & ? & ? & ?).
    exists x, s2. split_and!; [done..|]. by apply IH.
  - intros H w s1 HR HI Hw. apply IH. eauto.
  - intros (J & HJ & Hb). exists J. split; [done|]. intros s1 HJ1.
    eapply wpc_mono; [|by apply Hb]. intros [x|] s2 H2; [|done].
    by apply IH.
Qed.

Lemma wpc_try {A B} (p : prog S (result A)) (k : A → prog S (result B)) Q s :
  wpc p (λ r s', match r with
                 | Ok a => wpc (k a) Q s'
                 | Err e => Q (Err e) s'
                 end) s → wpc (try p k) Q s.
Proof.
  intros H. apply wpc_bind. eapply wpc_mono; [|done].
  by intros [a|e] s' H'.
Qed.

Lemma wpc_for_each {A} (J : S → Prop) (P : A → Prop) (l : list A) body
    (Q : result unit → S → Prop) s :
  Forall P l → J s →
  (∀ x s, P x → J s →
     wpc (body x) (λ r s', match r with Ok _ => J s' | Err e => Q (Err e) s' end) s) →
  (∀ s, J s → Q (Ok tt) s) →
  wpc (for_each l body) Q s.
Proof.
  intros Hl HJ Hbody HQ. revert s HJ.
  induction Hl as [|x l Hx _ IH]; intros s HJ; simpl; [by auto|].
  apply wpc_try. eapply wpc_mono; [|by apply Hbody].
  intros [[]|e] s' H; [by apply IH|done].
Qed.

(** A straight-line goroutine that happens to run alone. *)
Lemma wpc_run `{!Reflexive R} {A} (p : prog S A) (Q : A → S → Prop) s :
  straight p → I s → wpc p Q s →
  ∃ a s', run p s = Val (a, s') ∧ I s' ∧ Q a s'.
Proof.
  revert Q s. induction p as [A a|A X f h IH|A c h IH|A X body IHb h IH];
    intros Q s Hp HI H; simpl in *; [by eauto| |done|done].
  destruct (H s) as (x & s2 & Hf & HI2 & _ & Hk); [reflexivity|done|].
  rewrite Hf. by apply (IH x Q s2).
Qed.
End rely_guarantee.

(** A specification for one component lifts to a larger state. *)
Section lift.
Context {S T : Type} (l : lens S T) `{!LensOk l}.
Context (I : T → Prop) (R G : T → T → Prop).
Context (I' : S → Prop) (R' G' : S → S → Prop).
Context (HI : ∀ s, I' s → I (view l s)).
Context (HR : ∀ s s', R' s s' → R (view l s) (view l s')).
Context (HG : ∀ s t, I' s → I t → G (view l s) t →
                I' (over l t s) ∧ G' s (over l t s)).

Lemma wpc_zoom {A} (p : prog T A) Q s :
  wpc I R G p Q (view l s) →
  wpc I' R' G' (zoom l p) (λ a s', Q a (view l s')) s.
Proof.
  revert Q s. induction p as [A a|A X f h IH|A c h IH|A X body IHb h IH];
    intros Q s H; simpl in *; [done| | |].
  - intros s1 HR1 HI1.
    destruct (H (view l s1) (HR _ _ HR1) (HI _ HI1)) as (x & t & Hf & HIt & HGt & Hk).
    destruct (HG s1 t HI1 HIt HGt) as [HI2 HG2].
    exists x, (over l t s1). unfold zoomM. rewrite Hf. split_and!; [done..|].
    apply IH. by rewrite view_over.
  - intros w s1 HR1 HI1 Hw. apply IH, H; auto.
  - destruct H as (J & HJ & Hb). exists (λ s, J (view l s)). split; [done|].
    intros s1 HJ1. eapply wpc_mono; [|by apply IHb, Hb].
    intros [x|] s2 H2; [|done]. by apply IH.
Qed.
End lift.

(** Specifications when every goroutine, this one included, moves the state
    along one preorder: what is learnt about the state is kept. *)
Section monotone.
Context {S : Type} (I : S → Prop) (R : S → S → Prop) `{!PreOrder R}.

Definition spec {A} (p : prog S A) (s : S) (Q : A → S → Prop) : Prop :=
  wpc I R R p (λ a s', R s s' ∧ Q a s') s.

Lemma spec_ret {A} (a : A) s (Q : A → S → Prop) : Q a s → spec (Ret a) s Q.
Proof. intros H. split; [reflexivity|done]. Qed.

Lemma spec_mono {A} (p : prog S A) s (Q Q' : A → S → Prop) :
  spec p s Q → (∀ a s', R s s' → Q a s' → Q' a s') → spec p s Q'.
Proof.
  intros H HQ. eapply wpc_mono; [|done]. intros a s' [HR Ha]. auto.
Qed.

Lemma spec_bind {A B} (p : prog S A) (k : A → prog S B) s P Q :
  spec p s P → (∀ a s', R s s' → P a s' → spec (k a) s' Q) → spec (p ≫= k) s Q.
Proof.
  intros Hp Hk. apply wpc_bind. eapply wpc_mono; [|done]. intros a s' [HR HP].
  eapply wpc_mono; [|by apply Hk]. intros b s2 [HR2 HQ]. split; [by etrans|done].
Qed.

Lemma spec_try {A B} (p : prog S (result A)) (k : A → prog S (result B)) s P Q :
  spec p s P →
  (∀ a s', R s s' → P (Ok a) s' → spec (k a) s' Q) →
  (∀ e s', R s s' → P (Err e) s' → Q (Err e) s') →
  spec (try p k) s Q.
Proof.
  intros Hp Hk He. eapply spec_bind; [done|]. intros [a|e] s' HR HP; [by apply Hk|].
  apply spec_ret. by apply He.
Qed.

Lemma spec_atomic {A} (f : GoM S A) s Q :
  (∀ s1, R s s1 → I s1 →
     ∃ a s2, f s1 = Val (a, s2) ∧ I s2 ∧ R s1 s2 ∧ Q a s2) →
  spec (atomic f) s Q.
Proof.
  intros H s1 HR1 HI1. destruct (H s1 HR1 HI1) as (a & s2 & ? & ? & HR2 & ?).
  exists a, s2. split_and!; [done..|]. split; [by etrans|done].
Qed.

Lemma spec_for_each {A} (P : A → S → Prop) (l : list A) body s Q :
  (∀ x s s', R s s' → P x s → P x s') →
  Forall (λ x, P x s) l →
  (∀ x s, P x s → spec (body x) s (λ r s', match r with Ok _ => True | Err e => Q (Err e) s' end)) →
  (∀ s', Q (Ok tt) s') →
  spec (for_each l body) s Q.
Proof.
  intros HP Hl Hbody HQ. revert s Hl.
  induction l as [|x l IH]; intros s Hl; simpl; [by apply spec_ret|].
  apply Forall_cons in Hl as [Hx Hl].
  eapply spec_try; [by apply Hbody| |done]. intros [] s' HR _.
  apply IH. eapply Forall_impl; [done|]. intros y Hy. simpl in Hy. eauto.
Qed.

Lemma spec_select {A} (closed : S → bool) (k : wake → prog S A) s Q :
  (∀ w s1, R s s1 → I s1 → spec (k w) s1 Q) → spec (Select closed k) s Q.
Proof.
  intros H w s1 HR HI _. eapply wpc_mono; [|by apply H].
  intros a s' [HR2 HQ]. split; [by etrans|done].
Qed.

Lemma spec_loop {A X} (body : prog S (option X)) (k : X → prog S A) s Q :
  (∀ s1, R s s1 →
     spec body s1 (λ r s2, match r with Some x => spec (k x) s2 Q | None => True end)) →
  spec (Loop body k) s Q.
Proof.
  intros H. exists (R s). split; [reflexivity|]. intros s1 HR1.
  eapply wpc_mono; [|by apply H]. intros [x|] s2 [HR2 Hx]; [|by etrans].
  eapply wpc_mono; [|done]. intros a s3 [HR3 HQ]. split; [|done].
  etrans; [|done]. by etrans.
Qed.

(** The end is always above the start. *)
Lemma wpc_track {A} (p : prog S A) (Q : A → S → Prop) s0 s :
  R s0 s → wpc I R R p Q s → wpc I R R p (λ a s', R s0 s' ∧ Q a s') s.
Proof.
  revert Q s. induction p as [A a|A X f h IH|A c h IH|A X body IHb h IH];
    intros Q s HR0 H; simpl in *; [done| | |].
  - intros s1 HR HI. destruct (H s1 HR HI) as (x & s2 & ? & ? & ? & ?).
    exists x, s2. split_and!; [done..|]. apply IH; [|done].
    etrans; [done|]. by etrans.
  - intros w s1 HR HI Hw. apply IH; [by etrans|]. by apply H.
  - destruct H as (J & HJ & Hb). exists (λ s', R s0 s' ∧ J s').
    split; [done|]. intros s1 [HR1 HJ1].
    eapply wpc_mono; [|exact (IHb _ s1 HR1 (Hb s1 HJ1))].
    intros [x|] s2 [HR2 H2]; [by apply IH|done].
Qed.

Lemma spec_wpc {A} (p : prog S A) s Q : wpc I R R p Q s → spec p s Q.
Proof. intros H. by apply wpc_track. Qed.
End monotone.

(** ** A pool of goroutines *)

Record goroutine (S : Type) : Type := Goroutine {
  g_result : Type;
  g_prog : prog S g_result;
}.
Arguments Goroutine {S g_result} g_prog.
Arguments g_prog {S} g.

Inductive config (S : Type) : Type :=
| Running (s : S) (ts : list (goroutine S))
| Crashed.
Arguments Running {S} s ts.
Arguments Crashed {S}.

(** One scheduling step: goroutine [i] takes the step [c]. *)
Inductive pool_step {S} : config S → config S → Prop :=
| PoolStep s ts i g c p' s' :
    ts !! i = Some g →
    step c (g_prog g) s = Some (Val (p', s')) →
    pool_step (Running s ts) (Running s' (<[i := Goroutine p']> ts))
| PoolCrash s ts i g c :
    ts !! i = Some g →
    step c (g_prog g) s = Some Panic →
    pool_step (Running s ts) Crashed.

(** A schedule, as a function: goroutine and choice for each step. *)
Fixpoint run_schedule {S} (sched : list (nat * choice)) (c : config S) :
    option (config S) :=
  match sched, c with
  | [], _ => Some c
  | (i, ch) :: sched, Running s ts =>
      g ← ts !! i;
      o ← step ch (g_prog g) s;
      match o with
      | Val (p', s') => run_schedule sched (Running s' (<[i := Goroutine p']> ts))
      | Panic => run_schedule sched Crashed
      end
  | _ :: _, Crashed => None
  end.

Lemma run_schedule_steps {S} sched (c c' : config S) :
  run_schedule sched c = Some c' → rtc pool_step c c'.
Proof.
  revert c. induction sched as [|[i ch] sched IH]; intros c H; simpl in *.
  { simplify_eq. apply rtc_refl. }
  destruct c as [s ts|]; [|done].
  destruct (ts !! i) as [g|] eqn:Hi; simpl in H; [|done].
  destruct (step ch (g_prog g) s) as [[[p' s']|]|] eqn:Hs; simpl in H; [| |done].
  - eapply rtc_l; [by eapply PoolStep|]. by apply IH.
  - eapply rtc_l; [by eapply PoolCrash|]. by apply IH.
Qed.

(** The proof rule for every interleaving: if each goroutine meets its
    rely-guarantee specification and each goroutine's guarantee is within the
    others' rely, then no reachable configuration has crashed and the invariant
    holds in all of them. *)
Section pool.
Context {S : Type} (I : S → Prop) (R G : nat → S → S → Prop).
Context `{HR : !∀ i, PreOrder (R i)}.
Context (HGR : ∀ i j s s', i ≠ j → G i s s' → R j s s').

Definition thread_ok (i : nat) (g : goroutine S) (s : S) : Prop :=
  ∃ s0, R i s0 s ∧ wpc I (R i) (G i) (g_prog g) (λ _ _, True) s0.

Definition pool_ok (c : config S) : Prop :=
  match c with
  | Running s ts => I s ∧ ∀ i g, ts !! i = Some g → thread_ok i g s
  | Crashed => False
  end.

Lemma thread_step i c {A} (p : prog S A) s0 s o :
  I s → R i s0 s → wpc I (R i) (G i) p (λ _ _, True) s0 →
  step c p s = Some o →
  ∃ p' s', o = Val (p', s') ∧ I s' ∧ (s' = s ∨ G i s s') ∧
    thread_ok i (Goroutine p') s'.
Proof.
  intros HI HRs Hp Hstep.
  destruct p as [a|X f k|closed k|X body k], c as [|w]; simpl in *; try done.
  - destruct (Hp s HRs HI) as (x & s2 & Hf & HI2 & HG & Hk).
    rewrite Hf in Hstep. simplify_eq. exists (k x), s2. split_and!; auto.
    exists s2. by split.
  - destruct (if decide (w = Woken) then closed s else true) eqn:Hw; [|done].
    simplify_eq. exists (k w), s. split_and!; auto. exists s. split; [done|].
    apply Hp; auto. intros ->. by rewrite decide_True in Hw.
  - simplify_eq. eexists _, s. split_and!; [done|done|by left|].
    exists s0. split; [done|]. simpl. apply wpc_bind.
    destruct Hp as (J & HJ & Hb). eapply wpc_mono; [|by apply Hb].
    intros [x|] s2 H2; [done|]. by exists J.
Qed.

Lemma pool_step_ok c c' : pool_step c c' → pool_ok c → pool_ok c'.
Proof.
  intros Hstep. destruct Hstep as [s ts i g c p' s' Hi Hs|s ts i g c Hi Hs];
    intros [HI Hts]; destruct (Hts i g Hi) as (s0 & HRs & Hp);
    destruct (thread_step i c _ s0 s _ HI HRs Hp Hs)
      as (p1 & s1 & Ho & HI1 & HG & Hok); simplify_eq.
  split; [done|]. intros j g' [[<- [<- _]]|[Hne Hj]]%list_lookup_insert_Some;
    [done|].
  destruct (Hts j g' Hj) as (sj & HRj & Hpj). exists sj. split; [|done].
  destruct HG as [->|HG]; [done|]. transitivity s; [done|].
  by eapply HGR.
Qed.

Theorem pool_safe c c' : rtc pool_step c c' → pool_ok c → pool_ok c'.
Proof. induction 1; eauto using pool_step_ok. Qed.
End pool.
