(* ===== verification/Regexp.v ===== *)
(** * The regular expressions of the routing code

    Go's [regexp] package, as far as the broker uses it: patterns built from
    character classes, concatenation, alternation, [*] and [+], anchored by [^]
    and [$] at both ends, and matched against a byte slice.  [re_match] is an
    executable matcher (derivatives); [matches] is the usual meaning of a
    pattern; [re_match_spec] says that they agree. *)

From S2P Require Import Prelude.
From Stdlib Require Import Ascii.

(** A character class is a list of inclusive ranges. *)
Definition class : Type := list (ascii * ascii).

Definition in_class (cl : class) (c : ascii) : bool :=
  existsb (λ '(lo, hi), (N_of_ascii lo <=? N_of_ascii c)%N
                        && (N_of_ascii c <=? N_of_ascii hi)%N) cl.

Inductive re : Type :=
| Void
| Eps
| Cls (cl : class)
| Cat (r1 r2 : re)
| Alt (r1 r2 : re)
| Star (r : re).

(** [r+] *)
Definition Plus (r : re) : re := Cat r (Star r).

(** A literal character. *)
Definition Chr (c : ascii) : re := Cls [(c, c)].

Inductive matches : re → string → Prop :=
| MEps : matches Eps ""
| MCls cl c : in_class cl c = true → matches (Cls cl) (String c "")
| MCat r1 r2 s1 s2 :
    matches r1 s1 → matches r2 s2 → matches (Cat r1 r2) (s1 +:+ s2)
| MAltL r1 r2 s : matches r1 s → matches (Alt r1 r2) s
| MAltR r1 r2 s : matches r2 s → matches (Alt r1 r2) s
| MStar0 r : matches (Star r) ""
| MStarS r s1 s2 :
    matches r s1 → matches (Star r) s2 → matches (Star r) (s1 +:+ s2).

#[export] Hint Constructors matches : broker.

Fixpoint nullable (r : re) : bool :=
  match r with
  | Void | Cls _ => false
  | Eps | Star _ => true
  | Cat r1 r2 => nullable r1 && nullable r2
  | Alt r1 r2 => nullable r1 || nullable r2
  end.

Fixpoint deriv (c : ascii) (r : re) : re :=
  match r with
  | Void | Eps => Void
  | Cls cl => if in_class cl c then Eps else Void
  | Cat r1 r2 =>
      if nullable r1 then Alt (Cat (deriv c r1) r2) (deriv c r2)
      else Cat (deriv c r1) r2
  | Alt r1 r2 => Alt (deriv c r1) (deriv c r2)
  | Star r => Cat (deriv c r) (Star r)
  end.

Fixpoint re_match (r : re) (s : string) : bool :=
  match s with
  | EmptyString => nullable r
  | String c s => re_match (deriv c r) s
  end.

(** ** Correctness of the matcher *)

Lemma app_empty_inv (s1 s2 : string) : s1 +:+ s2 = "" → s1 = "" ∧ s2 = "".
Proof. by destruct s1. Qed.

Lemma app_cons_inv (s1 s2 : string) c s :
  s1 +:+ s2 = String c s →
  (s1 = "" ∧ s2 = String c s) ∨ (∃ s1', s1 = String c s1' ∧ s = s1' +:+ s2).
Proof.
  destruct s1 as [|c' s1]; intros H; [by left|right].
  injection H as -> <-. by exists s1.
Qed.

Lemma nullable_spec r : nullable r = true ↔ matches r "".
Proof.
  split.
  - induction r; simpl; intros H; try done; auto with broker.
    + apply andb_true_iff in H as [H1 H2].
      apply (MCat _ _ "" ""); auto.
    + apply orb_true_iff in H as [H|H]; auto with broker.
  - remember "" as s eqn:Hs. intros H. revert Hs.
    induction H; intros Hs; simpl in *; try done.
    + destruct (app_empty_inv _ _ Hs) as [-> ->].
      by rewrite IHmatches1, IHmatches2.
    + by rewrite IHmatches.
    + rewrite IHmatches by done. apply orb_true_r.
Qed.

Lemma deriv_sound c r s : matches (deriv c r) s → matches r (String c s).
Proof.
  revert s. induction r as [| |cl|r1 IH1 r2 IH2|r1 IH1 r2 IH2|r IH];
    intros s H; simpl in *.
  - inv H.
  - inv H.
  - destruct (in_class cl c) eqn:Hc; inv H. by constructor.
  - assert (∀ s, matches (Cat (deriv c r1) r2) s → matches (Cat r1 r2) (String c s))
      as Hcat.
    { intros s' H'. inv H'. apply (MCat _ _ (String c s1) s2); auto. }
    destruct (nullable r1) eqn:Hn; [|by auto].
    inv H; [by auto|]. apply (MCat _ _ "" (String c s)); [|by auto].
    by apply nullable_spec.
  - inv H; auto with broker.
  - inv H. apply (MStarS _ (String c s1) s2); auto.
Qed.

Lemma deriv_complete c r s : matches r (String c s) → matches (deriv c r) s.
Proof.
  remember (String c s) as cs eqn:Hcs. intros H. revert s Hcs.
  induction H as [|cl c' Hc|r1 r2 s1 s2 H1 IH1 H2 IH2|r1 r2 s1 H IH
    |r1 r2 s1 H IH|r|r s1 s2 H1 IH1 H2 IH2]; intros s Hcs; simpl; simplify_eq.
  - rewrite Hc. constructor.
  - destruct (app_cons_inv _ _ _ _ Hcs) as [[-> ->]|(s1' & -> & ->)].
    + assert (nullable r1 = true) as -> by by apply nullable_spec.
      apply MAltR. by apply IH2.
    + assert (matches (Cat (deriv c r1) r2) (s1' +:+ s2)) by (constructor; auto).
      destruct (nullable r1); [by apply MAltL|done].
  - apply MAltL. auto.
  - apply MAltR. auto.
  - destruct (app_cons_inv _ _ _ _ Hcs) as [[-> ->]|(s1' & -> & ->)]; [by auto|].
    constructor; auto.
Qed.

Lemma re_match_spec r s : re_match r s = true ↔ matches r s.
Proof.
  revert r. induction s as [|c s IH]; intros r; simpl.
  - apply nullable_spec.
  - rewrite IH. split; [apply deriv_sound|apply deriv_complete].
Qed.

(** ** Inversion lemmas *)

Lemma matches_Cls cl s :
  matches (Cls cl) s ↔ ∃ c, s = String c "" ∧ in_class cl c = true.
Proof. split; [intros H; inv H; eauto|intros (c & -> & ?); by constructor]. Qed.

Lemma matches_Cat r1 r2 s :
  matches (Cat r1 r2) s ↔ ∃ s1 s2, s = s1 +:+ s2 ∧ matches r1 s1 ∧ matches r2 s2.
Proof.
  split; [intros H; inv H; eauto 6|intros (? & ? & -> & ? & ?); by constructor].
Qed.

Lemma matches_Alt r1 r2 s : matches (Alt r1 r2) s ↔ matches r1 s ∨ matches r2 s.
Proof. split; [intros H; inv H; auto|intros [?|?]; auto with broker]. Qed.

(** Every character of a string is in the class. *)
Fixpoint all_chars (p : ascii → bool) (s : string) : bool :=
  match s with
  | EmptyString => true
  | String c s => p c && all_chars p s
  end.

Lemma matches_Star_Cls cl s :
  matches (Star (Cls cl)) s ↔ all_chars (in_class cl) s = true.
Proof.
  split.
  - remember (Star (Cls cl)) as r eqn:Hr. intros H. revert Hr.
    induction H as [| | | | |r|r s1 s2 H1 _ H2 IH2]; intros Hr; simplify_eq;
      [done|].
    apply matches_Cls in H1 as (c & -> & Hc). simpl.
    rewrite Hc. by apply IH2.
  - induction s as [|c s IH]; simpl; intros H; [constructor|].
    apply andb_true_iff in H as [Hc Hs].
    apply (MStarS _ (String c "") s); [by constructor|by apply IH].
Qed.

Lemma matches_Plus_Cls cl s :
  matches (Plus (Cls cl)) s ↔ s ≠ "" ∧ all_chars (in_class cl) s = true.
Proof.
  unfold Plus. rewrite matches_Cat. split.
  - intros (s1 & s2 & -> & (c & -> & Hc)%matches_Cls & H2).
    apply matches_Star_Cls in H2. simpl. by rewrite Hc.
  - destruct s as [|c s]; intros [Hne Hs]; [done|].
    simpl in Hs. apply andb_true_iff in Hs as [Hc Hs].
    exists (String c ""), s. split_and!; [done|by constructor|].
    by apply matches_Star_Cls.
Qed.

Lemma in_class_chr d c : in_class [(d, d)] c = true ↔ c = d.
Proof.
  unfold in_class; cbn -[N_of_ascii N.leb].
  rewrite orb_false_r, andb_true_iff, !N.leb_le. split; [|intros ->; lia].
  intros [??]. rewrite <- (ascii_N_embedding c), <- (ascii_N_embedding d).
  f_equal. lia.
Qed.

Lemma matches_Chr d s : matches (Chr d) s ↔ s = String d "".
Proof.
  unfold Chr. rewrite matches_Cls. split.
  - by intros (c & -> & ->%in_class_chr).
  - intros ->. exists d. by rewrite in_class_chr.
Qed.
