(* ===== verification/Routing.v ===== *)
(** * Routing keys, routing filters and messages

    [internal/core/routing_key.go], [internal/core/routing_filter.go] and
    [internal/core/message.go].  A key or a filter is a Go string; its tokens
    are the pieces between the dots. *)

From S2P Require Import Prelude Regexp.
From Stdlib Require Import Ascii.

Definition RoutingKey : Type := string.
Definition RoutingFilter : Type := string.

#[export] Instance byte_eq_dec : EqDecision Byte.byte := Byte.byte_eq_dec.

Record Message : Type := mkMessage {
  msg_Payload : list Byte.byte;
  msg_RoutingKey : RoutingKey;
}.

#[export] Instance Message_eq_dec : EqDecision Message.
Proof. solve_decision. Defined.

(** ** [strings.Split(s, ".")] *)

Definition dot : ascii := ".".
Definition star : string := "*".

Fixpoint Split (s : string) : list string :=
  match s with
  | EmptyString => [""]
  | String c s =>
      if decide (c = dot) then "" :: Split s
      else match Split s with
           | t :: ts => String c t :: ts
           | [] => [String c ""]
           end
  end.

(** ** Keys and filters *)

Definition word_class : class :=
  [("a", "z"); ("A", "Z"); ("0", "9"); ("_", "_"); ("-", "-")]%char.

(** A token pattern repeated with dots in between. *)
Definition dotted (token : re) : re := Cat token (Star (Cat (Chr dot) token)).

(** The pattern of [regexKey]: words of the class, separated by dots, anchored
    at both ends. *)
Definition regexKey : re := dotted (Plus (Cls word_class)).

(** The pattern of [regexFilter]: words of the class or single stars, separated
    by dots, anchored at both ends. *)
Definition regexFilter : re := dotted (Alt (Plus (Cls word_class)) (Chr "*")).

Module RoutingKey.
Definition IsValid (r : RoutingKey) : bool := re_match regexKey r.
End RoutingKey.

Module RoutingFilter.
Definition IsValid (r : RoutingFilter) : bool := re_match regexFilter r.

(** The loop of [Match]; the two slices have the same length there. *)
Fixpoint match_tokens (splitFilter splitKey : list string) : bool :=
  match splitFilter, splitKey with
  | v :: fs, k :: ks =>
      if decide (v = star) then match_tokens fs ks
      else if decide (v ≠ k) then false
      else match_tokens fs ks
  | _, _ => true
  end.

Definition Match (r : RoutingFilter) (key : RoutingKey) : bool :=
  let splitFilter := Split r in
  let splitKey := Split key in
  if decide (length splitFilter ≠ length splitKey) then false
  else match_tokens splitFilter splitKey.
End RoutingFilter.

(** ** Splitting and joining *)

Definition no_dot (s : string) : bool := all_chars (λ c, bool_decide (c ≠ dot)) s.

(** [strings.Join(ts, ".")] *)
Fixpoint Join (ts : list string) : string :=
  match ts with
  | [] => ""
  | [t] => t
  | t :: ts => t +:+ String dot (Join ts)
  end.

Lemma Split_nonempty s : Split s ≠ [].
Proof.
  destruct s as [|c s]; simpl; [done|]. case_decide; [done|]. by destruct (Split s).
Qed.

Lemma Split_no_dot s : no_dot s = true → Split s = [s].
Proof.
  unfold no_dot. induction s as [|c s IH]; simpl; [done|].
  intros [Hc Hs]%andb_true_iff. apply bool_decide_eq_true in Hc.
  rewrite decide_False by done. by rewrite IH.
Qed.

Lemma Split_app_dot t u : no_dot t = true → Split (t +:+ String dot u) = t :: Split u.
Proof.
  unfold no_dot. induction t as [|c t IH]; simpl; [done|].
  intros [Hc Ht]%andb_true_iff. apply bool_decide_eq_true in Hc.
  rewrite decide_False by done. by rewrite IH.
Qed.

Lemma Split_cases s :
  (no_dot s = true ∧ Split s = [s]) ∨
  (∃ t u, s = t +:+ String dot u ∧ no_dot t = true ∧ Split s = t :: Split u
          ∧ String.length u < String.length s).
Proof.
  induction s as [|c s IH]; [by left|].
  destruct (decide (c = dot)) as [->|Hc].
  { right. exists "", s. split_and!; [done..|simpl; lia]. }
  destruct IH as [[Hs _]|(t & u & -> & Ht & _ & Hlt)].
  - left. assert (no_dot (String c s) = true) as H.
    { unfold no_dot in *. simpl. rewrite Hs. by rewrite bool_decide_true. }
    split; [done|by apply Split_no_dot].
  - right. exists (String c t), u.
    assert (no_dot (String c t) = true) as H.
    { unfold no_dot in *. simpl. rewrite Ht. by rewrite bool_decide_true. }
    split_and!; [done|done| |simpl in *; lia].
    by rewrite <- (Split_app_dot (String c t)).
Qed.

Lemma Split_ind (P : string → Prop) :
  (∀ s, no_dot s = true → Split s = [s] → P s) →
  (∀ t u, no_dot t = true → Split (t +:+ String dot u) = t :: Split u → P u →
     P (t +:+ String dot u)) →
  ∀ s, P s.
Proof.
  intros H1 H2 s. remember (String.length s) as n eqn:Hn. revert s Hn.
  induction (lt_wf n) as [n _ IH]. intros s ->.
  destruct (Split_cases s) as [[Hs He]|(t & u & -> & Ht & He & Hlt)]; [by auto|].
  apply H2; [done|done|]. by eapply IH.
Qed.

Lemma Join_Split s : Join (Split s) = s.
Proof.
  induction s as [s _ ->|t u _ -> IH] using Split_ind; [done|]. simpl.
  pose proof (Split_nonempty u). destruct (Split u); [done|]. by rewrite IH.
Qed.

#[export] Instance Split_inj : Inj (=) (=) Split.
Proof. intros s1 s2 H. by rewrite <- (Join_Split s1), <- (Join_Split s2), H. Qed.

Lemma Split_no_dots s : Forall (λ t, no_dot t = true) (Split s).
Proof.
  induction s as [s Hs ->|t u Ht -> IH] using Split_ind; auto.
Qed.

(** ** What the patterns accept *)

(** A dotted pattern accepts a string when its token pattern accepts every
    token, provided the token pattern accepts no dot. *)
Lemma matches_dotted token s :
  (∀ t, matches token t → no_dot t = true) →
  matches (dotted token) s ↔ Forall (matches token) (Split s).
Proof.
  intros Hdot. unfold dotted. rewrite matches_Cat. split.
  - intros (s1 & s2 & -> & H1 & H2). revert s1 H1.
    remember (Star (Cat (Chr dot) token)) as r eqn:Hr. revert Hr.
    induction H2 as [| | | | |r|r s2 s3 H2 _ H3 IH]; intros Hr t Ht; simplify_eq.
    + rewrite string_app_nil_r. rewrite Split_no_dot by auto.
      by constructor.
    + apply matches_Cat in H2 as (d & t' & -> & Hd & Ht').
      apply matches_Chr in Hd as ->.
      change (Forall (matches token) (Split (t +:+ String dot (t' +:+ s3)))).
      rewrite Split_app_dot by auto. constructor; [done|]. by apply IH.
  - induction s as [s Hs ->|t u Ht -> IH] using Split_ind.
    + intros H. inv H. exists s, "". split_and!; [|done|constructor].
      by rewrite string_app_nil_r.
    + intros H. inv H. destruct IH as (s1 & s2 & -> & Hs1 & Hs2); [done|].
      exists t, (String dot s1 +:+ s2). split_and!; [done|done|].
      constructor; [|done].
      apply (MCat _ _ (String dot "") s1); [|done]. by apply matches_Chr.
Qed.

Definition word (t : string) : bool :=
  bool_decide (t ≠ "") && all_chars (in_class word_class) t.

Lemma word_spec t : matches (Plus (Cls word_class)) t ↔ word t = true.
Proof.
  rewrite matches_Plus_Cls. unfold word. rewrite andb_true_iff, bool_decide_eq_true.
  done.
Qed.

Lemma all_chars_impl (p q : ascii → bool) s :
  (∀ c, p c = true → q c = true) → all_chars p s = true → all_chars q s = true.
Proof.
  intros Hpq. induction s as [|c s IH]; simpl; [done|].
  rewrite !andb_true_iff. intros [Hc Hs]. auto.
Qed.

Lemma word_no_dot t : word t = true → no_dot t = true.
Proof.
  unfold word. intros [_ H]%andb_true_iff. revert H. apply all_chars_impl.
  intros c Hc. apply bool_decide_eq_true. intros ->. done.
Qed.

(** Being valid, token by token. *)
Lemma key_valid_tokens k :
  RoutingKey.IsValid k = true ↔ Forall (λ t, word t = true) (Split k).
Proof.
  unfold RoutingKey.IsValid, regexKey. rewrite re_match_spec, matches_dotted.
  - apply Forall_proper; [|done]. intros t. apply word_spec.
  - intros t. rewrite word_spec. apply word_no_dot.
Qed.

Lemma filter_valid_tokens f :
  RoutingFilter.IsValid f = true ↔
  Forall (λ t, t = star ∨ word t = true) (Split f).
Proof.
  unfold RoutingFilter.IsValid, regexFilter. rewrite re_match_spec, matches_dotted.
  - apply Forall_proper; [|done]. intros t.
    rewrite matches_Alt, word_spec, matches_Chr. tauto.
  - intros t. rewrite matches_Alt, word_spec, matches_Chr.
    intros [?| ->]; [by apply word_no_dot|done].
Qed.

(** ** What a filter matches *)

(** A filter token matches exactly one key token: a star matches any token, any
    other token matches itself. *)
Definition token_matches (f k : string) : Prop := f = star ∨ f = k.

Lemma match_tokens_spec fs ks :
  length fs = length ks →
  RoutingFilter.match_tokens fs ks = true ↔ Forall2 token_matches fs ks.
Proof.
  revert ks. induction fs as [|f fs IH]; intros [|k ks] Hlen; simplify_eq/=.
  { split; [constructor|done]. }
  unfold token_matches in *. rewrite Forall2_cons. repeat case_decide; simplify_eq.
  - rewrite IH by done. split; [auto|by intros [_ ?]].
  - split; [done|]. by intros [[?|?] _].
  - rewrite IH by done. split; [auto|by intros [_ ?]].
Qed.

Lemma Match_tokens r k :
  RoutingFilter.Match r k = true ↔ Forall2 token_matches (Split r) (Split k).
Proof.
  unfold RoutingFilter.Match. case_decide as Hlen.
  - split; [done|]. intros H%Forall2_length. done.
  - apply match_tokens_spec. lia.
Qed.

(** ** Properties *)

Lemma Split_Join ts :
  ts ≠ [] → Forall (λ t, no_dot t = true) ts → Split (Join ts) = ts.
Proof.
  intros Hne Hts. induction Hts as [|t ts Ht Hts IH]; [done|].
  destruct ts as [|t' ts]; [by apply Split_no_dot|].
  change (Split (t +:+ String dot (Join (t' :: ts))) = t :: t' :: ts).
  rewrite Split_app_dot by done. by rewrite IH.
Qed.

Lemma star_no_dot t : t = star ∨ word t = true → no_dot t = true.
Proof. intros [-> | ?]; [done|by apply word_no_dot]. Qed.

(** Validity as a grammar: what [ok] accepts token by token is the joining of a
    nonempty list of accepted tokens. *)
Lemma valid_grammar (P : string → Prop) s :
  (∀ t, P t → no_dot t = true) →
  Forall P (Split s) ↔ ∃ ts, ts ≠ [] ∧ Forall P ts ∧ s = Join ts.
Proof.
  intros HP. split.
  - intros H. exists (Split s). split_and!; [apply Split_nonempty|done|].
    by rewrite Join_Split.
  - intros (ts & Hne & Hts & ->). rewrite Split_Join; [done|done|].
    eapply Forall_impl; eauto.
Qed.

(** C32: [RoutingKey.IsValid] accepts exactly the dot-separated nonempty lists of
    nonempty words over letters, digits, underscore and hyphen;
    [RoutingFilter.IsValid] accepts the same with any token replaced by a single
    star.  In particular an empty key, an empty token, a leading or trailing dot
    and a star inside a word are rejected. *)
Theorem routing_grammar (k : RoutingKey) (f : RoutingFilter) :
  (RoutingKey.IsValid k = true ↔
     ∃ ts, ts ≠ [] ∧ Forall (λ t, word t = true) ts ∧ k = Join ts) ∧
  (RoutingFilter.IsValid f = true ↔
     ∃ ts, ts ≠ [] ∧ Forall (λ t, t = star ∨ word t = true) ts ∧ f = Join ts).
Proof.
  split.
  - rewrite key_valid_tokens. apply valid_grammar, word_no_dot.
  - rewrite filter_valid_tokens. apply valid_grammar, star_no_dot.
Qed.

(** C31: a filter matches a key exactly when they have the same number of tokens
    and every filter token is a star or equals the key token at its position: a
    star stands for exactly one token, and comparison is case sensitive.  A
    filter without star tokens matches exactly the key it spells. *)
Theorem filter_match_spec (f : RoutingFilter) (k : RoutingKey) :
  (RoutingFilter.Match f k = true ↔
     length (Split f) = length (Split k) ∧
     ∀ i a b, Split f !! i = Some a → Split k !! i = Some b → a = star ∨ a = b) ∧
  (star ∉ Split f → RoutingFilter.Match f k = true ↔ f = k).
Proof.
  rewrite Match_tokens. split.
  - apply Forall2_same_length_lookup.
  - intros Hstar. split; [|intros <-].
    + intros H. apply (inj Split). revert Hstar.
      induction H as [|a b fs ks [-> | ->] _ IH]; [done|set_solver|].
      intros Hs. f_equal. apply IH. set_solver.
    + apply Forall_Forall2_diag, Forall_true. by right.
Qed.
