(* ===== verification/CoreQueue.v ===== *)
(** * The in-memory queue

    [internal/core/queue.go], [internal/core/delivery.go] and
    [internal/core/dead_letter.go].  Every method of [Queue] runs under [q.mu],
    so it is one atomic step on the queue and on the store of notification
    channels.  A Go map is ranged over in an order the runtime picks anew each
    time; a method that ranges takes that order as the argument [ro], a function
    from the keys to the sequence in which they are visited. *)

From S2P Require Import Prelude Errors Routing.

(** ** Notification channels

    A [chan struct{}] is only ever closed, and closing it twice panics. *)

Definition chan : Type := positive.

Record Chans : Type := mkChans {
  ch_closed : gset chan;
  ch_next : chan;
}.

Definition make_chan : GoM Chans chan := λ cs,
  Val (ch_next cs, mkChans (ch_closed cs) (Pos.succ (ch_next cs))).

Definition close_chan (c : chan) : GoM Chans unit := λ cs,
  if decide (c ∈ ch_closed cs) then Panic
  else Val (tt, mkChans ({[c]} ∪ ch_closed cs) (ch_next cs)).

Definition chan_closed (c : chan) (cs : Chans) : bool :=
  bool_decide (c ∈ ch_closed cs).

(** ** Deliveries *)

Record Delivery : Type := mkDelivery {
  dl_ID : string;
  dl_Message : Message;
  dl_ConsumerID : string;
  dl_Attempts : Z;
}.

#[export] Instance Delivery_eq_dec : EqDecision Delivery.
Proof. solve_decision. Defined.

(** [Delivery{}] *)
Definition Delivery_zero : Delivery := mkDelivery "" (mkMessage [] "") "" 0.

Definition set_ConsumerID (c : string) (d : Delivery) : Delivery :=
  mkDelivery (dl_ID d) (dl_Message d) c (dl_Attempts d).

Definition set_Attempts (n : Z) (d : Delivery) : Delivery :=
  mkDelivery (dl_ID d) (dl_Message d) (dl_ConsumerID d) n.

Record DeadLetter : Type := mkDeadLetter {
  dead_Message : Message;
  dead_SourceQueue : string;
  dead_Reason : string;
  dead_Attempts : Z;
}.

(** [DeadLetter{}] *)
Definition DeadLetter_zero : DeadLetter := mkDeadLetter (mkMessage [] "") "" "" 0.

(** ** Queues *)

Record Queue : Type := mkQueue {
  q_Name : string;
  q_Filters : list RoutingFilter;
  q_IsDurable : bool;
  q_IsAutoDelete : bool;
  q_MaxAttempts : Z;
  q_Ready : list Delivery;
  q_InFlight : gmap string Delivery;
  q_Consumers : gset string;
  q_readyNotify : chan;
}.

Definition set_Ready (r : list Delivery) (q : Queue) : Queue :=
  mkQueue (q_Name q) (q_Filters q) (q_IsDurable q) (q_IsAutoDelete q)
    (q_MaxAttempts q) r (q_InFlight q) (q_Consumers q) (q_readyNotify q).

Definition set_InFlight (m : gmap string Delivery) (q : Queue) : Queue :=
  mkQueue (q_Name q) (q_Filters q) (q_IsDurable q) (q_IsAutoDelete q)
    (q_MaxAttempts q) (q_Ready q) m (q_Consumers q) (q_readyNotify q).

Definition set_Consumers (s : gset string) (q : Queue) : Queue :=
  mkQueue (q_Name q) (q_Filters q) (q_IsDurable q) (q_IsAutoDelete q)
    (q_MaxAttempts q) (q_Ready q) (q_InFlight q) s (q_readyNotify q).

Definition set_readyNotify (c : chan) (q : Queue) : Queue :=
  mkQueue (q_Name q) (q_Filters q) (q_IsDurable q) (q_IsAutoDelete q)
    (q_MaxAttempts q) (q_Ready q) (q_InFlight q) (q_Consumers q) c.

(** A method under [q.mu]. *)
Definition QM : Type → Type := GoM (Queue * Chans).

Definition this : QM Queue := gets fst.

Definition update (f : Queue → Queue) : QM unit := modify (λ s, (f s.1, s.2)).

Definition on_chans {A} (m : GoM Chans A) : QM A := λ s,
  match m s.2 with
  | Val (a, cs) => Val (a, (s.1, cs))
  | Panic => Panic
  end.

Module Queue.
Definition NewQueue (name : string) (isDurable isAutoDelete : bool)
    (maxAttempts : Z) (filters : list RoutingFilter) : GoM Chans Queue :=
  c ← make_chan;
  mret (mkQueue name filters isDurable isAutoDelete maxAttempts [] ∅ ∅ c).

Definition notifyReadyLocked : QM unit :=
  q ← this;
  on_chans (close_chan (q_readyNotify q));;
  c ← on_chans make_chan;
  update (set_readyNotify c).

(** [id] is what [uuid.New().String()] returns. *)
Definition Append (id : string) (msg : Message) : QM Delivery :=
  let delivery := mkDelivery id msg "" 0 in
  update (λ q, set_Ready (q_Ready q ++ [delivery]) q);;
  notifyReadyLocked;;
  mret delivery.

Definition RestoreReady (delivery : Delivery) : QM unit :=
  let delivery := set_ConsumerID "" delivery in
  update (λ q, set_Ready (q_Ready q ++ [delivery]) q);;
  notifyReadyLocked.

Definition EnqueueDelivery (delivery : Delivery) : QM unit :=
  update (λ q, set_Ready (q_Ready q ++ [delivery]) q);;
  notifyReadyLocked.

Definition Ack (deliveryID consumerID : string) : QM (result unit) :=
  q ← this;
  match q_InFlight q !! deliveryID with
  | None => mret (Err DeliveryNotFound)
  | Some delivery =>
      if decide (dl_ConsumerID delivery ≠ consumerID)
      then mret (Err DeliveryOwnerMismatch)
      else
        update (λ q, set_InFlight (delete deliveryID (q_InFlight q)) q);;
        mret (Ok tt)
  end.

(** The loop over [q.Consumers] of [Reject]: is there a consumer other than
    the one that gives the delivery back? *)
Definition other_consumer (ro : list string → list string) (owner : string)
    (q : Queue) : bool :=
  existsb (λ consumerID, bool_decide (consumerID ≠ owner))
    (ro (elements (q_Consumers q))).

Definition Reject (ro : list string → list string)
    (deliveryID consumerID : string) : QM (result (Delivery * bool)) :=
  q ← this;
  match q_InFlight q !! deliveryID with
  | None => mret (Err DeliveryNotFound)
  | Some delivery =>
      if decide (dl_ConsumerID delivery ≠ consumerID)
      then mret (Err DeliveryOwnerMismatch)
      else
        update (λ q, set_InFlight (delete deliveryID (q_InFlight q)) q);;
        if decide (0 < q_MaxAttempts q ∧ q_MaxAttempts q ≤ dl_Attempts delivery)%Z
        then mret (Ok (delivery, true))
        else if other_consumer ro (dl_ConsumerID delivery) q then
          let delivery := set_ConsumerID "" delivery in
          update (λ q, set_Ready (q_Ready q ++ [delivery]) q);;
          notifyReadyLocked;;
          mret (Ok (delivery, false))
        else mret (Ok (delivery, true))
  end.

(** The loop of [DisconnectConsumer] over [q.InFlight], from which it deletes
    while it ranges: a key that is gone when its turn comes is not visited. *)
Fixpoint disconnect_loop (consumerID : string) (ids : list string)
    (q : Queue) (returned : list Delivery) : Queue * list Delivery :=
  match ids with
  | [] => (q, returned)
  | id :: ids =>
      match q_InFlight q !! id with
      | None => disconnect_loop consumerID ids q returned
      | Some delivery =>
          if decide (dl_ConsumerID delivery = consumerID) then
            let q := set_InFlight (delete (dl_ID delivery) (q_InFlight q)) q in
            let delivery := set_ConsumerID "" delivery in
            let q := set_Ready (q_Ready q ++ [delivery]) q in
            disconnect_loop consumerID ids q (returned ++ [delivery])
          else disconnect_loop consumerID ids q returned
      end
  end.

Definition DisconnectConsumer (ro : list string → list string)
    (consumerID : string) : QM (list Delivery) :=
  q ← this;
  let '(q', returned) := disconnect_loop consumerID (ro (keys (q_InFlight q))) q [] in
  update (λ _, q');;
  (if decide (0 < length returned) then notifyReadyLocked else mret tt);;
  update (λ q, set_Consumers (q_Consumers q ∖ {[consumerID]}) q);;
  mret returned.

Definition AddConsumer (consumerID : string) : QM unit :=
  update (λ q, set_Consumers ({[consumerID]} ∪ q_Consumers q) q).

Definition HasConsumers : QM bool :=
  q ← this;
  mret (bool_decide (size (q_Consumers q) ≠ 0)).

Definition consumerInFlightCountLocked (ro : list string → list string)
    (consumerID : string) (q : Queue) : Z :=
  foldl (λ count id,
    match q_InFlight q !! id with
    | Some delivery =>
        if decide (dl_ConsumerID delivery = consumerID) then (count + 1)%Z else count
    | None => count
    end) 0%Z (ro (keys (q_InFlight q))).

(** The three results of the Go method: the delivery, the channel to wait on
    ([None] is [nil]), the error. *)
Definition FetchOrWait (ro : list string → list string) (consumerID : string)
    (maxInFlight : Z) : QM (Delivery * option chan * option error) :=
  q ← this;
  if decide (consumerID ∉ q_Consumers q)
  then mret (Delivery_zero, None, Some ConsumerNotFound)
  else if decide (0 < maxInFlight ∧
                  maxInFlight ≤ consumerInFlightCountLocked ro consumerID q)%Z
  then mret (Delivery_zero, None, Some TooManyInFlight)
  else
    match q_Ready q with
    | [] => mret (Delivery_zero, Some (q_readyNotify q), Some QueueEmpty)
    | delivery :: rest =>
        let delivery := set_Attempts (int64 (dl_Attempts delivery + 1)) delivery in
        let delivery := set_ConsumerID consumerID delivery in
        update (λ q, set_InFlight (<[dl_ID delivery := delivery]> (q_InFlight q)) q);;
        update (set_Ready rest);;
        mret (delivery, None, None)
    end.

Definition MatchFilters (key : RoutingKey) (q : Queue) : bool :=
  existsb (λ v, RoutingFilter.Match v key) (q_Filters q).
End Queue.

Ltac queue_unfold := cbv [this update]; go_unfold.

(** ** The methods as equations

    A map is ranged over in some order of its keys. *)

Class RangeOrder (ro : list string → list string) : Prop :=
  range_perm ks : ro ks ≡ₚ ks.

(** The queue's channel is open, and channels are allocated in order. *)
Definition chans_ok (cs : Chans) : Prop :=
  ∀ c, c ∈ ch_closed cs → (c < ch_next cs)%positive.

Definition notify_open (q : Queue) (cs : Chans) : Prop :=
  (q_readyNotify q ∉ ch_closed cs) ∧ (q_readyNotify q < ch_next cs)%positive.

(** The state after [notifyReadyLocked]. *)
Definition notified_q (q : Queue) (cs : Chans) : Queue :=
  set_readyNotify (ch_next cs) q.

Definition notified_cs (q : Queue) (cs : Chans) : Chans :=
  mkChans ({[q_readyNotify q]} ∪ ch_closed cs) (Pos.succ (ch_next cs)).

Lemma notify_eq q cs :
  notify_open q cs →
  Queue.notifyReadyLocked (q, cs) = Val (tt, (notified_q q cs, notified_cs q cs)).
Proof.
  intros [Ho _]. unfold Queue.notifyReadyLocked, on_chans, close_chan.
  queue_unfold. by rewrite decide_False.
Qed.

Lemma notified_open q cs :
  chans_ok cs → notify_open q cs →
  chans_ok (notified_cs q cs) ∧ notify_open (notified_q q cs) (notified_cs q cs).
Proof.
  intros Hcs [Ho Hlt]. unfold chans_ok, notify_open, notified_cs, notified_q; simpl.
  split_and!; [|intros H|lia].
  - intros c [->%elem_of_singleton|Hc]%elem_of_union; [lia|].
    specialize (Hcs c Hc). lia.
  - apply elem_of_union in H as [H%elem_of_singleton|H]; [lia|].
    specialize (Hcs _ H). lia.
Qed.

(** Appending to [Ready] and waking the waiters. *)
Definition push (d : Delivery) (q : Queue) : Queue :=
  set_Ready (q_Ready q ++ [d]) q.

Lemma EnqueueDelivery_eq d q cs :
  notify_open q cs →
  Queue.EnqueueDelivery d (q, cs) =
  Val (tt, (notified_q (push d q) cs, notified_cs q cs)).
Proof.
  intros Ho. unfold Queue.EnqueueDelivery.
  queue_unfold. by rewrite notify_eq.
Qed.

Lemma RestoreReady_eq d q cs :
  Queue.RestoreReady d (q, cs) = Queue.EnqueueDelivery (set_ConsumerID "" d) (q, cs).
Proof. done. Qed.

Lemma Append_eq id msg q cs :
  notify_open q cs →
  Queue.Append id msg (q, cs) =
  Val (mkDelivery id msg "" 0,
       (notified_q (push (mkDelivery id msg "" 0) q) cs, notified_cs q cs)).
Proof.
  intros Ho. unfold Queue.Append. queue_unfold.
  by rewrite notify_eq.
Qed.

Lemma Ack_eq id c q cs :
  Queue.Ack id c (q, cs) =
  match q_InFlight q !! id with
  | None => Val (Err DeliveryNotFound, (q, cs))
  | Some d =>
      if decide (dl_ConsumerID d = c)
      then Val (Ok tt, (set_InFlight (delete id (q_InFlight q)) q, cs))
      else Val (Err DeliveryOwnerMismatch, (q, cs))
  end.
Proof.
  unfold Queue.Ack. queue_unfold. destruct (q_InFlight q !! id) as [d|]; [|done].
  by repeat case_decide.
Qed.

(** [Reject] gives the delivery up when its attempts are used up or no other
    consumer is there to take it. *)
Definition exhausted (q : Queue) (d : Delivery) : bool :=
  bool_decide (0 < q_MaxAttempts q ∧ q_MaxAttempts q ≤ dl_Attempts d)%Z.

Definition has_other (q : Queue) (owner : string) : Prop :=
  ∃ c, c ∈ q_Consumers q ∧ c ≠ owner.

Lemma other_consumer_spec ro `{!RangeOrder ro} owner q :
  Queue.other_consumer ro owner q = true ↔ has_other q owner.
Proof.
  unfold Queue.other_consumer, has_other. rewrite existsb_exists. split.
  - intros (c & Hin & Hc%bool_decide_eq_true). exists c. split; [|done].
    apply list_elem_of_In in Hin. rewrite (range_perm (elements _)) in Hin.
    by apply elem_of_elements.
  - intros (c & Hin & Hc). exists c. rewrite bool_decide_eq_true. split; [|done].
    apply list_elem_of_In. rewrite (range_perm (elements _)).
    by apply elem_of_elements.
Qed.

(** When [Reject] gives a delivery up. *)
Lemma gives_up_iff ro `{!RangeOrder ro} q d c :
  exhausted q d || negb (Queue.other_consumer ro c q) = true ↔
  (0 < q_MaxAttempts q ∧ q_MaxAttempts q ≤ dl_Attempts d)%Z ∨ q_Consumers q ⊆ {[c]}.
Proof.
  rewrite orb_true_iff, negb_true_iff, <- not_true_iff_false.
  rewrite other_consumer_spec by done. unfold exhausted, has_other.
  rewrite bool_decide_eq_true. apply or_iff_compat_l. split.
  - intros Hno c' Hin. destruct (decide (c' = c)) as [->|]; [set_solver|naive_solver].
  - intros Hsub (c' & Hin & Hne). apply Hsub in Hin. set_solver.
Qed.

Lemma Reject_eq ro id c q cs :
  notify_open q cs →
  Queue.Reject ro id c (q, cs) =
  match q_InFlight q !! id with
  | None => Val (Err DeliveryNotFound, (q, cs))
  | Some d =>
      if decide (dl_ConsumerID d = c) then
        let q' := set_InFlight (delete id (q_InFlight q)) q in
        if exhausted q d || negb (Queue.other_consumer ro c q)
        then Val (Ok (d, true), (q', cs))
        else
          let d' := set_ConsumerID "" d in
          Val (Ok (d', false), (notified_q (push d' q') cs, notified_cs q cs))
      else Val (Err DeliveryOwnerMismatch, (q, cs))
  end.
Proof.
  intros Ho. unfold Queue.Reject, exhausted.
  queue_unfold.
  destruct (q_InFlight q !! id) as [d|]; [|done].
  destruct (decide (dl_ConsumerID d = c)) as [<-|]; [|by rewrite decide_True].
  rewrite decide_False by auto. case_decide as Hx.
  - by rewrite bool_decide_true.
  - rewrite bool_decide_false by done. simpl.
    destruct (Queue.other_consumer ro (dl_ConsumerID d) q); simpl; [|done].
    by rewrite notify_eq.
Qed.

Lemma AddConsumer_eq c q cs :
  Queue.AddConsumer c (q, cs) =
  Val (tt, (set_Consumers ({[c]} ∪ q_Consumers q) q, cs)).
Proof. done. Qed.

Lemma HasConsumers_eq q cs :
  Queue.HasConsumers (q, cs) = Val (bool_decide (q_Consumers q ≠ ∅), (q, cs)).
Proof.
  unfold Queue.HasConsumers. queue_unfold. do 2 f_equal. apply bool_decide_ext.
  by rewrite size_non_empty_iff, leibniz_equiv_iff.
Qed.

(** ** [DisconnectConsumer] *)

(** The deliveries of consumer [c] among the keys [ids] of [m], as they go back
    to [Ready]. *)
Definition owned_by (c : string) (m : gmap string Delivery) (id : string) :
    option Delivery :=
  d ← m !! id;
  if decide (dl_ConsumerID d = c) then Some (set_ConsumerID "" d) else None.

Definition returned_of (c : string) (m : gmap string Delivery) (ids : list string) :
    list Delivery := omap (owned_by c m) ids.

(** What stays in flight. *)
Definition kept_of (c : string) (m : gmap string Delivery) : gmap string Delivery :=
  filter (λ kd, dl_ConsumerID kd.2 ≠ c) m.

(** Every in-flight delivery is filed under its own id. *)
Definition keyed (m : gmap string Delivery) : Prop :=
  ∀ k d, m !! k = Some d → dl_ID d = k.

Lemma keyed_delete m k : keyed m → keyed (delete k m).
Proof. intros Hm k' d [_ H]%lookup_delete_Some. by apply Hm. Qed.

Lemma keyed_insert m k d :
  dl_ID d = k → keyed m → keyed (<[k := d]> m).
Proof. intros <- Hm k' d' [[<- <-]|[_ H]]%lookup_insert_Some; [done|by apply Hm]. Qed.

Lemma returned_of_delete c m k ids :
  k ∉ ids → returned_of c (delete k m) ids = returned_of c m ids.
Proof.
  intros Hk. unfold returned_of. apply list_omap_ext.
  apply Forall2_same_length_lookup_2; [done|].
  intros i x y Hx Hy. simplify_eq. unfold owned_by. rewrite lookup_delete_ne; [done|].
  intros ->. apply Hk. by eapply list_elem_of_lookup_2.
Qed.

(** What stays in flight after the keys [ids] have been visited. *)
Definition kept_after (c : string) (ids : list string) (m : gmap string Delivery) :
    gmap string Delivery :=
  filter (λ kd, ¬ (kd.1 ∈ ids ∧ dl_ConsumerID kd.2 = c)) m.

Lemma kept_after_nil c m : kept_after c [] m = m.
Proof. apply map_filter_id. intros i x _ [H _]. set_solver. Qed.

Lemma kept_after_skip c id ids m :
  owned_by c m id = None → kept_after c (id :: ids) m = kept_after c ids m.
Proof.
  intros Hid. apply map_filter_ext. intros i x Hi. simpl.
  split; intros H [Hin Hc]; apply H; [set_solver|].
  split; [|done]. apply elem_of_cons in Hin as [->|]; [|done].
  unfold owned_by in Hid. rewrite Hi in Hid. simpl in Hid. by case_decide.
Qed.

Lemma kept_after_take c id ids m d :
  m !! id = Some d → dl_ConsumerID d = c →
  kept_after c ids (delete id m) = kept_after c (id :: ids) m.
Proof.
  intros Hid Hc. apply map_eq. intros i. apply option_eq. intros x.
  unfold kept_after. rewrite !map_lookup_filter_Some, lookup_delete_Some.
  simpl. rewrite elem_of_cons. split.
  - intros [[Hne Hi] H]. split; [done|]. intros [[->|?] ?]; [done|]. by apply H.
  - intros [Hi H]. split; [split; [|done]|].
    + intros ->. simplify_eq. apply H. auto.
    + intros [??]. apply H. auto.
Qed.

Lemma kept_after_all c ids m : keys m ⊆ ids → kept_after c ids m = kept_of c m.
Proof.
  intros Hall. apply map_filter_ext. intros i x Hi. simpl.
  assert (i ∈ ids). { apply Hall, elem_of_keys. eauto. }
  tauto.
Qed.

Lemma disconnect_loop_eq c ids q ret :
  keyed (q_InFlight q) → NoDup ids →
  Queue.disconnect_loop c ids q ret =
  (set_InFlight (kept_after c ids (q_InFlight q))
     (set_Ready (q_Ready q ++ returned_of c (q_InFlight q) ids) q),
   ret ++ returned_of c (q_InFlight q) ids).
Proof.
  revert q ret. induction ids as [|id ids IH]; intros q ret Hq Hnd.
  { simpl. rewrite kept_after_nil. unfold returned_of; simpl.
    rewrite !(right_id_L [] (++)). by destruct q. }
  apply NoDup_cons in Hnd as [Hid Hnd]. simpl.
  change (returned_of c (q_InFlight q) (id :: ids)) with
    (omap (owned_by c (q_InFlight q)) (id :: ids)). simpl.
  destruct (owned_by c (q_InFlight q) id) as [d'|] eqn:Ho.
  - unfold owned_by in Ho. destruct (q_InFlight q !! id) as [d|] eqn:Hd; [|done].
    simpl in Ho. case_decide as Hc; [|done]. simplify_eq.
    rewrite (Hq _ _ Hd). rewrite IH; [|by apply keyed_delete|done]. simpl.
    rewrite returned_of_delete by done. rewrite <- !(assoc_L (++)).
    by rewrite (kept_after_take _ _ _ _ d).
  - rewrite kept_after_skip by done. unfold owned_by in Ho.
    destruct (q_InFlight q !! id) as [d|] eqn:Hd; simpl in Ho; [|by apply IH].
    case_decide; [done|by apply IH].
Qed.

Lemma returned_of_perm c m ids ids' :
  ids ≡ₚ ids' → returned_of c m ids ≡ₚ returned_of c m ids'.
Proof. intros H. unfold returned_of. by rewrite H. Qed.

(** The queue after [DisconnectConsumer] has run, before the notification. *)
Definition disconnected (c : string) (returned : list Delivery) (q : Queue) : Queue :=
  set_Consumers (q_Consumers q ∖ {[c]})
    (set_InFlight (kept_of c (q_InFlight q))
       (set_Ready (q_Ready q ++ returned) q)).

Lemma DisconnectConsumer_eq ro `{!RangeOrder ro} c q cs :
  keyed (q_InFlight q) → notify_open q cs →
  let returned := returned_of c (q_InFlight q) (ro (keys (q_InFlight q))) in
  Queue.DisconnectConsumer ro c (q, cs) =
  Val (returned,
       if decide (0 < length returned)
       then (notified_q (disconnected c returned q) cs, notified_cs q cs)
       else (disconnected c returned q, cs)).
Proof.
  intros Hk Ho returned. unfold Queue.DisconnectConsumer. queue_unfold.
  rewrite disconnect_loop_eq; [|done|by rewrite range_perm; apply NoDup_keys].
  rewrite kept_after_all by (by rewrite range_perm). simpl. fold returned.
  case_decide; [|done]. by rewrite notify_eq.
Qed.

(** ** [FetchOrWait] *)

Definition owned_count (c : string) (m : gmap string Delivery) : nat :=
  length (filter (λ d, dl_ConsumerID d = c) (map_to_list m).*2).

Lemma count_loop_eq c (m : gmap string Delivery) (ids : list string) (n : Z) :
  foldl (λ count id,
    match m !! id with
    | Some d => if decide (dl_ConsumerID d = c) then (count + 1)%Z else count
    | None => count
    end) n ids
  = (n + Z.of_nat (length (filter (λ d, dl_ConsumerID d = c) (omap (λ id, m !! id) ids))))%Z.
Proof.
  revert n. induction ids as [|id ids IH]; intros n; csimpl; [lia|].
  rewrite IH. destruct (m !! id) as [d|]; [|done].
  rewrite filter_cons. case_decide; csimpl; lia.
Qed.

Lemma omap_keys {A} (m : gmap string A) : omap (λ k, m !! k) (keys m) = (map_to_list m).*2.
Proof.
  unfold keys.
  assert (Forall (λ kv, m !! kv.1 = Some kv.2) (map_to_list m)) as H.
  { apply Forall_forall. intros [k v] Hkv. by apply elem_of_map_to_list. }
  induction H as [|[k v] l Hkv _ IH]; simpl in *; [done|]. rewrite Hkv. by f_equal.
Qed.

Lemma consumerInFlightCount_eq ro `{!RangeOrder ro} c q :
  Queue.consumerInFlightCountLocked ro c q =
  Z.of_nat (owned_count c (q_InFlight q)).
Proof.
  unfold Queue.consumerInFlightCountLocked, owned_count.
  rewrite count_loop_eq, <- omap_keys. by rewrite (range_perm (keys _)).
Qed.

(** The consumer has reached its limit; a limit of zero or less is no limit. *)
Definition at_limit (c : string) (maxInFlight : Z) (q : Queue) : bool :=
  bool_decide (0 < maxInFlight ∧
               maxInFlight ≤ Z.of_nat (owned_count c (q_InFlight q)))%Z.

(** The delivery as it is handed to consumer [c]. *)
Definition leased (c : string) (d : Delivery) : Delivery :=
  set_ConsumerID c (set_Attempts (int64 (dl_Attempts d + 1)) d).

Lemma FetchOrWait_eq ro `{!RangeOrder ro} c max q cs :
  Queue.FetchOrWait ro c max (q, cs) =
  if decide (c ∈ q_Consumers q) then
    if at_limit c max q
    then Val (Delivery_zero, None, Some TooManyInFlight, (q, cs))
    else
      match q_Ready q with
      | [] => Val (Delivery_zero, Some (q_readyNotify q), Some QueueEmpty, (q, cs))
      | d :: rest =>
          Val (leased c d, None, None,
               (set_Ready rest
                  (set_InFlight (<[dl_ID d := leased c d]> (q_InFlight q)) q), cs))
      end
  else Val (Delivery_zero, None, Some ConsumerNotFound, (q, cs)).
Proof.
  unfold Queue.FetchOrWait, at_limit. queue_unfold.
  rewrite consumerInFlightCount_eq by done.
  repeat case_decide; try done; case_bool_decide; try done; by destruct (q_Ready q).
Qed.
