(* ===== verification/QueueSpec.v ===== *)
(** * What a queue promises

    The contract of [core.Queue] as an abstract machine (the life cycle of each
    delivery), the well-formedness invariant of the concrete queue, and the
    refinement between the two for every method. *)

From S2P Require Import Prelude Errors Routing CoreQueue.

(** ** The deliveries a queue holds *)

Definition held (q : Queue) : list Delivery :=
  q_Ready q ++ (map_to_list (q_InFlight q)).*2.

Definition ids (q : Queue) : list string := dl_ID <$> held q.

(** What must survive every move: the identity and the message. *)
Definition tag (d : Delivery) : string * Message := (dl_ID d, dl_Message d).

(** The invariant of a queue: in-flight deliveries are filed under their ids and
    belong to registered consumers, ready deliveries belong to nobody, and no
    delivery is held twice. *)
Record queue_inv (q : Queue) : Prop := {
  inv_keyed : keyed (q_InFlight q);
  inv_owner : ∀ k d, q_InFlight q !! k = Some d → dl_ConsumerID d ∈ q_Consumers q;
  inv_unowned : Forall (λ d, dl_ConsumerID d = "") (q_Ready q);
  inv_nodup : NoDup (ids q);
}.

(** The configuration that [Exchange.RegisterQueue] lets through. *)
Record config_ok (q : Queue) : Prop := {
  cfg_flags : ¬ (q_IsDurable q = true ∧ q_IsAutoDelete q = true);
  cfg_attempts : (0 ≤ q_MaxAttempts q)%Z;
  cfg_filters : Forall (λ f, RoutingFilter.IsValid f = true) (q_Filters q);
}.

(** ** Permutations *)

Lemma held_push d q : held (push d q) ≡ₚ d :: held q.
Proof.
  unfold held, push; simpl. rewrite <- (assoc_L (++)). simpl.
  by rewrite <- Permutation_middle.
Qed.

Lemma held_notified q cs : held (notified_q q cs) = held q.
Proof. done. Qed.

Lemma values_delete {A} (m : gmap string A) k d :
  m !! k = Some d → (map_to_list m).*2 ≡ₚ d :: (map_to_list (delete k m)).*2.
Proof. intros H. rewrite <- (map_to_list_delete m k d) by done. done. Qed.

Lemma held_take k d q :
  q_InFlight q !! k = Some d →
  held q ≡ₚ d :: held (set_InFlight (delete k (q_InFlight q)) q).
Proof.
  intros H. unfold held; simpl. rewrite (values_delete _ k d) by done.
  by rewrite <- Permutation_middle.
Qed.

Lemma elem_of_held d q :
  d ∈ held q ↔ d ∈ q_Ready q ∨ ∃ k, q_InFlight q !! k = Some d.
Proof.
  unfold held. rewrite elem_of_app. apply or_iff_compat_l.
  rewrite list_elem_of_fmap. split.
  - intros ([k d'] & -> & Hin%elem_of_map_to_list). by exists k.
  - intros [k Hk]. exists (k, d). split; [done|]. by apply elem_of_map_to_list.
Qed.

(** Two deliveries of a well-formed queue with the same id are the same. *)
Lemma held_id_inj q d d' :
  NoDup (ids q) → d ∈ held q → d' ∈ held q → dl_ID d = dl_ID d' → d = d'.
Proof.
  unfold ids. intros Hnd. revert d d'. induction (held q) as [|x l IH]; simpl in *.
  { intros d d' H. by apply not_elem_of_nil in H. }
  apply NoDup_cons in Hnd as [Hx Hnd].
  intros d d' [->|Hd]%elem_of_cons [->|Hd']%elem_of_cons Heq; [done| | |by auto];
    exfalso; apply Hx; apply list_elem_of_fmap; eauto.
Qed.

Lemma ready_not_in_flight q d :
  queue_inv q → d ∈ q_Ready q → q_InFlight q !! dl_ID d = None.
Proof.
  intros Hq Hd. destruct (q_InFlight q !! dl_ID d) as [d'|] eqn:Hd'; [|done].
  pose proof (inv_nodup q Hq) as Hnd. unfold ids, held in Hnd.
  rewrite fmap_app in Hnd. apply NoDup_app in Hnd as (_ & Hdis & _). exfalso.
  apply (Hdis (dl_ID d)); [by apply list_elem_of_fmap_2|].
  rewrite <- (inv_keyed q Hq _ _ Hd'). apply list_elem_of_fmap_2.
  apply list_elem_of_fmap. exists (dl_ID d, d').
  split; [done|]. by apply elem_of_map_to_list.
Qed.

Lemma held_fetch c d rest q :
  queue_inv q → q_Ready q = d :: rest →
  held (set_Ready rest (set_InFlight (<[dl_ID d := leased c d]> (q_InFlight q)) q))
  ≡ₚ leased c d :: rest ++ (map_to_list (q_InFlight q)).*2.
Proof.
  intros Hq Hr. unfold held; simpl. rewrite map_to_list_insert; simpl.
  - by rewrite <- Permutation_middle.
  - apply ready_not_in_flight; [done|]. rewrite Hr. set_solver.
Qed.

Lemma returned_of_all c m :
  returned_of c m (keys m) =
  set_ConsumerID "" <$> filter (λ d, dl_ConsumerID d = c) (map_to_list m).*2.
Proof.
  unfold keys, returned_of, owned_by.
  assert (Forall (λ kv, m !! kv.1 = Some kv.2) (map_to_list m)) as H.
  { apply Forall_forall. intros [k v] Hkv. by apply elem_of_map_to_list. }
  induction H as [|[k v] l Hkv _ IH]; [done|]. csimpl in *. rewrite Hkv. csimpl.
  rewrite filter_cons. case_decide; csimpl; by rewrite IH.
Qed.

Lemma values_kept c m :
  (map_to_list (kept_of c m)).*2 ≡ₚ
  filter (λ d, ¬ dl_ConsumerID d = c) (map_to_list m).*2.
Proof.
  unfold kept_of. rewrite map_filter_alt, map_to_list_to_map.
  - apply reflexive_eq. induction (map_to_list m) as [|[k d] l IH]; [done|].
    csimpl. rewrite !filter_cons. simpl. by repeat case_decide; csimpl; rewrite ?IH.
  - apply (sublist_NoDup _ (map_to_list m).*1); [apply NoDup_fst_map_to_list|].
    apply fmap_sublist, sublist_filter.
Qed.

(** Giving back the deliveries of a consumer loses none of them and changes
    nothing but their owner. *)
Lemma held_disconnected c returned q :
  returned ≡ₚ returned_of c (q_InFlight q) (keys (q_InFlight q)) →
  tag <$> held (disconnected c returned q) ≡ₚ tag <$> held q.
Proof.
  intros Hret. unfold held, disconnected; simpl.
  rewrite values_kept, Hret, returned_of_all, <- (assoc_L (++)), !fmap_app.
  apply Permutation_app_head. rewrite <- list_fmap_compose.
  change (tag ∘ set_ConsumerID "") with tag. rewrite <- fmap_app.
  by rewrite filter_app_complement.
Qed.

Lemma ids_tags q : ids q = fst <$> (tag <$> held q).
Proof. unfold ids. by rewrite <- list_fmap_compose. Qed.

(** ** The methods as one transition function *)

Inductive qop : Type :=
| OEnqueue (d : Delivery)
| ORestore (d : Delivery)
| OAppend (id : string) (msg : Message)
| OFetch (consumer : string) (maxInFlight : Z)
| OAck (id consumer : string)
| OReject (id consumer : string)
| ODisconnect (consumer : string)
| OAddConsumer (consumer : string).

Inductive qout : Type :=
| OutUnit
| OutAppend (d : Delivery)
| OutAck (r : result unit)
| OutReject (r : result (Delivery * bool))
| OutReturned (l : list Delivery)
| OutFetch (r : Delivery * option chan * option error).

Definition do_op (ro : list string → list string) (op : qop) : QM qout :=
  match op with
  | OEnqueue d => Queue.EnqueueDelivery d;; mret OutUnit
  | ORestore d => Queue.RestoreReady d;; mret OutUnit
  | OAppend id msg => OutAppend <$> Queue.Append id msg
  | OFetch c max => OutFetch <$> Queue.FetchOrWait ro c max
  | OAck id c => OutAck <$> Queue.Ack id c
  | OReject id c => OutReject <$> Queue.Reject ro id c
  | ODisconnect c => OutReturned <$> Queue.DisconnectConsumer ro c
  | OAddConsumer c => Queue.AddConsumer c;; mret OutUnit
  end.

(** The ids that an operation brings into the queue. *)
Definition new_ids (op : qop) : list string :=
  match op with
  | OEnqueue d | ORestore d => [dl_ID d]
  | OAppend id _ => [id]
  | _ => []
  end.

(** The service enqueues deliveries that nobody owns yet. *)
Definition enqueue_ok (op : qop) : Prop :=
  match op with OEnqueue d => dl_ConsumerID d = "" | _ => True end.

(** The effect of an operation on the tags that the queue holds. *)
Definition tags_move (op : qop) (out : qout) (before after : list (string * Message)) :
    Prop :=
  match op, out with
  | (OEnqueue d | ORestore d), _ => after ≡ₚ tag d :: before
  | OAppend id msg, _ => after ≡ₚ (id, msg) :: before
  | OAck id _, OutAck (Ok _) => ∃ m, before ≡ₚ (id, m) :: after
  | OReject id _, OutReject (Ok (d, true)) => dl_ID d = id ∧ before ≡ₚ tag d :: after
  | _, _ => after ≡ₚ before
  end.

(** ** The invariant is kept by the building blocks *)

Create HintDb queue discriminated.

Lemma inv_notified q cs : queue_inv q → queue_inv (notified_q q cs).
Proof. by intros []. Qed.

Lemma inv_push d q :
  queue_inv q → dl_ConsumerID d = "" → dl_ID d ∉ ids q → queue_inv (push d q).
Proof.
  intros [Hk Ho Hu Hn] Hd Hid. split; [done|done| |].
  - simpl. apply Forall_app. auto.
  - unfold ids. rewrite held_push. by constructor.
Qed.

Lemma inv_take k d q :
  queue_inv q → q_InFlight q !! k = Some d →
  queue_inv (set_InFlight (delete k (q_InFlight q)) q).
Proof.
  intros [Hk Ho Hu Hn] Hd. split; simpl.
  - by apply keyed_delete.
  - intros k' d' [_ H]%lookup_delete_Some. eauto.
  - done.
  - unfold ids in *. rewrite (held_take k d) in Hn by done.
    by apply NoDup_cons in Hn as [_ Hn].
Qed.

Lemma taken_not_held k d q :
  queue_inv q → q_InFlight q !! k = Some d →
  dl_ID d ∉ ids (set_InFlight (delete k (q_InFlight q)) q).
Proof.
  intros Hq Hd. pose proof (inv_nodup q Hq) as Hn.
  unfold ids in *. rewrite (held_take k d) in Hn by done.
  by apply NoDup_cons in Hn as [Hn _].
Qed.

Lemma inv_tags q q' :
  queue_inv q → tag <$> held q' ≡ₚ tag <$> held q → NoDup (ids q').
Proof.
  intros Hq H. rewrite ids_tags, H, <- ids_tags. apply Hq.
Qed.

Lemma kept_of_lookup c m k d :
  kept_of c m !! k = Some d ↔ m !! k = Some d ∧ dl_ConsumerID d ≠ c.
Proof. unfold kept_of. by rewrite map_lookup_filter_Some. Qed.

Lemma returned_unowned c m l : Forall (λ d, dl_ConsumerID d = "") (returned_of c m l).
Proof.
  apply Forall_forall. intros d (id & _ & Hd)%list_elem_of_omap.
  unfold owned_by in Hd. destruct (m !! id); simpl in Hd; [|done].
  case_decide; by simplify_eq.
Qed.

Lemma inv_disconnected ro `{!RangeOrder ro} c q :
  queue_inv q →
  let returned := returned_of c (q_InFlight q) (ro (keys (q_InFlight q))) in
  queue_inv (disconnected c returned q).
Proof.
  intros Hq returned. pose proof Hq as [Hk Ho Hu Hn]. split; simpl.
  - intros k d [H _]%kept_of_lookup. by apply Hk.
  - intros k d [H Hc]%kept_of_lookup. apply Ho in H. set_solver.
  - apply Forall_app. split; [done|]. apply returned_unowned.
  - apply (inv_tags q); [done|]. apply held_disconnected.
    apply returned_of_perm, range_perm.
Qed.

Lemma tags_fetch c d rest q :
  queue_inv q → q_Ready q = d :: rest →
  tag <$> held (set_Ready rest
                  (set_InFlight (<[dl_ID d := leased c d]> (q_InFlight q)) q))
  ≡ₚ tag <$> held q.
Proof.
  intros Hq Hr. rewrite held_fetch by done. unfold held. rewrite Hr. done.
Qed.

Lemma inv_fetch c d rest q :
  queue_inv q → c ∈ q_Consumers q → q_Ready q = d :: rest →
  queue_inv (set_Ready rest
               (set_InFlight (<[dl_ID d := leased c d]> (q_InFlight q)) q)).
Proof.
  intros Hq Hc Hr. pose proof Hq as [Hk Ho Hu Hn]. split; simpl.
  - intros k d' [[<- <-]|[_ H]]%lookup_insert_Some; [done|by apply Hk].
  - intros k d' [[<- <-]|[_ H]]%lookup_insert_Some; [done|by eapply Ho].
  - rewrite Hr in Hu. by apply Forall_cons in Hu as [_ ?].
  - apply (inv_tags q); [done|]. by apply tags_fetch.
Qed.

Lemma inv_add_consumer c q :
  queue_inv q → queue_inv (set_Consumers ({[c]} ∪ q_Consumers q) q).
Proof.
  intros [Hk Ho Hu Hn]. split; simpl; try done.
  intros k d H. apply Ho in H. set_solver.
Qed.

Lemma inv_new name d a m f cs :
  ∃ q, Queue.NewQueue name d a m f cs = Val (q, mkChans (ch_closed cs) (Pos.succ (ch_next cs)))
       ∧ queue_inv q ∧ q_readyNotify q = ch_next cs.
Proof.
  eexists. split_and!; [done| |done]. split; try done.
  constructor.
Qed.

#[export] Hint Resolve inv_notified inv_push inv_take inv_fetch inv_add_consumer : queue.

(** ** Every operation *)

(** The state an operation leaves is again a good one. *)
Record good (s : Queue * Chans) : Prop := Good {
  good_inv : queue_inv s.1;
  good_chans : chans_ok s.2;
  good_open : notify_open s.1 s.2;
}.

Lemma good_push d q cs :
  good (q, cs) → dl_ConsumerID d = "" → dl_ID d ∉ ids q →
  good (notified_q (push d q) cs, notified_cs q cs).
Proof.
  intros [Hq Hcs Ho] Hd Hid. simpl in *.
  pose proof (notified_open q cs Hcs Ho) as [??]. split; simpl; auto with queue.
Qed.

(** What every method keeps, and how it moves the deliveries. *)
Definition op_ok (ro : list string → list string) (q : Queue) (cs : Chans) (op : qop) :
    Prop :=
  ∃ out q' cs', do_op ro op (q, cs) = Val (out, (q', cs')) ∧ good (q', cs') ∧
    tags_move op out (tag <$> held q) (tag <$> held q').

Section op_ok.
Context (ro : list string → list string) `{!RangeOrder ro}.
Context (q : Queue) (cs : Chans) (Hg : good (q, cs)).

(** A method that answers without touching the queue. *)
Local Ltac unchanged := by eexists _, _, _.

Lemma ok_fetch c max : op_ok ro q cs (OFetch c max).
Proof using All.
  destruct Hg as [Hq Hcs Ho]. unfold op_ok, do_op. go_unfold.
  rewrite FetchOrWait_eq by done. case_decide as Hc; [|unchanged].
  destruct (at_limit c max q); [unchanged|].
  destruct (q_Ready q) as [|d rest] eqn:Hr; [unchanged|].
  eexists _, _, _. split_and!; [done| |by apply tags_fetch].
  split; simpl in *; auto with queue.
Qed.

Lemma ok_ack id c : op_ok ro q cs (OAck id c).
Proof using Hg.
  destruct Hg as [Hq Hcs Ho]. unfold op_ok, do_op. go_unfold. rewrite Ack_eq.
  destruct (q_InFlight q !! id) as [d|] eqn:Hd; [|unchanged].
  case_decide as Hc; [|unchanged].
  eexists _, _, _. split_and!; [done|split; simpl in *; eauto with queue|].
  exists (dl_Message d). replace (id, dl_Message d) with (tag d)
    by (unfold tag; by rewrite (inv_keyed _ Hq _ _ Hd)).
  by rewrite (held_take _ _ _ Hd).
Qed.

Lemma ok_reject id c : op_ok ro q cs (OReject id c).
Proof using All.
  pose proof Hg as [Hq Hcs Ho]. unfold op_ok, do_op. go_unfold. rewrite Reject_eq by done.
  destruct (q_InFlight q !! id) as [d|] eqn:Hd; [|unchanged].
  case_decide as Hc; [|unchanged]. cbv zeta.
  assert (good (set_InFlight (delete id (q_InFlight q)) q, cs)) as Hg'.
  { split; simpl in *; eauto with queue. }
  pose proof (inv_keyed _ Hq _ _ Hd) as Hid.
  destruct (exhausted q d || negb (Queue.other_consumer ro c q));
    eexists _, _, _; split_and!; try done.
  - simpl. by rewrite (held_take _ _ _ Hd).
  - apply (good_push (set_ConsumerID "" d) (set_InFlight (delete id (q_InFlight q)) q));
      [done|done|].
    exact (taken_not_held id d q Hq Hd).
  - simpl. rewrite held_notified, held_push, (held_take _ _ _ Hd). done.
Qed.

Lemma ok_disconnect c : op_ok ro q cs (ODisconnect c).
Proof using All.
  destruct Hg as [Hq Hcs Ho]. simpl in *. unfold op_ok, do_op. go_unfold.
  rewrite DisconnectConsumer_eq by (done || apply Hq).
  pose proof (inv_disconnected ro c q Hq) as Hdis. simpl in Hdis.
  pose proof (notified_open q cs Hcs Ho) as [??].
  assert (tag <$> held (disconnected c
            (returned_of c (q_InFlight q) (ro (keys (q_InFlight q)))) q)
          ≡ₚ tag <$> held q) as Htags.
  { apply held_disconnected, returned_of_perm, range_perm. }
  case_decide; eexists _, _, _; split_and!; try done; split; simpl; auto with queue.
Qed.

Lemma ok_add_consumer c : op_ok ro q cs (OAddConsumer c).
Proof using Hg.
  destruct Hg as [Hq Hcs Ho]. simpl in *. unfold op_ok, do_op. go_unfold.
  eexists _, _, _. split_and!; [done| |done]. split; simpl; auto with queue.
Qed.
End op_ok.

Lemma do_op_ok ro `{!RangeOrder ro} op q cs :
  good (q, cs) → enqueue_ok op → Forall (λ id, id ∉ ids q) (new_ids op) → op_ok ro q cs op.
Proof.
  intros Hg He Hn. pose proof Hg as [_ Hcs Ho]. simpl in Hcs, Ho.
  destruct op as [d|d|id msg|c max|id c|id c|c|c]; simpl in He, Hn;
    [rewrite Forall_singleton in Hn|rewrite Forall_singleton in Hn|
     rewrite Forall_singleton in Hn|by apply ok_fetch|
     by apply ok_ack|by apply ok_reject|by apply ok_disconnect|by apply ok_add_consumer];
    unfold op_ok, do_op; go_unfold; rewrite ?Append_eq, ?RestoreReady_eq, ?EnqueueDelivery_eq by done;
    eexists _, _, _; (split_and!; [done|by apply good_push|]);
    simpl; by rewrite held_notified, held_push.
Qed.

(** ** The life cycle of a delivery

    The abstract machine forgets the order of the queue, its notification
    channel and its consumers, and remembers what became of every delivery that
    ever entered it. *)

Inductive status : Type :=
| Pending
| Leased (consumer : string)
| Acked
| Dead.

Record entry : Type := Entry {
  e_msg : Message;
  e_attempts : Z;
  e_status : status;
}.

Definition settled (s : status) : Prop := s = Acked ∨ s = Dead.

(** What a departing consumer holds goes back. *)
Definition release (c : string) (e : entry) : entry :=
  match e_status e with
  | Leased c' => if decide (c' = c) then Entry (e_msg e) (e_attempts e) Pending else e
  | _ => e
  end.

Definition is_error (out : qout) : Prop :=
  match out with
  | OutAck (Err _) | OutReject (Err _) | OutFetch (_, _, Some _) => True
  | _ => False
  end.

Inductive life_step (m : gmap string entry) : qop → qout → gmap string entry → Prop :=
| LEnqueue d :
    m !! dl_ID d = None →
    life_step m (OEnqueue d) OutUnit
      (<[dl_ID d := Entry (dl_Message d) (dl_Attempts d) Pending]> m)
| LRestore d :
    m !! dl_ID d = None →
    life_step m (ORestore d) OutUnit
      (<[dl_ID d := Entry (dl_Message d) (dl_Attempts d) Pending]> m)
| LAppend id msg :
    m !! id = None →
    life_step m (OAppend id msg) (OutAppend (mkDelivery id msg "" 0))
      (<[id := Entry msg 0 Pending]> m)
| LFetch id msg n c max :
    m !! id = Some (Entry msg n Pending) →
    life_step m (OFetch c max)
      (OutFetch (mkDelivery id msg c (int64 (n + 1)), None, None))
      (<[id := Entry msg (int64 (n + 1)) (Leased c)]> m)
| LAck id msg n c :
    m !! id = Some (Entry msg n (Leased c)) →
    life_step m (OAck id c) (OutAck (Ok tt)) (<[id := Entry msg n Acked]> m)
| LDead id msg n c :
    m !! id = Some (Entry msg n (Leased c)) →
    life_step m (OReject id c) (OutReject (Ok (mkDelivery id msg c n, true)))
      (<[id := Entry msg n Dead]> m)
| LRequeue id msg n c :
    m !! id = Some (Entry msg n (Leased c)) →
    life_step m (OReject id c) (OutReject (Ok (mkDelivery id msg "" n, false)))
      (<[id := Entry msg n Pending]> m)
| LLeave c l :
    (∀ d, d ∈ l ↔ m !! dl_ID d = Some (Entry (dl_Message d) (dl_Attempts d) (Leased c))
                   ∧ dl_ConsumerID d = "") →
    life_step m (ODisconnect c) (OutReturned l) (release c <$> m)
| LJoin c : life_step m (OAddConsumer c) OutUnit m
| LError op out : new_ids op = [] → is_error out → life_step m op out m.

(** The refinement relation. *)
Record refines (q : Queue) (m : gmap string entry) : Prop := {
  ref_ready d : d ∈ q_Ready q →
    m !! dl_ID d = Some (Entry (dl_Message d) (dl_Attempts d) Pending);
  ref_flight k d : q_InFlight q !! k = Some d →
    m !! k = Some (Entry (dl_Message d) (dl_Attempts d) (Leased (dl_ConsumerID d)));
  ref_settled k e : m !! k = Some e → k ∉ ids q → settled (e_status e);
}.

Lemma elem_of_ids q id :
  keyed (q_InFlight q) →
  id ∈ ids q ↔ id ∈ dl_ID <$> q_Ready q ∨ is_Some (q_InFlight q !! id).
Proof.
  intros Hk. unfold ids, held. rewrite fmap_app, elem_of_app.
  apply or_iff_compat_l. rewrite list_elem_of_fmap. split.
  - intros (d & -> & ([k d'] & -> & Hin%elem_of_map_to_list)%list_elem_of_fmap).
    simpl. rewrite (Hk _ _ Hin). eauto.
  - intros [d Hd]. exists d. rewrite (Hk _ _ Hd). split; [done|].
    apply list_elem_of_fmap. exists (id, d). split; [done|].
    by apply elem_of_map_to_list.
Qed.

Lemma ready_in_ids q d : d ∈ q_Ready q → dl_ID d ∈ ids q.
Proof.
  intros H. unfold ids. apply list_elem_of_fmap_2. apply elem_of_held. by left.
Qed.

Lemma flight_in_ids q k d :
  keyed (q_InFlight q) → q_InFlight q !! k = Some d → k ∈ ids q.
Proof. intros Hk Hd. apply elem_of_ids; eauto. Qed.

Lemma ref_push q m d :
  queue_inv q → refines q m → dl_ID d ∉ ids q →
  refines (push d q) (<[dl_ID d := Entry (dl_Message d) (dl_Attempts d) Pending]> m).
Proof.
  intros Hq [Hr Hf Hs] Hd. split; simpl.
  - intros d' [Hd'|Hd'%list_elem_of_singleton]%elem_of_app;
      [|subst; by rewrite lookup_insert_eq].
    rewrite lookup_insert_ne; [by auto|].
    intros Heq. apply Hd. rewrite Heq. by apply ready_in_ids.
  - intros k d' Hk. rewrite lookup_insert_ne; [by auto|].
    intros <-. apply Hd. eapply flight_in_ids; [apply Hq|done].
  - intros k e Hk Hnot. assert (k ∉ dl_ID d :: ids q) as [Hne Hk']%not_elem_of_cons.
    { intros Hin. apply Hnot. unfold ids. by rewrite held_push. }
    rewrite lookup_insert_ne in Hk by done. eauto.
Qed.

Lemma ref_take q m k d s :
  queue_inv q → refines q m → q_InFlight q !! k = Some d → settled s →
  refines (set_InFlight (delete k (q_InFlight q)) q)
    (<[k := Entry (dl_Message d) (dl_Attempts d) s]> m).
Proof.
  intros Hq [Hr Hf Hset] Hd Hs. split; simpl.
  - intros d' Hd'. rewrite lookup_insert_ne; [by auto|]. intros ->.
    by rewrite ready_not_in_flight in Hd.
  - intros k' d' [Hne Hk']%lookup_delete_Some. rewrite lookup_insert_ne; auto.
  - intros k' e [[<- <-]|[Hne Hk']]%lookup_insert_Some Hnot; [done|].
    eapply Hset; [done|]. intros Hin. apply Hnot.
    apply elem_of_ids in Hin; [|apply Hq].
    apply elem_of_ids; [by apply keyed_delete, Hq|]. simpl.
    by rewrite lookup_delete_ne.
Qed.

Lemma ref_fetch q m c d rest :
  queue_inv q → refines q m → q_Ready q = d :: rest →
  refines (set_Ready rest (set_InFlight (<[dl_ID d := leased c d]> (q_InFlight q)) q))
    (<[dl_ID d := Entry (dl_Message d) (int64 (dl_Attempts d + 1)) (Leased c)]> m).
Proof.
  intros Hq [Hr Hf Hset] HR.
  pose proof (inv_nodup q Hq) as Hn. unfold ids, held in Hn. rewrite HR in Hn.
  simpl in Hn. apply NoDup_cons in Hn as [Hnin _].
  split; simpl.
  - intros d' Hd'. rewrite lookup_insert_ne; [apply Hr; rewrite HR; set_solver|].
    intros Heq. apply Hnin. rewrite Heq. rewrite fmap_app, elem_of_app. left.
    by apply list_elem_of_fmap_2.
  - intros k d' [[<- <-]|[Hne Hk]]%lookup_insert_Some.
    + by rewrite lookup_insert_eq.
    + rewrite lookup_insert_ne; auto.
  - intros k e [[<- <-]|[Hne Hk]]%lookup_insert_Some Hnot.
    + exfalso. apply Hnot. unfold ids. rewrite held_fetch by done. by left.
    + eapply Hset; [done|]. intros Hin. apply Hnot.
      unfold ids. rewrite held_fetch by done. right.
      unfold ids, held in Hin. rewrite HR in Hin.
      by apply elem_of_cons in Hin as [->|Hin].
Qed.

Lemma elem_of_returned c m d :
  keyed m →
  d ∈ returned_of c m (keys m) ↔
  ∃ d0, m !! dl_ID d = Some d0 ∧ dl_ConsumerID d0 = c ∧ d = set_ConsumerID "" d0.
Proof.
  intros Hk. unfold returned_of. rewrite list_elem_of_omap. split.
  - intros (id & _ & Hd). unfold owned_by in Hd.
    destruct (m !! id) as [d0|] eqn:Hm; simpl in Hd; [|done].
    case_decide; simplify_eq. exists d0. simpl. by rewrite (Hk _ _ Hm).
  - intros (d0 & Hm & Hc & Hd). exists (dl_ID d). split.
    + apply elem_of_keys. eauto.
    + unfold owned_by. rewrite Hm. simpl. rewrite decide_True by done. by rewrite Hd.
Qed.

Lemma ref_disconnect q m c returned :
  queue_inv q → refines q m →
  returned ≡ₚ returned_of c (q_InFlight q) (keys (q_InFlight q)) →
  refines (disconnected c returned q) (release c <$> m).
Proof.
  intros Hq [Hr Hf Hset] Hret. split; simpl.
  - intros d [Hd|Hd]%elem_of_app; rewrite lookup_fmap.
    + by rewrite (Hr d Hd).
    + rewrite Hret in Hd. apply elem_of_returned in Hd as (d0 & Hd0 & Hc & ->);
        [|apply Hq].
      simpl in *. rewrite (Hf _ _ Hd0). simpl. unfold release; simpl.
      by rewrite decide_True.
  - intros k d [Hk Hc]%kept_of_lookup. rewrite lookup_fmap, (Hf _ _ Hk). simpl.
    unfold release; simpl. by rewrite decide_False.
  - intros k e Hk Hnot. rewrite lookup_fmap in Hk.
    destruct (m !! k) as [e0|] eqn:He0; simpl in Hk; [|done]. simplify_eq.
    assert (settled (e_status e0)) as [Hs|Hs].
    { eapply Hset; [done|]. intros Hin. apply Hnot.
      rewrite ids_tags, held_disconnected by done. by rewrite <- ids_tags. }
    all: unfold release; rewrite Hs; simpl; unfold settled; auto.
Qed.

Lemma ref_notified q cs m : refines q m → refines (notified_q q cs) m.
Proof. by intros []. Qed.

Lemma ref_add_consumer q m s : refines q m → refines (set_Consumers s q) m.
Proof. by intros []. Qed.

Lemma ref_fresh q m id :
  queue_inv q → refines q m → m !! id = None → id ∉ ids q.
Proof.
  intros Hq [Hr Hf _] Hm Hin. apply elem_of_ids in Hin as [Hin|[d Hd]]; [| |apply Hq].
  - apply list_elem_of_fmap in Hin as (d & -> & Hd). apply Hr in Hd. congruence.
  - apply Hf in Hd. congruence.
Qed.

#[export] Hint Resolve ref_notified ref_add_consumer : queue.

(** The life cycle's leases of a consumer are the deliveries it holds. *)
Lemma leased_iff_returned q m c d :
  queue_inv q → refines q m →
  d ∈ returned_of c (q_InFlight q) (keys (q_InFlight q)) ↔
  m !! dl_ID d = Some (Entry (dl_Message d) (dl_Attempts d) (Leased c)) ∧
  dl_ConsumerID d = "".
Proof.
  intros Hq Hm. pose proof Hm as [Hr Hf Hs].
  rewrite elem_of_returned by apply Hq. split.
  - intros (d0 & Hd0 & Hc & ->). simpl in *. rewrite (Hf _ _ Hd0). by rewrite Hc.
  - intros [Hd Hc].
    assert (dl_ID d ∈ ids q) as Hin.
    { destruct (decide (dl_ID d ∈ ids q)) as [|Hn]; [done|].
      by destruct (Hs _ _ Hd Hn). }
    apply elem_of_ids in Hin as [Hin|[d0 Hd0]]; [| |apply Hq].
    { apply list_elem_of_fmap in Hin as (d' & Heq & Hd').
      apply Hr in Hd'. rewrite <- Heq in Hd'. congruence. }
    exists d0. pose proof (Hf _ _ Hd0) as He. rewrite Hd in He. injection He as H1 H2 H3.
    pose proof (inv_keyed _ Hq _ _ Hd0) as Hid.
    split_and!; [done..|]. destruct d, d0; unfold set_ConsumerID; simpl in *. congruence.
Qed.

(** A method refines a step of the life cycle, with the output the life cycle
    prescribes. *)
Definition op_simulates (ro : list string → list string) (q : Queue) (cs : Chans)
    (m : gmap string entry) (op : qop) : Prop :=
  ∃ out q' cs' m', do_op ro op (q, cs) = Val (out, (q', cs')) ∧
    life_step m op out m' ∧ refines q' m'.

Section op_refines.
Context (ro : list string → list string) `{!RangeOrder ro}.
Context (q : Queue) (cs : Chans) (m : gmap string entry).
Context (Hg : good (q, cs)) (Hm : refines q m).

(** A method that answers without touching the queue. *)
Local Ltac unchanged := by eexists _, _, _, m; split_and!; [|apply LError|].

Lemma fetch_refines c max : op_simulates ro q cs m (OFetch c max).
Proof using All.
  destruct Hg as [Hq Hcs Ho]. unfold op_simulates, do_op. go_unfold.
  rewrite FetchOrWait_eq by done. case_decide as Hc; [|unchanged].
  destruct (at_limit c max q); [unchanged|].
  destruct (q_Ready q) as [|d rest] eqn:Hr; [unchanged|].
  eexists _, _, _, _. split_and!; [done| |by apply ref_fetch].
  apply (LFetch m (dl_ID d) (dl_Message d) (dl_Attempts d)).
  apply Hm. rewrite Hr. set_solver.
Qed.

Lemma ack_refines id c : op_simulates ro q cs m (OAck id c).
Proof using Hg Hm.
  destruct Hg as [Hq Hcs Ho]. unfold op_simulates, do_op. go_unfold. rewrite Ack_eq.
  destruct (q_InFlight q !! id) as [d|] eqn:Hd; [|unchanged].
  case_decide as Hc; [|unchanged].
  eexists _, _, _, _. split_and!; [done| |apply ref_take; [done..|by left]].
  apply (LAck m id (dl_Message d) (dl_Attempts d)).
  rewrite <- Hc. by apply Hm.
Qed.

Lemma reject_refines id c : op_simulates ro q cs m (OReject id c).
Proof using All.
  destruct Hg as [Hq Hcs Ho]. simpl in Hq. unfold op_simulates, do_op. go_unfold.
  rewrite Reject_eq by done.
  destruct (q_InFlight q !! id) as [d|] eqn:Hd; [|unchanged].
  case_decide as Hc; [|unchanged].
  pose proof (inv_keyed _ Hq _ _ Hd) as Hid.
  pose proof (ref_flight _ _ Hm _ _ Hd) as He.
  pose proof (taken_not_held _ _ _ Hq Hd) as Hnot.
  destruct d as [id' msg c' n]; simpl in *; subst id' c'.
  destruct (exhausted q _ || negb (Queue.other_consumer ro c q)).
  - eexists _, _, _, _. split_and!; [done|by constructor|].
    apply (ref_take q m id (mkDelivery id msg c n)); [done..|by right].
  - eexists _, _, _, _. split_and!; [done|by eapply LRequeue|].
    rewrite <- (insert_insert_eq m id (Entry msg n Pending) (Entry msg n Dead)).
    apply ref_notified,
      (ref_push (set_InFlight (delete id (q_InFlight q)) q) _ (mkDelivery id msg "" n));
      [by eapply inv_take| |done].
    apply (ref_take q m id (mkDelivery id msg c n)); [done..|by right].
Qed.

Lemma disconnect_refines c : op_simulates ro q cs m (ODisconnect c).
Proof using All.
  destruct Hg as [Hq Hcs Ho]. simpl in Hq. unfold op_simulates, do_op. go_unfold.
  rewrite DisconnectConsumer_eq by (done || apply Hq).
  set (returned := returned_of c (q_InFlight q) (ro (keys (q_InFlight q)))).
  assert (returned ≡ₚ returned_of c (q_InFlight q) (keys (q_InFlight q))) as Hret.
  { apply returned_of_perm, range_perm. }
  pose proof (ref_disconnect q m c returned Hq Hm Hret) as Hr'.
  assert (life_step m (ODisconnect c) (OutReturned returned) (release c <$> m)) as Hstep.
  { constructor. intros d. rewrite Hret. by apply leased_iff_returned. }
  case_decide; eexists _, _, _, _; split_and!; try done; auto with queue.
Qed.

Lemma add_consumer_refines c : op_simulates ro q cs m (OAddConsumer c).
Proof using Hm.
  unfold op_simulates, do_op. go_unfold.
  eexists _, _, _, m. split_and!; [done|by constructor|]. auto with queue.
Qed.
End op_refines.

Lemma op_refines ro `{!RangeOrder ro} op q cs m :
  good (q, cs) → enqueue_ok op → Forall (λ id, m !! id = None) (new_ids op) →
  refines q m → op_simulates ro q cs m op.
Proof.
  intros Hg He Hn Hm. pose proof Hg as [Hq Hcs Ho]. simpl in Hq, Hcs, Ho.
  destruct op as [d|d|id msg|c max|id c|id c|c|c]; simpl in He, Hn;
    [rewrite Forall_singleton in Hn|rewrite Forall_singleton in Hn|
     rewrite Forall_singleton in Hn|by apply fetch_refines|
     by apply ack_refines|by apply reject_refines|by apply disconnect_refines|
     by apply add_consumer_refines];
    unfold op_simulates, do_op; go_unfold;
    rewrite ?Append_eq, ?RestoreReady_eq, ?EnqueueDelivery_eq by done;
    eexists _, _, _, _; (split_and!; [done|by constructor|]); apply ref_notified.
  - apply ref_push; [done..|by eapply ref_fresh].
  - apply (ref_push q m (set_ConsumerID "" d)); [done..|by eapply ref_fresh].
  - apply (ref_push q m (mkDelivery id msg "" 0)); [done..|by eapply ref_fresh].
Qed.
