(* ===== verification/QueueTrace.v ===== *)
(** * Histories of a queue

    What holds of a queue over any sequence of method calls, whatever order the
    runtime picks for each range over a map: safety, refinement of the life
    cycle, exclusive leases, final settlement, first-in first-out order, the
    in-flight limit and the absence of lost wake-ups. *)

From S2P Require Import Prelude Errors Routing CoreQueue QueueSpec.

(** A queue, its channels, and the ids that ever entered it. *)
Record qstate : Type := QS {
  qs_queue : Queue;
  qs_chans : Chans;
  qs_hist : gset string;
}.

(** One call.  The ids of new deliveries are fresh (they are UUIDs). *)
Inductive qstep : qstate → qop → qout → qstate → Prop :=
| QStep ro q cs hist op out q' cs' :
    RangeOrder ro → enqueue_ok op →
    Forall (λ id, id ∉ hist) (new_ids op) →
    do_op ro op (q, cs) = Val (out, (q', cs')) →
    qstep (QS q cs hist) op out (QS q' cs' (list_to_set (new_ids op) ∪ hist)).

Inductive qtrace : qstate → list (qop * qout) → qstate → Prop :=
| QNil σ : qtrace σ [] σ
| QCons σ op out σ1 tr σ' :
    qstep σ op out σ1 → qtrace σ1 tr σ' → qtrace σ ((op, out) :: tr) σ'.

(** A queue fresh from [NewQueue]. *)
Inductive qinit : qstate → Prop :=
| QInit name d a max f cs q cs' :
    chans_ok cs →
    Queue.NewQueue name d a max f cs = Val (q, cs') →
    qinit (QS q cs' ∅).

(** The states of a history. *)
Record qok (σ : qstate) : Prop := QOk {
  qok_good : good (qs_queue σ, qs_chans σ);
  qok_hist : ∀ id, id ∈ ids (qs_queue σ) → id ∈ qs_hist σ;
}.

Lemma qok_init σ : qinit σ → qok σ.
Proof.
  intros [name d a max f cs q cs' Hcs Hnew].
  unfold Queue.NewQueue, make_chan in Hnew. revert Hnew. go_unfold. intros Hnew.
  simplify_eq. split; [split|]; simpl.
  - split; try done. constructor.
  - intros c Hc. apply Hcs in Hc. simpl in *. lia.
  - split; simpl; [|lia]. intros Hc. apply Hcs in Hc. lia.
  - intros id Hid. by apply not_elem_of_nil in Hid.
Qed.

Lemma tags_move_ids op out l l' :
  tags_move op out l l' → l'.*1 ⊆ new_ids op ++ l.*1.
Proof.
  intros H id Hid.
  assert (l' ≡ₚ l ∨ (∃ x, l ≡ₚ x :: l') ∨ ∃ t, new_ids op = [t.1] ∧ l' ≡ₚ t :: l)
    as [Hl|[[x Hl]|(t & Hn & Hl)]].
  { destruct op as [d|d|id' msg|c max|id' c|id' c|c|c].
    1-3: right; right; eexists; split; [|exact H]; done.
    all: destruct out; simpl in *; repeat case_match; naive_solver. }
  - rewrite Hl in Hid. set_solver.
  - rewrite Hl. set_solver.
  - rewrite Hn. rewrite Hl in Hid. simpl in Hid. set_solver.
Qed.

Lemma qok_step σ op out σ' : qstep σ op out σ' → qok σ → qok σ'.
Proof.
  intros [ro q cs hist op' out' q' cs' Hro He Hn Hop] [Hg Hh]. simpl in *.
  assert (Forall (λ id, id ∉ ids q) (new_ids op')) as Hn'.
  { eapply Forall_impl; [done|]. intros id Hid Hin. by apply Hid, Hh. }
  destruct (do_op_ok ro op' q cs Hg He Hn') as (o & q1 & cs1 & Ho & Hg1 & Hmove).
  rewrite Hop in Ho. injection Ho as <- <- <-. split; [done|]. simpl.
  intros id Hid. rewrite ids_tags in Hid.
  apply (tags_move_ids _ _ _ _ Hmove) in Hid. rewrite <- ids_tags in Hid.
  apply elem_of_app in Hid as [Hid|Hid]; set_solver.
Qed.

Lemma qok_trace σ tr σ' : qtrace σ tr σ' → qok σ → qok σ'.
Proof. induction 1; eauto using qok_step. Qed.

(** ** Refinement *)

Inductive life_trace : gmap string entry → list (qop * qout) → gmap string entry → Prop :=
| LNil m : life_trace m [] m
| LCons m op out m1 tr m' :
    life_step m op out m1 → life_trace m1 tr m' → life_trace m ((op, out) :: tr) m'.

(** The refinement relation, with the history as the domain. *)
Record refines_state (σ : qstate) (m : gmap string entry) : Prop := {
  rs_refines : refines (qs_queue σ) m;
  rs_hist : dom m = qs_hist σ;
}.

Lemma life_step_dom m op out m' :
  life_step m op out m' → dom m' = list_to_set (new_ids op) ∪ dom m.
Proof.
  assert (∀ k e e', m !! k = Some e → dom (<[k := e']> m) = list_to_set [] ∪ dom m)
    as Hupd.
  { intros k e e' Hk. rewrite dom_insert_L. apply elem_of_dom_2 in Hk. set_solver. }
  intros H. destruct H as [| | | | | | |c l Hl| |op out Hn _]; simpl; eauto.
  - rewrite dom_insert_L. set_solver.
  - rewrite dom_insert_L. set_solver.
  - rewrite dom_insert_L. set_solver.
  - rewrite dom_fmap_L. set_solver.
  - set_solver.
  - rewrite Hn. set_solver.
Qed.

Lemma step_refines σ op out σ' m :
  qstep σ op out σ' → qok σ → refines_state σ m →
  ∃ m', life_step m op out m' ∧ refines_state σ' m'.
Proof.
  intros [ro q cs hist op' out' q' cs' Hro He Hn Hop] [Hg Hh] [Hm Hd]. simpl in *.
  assert (Forall (λ id, m !! id = None) (new_ids op')) as Hn'.
  { eapply Forall_impl; [done|]. intros id Hid. simpl in Hid.
    apply not_elem_of_dom. by rewrite Hd. }
  destruct (op_refines ro op' q cs m Hg He Hn' Hm) as (o & q1 & cs1 & m' & Ho & Hl & Hm').
  rewrite Hop in Ho. injection Ho as <- <- <-. exists m'. split; [done|].
  split; simpl; [done|]. rewrite (life_step_dom _ _ _ _ Hl). by rewrite Hd.
Qed.

Lemma trace_refines σ tr σ' m :
  qtrace σ tr σ' → qok σ → refines_state σ m →
  ∃ m', life_trace m tr m' ∧ refines_state σ' m'.
Proof.
  intros H. revert m. induction H as [σ|σ op out σ1 tr σ' Hstep _ IH]; intros m Hok Hm.
  { exists m. split; [constructor|done]. }
  destruct (step_refines _ _ _ _ m Hstep Hok Hm) as (m1 & Hl & Hm1).
  destruct (IH m1) as (m' & Hl' & Hm'); [by eapply qok_step|done|].
  exists m'. split; [by econstructor|done].
Qed.

Lemma refines_init σ : qinit σ → refines_state σ ∅.
Proof.
  intros [name d a max f cs q cs' Hcs Hnew].
  unfold Queue.NewQueue, make_chan in Hnew. revert Hnew. go_unfold. intros Hnew.
  simplify_eq. split; simpl; [|done]. split; simpl; [set_solver| |].
  - intros k d' H. by rewrite lookup_empty in H.
  - intros k e H. by rewrite lookup_empty in H.
Qed.

(** ** What the life cycle forbids *)

Lemma life_step_settled m op out m' id e :
  life_step m op out m' → m !! id = Some e → settled (e_status e) →
  m' !! id = Some e.
Proof.
  intros Hstep He Hs.
  assert (∀ k n msg s e', m !! k = Some (Entry msg n s) → ¬ settled s →
            <[k := e']> m !! id = Some e) as Hupd.
  { intros k n msg s e' Hk Hns. rewrite lookup_insert_ne; [done|].
    intros ->. rewrite He in Hk. injection Hk as ->. by apply Hns. }
  destruct Hstep as [d Hd|d Hd|k msg Hd| | | | |c l Hl| |]; try done.
  1,2,3: rewrite lookup_insert_ne; [done|]; intros Heq; congruence.
  1,2,3,4: eapply Hupd; [done|]; unfold settled; naive_solver.
  rewrite lookup_fmap, He. simpl. unfold release.
  by destruct Hs as [-> | ->].
Qed.

Lemma life_trace_settled m tr m' id e :
  life_trace m tr m' → m !! id = Some e → settled (e_status e) →
  m' !! id = Some e ∧
  ∀ c max d, (OFetch c max, OutFetch (d, None, None)) ∈ tr → dl_ID d ≠ id.
Proof.
  intros H. induction H as [m|m op out m1 tr m' Hstep _ IH]; intros He Hs.
  { split; [done|]. intros c max d H. by apply not_elem_of_nil in H. }
  pose proof (life_step_settled _ _ _ _ _ _ Hstep He Hs) as He1.
  destruct (IH He1 Hs) as [Hm' Hnot]. split; [done|].
  intros c max d [[= <- <-]|Hin]%elem_of_cons; [|by eapply Hnot].
  inversion Hstep as [| | |id' msg n c' max' Hid| | | | | |op' out' _ Herr];
    simplify_eq; simpl in *; [|done].
  intros ->. rewrite He in Hid. injection Hid as ->. by destruct Hs.
Qed.

(** A lease ends when its holder gives the delivery back or disconnects. *)
Definition gives_back (c id : string) (ev : qop * qout) : Prop :=
  ev.1 = ODisconnect c ∨
  ∃ d, ev = (OReject id c, OutReject (Ok (d, false))) ∧ dl_ID d = id.

(** The delivery is not up for grabs: consumer [c] has it, or it is settled. *)
Definition taken (c id : string) (m : gmap string entry) : Prop :=
  ∃ e, m !! id = Some e ∧ (e_status e = Leased c ∨ settled (e_status e)).

Lemma life_step_taken m op out m' c id :
  life_step m op out m' → taken c id m → gives_back c id (op, out) ∨ taken c id m'.
Proof.
  intros Hstep (e & He & [Hc|Hset]); [|].
  2:{ right. exists e. split; [|by right]. by eapply life_step_settled. }
  assert (∀ k e', k ≠ id → taken c id (<[k := e']> m)) as Hother.
  { intros k e' Hne. exists e. rewrite lookup_insert_ne by done. auto. }
  destruct Hstep as [d Hd|d Hd|k msg Hd|k msg n c' max Hk|k msg n c' Hk|k msg n c' Hk
    |k msg n c' Hk|c' l Hl|c'|op out _ _].
  - right. apply Hother. congruence.
  - right. apply Hother. congruence.
  - right. apply Hother. congruence.
  - right. apply Hother. intros ->. rewrite He in Hk. by simplify_eq/=.
  - right. destruct (decide (k = id)) as [->|]; [|by apply Hother].
    eexists. rewrite lookup_insert_eq. split; [done|]. right. by left.
  - right. destruct (decide (k = id)) as [->|]; [|by apply Hother].
    eexists. rewrite lookup_insert_eq. split; [done|]. right. by right.
  - destruct (decide (k = id)) as [->|]; [|right; by apply Hother].
    left. right. rewrite He in Hk. simplify_eq/=. eexists. by split.
  - destruct (decide (c' = c)) as [->|Hne]; [left; by left|].
    right. exists e. split; [|by left]. rewrite lookup_fmap, He. simpl.
    unfold release. rewrite Hc. by rewrite decide_False.
  - right. exists e. auto.
  - right. exists e. auto.
Qed.

Lemma life_trace_taken m tr m' c id :
  life_trace m tr m' → taken c id m → Exists (gives_back c id) tr ∨ taken c id m'.
Proof.
  induction 1 as [m|m op out m1 tr m' Hstep _ IH]; intros Ht; [by right|].
  destruct (life_step_taken _ _ _ _ _ _ Hstep Ht) as [Hg|Ht1]; [left; by left|].
  destruct (IH Ht1) as [Hg|Ht']; [left; by right|by right].
Qed.

Lemma life_trace_app m tr1 tr2 m' :
  life_trace m (tr1 ++ tr2) m' ↔ ∃ m1, life_trace m tr1 m1 ∧ life_trace m1 tr2 m'.
Proof.
  revert m. induction tr1 as [|[op out] tr1 IH]; intros m; simpl.
  - split; [|by intros (m1 & H & ?); inversion H; subst].
    intros H. exists m. split; [constructor|done].
  - split.
    + intros H. inversion H as [|? ? ? m1 ? ? Hstep Htr]; subst.
      apply IH in Htr as (m2 & H1 & H2). exists m2. split; [by econstructor|done].
    + intros (m2 & H & H2). inversion H as [|? ? ? m1 ? ? Hstep Htr]; subst.
      econstructor; [done|]. apply IH. eauto.
Qed.

(** The life cycle that a history of a fresh queue goes through. *)
Lemma init_life σ0 tr σ :
  qinit σ0 → qtrace σ0 tr σ → ∃ m, life_trace ∅ tr m ∧ refines_state σ m.
Proof.
  intros H0 Htr. eapply trace_refines; [done|by apply qok_init|by apply refines_init].
Qed.

Lemma fetched_leased m op out m' d c max :
  life_step m op out m' → op = OFetch c max → out = OutFetch (d, None, None) →
  (∃ e, m !! dl_ID d = Some e ∧ e_status e = Pending) ∧ taken c (dl_ID d) m'.
Proof.
  intros Hstep -> ->. inversion Hstep as [| | |id msg n c' max' Hid| | | | | |? ? _ Herr];
    subst; simpl in *; [|done].
  split; [by eexists|]. eexists. rewrite lookup_insert_eq. split; [done|by left].
Qed.

(** ** Order and notification *)

(** The deliveries a call puts at the end of [Ready], and the one it takes from
    the front. *)
Definition pushed (ev : qop * qout) : list (string * Message) :=
  match ev with
  | ((OEnqueue d | ORestore d), _) => [tag d]
  | (OAppend id msg, _) => [(id, msg)]
  | (OReject _ _, OutReject (Ok (d, false))) => [tag d]
  | (ODisconnect _, OutReturned l) => tag <$> l
  | _ => []
  end.

Definition popped (ev : qop * qout) : list (string * Message) :=
  match ev with
  | (OFetch _ _, OutFetch (d, None, None)) => [tag d]
  | _ => []
  end.

(** The notification protocol: a call that puts something into [Ready] closes
    the current channel and installs a fresh one; any other call leaves both
    alone. *)
Definition notify_move (woken : bool) (q : Queue) (cs : Chans) (q' : Queue) (cs' : Chans) :
    Prop :=
  if woken then cs' = notified_cs q cs ∧ q_readyNotify q' = ch_next cs
  else cs' = cs ∧ q_readyNotify q' = q_readyNotify q.

Definition pushes (ev : qop * qout) : bool := bool_decide (pushed ev ≠ []).

Ltac order_tac :=
  csimpl; rewrite ?fmap_app, ?app_nil_r; csimpl;
  try match goal with H : q_Ready _ = _ |- _ => rewrite H end; done.

Lemma do_op_order ro `{!RangeOrder ro} op q cs out q' cs' :
  good (q, cs) → do_op ro op (q, cs) = Val (out, (q', cs')) →
  (tag <$> q_Ready q) ++ pushed (op, out) = popped (op, out) ++ (tag <$> q_Ready q') ∧
  notify_move (pushes (op, out)) q cs q' cs'.
Proof.
  intros [Hq Hcs Ho]. simpl in Hq, Hcs, Ho. unfold do_op, pushes.
  destruct op as [d|d|id msg|c max|id c|id c|c|c]; go_unfold.
  - rewrite EnqueueDelivery_eq by done. intros. simplify_eq. order_tac.
  - rewrite RestoreReady_eq, EnqueueDelivery_eq by done. intros. simplify_eq. order_tac.
  - rewrite Append_eq by done. intros. simplify_eq. order_tac.
  - rewrite FetchOrWait_eq by done. intros H. repeat case_match; simplify_eq; order_tac.
  - rewrite Ack_eq. intros H. repeat case_match; simplify_eq; order_tac.
  - rewrite Reject_eq by done. cbv zeta. intros H. repeat case_match; simplify_eq; order_tac.
  - rewrite DisconnectConsumer_eq by (done || apply Hq).
    cbv zeta. generalize (returned_of c (q_InFlight q) (ro (keys (q_InFlight q)))).
    intros [|d l] H; case_decide; simpl in *; try lia; simplify_eq; order_tac.
  - intros. simplify_eq. order_tac.
Qed.

#[global] Arguments pushed : simpl never.
#[global] Arguments popped : simpl never.

Lemma trace_order σ tr σ' :
  qtrace σ tr σ' → qok σ →
  (tag <$> q_Ready (qs_queue σ)) ++ (tr ≫= pushed) =
  (tr ≫= popped) ++ (tag <$> q_Ready (qs_queue σ')).
Proof.
  induction 1 as [σ|σ op out σ1 tr σ' Hstep _ IH]; intros Hok.
  { csimpl. by rewrite app_nil_r. }
  pose proof (qok_step _ _ _ _ Hstep Hok) as Hok1. specialize (IH Hok1).
  destruct Hstep as [ro q cs hist op' out' q' cs' Hro He Hn Hop]. csimpl in *.
  destruct (do_op_order ro op' q cs out' q' cs' (qok_good _ Hok) Hop) as [Ho _].
  rewrite app_assoc, Ho, <- app_assoc, IH. by rewrite app_assoc.
Qed.

(** A channel handed to a waiter: it is closed by now, or it is still the
    queue's channel and nothing is ready. *)
Definition waiting_or_woken (ch : chan) (σ : qstate) : Prop :=
  ch ∈ ch_closed (qs_chans σ) ∨
  (q_readyNotify (qs_queue σ) = ch ∧ q_Ready (qs_queue σ) = []).

Lemma step_closed_mono σ op out σ' ch :
  qstep σ op out σ' → qok σ →
  ch ∈ ch_closed (qs_chans σ) → ch ∈ ch_closed (qs_chans σ').
Proof.
  intros [ro q cs hist op' out' q' cs' Hro He Hn Hop] Hok Hch. simpl in *.
  destruct (do_op_order ro op' q cs out' q' cs' (qok_good _ Hok) Hop) as [_ Hm].
  unfold notify_move in Hm. destruct (pushes (op', out')); destruct Hm as [-> _];
    [|done]. simpl. set_solver.
Qed.

Lemma step_waiting σ op out σ' ch :
  qstep σ op out σ' → qok σ → waiting_or_woken ch σ →
  waiting_or_woken ch σ' ∧
  (pushed (op, out) ≠ [] → ch ∈ ch_closed (qs_chans σ')).
Proof.
  intros Hstep Hok [Hch|[Hch Hr]].
  { pose proof (step_closed_mono _ _ _ _ _ Hstep Hok Hch). split; [by left|done]. }
  destruct Hstep as [ro q cs hist op' out' q' cs' Hro He Hn Hop].
  simpl in *. unfold waiting_or_woken; simpl.
  destruct (do_op_order ro op' q cs out' q' cs' (qok_good _ Hok) Hop) as [Ho Hm].
  rewrite Hr in Ho. csimpl in Ho. unfold notify_move, pushes in Hm.
  case_bool_decide as Hp; destruct Hm as [-> Hn'].
  - assert (ch ∈ ch_closed (notified_cs q cs)) by (simpl; set_solver). auto.
  - split; [right|done]. assert (pushed (op', out') = []) as Hp'.
    { destruct (pushed (op', out')); naive_solver. }
    rewrite Hp' in Ho. symmetry in Ho. apply app_nil in Ho as [_ Ho].
    apply fmap_nil_inv in Ho. rewrite <- Hn' in Hch. auto.
Qed.

Lemma trace_waiting σ tr σ' ch :
  qtrace σ tr σ' → qok σ → waiting_or_woken ch σ →
  waiting_or_woken ch σ' ∧
  (tr ≫= pushed ≠ [] → ch ∈ ch_closed (qs_chans σ')).
Proof.
  induction 1 as [σ|σ op out σ1 tr σ' Hstep Htr IH]; intros Hok Hw; [done|].
  destruct (step_waiting _ _ _ _ _ Hstep Hok Hw) as [Hw1 Hp].
  pose proof (qok_step _ _ _ _ Hstep Hok) as Hok1.
  destruct (IH Hok1 Hw1) as [Hw' Hp']. split; [done|]. csimpl.
  intros Hne. destruct (pushed (op, out)) as [|x l]; [by apply Hp'|].
  assert (ch ∈ ch_closed (qs_chans σ1)) as Hch by by apply Hp.
  clear IH Hw' Hp' Hw1 Hp Hne Hw Hok Hstep. induction Htr; [done|].
  eauto using qok_step, step_closed_mono.
Qed.

(** ** The in-flight limit *)

Lemma owned_count_delete c m k d :
  m !! k = Some d → owned_count c (delete k m) ≤ owned_count c m.
Proof.
  intros Hd. unfold owned_count. rewrite (values_delete m k d) by done.
  rewrite filter_cons. case_decide; simpl; lia.
Qed.

Lemma owned_count_insert c c' m d :
  m !! dl_ID d = None →
  owned_count c (<[dl_ID d := leased c' d]> m) =
  (if decide (c' = c) then 1 else 0) + owned_count c m.
Proof.
  intros Hd. unfold owned_count. rewrite map_to_list_insert by done. csimpl.
  rewrite filter_cons. simpl. by destruct (decide (c' = c)).
Qed.

Lemma owned_count_kept c c' m : owned_count c (kept_of c' m) ≤ owned_count c m.
Proof.
  unfold owned_count. rewrite values_kept.
  rewrite <- (filter_app_complement (λ d, dl_ConsumerID d = c') (map_to_list m).*2) at 2.
  rewrite filter_app, length_app. lia.
Qed.

(** Every fetch of the history is made with the limit [max]. *)
Definition fetches_with (max : Z) (op : qop) : Prop :=
  match op with OFetch _ max' => max' = max | _ => True end.

Definition within_limit (max : Z) (q : Queue) : Prop :=
  ∀ c, (Z.of_nat (owned_count c (q_InFlight q)) ≤ max)%Z.

Lemma within_limit_taken max k d q :
  q_InFlight q !! k = Some d → within_limit max q →
  within_limit max (set_InFlight (delete k (q_InFlight q)) q).
Proof.
  intros Hd Hl c. specialize (Hl c). simpl.
  pose proof (owned_count_delete c _ _ _ Hd). lia.
Qed.

Lemma do_op_limit ro `{!RangeOrder ro} max op q cs out q' cs' :
  (0 < max)%Z → good (q, cs) → fetches_with max op →
  do_op ro op (q, cs) = Val (out, (q', cs')) →
  within_limit max q → within_limit max q'.
Proof.
  intros Hmax [Hq Hcs Ho] Hop Hdo Hl. simpl in *. revert Hdo.
  unfold do_op. destruct op as [d|d|id msg|c max'|id c|id c|c|c]; go_unfold.
  - rewrite EnqueueDelivery_eq by done. by intros [= <- <- <-].
  - rewrite RestoreReady_eq, EnqueueDelivery_eq by done. by intros [= <- <- <-].
  - rewrite Append_eq by done. by intros [= <- <- <-].
  - simpl in Hop. subst max'. rewrite FetchOrWait_eq by done. intros H.
    repeat case_match; simplify_eq; [done|done| |done].
    intros c'. simpl. rewrite owned_count_insert.
    + unfold at_limit in *. case_bool_decide; [done|]. specialize (Hl c').
      destruct (decide (c = c')) as [->|]; lia.
    + apply ready_not_in_flight; [done|].
      match goal with H : q_Ready q = _ |- _ => rewrite H end. by left.
  - rewrite Ack_eq. intros H. repeat case_match; simplify_eq; try done.
    by eapply within_limit_taken.
  - rewrite Reject_eq by done. cbv zeta. intros H.
    repeat case_match; simplify_eq; try done; by eapply within_limit_taken.
  - rewrite DisconnectConsumer_eq by (done || apply Hq). cbv zeta. intros H.
    assert (within_limit max (disconnected c (returned_of c (q_InFlight q)
              (ro (keys (q_InFlight q)))) q)).
    { intros c'. specialize (Hl c'). simpl.
      pose proof (owned_count_kept c' c (q_InFlight q)). lia. }
    case_decide; by simplify_eq.
  - intros. by simplify_eq.
Qed.

Lemma trace_limit max σ tr σ' :
  (0 < max)%Z → qtrace σ tr σ' → qok σ → Forall (λ ev, fetches_with max ev.1) tr →
  within_limit max (qs_queue σ) → within_limit max (qs_queue σ').
Proof.
  intros Hmax. induction 1 as [σ|σ op out σ1 tr σ' Hstep _ IH];
    intros Hok Hf Hl; [done|].
  apply Forall_cons in Hf as [Hop Hf].
  apply IH; [by eapply qok_step|done|].
  destruct Hstep as [ro q cs hist op' out' q' cs' Hro He Hn Hdo]. simpl in *.
  eapply do_op_limit; eauto. apply Hok.
Qed.

(** ** Conservation *)

Definition entered (ev : qop * qout) : list string := new_ids ev.1.

Definition removed (ev : qop * qout) : list string :=
  match ev with
  | (OAck id _, OutAck (Ok _)) => [id]
  | (OReject id _, OutReject (Ok (_, true))) => [id]
  | _ => []
  end.

Lemma tags_move_conserves op out l l' :
  tags_move op out l l' → new_ids op ++ l.*1 ≡ₚ removed (op, out) ++ l'.*1.
Proof.
  intros H. destruct op; [by simpl in H; rewrite H|by simpl in H; rewrite H|
    by simpl in H; rewrite H|..];
    destruct out as [| |[[]|]|[[? []]|]| |]; simpl in *; try by rewrite H.
  - by destruct H as [m ->].
  - by destruct H as [<- ->].
Qed.

Lemma step_conserves σ op out σ' :
  qstep σ op out σ' → qok σ →
  entered (op, out) ++ ids (qs_queue σ) ≡ₚ removed (op, out) ++ ids (qs_queue σ').
Proof.
  intros [ro q cs hist op' out' q' cs' Hro He Hn Hop] [Hg Hh]. simpl in *.
  assert (Forall (λ id, id ∉ ids q) (new_ids op')) as Hn'.
  { eapply Forall_impl; [done|]. intros id Hid Hin. by apply Hid, Hh. }
  destruct (do_op_ok ro op' q cs Hg He Hn') as (o & q1 & cs1 & Ho & Hg1 & Hmove).
  rewrite Hop in Ho. injection Ho as <- <- <-.
  rewrite !ids_tags. by apply tags_move_conserves.
Qed.

Lemma trace_conserves σ tr σ' :
  qtrace σ tr σ' → qok σ →
  (tr ≫= entered) ++ ids (qs_queue σ) ≡ₚ (tr ≫= removed) ++ ids (qs_queue σ').
Proof.
  induction 1 as [σ|σ op out σ1 tr σ' Hstep _ IH]; intros Hok; [done|].
  pose proof (step_conserves _ _ _ _ Hstep Hok) as H1.
  specialize (IH (qok_step _ _ _ _ Hstep Hok)).
  change ((((op, out) :: tr) ≫= entered)) with (entered (op, out) ++ (tr ≫= entered)).
  change ((((op, out) :: tr) ≫= removed)) with (removed (op, out) ++ (tr ≫= removed)).
  rewrite <- !app_assoc, <- IH.
  rewrite (Permutation_app_comm (tr ≫= entered) (ids _)), app_assoc, H1.
  rewrite <- !app_assoc. apply Permutation_app_head, Permutation_app_comm.
Qed.

(** ** Executable histories *)

#[export] Instance enqueue_ok_dec op : Decision (enqueue_ok op).
Proof. destruct op; simpl; apply _. Defined.

(** Plays a list of calls, every range in the map's own order. *)
Fixpoint play (ops : list qop) (σ : qstate) : option (list (qop * qout) * qstate) :=
  match ops with
  | [] => Some ([], σ)
  | op :: ops =>
      if decide (enqueue_ok op ∧ Forall (λ id, id ∉ qs_hist σ) (new_ids op)) then
        match do_op id op (qs_queue σ, qs_chans σ) with
        | Val (out, (q, cs)) =>
            '(tr, σ') ← play ops (QS q cs (list_to_set (new_ids op) ∪ qs_hist σ));
            Some ((op, out) :: tr, σ')
        | Panic => None
        end
      else None
  end.

#[export] Instance id_range_order : RangeOrder id.
Proof. by intros ks. Qed.

Lemma play_trace ops σ tr σ' : play ops σ = Some (tr, σ') → qtrace σ tr σ'.
Proof.
  revert σ tr. induction ops as [|op ops IH]; intros [q cs h] tr H; simpl in H.
  { simplify_eq. constructor. }
  case_decide as Hok; [|done]. destruct Hok as [He Hf].
  destruct (do_op id op (q, cs)) as [[out [q1 cs1]]|] eqn:Hop; [|done].
  destruct (play ops _) as [[tr1 σ1]|] eqn:Hp; simplify_eq/=.
  econstructor; [|by apply IH].
  by apply (QStep id); [apply _|..].
Qed.


(** ** A history to test the properties on *)

Definition demo_chans : Chans := mkChans ∅ 1%positive.

Definition demo_queue : Queue :=
  mkQueue "users" ["corp.users.*"] true false 3 [] ∅ ∅ 1%positive.

Definition demo_state : qstate := QS demo_queue (mkChans ∅ 2%positive) ∅.

Lemma demo_init : qinit demo_state.
Proof. by apply (QInit "users" true false 3 ["corp.users.*"] demo_chans). Qed.

Definition demo_message : Message := mkMessage [Byte.x68; Byte.x69] "corp.users.create".

Definition demo_ops : list qop :=
  [OAddConsumer "c1"; OAddConsumer "c2";
   OEnqueue (mkDelivery "d1" demo_message "" 0);
   OAppend "d2" demo_message;
   OFetch "c1" 1; OFetch "c1" 1; OReject "d1" "c1"; OFetch "c2" 1; OAck "d2" "c2";
   OFetch "c2" 1; ODisconnect "c2"; OFetch "c1" 1].

(** The history of [demo_ops] and the state it ends in. *)
Definition demo_run : list (qop * qout) * qstate :=
  default ([], demo_state) (play demo_ops demo_state).

Lemma demo_trace : qtrace demo_state demo_run.1 demo_run.2.
Proof. apply (play_trace demo_ops). vm_compute. reflexivity. Qed.

(** ** Properties *)

(** C28: over any history of a queue - any sequence of calls with fresh delivery
    ids, whatever the order of the ranges over its maps - the queue stays well
    formed (in-flight deliveries are filed under their ids and belong to
    registered consumers, ready deliveries belong to nobody, no delivery is held
    twice), and no further call panics: in particular the notification channel
    is never closed twice. *)
Theorem queue_invariant σ0 tr σ :
  qinit σ0 → qtrace σ0 tr σ →
  queue_inv (qs_queue σ) ∧
  ∀ ro op, RangeOrder ro → enqueue_ok op →
    Forall (λ id, id ∉ qs_hist σ) (new_ids op) →
    ∃ out q' cs', do_op ro op (qs_queue σ, qs_chans σ) = Val (out, (q', cs')).
Proof.
  intros H0 Htr. destruct (qok_trace _ _ _ Htr (qok_init _ H0)) as [Hg Hh].
  split; [apply Hg|]. intros ro op Hro He Hn.
  destruct (do_op_ok ro op (qs_queue σ) (qs_chans σ) Hg He) as (out & q' & cs' & H & _).
  - eapply Forall_impl; [done|]. intros id Hid Hin. by apply Hid, Hh.
  - eauto.
Qed.

Lemma queue_invariant_witness :
  queue_inv (qs_queue demo_run.2) ∧
  ∃ out q' cs', do_op id (ODisconnect "c1") (qs_queue demo_run.2, qs_chans demo_run.2)
                = Val (out, (q', cs')).
Proof.
  destruct (queue_invariant demo_state demo_run.1 demo_run.2 demo_init demo_trace)
    as [Hi Hp].
  split; [exact Hi|]. apply Hp; [apply _|exact I|constructor].
Defined.

(** C7: nothing is lost and nothing is invented: over any history the ids that
    entered a queue are exactly, with multiplicity, the ids acknowledged or
    dead-lettered and the ids still held (ready or in flight). *)
Theorem queue_conservation σ0 tr σ :
  qinit σ0 → qtrace σ0 tr σ →
  (tr ≫= entered) ≡ₚ (tr ≫= removed) ++ ids (qs_queue σ).
Proof.
  intros H0 Htr. rewrite <- (trace_conserves _ _ _ Htr (qok_init _ H0)).
  assert (ids (qs_queue σ0) = []) as ->; [|by rewrite app_nil_r].
  destruct H0 as [name d a max f cs q cs' Hcs Hnew].
  revert Hnew. unfold Queue.NewQueue, make_chan. go_unfold. by intros [= <- <-].
Qed.

Lemma queue_conservation_witness :
  (demo_run.1 ≫= entered) ≡ₚ (demo_run.1 ≫= removed) ++ ids (qs_queue demo_run.2)
  ∧ (demo_run.1 ≫= removed) = ["d2"].
Proof.
  split; [exact (queue_conservation _ _ _ demo_init demo_trace)|].
  vm_compute. reflexivity.
Defined.

(** C10: the queue implements the delivery life cycle: every history of a fresh
    queue is a history of the abstract machine - pending, leased to one consumer
    with its attempt counted, then acknowledged, dead-lettered or pending again
    - with the same outputs, and the final states correspond. *)
Theorem queue_refines_life_cycle σ0 tr σ :
  qinit σ0 → qtrace σ0 tr σ →
  ∃ m, life_trace ∅ tr m ∧ refines (qs_queue σ) m ∧ dom m = qs_hist σ.
Proof.
  intros H0 Htr. destruct (init_life _ _ _ H0 Htr) as (m & Hm & [Hr Hd]). eauto.
Qed.

Lemma queue_refines_life_cycle_witness :
  ∃ m, life_trace ∅ demo_run.1 m ∧ refines (qs_queue demo_run.2) m
       ∧ dom m = qs_hist demo_run.2.
Proof. exact (queue_refines_life_cycle _ _ _ demo_init demo_trace). Defined.

(** The call settles delivery [id]: it is acknowledged or given up. *)
Definition settles (id : string) (ev : qop * qout) : Prop := id ∈ removed ev.

Lemma settles_life m op out m' id :
  life_step m op out m' → settles id (op, out) →
  ∃ e, m' !! id = Some e ∧ settled (e_status e).
Proof.
  unfold settles. intros Hstep Hs.
  destruct Hstep as [| | |id' msg n c max Hid|id' msg n c Hid|id' msg n c Hid| | | |op out Hn Herr];
    simpl in Hs; try by apply not_elem_of_nil in Hs.
  1,2: apply list_elem_of_singleton in Hs as ->; eexists; rewrite lookup_insert_eq;
       split; [done|]; unfold settled; simpl; auto.
  destruct op, out as [| |[]|[]| |]; simpl in *; try done; by apply not_elem_of_nil in Hs.
Qed.

(** C8: a delivery that was acknowledged or dead-lettered is never handed out
    again, whatever happens to the queue afterwards. *)
Theorem settled_never_redelivered σ0 tr1 ev tr2 σ id :
  qinit σ0 → qtrace σ0 (tr1 ++ ev :: tr2) σ → settles id ev →
  ∀ c max d, (OFetch c max, OutFetch (d, None, None)) ∈ tr2 → dl_ID d ≠ id.
Proof.
  intros H0 Htr Hs. destruct (init_life _ _ _ H0 Htr) as (m & Hm & _).
  apply life_trace_app in Hm as (m1 & _ & Hm). destruct ev as [op out].
  inversion Hm as [|? ? ? m2 ? ? Hstep Hm2]; subst.
  destruct (settles_life _ _ _ _ _ Hstep Hs) as (e & He & Hset).
  apply (life_trace_settled _ _ _ _ _ Hm2 He Hset).
Qed.

Lemma settled_never_redelivered_witness :
  let d := mkDelivery "d1" demo_message "c2" 2 in
  (OFetch "c2" 1, OutFetch (d, None, None)) ∈ drop 9 demo_run.1 ∧ dl_ID d ≠ "d2".
Proof.
  assert ((OFetch "c2" 1, OutFetch (mkDelivery "d1" demo_message "c2" 2, None, None))
            ∈ drop 9 demo_run.1) as Hin by (vm_compute; constructor).
  split; [exact Hin|].
  refine (settled_never_redelivered demo_state (take 8 demo_run.1)
            (OAck "d2" "c2", OutAck (Ok tt)) (drop 9 demo_run.1) demo_run.2 "d2"
            demo_init _ _ "c2" 1%Z _ Hin).
  - replace (take 8 demo_run.1 ++ _) with demo_run.1 by (vm_compute; reflexivity).
    exact demo_trace.
  - vm_compute. constructor.
Defined.

(** C9: leases are exclusive: between two hand-outs of one delivery, its first
    holder gave it back by a negative acknowledgement or by disconnecting. *)
Theorem lease_exclusive σ0 tr1 c1 max1 d1 tr2 c2 max2 d2 tr3 σ :
  qinit σ0 →
  qtrace σ0 (tr1 ++ (OFetch c1 max1, OutFetch (d1, None, None)) :: tr2
                 ++ (OFetch c2 max2, OutFetch (d2, None, None)) :: tr3) σ →
  dl_ID d1 = dl_ID d2 →
  Exists (gives_back c1 (dl_ID d1)) tr2.
Proof.
  intros H0 Htr Heq. destruct (init_life _ _ _ H0 Htr) as (m & Hm & _).
  apply life_trace_app in Hm as (m1 & _ & Hm).
  inversion Hm as [|? ? ? m2 ? ? Hstep1 Hm2]; subst.
  apply life_trace_app in Hm2 as (m3 & Htr2 & Hm3).
  inversion Hm3 as [|? ? ? m4 ? ? Hstep2 _]; subst.
  destruct (fetched_leased _ _ _ _ _ _ _ Hstep1 eq_refl eq_refl) as [_ Ht].
  destruct (fetched_leased _ _ _ _ _ _ _ Hstep2 eq_refl eq_refl) as [(e & He & Hp) _].
  destruct (life_trace_taken _ _ _ _ _ Htr2 Ht) as [?|(e' & He' & Hs)]; [done|].
  rewrite Heq, He in He'. simplify_eq. rewrite Hp in Hs.
  destruct Hs as [?|[?|?]]; done.
Qed.

Lemma lease_exclusive_witness :
  Exists (gives_back "c1" "d1") (take 4 (drop 5 demo_run.1)).
Proof.
  refine (lease_exclusive demo_state (take 4 demo_run.1)
            "c1" 1 (mkDelivery "d1" demo_message "c1" 1) (take 4 (drop 5 demo_run.1))
            "c2" 1 (mkDelivery "d1" demo_message "c2" 2) (drop 10 demo_run.1)
            demo_run.2 demo_init _ eq_refl).
  replace (take 4 demo_run.1 ++ _) with demo_run.1 by (vm_compute; reflexivity).
  exact demo_trace.
Defined.

(** C11: first in, first out: what was ready at the start, followed by what the
    calls put into the queue (new deliveries, negatively acknowledged ones, those
    of departed consumers), is what was handed out, in that order, followed by
    what is ready at the end. *)
Theorem queue_fifo σ0 tr σ tr' σ' :
  qinit σ0 → qtrace σ0 tr σ → qtrace σ tr' σ' →
  (tag <$> q_Ready (qs_queue σ)) ++ (tr' ≫= pushed) =
  (tr' ≫= popped) ++ (tag <$> q_Ready (qs_queue σ')).
Proof.
  intros H0 Htr Htr'. apply trace_order; [done|].
  eapply qok_trace; [done|by apply qok_init].
Qed.

Lemma queue_fifo_witness :
  [] ++ (demo_run.1 ≫= pushed) =
  (demo_run.1 ≫= popped) ++ (tag <$> q_Ready (qs_queue demo_run.2))
  ∧ (demo_run.1 ≫= popped).*1 = ["d1"; "d2"; "d1"; "d1"].
Proof.
  split; [|vm_compute; reflexivity].
  exact (queue_fifo demo_state [] demo_state demo_run.1 demo_run.2
           demo_init (QNil demo_state) demo_trace).
Defined.

(** C13: when every fetch is made with the limit [max > 0], no consumer ever has
    more than [max] deliveries in flight. *)
Theorem in_flight_limit max σ0 tr σ :
  (0 < max)%Z → qinit σ0 → qtrace σ0 tr σ →
  Forall (λ ev, fetches_with max ev.1) tr →
  ∀ c, (Z.of_nat (owned_count c (q_InFlight (qs_queue σ))) ≤ max)%Z.
Proof.
  intros Hmax H0 Htr Hf.
  apply (trace_limit max σ0 tr σ); [done|done|by apply qok_init|done|].
  intros c. destruct H0 as [name d a m f cs q cs' Hcs Hnew].
  revert Hnew. unfold Queue.NewQueue, make_chan. go_unfold. intros [= <- <-].
  simpl. unfold owned_count. rewrite map_to_list_empty. simpl. lia.
Qed.

Lemma in_flight_limit_witness :
  (Z.of_nat (owned_count "c1" (q_InFlight (qs_queue demo_run.2))) ≤ 1)%Z
  ∧ owned_count "c1" (q_InFlight (qs_queue demo_run.2)) = 1.
Proof.
  split; [|vm_compute; reflexivity].
  apply (in_flight_limit 1 demo_state demo_run.1 demo_run.2 ltac:(lia)
           demo_init demo_trace).
  vm_compute. repeat constructor.
Defined.

(** C12: no wake-up is lost: after a fetch that found the queue empty and was
    handed a channel to wait on, that channel is closed as soon as any later call
    puts something into the queue; as long as it is open, nothing is ready. *)
Theorem no_lost_wakeup σ0 tr0 σ c max d ch tr σ' :
  qinit σ0 →
  qtrace σ0 (tr0 ++ [(OFetch c max, OutFetch (d, Some ch, Some QueueEmpty))]) σ →
  qtrace σ tr σ' →
  (tr ≫= pushed ≠ [] → chan_closed ch (qs_chans σ') = true) ∧
  (chan_closed ch (qs_chans σ') = false → q_Ready (qs_queue σ') = []).
Proof.
  intros H0 Htr0 Htr.
  pose proof (qok_trace _ _ _ Htr0 (qok_init _ H0)) as Hok.
  assert (waiting_or_woken ch σ) as Hw.
  { clear Htr Hok. pose proof (qok_init _ H0) as Hok. clear H0.
    induction tr0 as [|[op out] tr0 IH] in σ0, Htr0, Hok |- *; simpl in Htr0;
      inversion Htr0 as [|? ? ? σ1 ? ? Hstep Htr1]; subst; [|eauto using qok_step].
    inversion Htr1; subst.
    inversion Hstep as [ro q cs hist op' out' q' cs' Hro He Hn Hop]; subst.
    revert Hop. unfold do_op. go_unfold. rewrite FetchOrWait_eq by done.
    intros Hop. repeat case_match; simplify_eq. by right. }
  destruct (trace_waiting _ _ _ _ Htr Hok Hw) as [[Hch|[_ Hr]] Hp]; unfold chan_closed.
  - split; [by rewrite bool_decide_true|]. by rewrite bool_decide_true.
  - split; [|done]. intros Hne. rewrite bool_decide_true; auto.
Qed.

Definition wait_run : list (qop * qout) * qstate :=
  default ([], demo_state)
    (play [OAddConsumer "c1"; OFetch "c1" 0] demo_state).

Definition wake_run : list (qop * qout) * qstate :=
  default ([], demo_state)
    (play [OAppend "d1" demo_message] wait_run.2).

Lemma no_lost_wakeup_witness :
  chan_closed 1%positive (qs_chans wait_run.2) = false ∧
  chan_closed 1%positive (qs_chans wake_run.2) = true.
Proof.
  split; [vm_compute; reflexivity|].
  refine (proj1 (no_lost_wakeup demo_state [(OAddConsumer "c1", OutUnit)] wait_run.2
            "c1" 0 Delivery_zero 1%positive wake_run.1 wake_run.2 demo_init _ _) _).
  - apply (play_trace [OAddConsumer "c1"; OFetch "c1" 0]). vm_compute. reflexivity.
  - apply (play_trace [OAppend "d1" demo_message]).
    vm_compute. reflexivity.
  - vm_compute. discriminate.
Defined.

(** C29: what [Reject] decides, on every branch and whatever order the runtime
    ranges over the consumers in: an unknown delivery and a delivery of another
    consumer are errors that leave the queue as it was; a delivery whose attempts
    have reached a positive [MaxAttempts], or that no other registered consumer
    could take, leaves the queue to be dead-lettered; any other one goes back to
    the end of [Ready], owned by nobody, with its attempts kept. *)
Theorem reject_decision ro id c q cs :
  RangeOrder ro → notify_open q cs →
  Queue.Reject ro id c (q, cs) =
  match q_InFlight q !! id with
  | None => Val (Err DeliveryNotFound, (q, cs))
  | Some d =>
      if bool_decide (dl_ConsumerID d = c) then
        let q' := set_InFlight (delete id (q_InFlight q)) q in
        if bool_decide ((0 < q_MaxAttempts q ∧ q_MaxAttempts q ≤ dl_Attempts d)%Z
                        ∨ q_Consumers q ⊆ {[c]})
        then Val (Ok (d, true), (q', cs))
        else Val (Ok (set_ConsumerID "" d, false),
                  (notified_q (push (set_ConsumerID "" d) q') cs, notified_cs q cs))
      else Val (Err DeliveryOwnerMismatch, (q, cs))
  end.
Proof.
  intros Hro Ho. rewrite Reject_eq by done.
  destruct (q_InFlight q !! id) as [d|]; [|done].
  destruct (decide (dl_ConsumerID d = c)) as [Hc|Hc];
    [rewrite bool_decide_true by done|by rewrite bool_decide_false].
  cbv zeta.
  replace (exhausted q d || negb (Queue.other_consumer ro c q)) with
    (bool_decide ((0 < q_MaxAttempts q ∧ q_MaxAttempts q ≤ dl_Attempts d)%Z
                  ∨ q_Consumers q ⊆ {[c]})); [done|].
  apply eq_bool_prop_intro. rewrite bool_decide_spec, Is_true_true.
  symmetry. by apply gives_up_iff.
Qed.

Lemma reject_decision_witness :
  Queue.Reject id "d1" "c1" (qs_queue demo_run.2, qs_chans demo_run.2) =
  Val (Ok (mkDelivery "d1" demo_message "c1" 3, true),
       (set_InFlight (delete "d1" (q_InFlight (qs_queue demo_run.2)))
          (qs_queue demo_run.2), qs_chans demo_run.2)).
Proof.
  rewrite (reject_decision id "d1" "c1"); [vm_compute; reflexivity|apply _|].
  split; [|vm_compute; reflexivity].
  apply (bool_decide_unpack _). vm_compute. exact I.
Defined.
