(* ===== verification/CoreExchange.v ===== *)
(** * Exchanges and the broker

    [internal/core/exchange.go] and [internal/core/broker.go].  Exchanges and
    queues are shared by pointer: handlers keep a [*Exchange] or a [*Queue] across
    other goroutines' steps, so both live in heaps, and [Exchange.Queues] and
    [Broker.Exchanges] map names to references.  A method is a program whose
    atomic steps are its critical sections. *)

From S2P Require Import Prelude Errors Process Routing CoreQueue.

(** ** What the runtime chooses

    [uuid_at n] is the n-th UUID that [uuid.New().String()] produces, and
    [range_at n] the order of the n-th range over a map.  [GoEnvOk] states what the
    code relies on: UUIDs do not repeat, and a range visits every key once. *)

Class GoEnv : Type := {
  uuid_at : nat → string;
  range_at : nat → list string → list string;
}.

Class GoEnvOk (E : GoEnv) : Prop := {
  uuid_inj : Inj (=) (=) uuid_at;
  range_order n :: RangeOrder (range_at n);
}.

(** ** Shared memory *)

Definition qref : Type := positive.
Definition eref : Type := positive.

Record Exchange : Type := mkExchange {
  ex_Name : string;
  ex_Queues : gmap string qref;
}.

Record Core : Type := mkCore {
  co_Exchanges : gmap string eref;   (** [Broker.Exchanges] *)
  co_eheap : gmap eref Exchange;
  co_qheap : gmap qref Queue;
  co_chans : Chans;
  co_enext : eref;
  co_qnext : qref;
  co_uuids : nat;                    (** UUIDs drawn so far *)
  co_ranges : nat;                   (** ranges over maps so far *)
}.

Definition set_Exchanges (x : gmap string eref) (s : Core) : Core :=
  mkCore x (co_eheap s) (co_qheap s) (co_chans s) (co_enext s) (co_qnext s)
    (co_uuids s) (co_ranges s).

Definition set_eheap (x : gmap eref Exchange) (s : Core) : Core :=
  mkCore (co_Exchanges s) x (co_qheap s) (co_chans s) (co_enext s) (co_qnext s)
    (co_uuids s) (co_ranges s).

Definition set_queue (r : qref) (q : Queue) (cs : Chans) (s : Core) : Core :=
  mkCore (co_Exchanges s) (co_eheap s) (<[r := q]> (co_qheap s)) cs
    (co_enext s) (co_qnext s) (co_uuids s) (co_ranges s).

Definition CM : Type → Type := GoM Core.

Section core.
Context `{E : GoEnv}.

Definition new_uuid : CM string := λ s,
  Val (uuid_at (co_uuids s),
       mkCore (co_Exchanges s) (co_eheap s) (co_qheap s) (co_chans s)
         (co_enext s) (co_qnext s) (S (co_uuids s)) (co_ranges s)).

Definition next_range : CM (list string → list string) := λ s,
  Val (range_at (co_ranges s),
       mkCore (co_Exchanges s) (co_eheap s) (co_qheap s) (co_chans s)
         (co_enext s) (co_qnext s) (co_uuids s) (S (co_ranges s))).

(** Dereferences; a nil or dangling pointer would panic. *)
Definition read_queue (r : qref) : CM Queue := λ s,
  match co_qheap s !! r with Some q => Val (q, s) | None => Panic end.

Definition read_exchange (e : eref) : CM Exchange := λ s,
  match co_eheap s !! e with Some x => Val (x, s) | None => Panic end.

Definition write_Queues (e : eref) (f : gmap string qref → gmap string qref) : CM unit :=
  x ← read_exchange e;
  modify (λ s, set_eheap (<[e := mkExchange (ex_Name x) (f (ex_Queues x))]> (co_eheap s)) s).

(** A method of the queue at [r]. *)
Definition on_queue {A} (r : qref) (m : QM A) : CM A := λ s,
  match co_qheap s !! r with
  | Some q =>
      match m (q, co_chans s) with
      | Val (a, (q', cs')) => Val (a, set_queue r q' cs' s)
      | Panic => Panic
      end
  | None => Panic
  end.

(** A method that ranges over one of the queue's maps. *)
Definition on_queue_range {A} (r : qref) (m : (list string → list string) → QM A) :
    CM A :=
  ro ← next_range; on_queue r (m ro).

(** Allocating a queue, [core.NewQueue]. *)
Definition alloc_queue (m : GoM Chans Queue) : CM qref := λ s,
  match m (co_chans s) with
  | Val (q, cs) =>
      Val (co_qnext s,
           mkCore (co_Exchanges s) (co_eheap s) (<[co_qnext s := q]> (co_qheap s)) cs
             (co_enext s) (Pos.succ (co_qnext s)) (co_uuids s) (co_ranges s))
  | Panic => Panic
  end.

Definition alloc_exchange (x : Exchange) : CM eref := λ s,
  Val (co_enext s,
       mkCore (co_Exchanges s) (<[co_enext s := x]> (co_eheap s)) (co_qheap s)
         (co_chans s) (Pos.succ (co_enext s)) (co_qnext s) (co_uuids s) (co_ranges s)).
End core.

(** A delivery together with the queue it was routed to. *)
Record PublishedDelivery : Type := mkPublishedDelivery {
  pd_QueueName : string;
  pd_Queue : qref;
  pd_Delivery : Delivery;
  pd_Message : Message;
}.

Record NAckResult : Type := mkNAckResult {
  na_Delivery : Delivery;
  na_DeadLetter : DeadLetter;
  na_IsDead : bool;
}.

(** ** Filters of a registration *)

(** Both ranges are over sets and stop at the first missing element; their order
    cannot be observed. *)
Definition equalFilters (a b : list RoutingFilter) : bool :=
  if decide (length a ≠ length b) then false
  else
    let mapA : gset string := list_to_set a in
    let mapB : gset string := list_to_set b in
    forallb (λ v, bool_decide (v ∈ mapB)) (elements mapA).

Definition validFilters (filters : list RoutingFilter) : bool :=
  forallb RoutingFilter.IsValid filters.

(** ** Exchanges *)

Module Exchange.
Section exchange.
Context `{E : GoEnv}.

(** The body of [RegisterQueue], which runs under [e.mu]. *)
Definition register_locked (e : eref) (name : string)
    (IsDurable IsAutoDelete : bool) (maxAttempts : Z)
    (filters : list RoutingFilter) : CM (result qref) :=
  x ← read_exchange e;
  match ex_Queues x !! name with
  | Some queue =>
      q ← read_queue queue;
      if bool_decide (q_IsDurable q = IsDurable)
         && bool_decide (q_IsAutoDelete q = IsAutoDelete)
         && bool_decide (q_MaxAttempts q = maxAttempts)
         && equalFilters (q_Filters q) filters
      then mret (Ok queue)
      else mret (Err QueueAlreadyExist)
  | None =>
      if IsDurable && IsAutoDelete then mret (Err QueueFlagsConflict)
      else if decide (maxAttempts < 0)%Z then mret (Err MaxAttemptsIncorrect)
      else if negb (validFilters filters) then mret (Err FiltersIncorrect)
      else
        queue ← alloc_queue
          (Queue.NewQueue name IsDurable IsAutoDelete maxAttempts filters);
        write_Queues e (insert name queue);;
        mret (Ok queue)
  end.

Definition RegisterQueue (e : eref) (name : string)
    (IsDurable IsAutoDelete : bool) (maxAttempts : Z)
    (filters : list RoutingFilter) : prog Core (result qref) :=
  atomic (register_locked e name IsDurable IsAutoDelete maxAttempts filters).

Definition delete_locked (e : eref) (name : string) : CM (result unit) :=
  x ← read_exchange e;
  match ex_Queues x !! name with
  | None => mret (Err QueueNotFound)
  | Some queue =>
      h ← on_queue queue Queue.HasConsumers;
      if (h : bool) then mret (Err QueueHasConsumers)
      else write_Queues e (delete name);; mret (Ok tt)
  end.

Definition DeleteQueue (e : eref) (name : string) : prog Core (result unit) :=
  atomic (delete_locked e name).

Definition GetQueue (e : eref) (name : string) : prog Core (result qref) :=
  atomic (x ← read_exchange e;
          match ex_Queues x !! name with
          | None => mret (Err QueueNotFound)
          | Some queue => mret (Ok queue)
          end).

(** The copy of [e.Queues] that [Route] and [HasActiveConsumers] take under
    the read lock, in the order of the range. *)
Definition snapshot (e : eref) : CM (list qref) :=
  x ← read_exchange e;
  ro ← next_range;
  mret (omap (λ name, ex_Queues x !! name) (ro (keys (ex_Queues x)))).

Fixpoint route_loop (key : RoutingKey) (msg : Message) (queues : list qref)
    (published : list PublishedDelivery) : prog Core (list PublishedDelivery) :=
  match queues with
  | [] => Ret published
  | q :: queues =>
      queue ← atomic (read_queue q);
      if Queue.MatchFilters key queue
      then route_loop key msg queues
             (published ++ [mkPublishedDelivery (q_Name queue) q Delivery_zero msg])
      else route_loop key msg queues published
  end.

Definition Route (e : eref) (routingKey : string) (payload : list Byte.byte) :
    prog Core (result (list PublishedDelivery)) :=
  if negb (RoutingKey.IsValid routingKey) then Ret (Err InvalidRoutingKey)
  else
    queues ← atomic (snapshot e);
    published ← route_loop routingKey (mkMessage payload routingKey) queues [];
    Ret (Ok published).

Definition append_one (p : PublishedDelivery) : prog Core PublishedDelivery :=
  delivery ← atomic (id ← new_uuid;
                     on_queue (pd_Queue p) (Queue.Append id (pd_Message p)));
  Ret (mkPublishedDelivery (pd_QueueName p) (pd_Queue p) delivery (pd_Message p)).

Definition Publish (e : eref) (routingKey : string) (payload : list Byte.byte) :
    prog Core (result (list PublishedDelivery)) :=
  published <-? Route e routingKey payload;;
  appended ← map_prog append_one published;
  Ret (Ok appended).

Definition EnqueueDelivery (e : eref) (queueName : string) (delivery : Delivery) :
    prog Core (result unit) :=
  queue <-? GetQueue e queueName;;
  atomic (on_queue queue (Queue.EnqueueDelivery delivery));;
  Ret (Ok tt).

(** The delivery, the channel to wait on, the error. *)
Definition FetchOrWait (e : eref) (queueName consumerID : string) (maxInFlight : Z) :
    prog Core (Delivery * option chan * option error) :=
  g ← GetQueue e queueName;
  match g with
  | Err err => Ret (Delivery_zero, None, Some err)
  | Ok queue =>
      r ← atomic (on_queue_range queue
                    (λ ro, Queue.FetchOrWait ro consumerID maxInFlight));
      let '(delivery, waitCh, err) := r in
      match err with
      | Some err => Ret (Delivery_zero, waitCh, Some err)
      | None => Ret (delivery, None, None)
      end
  end.

Definition Ack (e : eref) (queueName deliveryID consumerID : string) :
    prog Core (result unit) :=
  queue <-? GetQueue e queueName;;
  atomic (on_queue queue (Queue.Ack deliveryID consumerID)) ?;
  Ret (Ok tt).

Definition dead_reason : string := "nack without another consumer".

Definition NAck (e : eref) (queueName deliveryID consumerID : string) :
    prog Core (result NAckResult) :=
  queue <-? GetQueue e queueName;;
  r <-? atomic (on_queue_range queue
                  (λ ro, Queue.Reject ro deliveryID consumerID));;
  let '(delivery, shouldDeadLetter) := (r : Delivery * bool) in
  let deadLetter :=
    if shouldDeadLetter
    then mkDeadLetter (dl_Message delivery) queueName dead_reason
           (dl_Attempts delivery)
    else DeadLetter_zero in
  Ret (Ok (mkNAckResult delivery deadLetter shouldDeadLetter)).

Definition AddConsumer (e : eref) (queueName consumerID : string) :
    prog Core (result unit) :=
  queue <-? GetQueue e queueName;;
  atomic (on_queue queue (Queue.AddConsumer consumerID));;
  Ret (Ok tt).

Definition DisconnectConsumer (e : eref) (queueName consumerID : string) :
    prog Core (result (list Delivery)) :=
  queue <-? GetQueue e queueName;;
  returned ← atomic (on_queue_range queue
                       (λ ro, Queue.DisconnectConsumer ro consumerID));
  q ← atomic (read_queue queue);
  (if q_IsAutoDelete q then
     h ← atomic (on_queue queue Queue.HasConsumers);
     if (h : bool) then Ret tt else atomic (write_Queues e (delete queueName))
   else Ret tt);;
  Ret (Ok returned).

Fixpoint any_consumers (queues : list qref) : prog Core bool :=
  match queues with
  | [] => Ret false
  | queue :: queues =>
      h ← atomic (on_queue queue Queue.HasConsumers);
      if (h : bool) then Ret true else any_consumers queues
  end.

Definition HasActiveConsumers (e : eref) : prog Core bool :=
  queues ← atomic (snapshot e);
  any_consumers queues.
End exchange.
End Exchange.

(** ** The broker *)

Module Broker.
Section broker.
Context `{E : GoEnv}.

(** [NewBroker()], at the start of a process. *)
Definition NewBroker (uuids ranges : nat) : Core :=
  mkCore ∅ ∅ ∅ (mkChans ∅ 1%positive) 1%positive 1%positive uuids ranges.

Definition CreateExchange (name : string) : prog Core eref :=
  atomic (xs ← gets co_Exchanges;
          match xs !! name with
          | Some exchange => mret exchange
          | None =>
              exchange ← alloc_exchange (mkExchange name ∅);
              modify (λ s, set_Exchanges (<[name := exchange]> (co_Exchanges s)) s);;
              mret exchange
          end).

Definition GetExchange (name : string) : prog Core (result eref) :=
  atomic (xs ← gets co_Exchanges;
          match xs !! name with
          | None => mret (Err ExchangeNotFound)
          | Some exchange => mret (Ok exchange)
          end).

Definition DeleteExchange (name : string) : prog Core (result unit) :=
  atomic (xs ← gets co_Exchanges;
          match xs !! name with
          | None => mret (Err ExchangeNotFound)
          | Some _ =>
              modify (λ s, set_Exchanges (delete name (co_Exchanges s)) s);;
              mret (Ok tt)
          end).
End broker.
End Broker.

(** ** No method waits

    Every method of the exchange and of the broker is a straight line of critical
    sections. *)

Section straight_line.
Context `{E : GoEnv}.

Lemma straight_GetQueue e n : straight (Exchange.GetQueue e n).
Proof. straight_tac. Qed.
Hint Resolve straight_GetQueue : straight.

Lemma straight_RegisterQueue e n d a m f : straight (Exchange.RegisterQueue e n d a m f).
Proof. straight_tac. Qed.

Lemma straight_DeleteQueue e n : straight (Exchange.DeleteQueue e n).
Proof. straight_tac. Qed.

Lemma straight_route_loop key msg l acc : straight (Exchange.route_loop key msg l acc).
Proof.
  revert acc. induction l as [|r l IH]; intros acc; cbn [Exchange.route_loop];
    straight_tac.
Qed.
Hint Resolve straight_route_loop : straight.

Lemma straight_Route e key p : straight (Exchange.Route e key p).
Proof. unfold Exchange.Route. straight_tac. Qed.
Hint Resolve straight_Route : straight.

Lemma straight_Publish e key p : straight (Exchange.Publish e key p).
Proof. unfold Exchange.Publish, Exchange.append_one. straight_tac. Qed.

Lemma straight_EnqueueDelivery e n d : straight (Exchange.EnqueueDelivery e n d).
Proof. unfold Exchange.EnqueueDelivery. straight_tac. Qed.

Lemma straight_FetchOrWait e n c m : straight (Exchange.FetchOrWait e n c m).
Proof. unfold Exchange.FetchOrWait. straight_tac. Qed.

Lemma straight_Ack e n d c : straight (Exchange.Ack e n d c).
Proof. unfold Exchange.Ack. straight_tac. Qed.

Lemma straight_NAck e n d c : straight (Exchange.NAck e n d c).
Proof. unfold Exchange.NAck. straight_tac. Qed.

Lemma straight_AddConsumer e n c : straight (Exchange.AddConsumer e n c).
Proof. unfold Exchange.AddConsumer. straight_tac. Qed.

Lemma straight_DisconnectConsumer e n c : straight (Exchange.DisconnectConsumer e n c).
Proof. unfold Exchange.DisconnectConsumer. straight_tac. Qed.

Lemma straight_any_consumers l : straight (Exchange.any_consumers l).
Proof. induction l as [|r l IH]; cbn [Exchange.any_consumers]; straight_tac. Qed.
Hint Resolve straight_any_consumers : straight.

Lemma straight_HasActiveConsumers e : straight (Exchange.HasActiveConsumers e).
Proof. unfold Exchange.HasActiveConsumers. straight_tac. Qed.

Lemma straight_CreateExchange n : straight (Broker.CreateExchange n).
Proof. straight_tac. Qed.

Lemma straight_GetExchange n : straight (Broker.GetExchange n).
Proof. straight_tac. Qed.

Lemma straight_DeleteExchange n : straight (Broker.DeleteExchange n).
Proof. straight_tac. Qed.
End straight_line.

#[export] Hint Resolve straight_GetQueue straight_RegisterQueue straight_DeleteQueue
  straight_Route straight_Publish straight_EnqueueDelivery straight_FetchOrWait
  straight_Ack straight_NAck straight_AddConsumer straight_DisconnectConsumer
  straight_HasActiveConsumers straight_CreateExchange straight_GetExchange
  straight_DeleteExchange : straight.
