(* ===== verification/CoreSafety.v ===== *)
(** * The shared memory of the core under every interleaving

    The structural invariant of the heaps, the order in which they may evolve,
    and the rely-guarantee specification of every method of [Exchange] and
    [Broker]: whatever other goroutines do in between, no method dereferences a
    dangling pointer or closes a channel twice, and the invariant is kept. *)

From S2P Require Import Prelude Errors Process Routing CoreQueue QueueSpec CoreExchange.

(** ** Methods of a queue, seen from the heap *)

(** What no method of a queue ever changes. *)
Record same_config (q q' : Queue) : Prop := {
  sc_Name : q_Name q' = q_Name q;
  sc_Filters : q_Filters q' = q_Filters q;
  sc_IsDurable : q_IsDurable q' = q_IsDurable q;
  sc_IsAutoDelete : q_IsAutoDelete q' = q_IsAutoDelete q;
  sc_MaxAttempts : q_MaxAttempts q' = q_MaxAttempts q;
}.

#[export] Instance same_config_preorder : PreOrder same_config.
Proof.
  split; [by intros q; split|].
  intros q1 q2 q3 [] []. split; congruence.
Qed.

Lemma same_config_ok q q' : same_config q q' → config_ok q → config_ok q'.
Proof. intros [_ Hf Hd Ha Hm] [H1 H2 H3]. split; by rewrite ?Hd, ?Ha, ?Hm, ?Hf. Qed.

(** Either the channel is untouched, or it was closed and replaced by a new one. *)
Definition notify_evolves (q : Queue) (cs : Chans) (q' : Queue) (cs' : Chans) : Prop :=
  (cs' = cs ∧ q_readyNotify q' = q_readyNotify q) ∨
  (cs' = notified_cs q cs ∧ q_readyNotify q' = ch_next cs).

(** A method that never panics on an open channel, keeps the configuration,
    files in-flight deliveries under their ids and respects the notification
    protocol. *)
Definition qm_safe {A} (m : QM A) : Prop := ∀ q cs,
  chans_ok cs → notify_open q cs →
  ∃ a q' cs', m (q, cs) = Val (a, (q', cs')) ∧ same_config q q' ∧
              notify_evolves q cs q' cs' ∧
              (keyed (q_InFlight q) → keyed (q_InFlight q')).

Create HintDb safe discriminated.

Ltac qm_safe_done :=
  eexists _, _, _; split; [reflexivity|];
  split; [by split|]; split; [first [by left | by right]|];
  simpl; auto using keyed_delete, keyed_insert.

Lemma safe_EnqueueDelivery d : qm_safe (Queue.EnqueueDelivery d).
Proof. intros q cs Hcs Ho. rewrite EnqueueDelivery_eq by done. qm_safe_done. Qed.

Lemma safe_RestoreReady d : qm_safe (Queue.RestoreReady d).
Proof. intros q cs. rewrite RestoreReady_eq. apply safe_EnqueueDelivery. Qed.

Lemma safe_Append id msg : qm_safe (Queue.Append id msg).
Proof. intros q cs Hcs Ho. rewrite Append_eq by done. qm_safe_done. Qed.

Lemma safe_Ack id c : qm_safe (Queue.Ack id c).
Proof. intros q cs Hcs Ho. rewrite Ack_eq. repeat case_match; qm_safe_done. Qed.

Lemma safe_Reject ro id c : qm_safe (Queue.Reject ro id c).
Proof.
  intros q cs Hcs Ho. rewrite Reject_eq by done.
  destruct (q_InFlight q !! id) as [d|]; [|qm_safe_done].
  case_decide; [|qm_safe_done]. cbv zeta.
  destruct (exhausted q d || _); qm_safe_done.
Qed.

Lemma safe_AddConsumer c : qm_safe (Queue.AddConsumer c).
Proof. intros q cs Hcs Ho. rewrite AddConsumer_eq. qm_safe_done. Qed.

Lemma safe_HasConsumers : qm_safe Queue.HasConsumers.
Proof. intros q cs Hcs Ho. rewrite HasConsumers_eq. qm_safe_done. Qed.

Lemma safe_FetchOrWait ro c max : qm_safe (Queue.FetchOrWait ro c max).
Proof.
  intros q cs Hcs Ho. unfold Queue.FetchOrWait. queue_unfold.
  repeat case_decide; try qm_safe_done. destruct (q_Ready q); qm_safe_done.
Qed.

(** The loop of [DisconnectConsumer] touches neither configuration nor channel. *)
Lemma disconnect_loop_config c ids q ret :
  same_config q (Queue.disconnect_loop c ids q ret).1 ∧
  q_readyNotify (Queue.disconnect_loop c ids q ret).1 = q_readyNotify q ∧
  (keyed (q_InFlight q) → keyed (q_InFlight (Queue.disconnect_loop c ids q ret).1)).
Proof.
  revert q ret. induction ids as [|id ids IH]; intros q ret; simpl; [done|].
  destruct (q_InFlight q !! id) as [d|]; [|apply IH]. case_decide; [|apply IH].
  match goal with |- context [Queue.disconnect_loop c ids ?q1 ?r1] =>
    destruct (IH q1 r1) as (Hc & Hn & Hk) end.
  split; [etrans; [|exact Hc]; by split|].
  split; [done|]. intros Hq. by apply Hk, keyed_delete.
Qed.

Lemma safe_DisconnectConsumer ro c : qm_safe (Queue.DisconnectConsumer ro c).
Proof.
  intros q cs Hcs Ho. unfold Queue.DisconnectConsumer. queue_unfold.
  pose proof (disconnect_loop_config c (ro (keys (q_InFlight q))) q []) as (Hc & Hn & Hk).
  destruct (Queue.disconnect_loop _ _ _ _) as [q' returned]; simpl in *.
  case_decide.
  - rewrite notify_eq; [|by unfold notify_open in *; rewrite Hn].
    eexists _, _, _. split; [done|]. split; [destruct Hc; by split|].
    split; [|done]. right. unfold notified_cs. by rewrite Hn.
  - eexists _, _, _. split; [done|]. split; [destruct Hc; by split|]. split; [by left|done].
Qed.

#[export] Hint Resolve safe_EnqueueDelivery safe_RestoreReady safe_Append safe_Ack
  safe_Reject safe_AddConsumer safe_HasConsumers safe_FetchOrWait
  safe_DisconnectConsumer : safe.

(** ** The invariant of the heaps *)

Record core_wf (s : Core) : Prop := {
  wf_exchanges n e : co_Exchanges s !! n = Some e →
    ∃ x, co_eheap s !! e = Some x ∧ ex_Name x = n;
  wf_queues e x n r : co_eheap s !! e = Some x → ex_Queues x !! n = Some r →
    ∃ q, co_qheap s !! r = Some q ∧ q_Name q = n;
  wf_config r q : co_qheap s !! r = Some q → config_ok q;
  wf_keyed r q : co_qheap s !! r = Some q → keyed (q_InFlight q);
  wf_chans : chans_ok (co_chans s);
  wf_open r q : co_qheap s !! r = Some q → notify_open q (co_chans s);
  wf_notify r1 q1 r2 q2 :
    co_qheap s !! r1 = Some q1 → co_qheap s !! r2 = Some q2 →
    q_readyNotify q1 = q_readyNotify q2 → r1 = r2;
  wf_owner e1 x1 n1 e2 x2 n2 r :
    co_eheap s !! e1 = Some x1 → ex_Queues x1 !! n1 = Some r →
    co_eheap s !! e2 = Some x2 → ex_Queues x2 !! n2 = Some r →
    e1 = e2 ∧ n1 = n2;
  wf_enext e x : co_eheap s !! e = Some x → (e < co_enext s)%positive;
  wf_qnext r q : co_qheap s !! r = Some q → (r < co_qnext s)%positive;
}.

(** How the heaps evolve: objects are never freed, names and configurations are
    never changed. *)
Record core_le (s s' : Core) : Prop := {
  le_exchange e x : co_eheap s !! e = Some x →
    ∃ x', co_eheap s' !! e = Some x' ∧ ex_Name x' = ex_Name x;
  le_queue r q : co_qheap s !! r = Some q →
    ∃ q', co_qheap s' !! r = Some q' ∧ same_config q q';
  le_uuids : co_uuids s ≤ co_uuids s';
}.

#[export] Instance core_le_preorder : PreOrder core_le.
Proof.
  split.
  - intros s. split; eauto. intros r q H. exists q. by split.
  - intros s1 s2 s3 [E1 Q1 U1] [E2 Q2 U2]. split; [| |lia].
    + intros e x H. destruct (E1 _ _ H) as (x1 & H1 & N1).
      destruct (E2 _ _ H1) as (x2 & H2 & N2). exists x2. by rewrite N2, N1.
    + intros r q H. destruct (Q1 _ _ H) as (q1 & H1 & C1).
      destruct (Q2 _ _ H1) as (q2 & H2 & C2). exists q2. split; [done|by etrans].
Qed.

Definition valid_exchange (e : eref) (s : Core) : Prop := is_Some (co_eheap s !! e).
Definition valid_queue (r : qref) (s : Core) : Prop := is_Some (co_qheap s !! r).

Lemma valid_exchange_le e s s' : core_le s s' → valid_exchange e s → valid_exchange e s'.
Proof. intros [H _ _] [x Hx]. destruct (H _ _ Hx) as (x' & ? & _). by exists x'. Qed.

Lemma valid_queue_le r s s' : core_le s s' → valid_queue r s → valid_queue r s'.
Proof. intros [_ H _] [q Hq]. destruct (H _ _ Hq) as (q' & ? & _). by exists q'. Qed.

#[export] Hint Resolve valid_exchange_le valid_queue_le : safe.

Lemma core_wf_new uuids ranges : core_wf (Broker.NewBroker uuids ranges).
Proof. split; simpl; try (intros *; rewrite lookup_empty; done). set_solver. Qed.

(** ** Steps that keep the invariant *)

(** A critical section that keeps the invariant and moves along [core_le]. *)
Definition core_step {A} (m : CM A) (s : Core) (Q : A → Core → Prop) : Prop :=
  ∃ a s', m s = Val (a, s') ∧ core_wf s' ∧ core_le s s' ∧ Q a s'.

Lemma notify_evolves_ok q cs q' cs' :
  chans_ok cs → notify_open q cs → notify_evolves q cs q' cs' →
  chans_ok cs' ∧ notify_open q' cs'.
Proof.
  intros Hcs Ho [[-> Hn]|[-> Hn]].
  - unfold notify_open in *. by rewrite Hn.
  - destruct (notified_open q cs Hcs Ho) as [? Ho']. unfold notify_open in *.
    rewrite Hn. by simpl in *.
Qed.

(** Another queue's channel stays open and stays different. *)
Lemma notify_evolves_other q cs q' cs' q1 :
  notify_open q cs → notify_open q1 cs → q_readyNotify q1 ≠ q_readyNotify q →
  notify_evolves q cs q' cs' →
  notify_open q1 cs' ∧ q_readyNotify q1 ≠ q_readyNotify q'.
Proof.
  intros [Ho Hlt] [Ho1 Hlt1] Hne [[-> Hn]|[-> Hn]]; rewrite Hn.
  - done.
  - unfold notify_open, notified_cs; simpl. split_and!; [|lia|lia].
    rewrite elem_of_union, elem_of_singleton. tauto.
Qed.

Lemma wf_set_queue s r q q' cs' :
  core_wf s → co_qheap s !! r = Some q → same_config q q' →
  notify_evolves q (co_chans s) q' cs' → keyed (q_InFlight q') →
  core_wf (set_queue r q' cs' s) ∧ core_le s (set_queue r q' cs' s).
Proof.
  intros Hs Hr Hc Hn Hk. pose proof (wf_open s Hs r q Hr) as Ho.
  destruct (notify_evolves_ok _ _ _ _ (wf_chans s Hs) Ho Hn) as [Hcs' Ho'].
  assert (∀ r1 q1, r1 ≠ r → co_qheap s !! r1 = Some q1 →
            notify_open q1 cs' ∧ q_readyNotify q1 ≠ q_readyNotify q') as Hother.
  { intros r1 q1 Hne Hr1. eapply (notify_evolves_other q (co_chans s));
      [done|by eapply wf_open| |done].
    intros Heq. apply Hne. by eapply wf_notify. }
  split; [split; simpl|split; simpl; [eauto| |done]].
  - apply Hs.
  - intros e x n r1 He Hx. destruct (wf_queues s Hs _ _ _ _ He Hx) as (q1 & Hq1 & Hn1).
    destruct (decide (r1 = r)) as [->|Hne].
    + rewrite lookup_insert_eq. exists q'. split; [done|].
      rewrite Hr in Hq1. simplify_eq. apply Hc.
    + rewrite lookup_insert_ne by done. eauto.
  - intros r1 q1 [[<- <-]|[Hne Hr1]]%lookup_insert_Some;
      [|by eapply wf_config].
    eapply same_config_ok; [done|by eapply wf_config].
  - intros r1 q1 [[<- <-]|[Hne Hr1]]%lookup_insert_Some; [done|by eapply wf_keyed].
  - done.
  - intros r1 q1 [[<- <-]|[Hne Hr1]]%lookup_insert_Some; [done|].
    by apply (Hother r1).
  - intros r1 q1 r2 q2 [[<- <-]|[Hne1 Hr1]]%lookup_insert_Some
      [[<- <-]|[Hne2 Hr2]]%lookup_insert_Some Heq; [done| | |by eapply wf_notify].
    + by destruct (Hother r2 q2) as [_ []].
    + by destruct (Hother r1 q1) as [_ []].
  - apply Hs.
  - apply Hs.
  - intros r1 q1 [[<- <-]|[Hne Hr1]]%lookup_insert_Some; by eapply wf_qnext.
  - intros r1 q1 Hr1. destruct (decide (r1 = r)) as [->|Hne].
    + rewrite lookup_insert_eq. exists q'. split; [done|]. by simplify_eq.
    + rewrite lookup_insert_ne by done. by exists q1.
Qed.

Lemma step_on_queue {A} (m : QM A) r s :
  qm_safe m → core_wf s → valid_queue r s → core_step (on_queue r m) s (λ _ _, True).
Proof.
  intros Hm Hs [q Hq]. unfold core_step, on_queue. rewrite Hq.
  destruct (Hm q (co_chans s) (wf_chans s Hs) (wf_open s Hs r q Hq))
    as (a & q' & cs' & -> & Hc & Hn & Hk).
  destruct (wf_set_queue s r q q' cs' Hs Hq Hc Hn) as [??]; [|by eauto 10].
  by apply Hk, (wf_keyed s Hs r).
Qed.

(** Drawing a UUID or a range order leaves the heaps alone. *)
Lemma wf_counters s u r :
  core_wf s → co_uuids s ≤ u →
  core_wf (mkCore (co_Exchanges s) (co_eheap s) (co_qheap s) (co_chans s)
             (co_enext s) (co_qnext s) u r) ∧
  core_le s (mkCore (co_Exchanges s) (co_eheap s) (co_qheap s) (co_chans s)
             (co_enext s) (co_qnext s) u r).
Proof.
  intros [] Hu. split; [by split|]. split; simpl; eauto.
  intros r' q Hq. exists q. by split.
Qed.

Lemma core_step_mono {A} (m : CM A) s (Q Q' : A → Core → Prop) :
  core_step m s Q → (∀ a s', core_wf s' → core_le s s' → Q a s' → Q' a s') →
  core_step m s Q'.
Proof. intros (a & s' & ? & ? & ? & ?) HQ. exists a, s'. eauto 10. Qed.

Lemma core_step_bind {A B} (m : CM A) (k : A → CM B) s P Q :
  core_step m s P →
  (∀ a s', core_wf s' → core_le s s' → P a s' → core_step (k a) s' Q) →
  core_step (m ≫= k) s Q.
Proof.
  intros (a & s1 & Hm & Hs1 & Hle1 & HP) Hk.
  destruct (Hk a s1 Hs1 Hle1 HP) as (b & s2 & Hb & Hs2 & Hle2 & HQ).
  exists b, s2. rewrite (GoM_bind_val _ _ _ _ _ Hm). split_and!; [done|done| |done].
  by etrans.
Qed.

Lemma core_step_ret {A} (a : A) s (Q : A → Core → Prop) :
  core_wf s → Q a s → core_step (mret a) s Q.
Proof. intros Hs HQ. exists a, s. by split_and!. Qed.

Section steps.
Context `{E : GoEnv}.

Lemma step_next_range s (Q : _ → Core → Prop) :
  core_wf s →
  (∀ ro s', core_wf s' → core_le s s' → co_eheap s' = co_eheap s → co_qheap s' = co_qheap s →
     co_Exchanges s' = co_Exchanges s → Q ro s') →
  core_step next_range s Q.
Proof.
  intros Hs HQ. eexists _, _. split; [done|].
  destruct (wf_counters s (co_uuids s) (S (co_ranges s)) Hs) as [??]; [done|].
  split_and!; [done..|]. by apply HQ.
Qed.

Lemma step_read_queue r s (Q : _ → Core → Prop) :
  core_wf s → valid_queue r s → (∀ q, co_qheap s !! r = Some q → Q q s) →
  core_step (read_queue r) s Q.
Proof.
  intros Hs [q Hq] HQ. exists q, s. unfold read_queue. rewrite Hq. split_and!; auto.
  reflexivity.
Qed.

Lemma step_read_exchange e s (Q : _ → Core → Prop) :
  core_wf s → valid_exchange e s → (∀ x, co_eheap s !! e = Some x → Q x s) →
  core_step (read_exchange e) s Q.
Proof.
  intros Hs [x Hx] HQ. exists x, s. unfold read_exchange. rewrite Hx.
  split_and!; auto. reflexivity.
Qed.

Lemma step_on_queue_range {A} (m : (list string → list string) → QM A) r s :
  (∀ ro, qm_safe (m ro)) → core_wf s → valid_queue r s →
  core_step (on_queue_range r m) s (λ _ _, True).
Proof.
  intros Hm Hs Hr. unfold on_queue_range.
  eapply core_step_bind; [by apply (step_next_range _ (λ _ _, True))|].
  intros ro s' Hs' Hle _. apply step_on_queue; eauto with safe.
Qed.

(** Shrinking an exchange's map of queues. *)
Lemma step_write_delete e name s :
  core_wf s → valid_exchange e s →
  core_step (write_Queues e (delete name)) s (λ _ _, True).
Proof.
  intros Hs [x Hx]. unfold write_Queues, core_step. unfold read_exchange. go_unfold.
  rewrite Hx. eexists _, _. split; [done|].
  assert (∀ e1 x1 n1 r1, <[e:=mkExchange (ex_Name x) (delete name (ex_Queues x))]>
            (co_eheap s) !! e1 = Some x1 → ex_Queues x1 !! n1 = Some r1 →
            ∃ x0, co_eheap s !! e1 = Some x0 ∧ ex_Queues x0 !! n1 = Some r1) as Hold.
  { intros e1 x1 n1 r1 [[<- <-]|[_ H]]%lookup_insert_Some Hr1; [|by eauto].
    simpl in Hr1. apply lookup_delete_Some in Hr1 as [_ ?]. eauto. }
  split_and!; [split; simpl; try apply Hs|split; simpl|done].
  - intros n e1 He1. destruct (wf_exchanges s Hs _ _ He1) as (x1 & Hx1 & Hn1).
    destruct (decide (e1 = e)) as [->|Hne].
    + rewrite lookup_insert_eq. simplify_eq. eauto.
    + rewrite lookup_insert_ne by done. eauto.
  - intros e1 x1 n1 r1 H1 H2. destruct (Hold _ _ _ _ H1 H2) as (x0 & ? & ?).
    by eapply wf_queues.
  - intros e1 x1 n1 e2 x2 n2 r1 H1 H2 H3 H4.
    destruct (Hold _ _ _ _ H1 H2) as (y1 & ? & ?).
    destruct (Hold _ _ _ _ H3 H4) as (y2 & ? & ?). by eapply wf_owner.
  - intros e1 x1 [[<- _]|[_ H]]%lookup_insert_Some; by eapply wf_enext.
  - intros e1 x1 H1. destruct (decide (e1 = e)) as [->|Hne].
    + rewrite lookup_insert_eq. simplify_eq. eauto.
    + rewrite lookup_insert_ne by done. eauto.
  - intros r q Hr. exists q. by split.
  - done.
Qed.
End steps.

(** ** Registering a queue *)

(** The state after a registration: a new queue at a fresh reference, with a
    fresh channel, entered in the exchange under its name. *)
Definition registered (e : eref) (x : Exchange) (q : Queue) (s : Core) : Core :=
  mkCore (co_Exchanges s)
    (<[e := mkExchange (ex_Name x) (<[q_Name q := co_qnext s]> (ex_Queues x))]> (co_eheap s))
    (<[co_qnext s := q]> (co_qheap s))
    (mkChans (ch_closed (co_chans s)) (Pos.succ (ch_next (co_chans s))))
    (co_enext s) (Pos.succ (co_qnext s)) (co_uuids s) (co_ranges s).

Lemma fresh_queue_ref s : core_wf s → co_qheap s !! co_qnext s = None.
Proof.
  intros Hs. destruct (co_qheap s !! co_qnext s) as [q|] eqn:Hq; [|done].
  apply (wf_qnext s Hs) in Hq. lia.
Qed.

Lemma fresh_exchange_ref s : core_wf s → co_eheap s !! co_enext s = None.
Proof.
  intros Hs. destruct (co_eheap s !! co_enext s) as [q|] eqn:Hq; [|done].
  apply (wf_enext s Hs) in Hq. lia.
Qed.

(** The bindings after a registration: the new one and the old ones. *)
Lemma registered_bindings s e x n :
  core_wf s → co_eheap s !! e = Some x →
  ∀ e1 x1 n1 r1,
  <[e := mkExchange (ex_Name x) (<[n := co_qnext s]> (ex_Queues x))]> (co_eheap s) !! e1
    = Some x1 → ex_Queues x1 !! n1 = Some r1 →
  (e1 = e ∧ n1 = n ∧ r1 = co_qnext s) ∨
  (r1 ≠ co_qnext s ∧ ∃ x0, co_eheap s !! e1 = Some x0 ∧ ex_Queues x0 !! n1 = Some r1).
Proof.
  intros Hs Hx e1 x1 n1 r1 H1 H2. pose proof (fresh_queue_ref s Hs) as Hfresh.
  assert (∀ x0, co_eheap s !! e1 = Some x0 → ex_Queues x0 !! n1 = Some r1 →
            r1 ≠ co_qnext s) as Hne.
  { intros x0 Hx0 Hr0 ->. destruct (wf_queues s Hs _ _ _ _ Hx0 Hr0) as (? & ? & _).
    congruence. }
  apply lookup_insert_Some in H1 as [[<- <-]|[Hee H1]]; [|by right; eauto 10].
  simpl in H2. apply lookup_insert_Some in H2 as [[<- <-]|[_ H2]]; [by left|].
  right. eauto 10.
Qed.

Lemma wf_registered s e x q :
  core_wf s → co_eheap s !! e = Some x → ex_Queues x !! q_Name q = None →
  config_ok q → q_InFlight q = ∅ → q_readyNotify q = ch_next (co_chans s) →
  core_wf (registered e x q s) ∧ core_le s (registered e x q s).
Proof.
  intros Hs Hx Hname Hcfg Hfl Hn. pose proof (fresh_queue_ref s Hs) as Hfresh.
  assert (∀ r1 q1, co_qheap s !! r1 = Some q1 →
            (q_readyNotify q1 < ch_next (co_chans s))%positive) as Hlt.
  { intros r1 q1 H1. by apply (wf_open s Hs) in H1 as [_ ?]. }
  pose proof (registered_bindings s e x (q_Name q) Hs Hx) as Hold.
  split; [split; simpl|split; simpl; [| |done]].
  - intros n e1 He1. destruct (wf_exchanges s Hs _ _ He1) as (x1 & Hx1 & Hn1).
    destruct (decide (e1 = e)) as [->|Hne].
    + rewrite lookup_insert_eq. simplify_eq. eauto.
    + rewrite lookup_insert_ne by done. eauto.
  - intros e1 x1 n1 r1 H1 H2. destruct (Hold _ _ _ _ H1 H2) as
      [(-> & -> & ->)|(Hne & x0 & Hx0 & Hr0)].
    + rewrite lookup_insert_eq. eauto.
    + rewrite lookup_insert_ne by done. by eapply wf_queues.
  - intros r1 q1 [[<- <-]|[_ H1]]%lookup_insert_Some; [done|by eapply wf_config].
  - intros r1 q1 [[<- <-]|[_ H1]]%lookup_insert_Some; [|by eapply wf_keyed].
    rewrite Hfl. intros k d. by rewrite lookup_empty.
  - intros c Hc. apply (wf_chans s Hs) in Hc. simpl in *. lia.
  - intros r1 q1 [[<- <-]|[_ H1]]%lookup_insert_Some; unfold notify_open; simpl.
    + rewrite Hn. split; [|lia]. intros Hc. apply (wf_chans s Hs) in Hc. lia.
    + destruct (wf_open s Hs _ _ H1). split; [done|lia].
  - intros r1 q1 r2 q2 [[<- <-]|[Hne1 Hr1]]%lookup_insert_Some
      [[<- <-]|[Hne2 Hr2]]%lookup_insert_Some Heq; [done| | |by eapply wf_notify].
    + apply Hlt in Hr2. rewrite Hn in Heq. lia.
    + apply Hlt in Hr1. rewrite Hn in Heq. lia.
  - intros e1 x1 n1 e2 x2 n2 r1 H1 H2 H3 H4.
    destruct (Hold _ _ _ _ H1 H2) as [(-> & -> & ->)|(Hne & x0 & Hx0 & Hr0)],
             (Hold _ _ _ _ H3 H4) as [(-> & -> & ?)|(Hne' & x0' & Hx0' & Hr0')];
      try done. by eapply wf_owner.
  - intros e1 x1 [[<- _]|[_ H]]%lookup_insert_Some; by eapply wf_enext.
  - intros r1 q1 [[<- _]|[_ H]]%lookup_insert_Some; [lia|].
    apply (wf_qnext s Hs) in H. lia.
  - intros e1 x1 H1. destruct (decide (e1 = e)) as [->|Hne].
    + rewrite lookup_insert_eq. simplify_eq. eauto.
    + rewrite lookup_insert_ne by done. eauto.
  - intros r1 q1 H1. rewrite lookup_insert_ne by congruence. exists q1. by split.
Qed.

Section register.
Context `{E : GoEnv}.

(** The queue that [RegisterQueue] makes. *)
Definition fresh_queue (name : string) (d a : bool) (m : Z) (f : list RoutingFilter)
    (s : Core) : Queue :=
  mkQueue name f d a m [] ∅ ∅ (ch_next (co_chans s)).

Lemma validFilters_spec f :
  validFilters f = true ↔ Forall (λ v, RoutingFilter.IsValid v = true) f.
Proof.
  unfold validFilters. induction f as [|v f IH]; simpl; [done|].
  by rewrite andb_true_iff, Forall_cons, IH.
Qed.

(** [register_locked], every branch. *)
Lemma register_eq e name d a m f s x :
  core_wf s → co_eheap s !! e = Some x →
  Exchange.register_locked e name d a m f s =
  match ex_Queues x !! name with
  | Some r =>
      match co_qheap s !! r with
      | Some q =>
          if bool_decide (q_IsDurable q = d) && bool_decide (q_IsAutoDelete q = a)
             && bool_decide (q_MaxAttempts q = m) && equalFilters (q_Filters q) f
          then Val (Ok r, s) else Val (Err QueueAlreadyExist, s)
      | None => Panic
      end
  | None =>
      if d && a then Val (Err QueueFlagsConflict, s)
      else if decide (m < 0)%Z then Val (Err MaxAttemptsIncorrect, s)
      else if negb (validFilters f) then Val (Err FiltersIncorrect, s)
      else Val (Ok (co_qnext s), registered e x (fresh_queue name d a m f s) s)
  end.
Proof.
  intros Hs Hx. unfold Exchange.register_locked, read_exchange, read_queue,
    alloc_queue, Queue.NewQueue, make_chan, write_Queues, read_exchange.
  go_unfold. rewrite Hx. simpl.
  destruct (ex_Queues x !! name) as [r|]; simpl.
  - destruct (co_qheap s !! r) as [q|]; [|done]. by case_match.
  - destruct (d && a); [done|]. destruct (decide (m < 0)%Z); [done|].
    destruct (negb (validFilters f)); [done|]. simpl. by rewrite ?Hx.
Qed.

Lemma step_register e name d a m f s :
  core_wf s → valid_exchange e s →
  core_step (Exchange.register_locked e name d a m f) s
    (λ r s', match r with Ok q => valid_queue q s' | Err _ => True end).
Proof.
  intros Hs [x Hx]. unfold core_step. rewrite (register_eq _ _ _ _ _ _ _ x) by done.
  destruct (ex_Queues x !! name) as [r|] eqn:Hr.
  - destruct (wf_queues s Hs _ _ _ _ Hx Hr) as (q & Hq & _). rewrite Hq.
    case_match; eexists _, _; split_and!; try done. by exists q.
  - destruct (d && a) eqn:Hda; [by eexists _, _|].
    case_decide as Hm; [by eexists _, _|].
    destruct (validFilters f) eqn:Hf; simpl; [|by eexists _, _].
    destruct (wf_registered s e x (fresh_queue name d a m f s)) as [??]; try done.
    { split; simpl; [|lia|by apply validFilters_spec].
      intros [-> ->]. done. }
    eexists _, _. split_and!; try done. exists (fresh_queue name d a m f s).
    simpl. by rewrite lookup_insert_eq.
Qed.
End register.

(** ** The methods of the exchange and of the broker

    [cspec p s Q]: started in a state [s], among goroutines that keep [core_wf]
    and move along [core_le], [p] does not panic, does the same, and ends with
    [Q]. *)

Abbreviation cspec := (spec core_wf core_le).

Lemma cspec_step {A} (m : CM A) s Q :
  (∀ s1, core_le s s1 → core_wf s1 → core_step m s1 Q) → cspec (atomic m) s Q.
Proof. intros H. by apply spec_atomic; [apply _|]. Qed.

(** [Ok] results are valid references. *)
Definition ok_queue (r : result qref) (s : Core) : Prop :=
  match r with Ok q => valid_queue q s | Err _ => True end.

Definition ok_exchange (r : result eref) (s : Core) : Prop :=
  match r with Ok e => valid_exchange e s | Err _ => True end.

Definition published_ok (p : PublishedDelivery) (s : Core) : Prop :=
  valid_queue (pd_Queue p) s.

Lemma published_ok_le p s s' : core_le s s' → published_ok p s → published_ok p s'.
Proof. apply valid_queue_le. Qed.

Section methods.
Context `{E : GoEnv}.

Lemma cspec_on_queue {A} (m : QM A) r s :
  qm_safe m → valid_queue r s → cspec (atomic (on_queue r m)) s (λ _ _, True).
Proof. intros Hm Hr. apply cspec_step. intros. apply step_on_queue; eauto with safe. Qed.

Lemma cspec_on_queue_range {A} (m : (list string → list string) → QM A) r s :
  (∀ ro, qm_safe (m ro)) → valid_queue r s →
  cspec (atomic (on_queue_range r m)) s (λ _ _, True).
Proof.
  intros Hm Hr. apply cspec_step. intros. apply step_on_queue_range; eauto with safe.
Qed.

Lemma cspec_read_queue r s :
  valid_queue r s → cspec (atomic (read_queue r)) s (λ _ _, True).
Proof. intros Hr. apply cspec_step. intros. apply step_read_queue; eauto with safe. Qed.

(** Looking a queue up in an exchange. *)
Lemma step_lookup e name s :
  core_wf s → valid_exchange e s →
  core_step (read_exchange e) s
    (λ x s', ∀ r, ex_Queues x !! name = Some r → valid_queue r s').
Proof.
  intros Hs He. apply step_read_exchange; [done..|]. intros x Hx r Hr.
  destruct (wf_queues _ Hs _ _ _ _ Hx Hr) as (q & Hq & _). by exists q.
Qed.

Lemma cspec_GetQueue e name s :
  valid_exchange e s → cspec (Exchange.GetQueue e name) s ok_queue.
Proof.
  intros He. apply cspec_step. intros s1 Hle Hs1.
  eapply core_step_bind; [apply (step_lookup e name); eauto with safe|].
  intros x s2 Hs2 _ Hx. destruct (ex_Queues x !! name) as [r|] eqn:Hr;
    apply core_step_ret; try done. by apply Hx.
Qed.

Lemma cspec_RegisterQueue e name d a m f s :
  valid_exchange e s → cspec (Exchange.RegisterQueue e name d a m f) s ok_queue.
Proof.
  intros He. apply cspec_step. intros s1 Hle Hs1. apply step_register; eauto with safe.
Qed.

Lemma cspec_DeleteQueue e name s :
  valid_exchange e s → cspec (Exchange.DeleteQueue e name) s (λ _ _, True).
Proof.
  intros He. apply cspec_step. intros s1 Hle Hs1.
  eapply core_step_bind; [apply (step_lookup e name); eauto with safe|].
  intros x s2 Hs2 Hle2 Hx. destruct (ex_Queues x !! name) as [r|] eqn:Hr;
    [|by apply core_step_ret].
  eapply core_step_bind;
    [apply step_on_queue; [apply safe_HasConsumers|done|by apply Hx]|].
  intros [] s3 Hs3 Hle3 _; [by apply core_step_ret|].
  eapply core_step_bind; [by apply step_write_delete; eauto with safe|].
  intros [] s4 Hs4 Hle4 _. by apply core_step_ret.
Qed.

Lemma step_snapshot e s :
  core_wf s → valid_exchange e s →
  core_step (Exchange.snapshot e) s (λ l s', Forall (λ r, valid_queue r s') l).
Proof.
  intros Hs He. unfold Exchange.snapshot.
  eapply (core_step_bind _ _ _ (λ x s', co_eheap s' !! e = Some x));
    [by apply step_read_exchange|].
  intros x s1 Hs1 Hle1 Hx.
  eapply core_step_bind;
    [apply (step_next_range _ (λ _ s', co_eheap s' !! e = Some x)); [done|congruence]|].
  intros ro s2 Hs2 Hle2 Hx2. apply core_step_ret; [done|].
  apply Forall_forall. intros r (name & _ & Hr)%list_elem_of_omap.
  destruct (wf_queues _ Hs2 _ _ _ _ Hx2 Hr) as (q & Hq & _). by exists q.
Qed.

Lemma valid_queues_le l s s' :
  core_le s s' → Forall (λ r, valid_queue r s) l → Forall (λ r, valid_queue r s') l.
Proof. intros Hle H. eapply Forall_impl; eauto with safe. Qed.

Lemma cspec_route_loop key msg l acc s :
  Forall (λ r, valid_queue r s) l → Forall (λ p, published_ok p s) acc →
  cspec (Exchange.route_loop key msg l acc) s
    (λ l s', Forall (λ p, published_ok p s') l).
Proof.
  revert acc s. induction l as [|r l IH]; intros acc s Hl Hacc;
    cbn [Exchange.route_loop]; [by apply spec_ret; [apply _|]|].
  apply Forall_cons in Hl as [Hr Hl].
  eapply spec_bind; [apply _|by apply cspec_read_queue|]. intros q s1 Hle _.
  assert (Forall (λ p, published_ok p s1) acc).
  { eapply Forall_impl; [done|]. intros p. by apply published_ok_le. }
  pose proof (valid_queues_le _ _ _ Hle Hl).
  case_match; apply IH; try done. apply Forall_app. split; [done|].
  apply Forall_singleton. unfold published_ok; simpl. eauto with safe.
Qed.

Lemma cspec_Route e key payload s :
  valid_exchange e s →
  cspec (Exchange.Route e key payload) s
    (λ r s', match r with Ok l => Forall (λ p, published_ok p s') l | Err _ => True end).
Proof.
  intros He. unfold Exchange.Route. case_match; [by apply spec_ret; [apply _|]|].
  eapply spec_bind; [apply _|apply cspec_step; intros; apply step_snapshot; eauto with safe|].
  intros l s1 Hle Hl.
  eapply spec_bind; [apply _|by apply cspec_route_loop|].
  intros p s2 Hle2 Hp. by apply spec_ret; [apply _|].
Qed.

(** A method of a queue that the exchange first looks up. *)
Lemma cspec_with_queue {A} e name (k : qref → prog Core (result A)) s
    (Q : result A → Core → Prop) :
  valid_exchange e s →
  (∀ r s', core_le s s' → valid_queue r s' → cspec (k r) s' Q) →
  (∀ err s', Q (Err err) s') →
  cspec (try (Exchange.GetQueue e name) k) s Q.
Proof.
  intros He Hk HQ. eapply spec_try; [apply _|by apply cspec_GetQueue| |done].
  intros r s' Hle Hr. by apply Hk.
Qed.

Ltac then_ret := intros; by apply spec_ret; [apply _|].

Lemma cspec_EnqueueDelivery e name d s :
  valid_exchange e s → cspec (Exchange.EnqueueDelivery e name d) s (λ _ _, True).
Proof.
  intros He. apply cspec_with_queue; [done| |done]. intros r s' Hle Hr.
  eapply spec_bind; [apply _|by apply cspec_on_queue; auto with safe|then_ret].
Qed.

Lemma cspec_AddConsumer e name c s :
  valid_exchange e s → cspec (Exchange.AddConsumer e name c) s (λ _ _, True).
Proof.
  intros He. apply cspec_with_queue; [done| |done]. intros r s' Hle Hr.
  eapply spec_bind; [apply _|by apply cspec_on_queue; auto with safe|then_ret].
Qed.

Lemma cspec_Ack e name id c s :
  valid_exchange e s → cspec (Exchange.Ack e name id c) s (λ _ _, True).
Proof.
  intros He. apply cspec_with_queue; [done| |done]. intros r s' Hle Hr.
  eapply spec_try; [apply _|by apply cspec_on_queue; auto with safe|then_ret|done].
Qed.

Lemma cspec_NAck e name id c s :
  valid_exchange e s → cspec (Exchange.NAck e name id c) s (λ _ _, True).
Proof.
  intros He. apply cspec_with_queue; [done| |done]. intros r s' Hle Hr.
  eapply spec_try; [apply _|by apply cspec_on_queue_range; auto with safe| |done].
  intros [d dead] s2 _ _. by apply spec_ret; [apply _|].
Qed.

Lemma cspec_FetchOrWait e name c max s :
  valid_exchange e s → cspec (Exchange.FetchOrWait e name c max) s (λ _ _, True).
Proof.
  intros He. eapply spec_bind; [apply _|by apply cspec_GetQueue|].
  intros [r|err] s' Hle Hr; [|by apply spec_ret; [apply _|]].
  eapply spec_bind; [apply _|by apply cspec_on_queue_range; auto with safe|].
  intros [[d ch] [err|]] s2 _ _; by apply spec_ret; [apply _|].
Qed.

Lemma cspec_DisconnectConsumer e name c s :
  valid_exchange e s → cspec (Exchange.DisconnectConsumer e name c) s (λ _ _, True).
Proof.
  intros He. apply cspec_with_queue; [done| |done]. intros r s1 Hle1 Hr.
  eapply spec_bind; [apply _|by apply cspec_on_queue_range; auto with safe|].
  intros l s2 Hle2 _. assert (valid_queue r s2) by eauto with safe.
  eapply spec_bind; [apply _|by apply cspec_read_queue|]. intros q s3 Hle3 _.
  apply (spec_bind _ _ _ _ _ (λ _ _, True)); [|then_ret].
  destruct (q_IsAutoDelete q); [|by apply spec_ret; [apply _|]].
  eapply spec_bind; [apply _|apply cspec_on_queue; eauto with safe|].
  intros [] s4 Hle4 _; [by apply spec_ret; [apply _|]|].
  apply cspec_step. intros s5 Hle5 Hs5. apply step_write_delete; [done|].
  eauto 7 with safe.
Qed.

Lemma cspec_any_consumers l s :
  Forall (λ r, valid_queue r s) l → cspec (Exchange.any_consumers l) s (λ _ _, True).
Proof.
  revert s. induction l as [|r l IH]; intros s Hl; cbn [Exchange.any_consumers];
    [by apply spec_ret; [apply _|]|].
  apply Forall_cons in Hl as [Hr Hl].
  eapply spec_bind; [apply _|by apply cspec_on_queue; auto with safe|].
  intros [] s1 Hle _; [by apply spec_ret; [apply _|]|].
  apply IH. by eapply valid_queues_le.
Qed.

Lemma cspec_HasActiveConsumers e s :
  valid_exchange e s → cspec (Exchange.HasActiveConsumers e) s (λ _ _, True).
Proof.
  intros He.
  eapply spec_bind; [apply _|apply cspec_step; intros; apply step_snapshot; eauto with safe|].
  intros l s1 Hle Hl. by apply cspec_any_consumers.
Qed.

(** ** The broker *)

Lemma cspec_GetExchange name s : cspec (Broker.GetExchange name) s ok_exchange.
Proof.
  apply cspec_step. intros s1 Hle Hs1. unfold core_step. go_unfold.
  destruct (co_Exchanges s1 !! name) as [e|] eqn:He; eexists _, _; split_and!; try done.
  destruct (wf_exchanges _ Hs1 _ _ He) as (x & Hx & _). by exists x.
Qed.

Lemma wf_set_Exchanges f s :
  core_wf s →
  (∀ n e, f !! n = Some e → ∃ x, co_eheap s !! e = Some x ∧ ex_Name x = n) →
  core_wf (set_Exchanges f s) ∧ core_le s (set_Exchanges f s).
Proof.
  intros [] Hf. split; [by split|]. split; simpl; eauto.
  intros r q Hq. exists q. by split.
Qed.

Lemma cspec_DeleteExchange name s : cspec (Broker.DeleteExchange name) s (λ _ _, True).
Proof.
  apply cspec_step. intros s1 Hle Hs1. unfold core_step. go_unfold.
  destruct (co_Exchanges s1 !! name) as [e|] eqn:He; eexists _, _; split; try done.
  destruct (wf_set_Exchanges (delete name (co_Exchanges s1)) s1 Hs1) as [??]; [|done].
  intros n e1 [_ H]%lookup_delete_Some. by eapply wf_exchanges.
Qed.

(** The state after a new exchange has been made. *)
Definition exchange_created (name : string) (s : Core) : Core :=
  mkCore (<[name := co_enext s]> (co_Exchanges s))
    (<[co_enext s := mkExchange name ∅]> (co_eheap s)) (co_qheap s) (co_chans s)
    (Pos.succ (co_enext s)) (co_qnext s) (co_uuids s) (co_ranges s).

Lemma wf_exchange_created name s :
  core_wf s →
  core_wf (exchange_created name s) ∧ core_le s (exchange_created name s).
Proof.
  intros Hs. pose proof (fresh_exchange_ref s Hs) as Hfresh.
  assert (∀ e x n r, <[co_enext s := mkExchange name ∅]> (co_eheap s) !! e = Some x →
            ex_Queues x !! n = Some r → co_eheap s !! e = Some x) as Hold.
  { intros e x n r [[<- <-]|[_ H]]%lookup_insert_Some Hr; [|done].
    simpl in Hr. by rewrite lookup_empty in Hr. }
  split; [split; simpl; try apply Hs|split; simpl; [| |done]].
  - intros n e [[<- <-]|[Hne He]]%lookup_insert_Some.
    + rewrite lookup_insert_eq. eauto.
    + destruct (wf_exchanges _ Hs _ _ He) as (x & Hx & Hn).
      rewrite lookup_insert_ne by congruence. eauto.
  - intros e x n r He Hr. eapply wf_queues; eauto.
  - intros e1 x1 n1 e2 x2 n2 r H1 H2 H3 H4. eapply wf_owner; eauto.
  - intros e x [[<- _]|[_ H]]%lookup_insert_Some; [lia|].
    apply (wf_enext s Hs) in H. lia.
  - intros e x He. rewrite lookup_insert_ne by congruence. eauto.
  - intros r q Hr. exists q. by split.
Qed.

Lemma CreateExchange_eq name s :
  run (Broker.CreateExchange name) s =
  match co_Exchanges s !! name with
  | Some e => Val (e, s)
  | None => Val (co_enext s, exchange_created name s)
  end.
Proof.
  unfold Broker.CreateExchange. rewrite run_atomic. go_unfold.
  by destruct (co_Exchanges s !! name).
Qed.

Lemma cspec_CreateExchange name s :
  cspec (Broker.CreateExchange name) s valid_exchange.
Proof.
  apply cspec_step. intros s1 Hle Hs1. unfold core_step. go_unfold.
  destruct (co_Exchanges s1 !! name) as [e|] eqn:He; eexists _, _; split; try done.
  - split_and!; [done..|]. destruct (wf_exchanges _ Hs1 _ _ He) as (x & Hx & _).
    by exists x.
  - destruct (wf_exchange_created name s1 Hs1) as [??]. split_and!; [done..|].
    eexists. simpl. by rewrite lookup_insert_eq.
Qed.
End methods.
