(* ===== verification/Scenario.v ===== *)
(** * A concrete runtime and a broker to test on

    UUIDs are numbered and every range over a map takes the map's own order, so
    that programs evaluate.  The scenario has one exchange with a durable queue
    and an auto-delete queue, both bound to user events, and an unrelated
    queue. *)

From stdpp Require Import pretty.
From S2P Require Import Prelude Errors Process Routing CoreQueue QueueSpec QueueTrace.
From S2P Require Import CoreExchange CoreSafety.

#[export] Instance demo_env : GoEnv := {
  uuid_at n := "id-" +:+ pretty n;
  range_at _ := id;
}.

#[export] Instance demo_env_ok : GoEnvOk demo_env.
Proof. split; [|intros; apply _]. intros n m H. simpl in H. by simplify_eq. Qed.

Definition demo_setup : prog Core eref :=
  e ← Broker.CreateExchange "events";
  Exchange.RegisterQueue e "users" true false 3 ["corp.users.*"];;
  Exchange.RegisterQueue e "audit" false true 0 ["corp.*.create"; "corp.users.*"];;
  Exchange.RegisterQueue e "orders" false false 0 ["corp.orders.*"];;
  Ret e.

Lemma demo_setup_straight : straight demo_setup.
Proof. unfold demo_setup. straight_tac. Qed.

Lemma cspec_demo_setup s : cspec demo_setup s valid_exchange.
Proof.
  eapply spec_bind; [apply _|apply cspec_CreateExchange|]. intros e s1 _ He.
  do 3 (eapply spec_bind; [apply _|apply cspec_RegisterQueue; eauto with safe|];
        intros ? ? ? _; cbv beta).
  apply spec_ret; [apply _|]. eauto 6 with safe.
Qed.

(** The state of the core after [demo_setup]. *)
Definition demo_core : Core :=
  match run demo_setup (Broker.NewBroker 0 0) with
  | Val (_, s) => s
  | Panic => Broker.NewBroker 0 0
  end.

Lemma demo_core_wf : core_wf demo_core.
Proof.
  destruct (wpc_run core_wf core_le core_le demo_setup _ (Broker.NewBroker 0 0)
    demo_setup_straight (core_wf_new 0 0) (cspec_demo_setup _)) as (e & s & Hr & Hs & _).
  unfold demo_core. by rewrite Hr.
Qed.

(** Its exchange, and the references of its queues. *)
Definition demo_exchange : eref := 1%positive.
Definition demo_users : qref := 1%positive.
Definition demo_audit : qref := 2%positive.
Definition demo_orders : qref := 3%positive.

Definition demo_x : Exchange :=
  default (mkExchange "" ∅) (co_eheap demo_core !! demo_exchange).

Lemma demo_x_eq : co_eheap demo_core !! demo_exchange = Some demo_x.
Proof. vm_compute. reflexivity. Qed.

(** Two consumers of the durable queue, one of the auto-delete queue; both queues
    have handed one delivery to their first consumer. *)
Definition demo_delivery (id : string) : Delivery :=
  mkDelivery id (mkMessage [Byte.x68; Byte.x69] "corp.users.create") "" 0.

Definition demo_traffic : prog Core (result unit) :=
  Exchange.AddConsumer demo_exchange "users" "c1";;
  Exchange.AddConsumer demo_exchange "users" "c2";;
  Exchange.AddConsumer demo_exchange "audit" "c3";;
  Exchange.EnqueueDelivery demo_exchange "users" (demo_delivery "d1");;
  Exchange.EnqueueDelivery demo_exchange "audit" (demo_delivery "d2");;
  Exchange.FetchOrWait demo_exchange "users" "c1" 32;;
  Exchange.FetchOrWait demo_exchange "audit" "c3" 32;;
  Ret (Ok tt).

Definition demo_busy : Core :=
  match run demo_traffic demo_core with Val (_, s) => s | Panic => demo_core end.

Lemma demo_busy_wf : core_wf demo_busy.
Proof.
  assert (cspec demo_traffic demo_core (λ _ _, True)) as Hspec.
  { assert (valid_exchange demo_exchange demo_core) as He by (exists demo_x; apply demo_x_eq).
    do 3 (eapply spec_bind; [apply _|apply cspec_AddConsumer; eauto 10 with safe|];
          intros ? ? ? _; cbv beta).
    do 2 (eapply spec_bind; [apply _|apply cspec_EnqueueDelivery; eauto 10 with safe|];
          intros ? ? ? _; cbv beta).
    do 2 (eapply spec_bind; [apply _|apply cspec_FetchOrWait; eauto 10 with safe|];
          intros ? ? ? _; cbv beta).
    by apply spec_ret; [apply _|]. }
  assert (straight demo_traffic) as Hst by (unfold demo_traffic; straight_tac).
  destruct (wpc_run core_wf core_le core_le demo_traffic _ demo_core Hst demo_core_wf
    Hspec) as (a & s & Hr & Hs & _).
  unfold demo_busy. by rewrite Hr.
Qed.

Definition demo_queue_at (r : qref) : Queue :=
  default (mkQueue "" [] false false 0 [] ∅ ∅ 1%positive) (co_qheap demo_busy !! r).
