(* ===== verification/ExchangeSpec.v ===== *)
(** * What an exchange promises

    The methods of [CoreExchange] run without interference, as equations on a
    well-formed heap, and the properties of the exchange: which registrations are
    accepted, which queues a message is routed to, what a publication adds to
    them, and when a queue goes away. *)

From S2P Require Import Prelude Errors Process Routing CoreQueue QueueSpec.
From S2P Require Import CoreExchange CoreSafety Scenario.

(** ** Filters of a registration *)

Lemma equalFilters_spec a b :
  equalFilters a b = true ↔ length a = length b ∧ ∀ f, f ∈ a → f ∈ b.
Proof.
  unfold equalFilters. case_decide as Hlen.
  - split; [done|]. by intros [H _].
  - rewrite forallb_forall.
    setoid_rewrite bool_decide_eq_true. setoid_rewrite elem_of_list_to_set.
    split.
    + intros H. split; [by destruct (decide (length a = length b))|].
      intros f Hf. apply H, list_elem_of_In, elem_of_elements, elem_of_list_to_set, Hf.
    + intros [_ H] f Hf%list_elem_of_In%elem_of_elements%elem_of_list_to_set. auto.
Qed.

(** On lists without repetitions the comparison ignores the order and nothing
    else. *)
Lemma equalFilters_perm a b : NoDup a → equalFilters a b = true ↔ a ≡ₚ b.
Proof.
  intros Ha. rewrite equalFilters_spec. split.
  - intros [Hlen Hsub]. apply submseteq_length_Permutation; [|lia].
    by apply NoDup_submseteq.
  - intros H. split; [by rewrite H|]. intros f. by rewrite H.
Qed.

(** ** Methods of the exchange, run alone *)

(** The queue [name] of the exchange [e]: the exchange, the reference, the
    object. *)
Record bound (e : eref) (name : string) (x : Exchange) (r : qref) (q : Queue)
    (s : Core) : Prop := {
  b_exchange : co_eheap s !! e = Some x;
  b_ref : ex_Queues x !! name = Some r;
  b_queue : co_qheap s !! r = Some q;
}.

Lemma bound_ex e name x r s :
  core_wf s → co_eheap s !! e = Some x → ex_Queues x !! name = Some r →
  ∃ q, bound e name x r q s ∧ q_Name q = name.
Proof.
  intros Hs Hx Hr. destruct (wf_queues s Hs _ _ _ _ Hx Hr) as (q & Hq & Hn).
  exists q. by split.
Qed.

(** One more range over a map has been made. *)
Definition tick (s : Core) : Core :=
  mkCore (co_Exchanges s) (co_eheap s) (co_qheap s) (co_chans s) (co_enext s)
    (co_qnext s) (co_uuids s) (S (co_ranges s)).

Lemma wf_tick s : core_wf s → core_wf (tick s).
Proof. intros []. by split. Qed.

Section alone.
Context `{E : GoEnv}.

Lemma run_GetQueue e name x s :
  co_eheap s !! e = Some x →
  run (Exchange.GetQueue e name) s =
  Val (match ex_Queues x !! name with
       | Some r => Ok r
       | None => Err QueueNotFound
       end, s).
Proof.
  intros Hx. unfold Exchange.GetQueue, read_exchange. rewrite run_atomic. go_unfold.
  rewrite Hx. by destruct (ex_Queues x !! name).
Qed.

Lemma run_on_queue {A} r q (m : QM A) s a q' cs' :
  co_qheap s !! r = Some q → m (q, co_chans s) = Val (a, (q', cs')) →
  on_queue r m s = Val (a, set_queue r q' cs' s).
Proof. intros Hq Hm. unfold on_queue. by rewrite Hq, Hm. Qed.

Lemma run_on_queue_range {A} r q (m : (list string → list string) → QM A) s a q' cs' :
  co_qheap s !! r = Some q →
  m (range_at (co_ranges s)) (q, co_chans s) = Val (a, (q', cs')) →
  on_queue_range r m s = Val (a, set_queue r q' cs' (tick s)).
Proof.
  intros Hq Hm. unfold on_queue_range. rewrite (GoM_bind_val _ _ s (range_at (co_ranges s)) (tick s)) by done.
  by apply (run_on_queue r q).
Qed.

Lemma run_read_queue r q s :
  co_qheap s !! r = Some q → run (atomic (read_queue r)) s = Val (q, s).
Proof. intros Hq. rewrite run_atomic. unfold read_queue. by rewrite Hq. Qed.

(** A method that starts by looking the queue up. *)
Lemma run_with_queue {A} e name x r q s (k : qref → prog Core (result A)) :
  bound e name x r q s →
  run (try (Exchange.GetQueue e name) k) s = run (k r) s.
Proof.
  intros [Hx Hr _]. rewrite run_try, (run_GetQueue e name x) by done. by rewrite Hr.
Qed.

Lemma run_without_queue {A} e name x s (k : qref → prog Core (result A)) :
  co_eheap s !! e = Some x → ex_Queues x !! name = None →
  run (try (Exchange.GetQueue e name) k) s = Val (Err QueueNotFound, s).
Proof.
  intros Hx Hr. rewrite run_try, (run_GetQueue e name x) by done. by rewrite Hr.
Qed.

Lemma set_queue_same r q s :
  co_qheap s !! r = Some q → set_queue r q (co_chans s) s = s.
Proof.
  intros Hq. unfold set_queue. rewrite insert_id by done. by destruct s.
Qed.

(** ** Routing *)

Lemma snapshot_eq e x s :
  co_eheap s !! e = Some x →
  Exchange.snapshot e s =
  Val (omap (λ name, ex_Queues x !! name)
         (range_at (co_ranges s) (keys (ex_Queues x))), tick s).
Proof.
  intros Hx. unfold Exchange.snapshot, read_exchange, next_range. go_unfold.
  by rewrite Hx.
Qed.

(** What [Route] makes of the queue at [r]. *)
Definition routed (key : RoutingKey) (msg : Message) (s : Core) (r : qref) :
    option PublishedDelivery :=
  q ← co_qheap s !! r;
  if Queue.MatchFilters key q
  then Some (mkPublishedDelivery (q_Name q) r Delivery_zero msg) else None.

Lemma run_route_loop key msg l acc s :
  Forall (λ r, valid_queue r s) l →
  run (Exchange.route_loop key msg l acc) s =
  Val (acc ++ omap (routed key msg s) l, s).
Proof.
  intros Hl. revert acc. induction Hl as [|r l [q Hq] _ IH]; intros acc;
    cbn [Exchange.route_loop].
  { csimpl. by rewrite app_nil_r. }
  rewrite (run_bind_val _ _ _ _ _ (run_read_queue r q s Hq)).
  csimpl. assert (routed key msg s r = if Queue.MatchFilters key q
    then Some (mkPublishedDelivery (q_Name q) r Delivery_zero msg) else None) as ->.
  { unfold routed. by rewrite Hq. }
  destruct (Queue.MatchFilters key q); rewrite IH; [|done].
  by rewrite <- app_assoc.
Qed.

(** The queue [name] of [x] receives messages with this key. *)
Definition receives (key : RoutingKey) (x : Exchange) (s : Core) (name : string)
    (r : qref) : Prop :=
  ex_Queues x !! name = Some r ∧
  ∃ q, co_qheap s !! r = Some q ∧ Exists (λ f, RoutingFilter.Match f key = true) (q_Filters q).

Lemma MatchFilters_spec key q :
  Queue.MatchFilters key q = true ↔
  Exists (λ f, RoutingFilter.Match f key = true) (q_Filters q).
Proof.
  unfold Queue.MatchFilters. rewrite existsb_exists, Exists_exists.
  by setoid_rewrite list_elem_of_In.
Qed.

Lemma routed_some key msg s r p :
  routed key msg s r = Some p ↔
  ∃ q, co_qheap s !! r = Some q ∧ Queue.MatchFilters key q = true
       ∧ p = mkPublishedDelivery (q_Name q) r Delivery_zero msg.
Proof.
  unfold routed. destruct (co_qheap s !! r) as [q|]; csimpl; [|split; [done|]].
  - case_match eqn:Hm; split; [intros [= <-]; eauto| |done|].
    + intros (q' & [= <-] & _ & ->). done.
    + intros (q' & [= <-] & Hm' & _). congruence.
  - by intros (? & ? & _).
Qed.

(** Names come out in the order of the range, some of them left out. *)
Lemma routed_names key msg s x e names :
  core_wf s → co_eheap s !! e = Some x →
  pd_QueueName <$> omap (routed key msg s) (omap (λ n, ex_Queues x !! n) names)
  `sublist_of` names.
Proof.
  intros Hs Hx. induction names as [|n names IH]; csimpl; [constructor|].
  destruct (ex_Queues x !! n) as [r|] eqn:Hr; csimpl; [|by constructor].
  destruct (routed key msg s r) as [p|] eqn:Hp; csimpl; [|by constructor].
  destruct (bound_ex _ _ _ _ _ Hs Hx Hr) as (q & [_ _ Hq] & Hn).
  apply routed_some in Hp as (q' & Hq' & _ & ->). simplify_eq. simpl.
  by constructor.
Qed.

Definition destination (p : PublishedDelivery) : string * qref :=
  (pd_QueueName p, pd_Queue p).

(** [l] is where [Route] must send a message: the queues with a filter that
    matches the key, each of them once. *)
Record routed_to (key : RoutingKey) (payload : list Byte.byte) (x : Exchange)
    (s : Core) (l : list PublishedDelivery) : Prop := {
  rt_once : NoDup (pd_QueueName <$> l);
  rt_exact name r : receives key x s name r ↔ (name, r) ∈ (destination <$> l);
  rt_message : Forall (λ p, pd_Message p = mkMessage payload key) l;
}.

Lemma routed_to_snapshot key payload x e s names :
  core_wf s → co_eheap s !! e = Some x → names ≡ₚ keys (ex_Queues x) →
  routed_to key payload x s
    (omap (routed key (mkMessage payload key) s)
       (omap (λ n, ex_Queues x !! n) names)).
Proof.
  intros Hs Hx Hperm. split.
  - eapply sublist_NoDup; [|by eapply routed_names]. rewrite Hperm. apply NoDup_keys.
  - intros name r. unfold receives. split.
    + intros (Hr & q & Hq & Hm).
      destruct (bound_ex _ _ _ _ _ Hs Hx Hr) as (q' & [_ _ Hq'] & Hn). simplify_eq.
      apply (list_elem_of_fmap_2' _ _
        (mkPublishedDelivery (q_Name q) r Delivery_zero (mkMessage payload key)));
        [|done].
      apply list_elem_of_omap. exists r. split.
      * apply list_elem_of_omap. exists (q_Name q). split; [|done].
        rewrite Hperm, elem_of_keys. eauto.
      * apply routed_some. exists q. by rewrite MatchFilters_spec.
    + intros (p & [= -> ->] & Hp)%list_elem_of_fmap.
      apply list_elem_of_omap in Hp as (r' & Hr' & Hp).
      apply list_elem_of_omap in Hr' as (n & _ & Hr').
      apply routed_some in Hp as (q & Hq & Hm%MatchFilters_spec & ->). simpl in *.
      subst. destruct (bound_ex _ _ _ _ _ Hs Hx Hr') as (q' & [_ _ Hq'] & Hn).
      simplify_eq. eauto.
  - apply Forall_forall. intros p (r & _ & Hp)%list_elem_of_omap.
    by apply routed_some in Hp as (q & _ & _ & ->).
Qed.

(** ** Deliveries added to queues *)

(** From [s] to [s'] every queue [r] has got the deliveries [new r], at the end,
    and those waiting on it have been woken; nothing else has changed. *)
Record delivered (new : qref → list Delivery) (s s' : Core) : Prop := {
  dv_exchanges : co_Exchanges s' = co_Exchanges s;
  dv_eheap : co_eheap s' = co_eheap s;
  dv_queues : dom (co_qheap s') = dom (co_qheap s);
  dv_closed : ch_closed (co_chans s) ⊆ ch_closed (co_chans s');
  dv_queue r q : co_qheap s !! r = Some q →
    ∃ q', co_qheap s' !! r = Some q' ∧ same_config q q' ∧
      q_Ready q' = q_Ready q ++ new r ∧ q_InFlight q' = q_InFlight q ∧
      q_Consumers q' = q_Consumers q ∧
      if decide (new r = []) then q_readyNotify q' = q_readyNotify q
      else q_readyNotify q ∈ ch_closed (co_chans s');
}.

Lemma delivered_refl s : delivered (λ _, []) s s.
Proof.
  split; [done..|]. intros r q Hq. exists q. rewrite app_nil_r. by split_and!.
Qed.

Lemma delivered_trans new1 new2 s1 s2 s3 :
  delivered new1 s1 s2 → delivered new2 s2 s3 →
  delivered (λ r, new1 r ++ new2 r) s1 s3.
Proof.
  intros [X1 E1 D1 C1 Q1] [X2 E2 D2 C2 Q2].
  split; [congruence..|by etrans|].
  intros r q Hq. destruct (Q1 r q Hq) as (q1 & Hq1 & Hc1 & Hr1 & Hf1 & Hs1 & Hn1).
  destruct (Q2 r q1 Hq1) as (q2 & Hq2 & Hc2 & Hr2 & Hf2 & Hs2 & Hn2).
  exists q2. split_and!; [done|by etrans| |congruence|congruence|].
  - by rewrite Hr2, Hr1, <- app_assoc.
  - destruct (decide (new1 r = [])) as [H1|H1], (decide (new2 r = [])) as [H2|H2].
    + rewrite decide_True by (by rewrite H1, H2). congruence.
    + rewrite decide_False by (rewrite H1; done). by rewrite <- Hn1.
    + rewrite decide_False by (intros [? _]%app_eq_nil; done). by apply C2.
    + rewrite decide_False by (intros [? _]%app_eq_nil; done). by apply C2.
Qed.

Lemma delivered_ext new new' s s' :
  (∀ r, new r = new' r) → delivered new s s' → delivered new' s s'.
Proof.
  intros Heq [X E' D C Q]. split; [done..|]. intros r q Hq. rewrite <- Heq. by apply Q.
Qed.

(** One delivery into one queue. *)
Definition into (r : qref) (d : Delivery) : qref → list Delivery :=
  λ r', if decide (r' = r) then [d] else [].

Lemma delivered_push r q d s :
  co_qheap s !! r = Some q →
  delivered (into r d) s
    (set_queue r (notified_q (push d q) (co_chans s)) (notified_cs q (co_chans s)) s).
Proof.
  intros Hq. split; [done|done| | |].
  - simpl. apply dom_insert_lookup_L. by exists q.
  - simpl. set_solver.
  - intros r' q' Hq'. unfold into, set_queue, notified_cs; simpl.
    destruct (decide (r' = r)) as [->|Hne].
    + rewrite lookup_insert_eq. simplify_eq. eexists. split; [done|].
      split_and!; try done. set_solver.
    + rewrite lookup_insert_ne by done. exists q'. rewrite app_nil_r. by split_and!.
Qed.

Lemma delivered_counters new s s' u n :
  delivered new s s' →
  delivered new s (mkCore (co_Exchanges s') (co_eheap s') (co_qheap s') (co_chans s')
                     (co_enext s') (co_qnext s') u n).
Proof. by intros []. Qed.

(** The deliveries of a list of publications that go to the queue [r]. *)
Definition sent_to (l : list PublishedDelivery) (r : qref) : list Delivery :=
  pd_Delivery <$> filter (λ p, pd_Queue p = r) l.

(** ** [Publish] *)

(** What [Publish] stores in a publication. *)
Definition stored (p : PublishedDelivery) (d : Delivery) : PublishedDelivery :=
  mkPublishedDelivery (pd_QueueName p) (pd_Queue p) d (pd_Message p).

(** The deliveries that draw their ids from the runtime, starting at [n]. *)
Fixpoint drawn (n : nat) (l : list PublishedDelivery) : list PublishedDelivery :=
  match l with
  | [] => []
  | p :: l => stored p (mkDelivery (uuid_at n) (pd_Message p) "" 0) :: drawn (S n) l
  end.

Lemma run_append id msg r q s :
  core_wf s → co_qheap s !! r = Some q →
  ∃ s', on_queue r (Queue.Append id msg) s = Val (mkDelivery id msg "" 0, s')
        ∧ core_wf s' ∧ delivered (into r (mkDelivery id msg "" 0)) s s'
        ∧ co_uuids s' = co_uuids s.
Proof.
  intros Hs Hq. pose proof (wf_open s Hs r q Hq) as Ho.
  eexists. split; [apply (run_on_queue r q); [done|by apply Append_eq]|].
  split_and!; [|by apply delivered_push|done].
  apply (wf_set_queue s r q); [done|done|by split|by right|].
  exact (wf_keyed s Hs r q Hq).
Qed.

Lemma destination_drawn n l : destination <$> drawn n l = destination <$> l.
Proof. revert n. induction l as [|p l IH]; intros n; csimpl; [done|]. by rewrite IH. Qed.

Lemma names_of_destinations (l l' : list PublishedDelivery) :
  destination <$> l = destination <$> l' → pd_QueueName <$> l = pd_QueueName <$> l'.
Proof.
  intros H%(f_equal (fmap fst)). by rewrite <- !list_fmap_compose in H.
Qed.

Lemma messages_drawn n l : pd_Message <$> drawn n l = pd_Message <$> l.
Proof. revert n. induction l as [|p l IH]; intros n; csimpl; [done|]. by rewrite IH. Qed.

Lemma routed_to_drawn key payload x s n l :
  routed_to key payload x s l → routed_to key payload x s (drawn n l).
Proof.
  intros [H1 H2 H3]. pose proof (destination_drawn n l) as Hd. split.
  - by rewrite (names_of_destinations _ l).
  - intros name r. by rewrite H2, Hd.
  - assert (∀ l', Forall (λ p, pd_Message p = mkMessage payload key) l' ↔
                  Forall (eq (mkMessage payload key)) (pd_Message <$> l')) as Hm.
    { intros l'. rewrite Forall_fmap. apply Forall_iff. intros p. by split. }
    rewrite Hm, messages_drawn. by apply Hm.
Qed.

Lemma drawn_ids n l : dl_ID ∘ pd_Delivery <$> drawn n l = uuid_at <$> seq n (length l).
Proof. revert n. induction l as [|p l IH]; intros n; csimpl; [done|]. by rewrite IH. Qed.

(** Every id that a queue holds has been drawn from the runtime. *)
Definition ids_drawn (s : Core) : Prop := ∀ r q id,
  co_qheap s !! r = Some q → id ∈ ids q → ∃ i, i < co_uuids s ∧ id = uuid_at i.

Lemma drawn_fresh `{!GoEnvOk E} s n l p r q :
  ids_drawn s → co_uuids s ≤ n → p ∈ drawn n l → co_qheap s !! r = Some q →
  dl_ID (pd_Delivery p) ∉ ids q.
Proof.
  intros Hs Hn Hp Hq Hin. destruct (Hs r q _ Hq Hin) as (i & Hi & Hid).
  apply (list_elem_of_fmap_2 (dl_ID ∘ pd_Delivery)) in Hp. rewrite drawn_ids in Hp.
  apply list_elem_of_fmap in Hp as (j & Hj & Hjn%elem_of_seq). simpl in Hj.
  rewrite Hid in Hj. apply uuid_inj in Hj. lia.
Qed.

(** Deliveries whose ids have been drawn keep it so. *)
Lemma delivered_ids_drawn l s s' :
  ids_drawn s → delivered (sent_to l) s s' → co_uuids s ≤ co_uuids s' →
  (∀ p, p ∈ l → ∃ i, i < co_uuids s' ∧ dl_ID (pd_Delivery p) = uuid_at i) →
  ids_drawn s'.
Proof.
  intros Hs Hd Hu Hl r q' id Hq' Hid.
  assert (is_Some (co_qheap s !! r)) as [q Hq]
    by (apply elem_of_dom; rewrite <- (dv_queues _ _ _ Hd); by apply elem_of_dom_2 in Hq').
  destruct (dv_queue _ _ _ Hd r q Hq) as (q1 & Hq1 & _ & Hr & Hf & _). simplify_eq.
  unfold ids in Hid. apply list_elem_of_fmap in Hid as (d & -> & Hin%elem_of_held).
  assert (d ∈ sent_to l r ∨ d ∈ held q) as [Hnew|Hold].
  { rewrite elem_of_held. rewrite Hr, Hf, elem_of_app in Hin. tauto. }
  - unfold sent_to in Hnew.
    apply list_elem_of_fmap in Hnew as (p & -> & [_ Hp]%list_elem_of_filter). eauto.
  - destruct (Hs r q (dl_ID d) Hq) as (i & Hi & Heq); [by apply list_elem_of_fmap_2|].
    exists i. split; [lia|done].
Qed.

Lemma length_drawn n l : length (drawn n l) = length l.
Proof. revert n. induction l as [|p l IH]; intros n; csimpl; [done|]. by rewrite IH. Qed.

Lemma valid_delivered new s s' r :
  delivered new s s' → valid_queue r s → valid_queue r s'.
Proof. intros Hd [q Hq]. destruct (dv_queue _ _ _ Hd r q Hq) as (q' & ? & _). by exists q'. Qed.

Lemma run_append_all l s :
  core_wf s → Forall (λ p, valid_queue (pd_Queue p) s) l →
  ∃ s', run (map_prog Exchange.append_one l) s = Val (drawn (co_uuids s) l, s')
        ∧ core_wf s' ∧ delivered (sent_to (drawn (co_uuids s) l)) s s'
        ∧ co_uuids s' = co_uuids s + length l.
Proof.
  intros Hs Hl. revert s Hs Hl. induction l as [|p l IH]; intros s Hs Hl;
    cbn [map_prog drawn];
    [exists s; split_and!; [done|done|apply delivered_refl|simpl; lia]|].
  apply Forall_cons in Hl as [[q Hq] Hl].
  destruct (wf_counters s (S (co_uuids s)) (co_ranges s) Hs) as [Hs1 _]; [lia|].
  set (s1 := mkCore _ _ _ _ _ _ _ _) in Hs1.
  destruct (run_append (uuid_at (co_uuids s)) (pd_Message p) (pd_Queue p) q s1 Hs1 Hq)
    as (s2 & Hrun & Hs2 & Hd2 & Hu2).
  destruct (IH s2 Hs2) as (s3 & Hrun3 & Hs3 & Hd3 & Hu3).
  { eapply Forall_impl; [done|]. intros p' Hp'. by eapply (valid_delivered _ s1 s2). }
  rewrite Hu2 in Hrun3, Hd3, Hu3. exists s3.
  split_and!; [|done| |rewrite Hu3; simpl; lia].
  - rewrite (run_bind_val _ _ s (stored p (mkDelivery (uuid_at (co_uuids s))
               (pd_Message p) "" 0)) s2).
    + by rewrite (run_bind_val _ _ s2 _ s3 Hrun3).
    + unfold Exchange.append_one. rewrite run_bind, run_atomic.
      rewrite (GoM_bind_val _ _ s (uuid_at (co_uuids s)) s1) by done. by rewrite Hrun.
  - eapply delivered_ext; [|eapply (delivered_trans (into (pd_Queue p) _)); [|done]].
    + intros r. unfold sent_to, into. csimpl.
      rewrite filter_cons; simpl. repeat case_decide; try done; congruence.
    + destruct Hd2 as [? ? ? ? ?]. by split.
Qed.

Lemma run_Route e x key payload s :
  co_eheap s !! e = Some x → core_wf s →
  run (Exchange.Route e key payload) s =
  if RoutingKey.IsValid key
  then Val (Ok (omap (routed key (mkMessage payload key) s)
                  (omap (λ n, ex_Queues x !! n)
                     (range_at (co_ranges s) (keys (ex_Queues x))))), tick s)
  else Val (Err InvalidRoutingKey, s).
Proof.
  intros Hx Hs. unfold Exchange.Route. destruct (RoutingKey.IsValid key); [|done].
  simpl negb. cbv iota.
  rewrite (run_bind_val (atomic (Exchange.snapshot e)) _ _ _ _
             (eq_trans (run_atomic _ _) (snapshot_eq e x s Hx))).
  assert (Forall (λ r, valid_queue r (tick s))
            (omap (λ n, ex_Queues x !! n)
               (range_at (co_ranges s) (keys (ex_Queues x))))) as Hl.
  { apply Forall_forall. intros r (n & _ & Hr)%list_elem_of_omap.
    destruct (wf_queues s Hs _ _ _ _ Hx Hr) as (q & Hq & _). by exists q. }
  by rewrite (run_bind_val _ _ _ _ _ (run_route_loop _ _ _ [] _ Hl)).
Qed.

(** ** Consumers of an exchange *)

Definition has_consumers (r : qref) (s : Core) : Prop :=
  ∃ q, co_qheap s !! r = Some q ∧ q_Consumers q ≠ ∅.

Lemma run_HasConsumers r q s :
  co_qheap s !! r = Some q →
  run (atomic (on_queue r Queue.HasConsumers)) s =
  Val (bool_decide (q_Consumers q ≠ ∅), s).
Proof.
  intros Hq. rewrite run_atomic.
  rewrite (run_on_queue r q _ _ _ _ _ Hq (HasConsumers_eq q (co_chans s))).
  by rewrite set_queue_same.
Qed.

Lemma run_any_consumers l s :
  Forall (λ r, valid_queue r s) l →
  ∃ b, run (Exchange.any_consumers l) s = Val (b, s) ∧
       (b = true ↔ Exists (λ r, has_consumers r s) l).
Proof.
  induction 1 as [|r l [q Hq] _ (b & IH & Hb)]; cbn [Exchange.any_consumers].
  { exists false. split; [done|]. by rewrite Exists_nil. }
  rewrite (run_bind_val _ _ _ _ _ (run_HasConsumers r q s Hq)).
  assert (has_consumers r s ↔ q_Consumers q ≠ ∅) as Hr.
  { split; [intros (q' & Hq' & ?); by simplify_eq|]. intros ?. by exists q. }
  case_bool_decide as Hc.
  - exists true. split; [done|]. rewrite Exists_cons. naive_solver.
  - exists b. split; [done|]. rewrite Hb, Exists_cons. naive_solver.
Qed.

Lemma run_HasActiveConsumers e x s :
  core_wf s → co_eheap s !! e = Some x →
  let queues := omap (λ name, ex_Queues x !! name)
                  (range_at (co_ranges s) (keys (ex_Queues x))) in
  ∃ b, run (Exchange.HasActiveConsumers e) s = Val (b, tick s) ∧
       (b = true ↔ Exists (λ r, has_consumers r (tick s)) queues).
Proof.
  intros Hs Hx queues. unfold Exchange.HasActiveConsumers.
  rewrite (run_bind_val (atomic (Exchange.snapshot e)) _ _ _ _
             (eq_trans (run_atomic _ _) (snapshot_eq e x s Hx))).
  apply run_any_consumers, Forall_forall. intros r (n & _ & Hr)%list_elem_of_omap.
  destruct (wf_queues s Hs _ _ _ _ Hx Hr) as (q & Hq & _). by exists q.
Qed.

(** ** Giving back and leaving *)

Lemma run_NAck e name x r q id c s :
  core_wf s → bound e name x r q s →
  run (Exchange.NAck e name id c) s =
  match q_InFlight q !! id with
  | None => Val (Err DeliveryNotFound, tick s)
  | Some d =>
      if decide (dl_ConsumerID d = c) then
        let q' := set_InFlight (delete id (q_InFlight q)) q in
        if exhausted q d || negb (Queue.other_consumer (range_at (co_ranges s)) c q)
        then Val (Ok (mkNAckResult d (mkDeadLetter (dl_Message d) name
                        Exchange.dead_reason (dl_Attempts d)) true),
                  set_queue r q' (co_chans s) (tick s))
        else Val (Ok (mkNAckResult (set_ConsumerID "" d) DeadLetter_zero false),
                  set_queue r (notified_q (push (set_ConsumerID "" d) q') (co_chans s))
                    (notified_cs q (co_chans s)) (tick s))
      else Val (Err DeliveryOwnerMismatch, tick s)
  end.
Proof.
  intros Hs Hb. unfold Exchange.NAck. rewrite (run_with_queue e name x r q) by done.
  destruct Hb as [_ _ Hq]. pose proof (wf_open s Hs r q Hq) as Ho.
  pose proof (Reject_eq (range_at (co_ranges s)) id c q (co_chans s) Ho) as HR.
  assert (∀ (o : result (Delivery * bool)) q' cs',
    Queue.Reject (range_at (co_ranges s)) id c (q, co_chans s) = Val (o, (q', cs')) →
    run (atomic (on_queue_range r (λ ro, Queue.Reject ro id c))) s =
    Val (o, set_queue r q' cs' (tick s))) as Hrun.
  { intros o q' cs' H. rewrite run_atomic. by apply (run_on_queue_range r q). }
  assert (set_queue r q (co_chans s) (tick s) = tick s) as Hsame
    by by apply (set_queue_same r q (tick s)).
  rewrite run_try.
  destruct (q_InFlight q !! id) as [d|]; [|by rewrite (Hrun _ _ _ HR), Hsame].
  destruct (decide (dl_ConsumerID d = c)); [|by rewrite (Hrun _ _ _ HR), Hsame].
  cbv zeta in HR |- *. subst c.
  destruct (exhausted q d || _); by rewrite (Hrun _ _ _ HR).
Qed.

(** The exchange [x] at [e] without the queue [name]. *)
Definition unbound (e : eref) (name : string) (x : Exchange) (s : Core) : Core :=
  set_eheap (<[e := mkExchange (ex_Name x) (delete name (ex_Queues x))]> (co_eheap s)) s.

Lemma run_write_delete e name x s :
  co_eheap s !! e = Some x →
  write_Queues e (delete name) s = Val (tt, unbound e name x s).
Proof.
  intros Hx. unfold write_Queues, read_exchange. go_unfold. by rewrite Hx.
Qed.

(** The queue and the channels after [DisconnectConsumer]. *)
Definition after_disconnect (c : string) (returned : list Delivery) (q : Queue)
    (cs : Chans) : Queue * Chans :=
  if decide (0 < length returned)
  then (notified_q (disconnected c returned q) cs, notified_cs q cs)
  else (disconnected c returned q, cs).

Lemma after_disconnect_fields c returned q cs :
  let q' := (after_disconnect c returned q cs).1 in
  q_IsAutoDelete q' = q_IsAutoDelete q ∧ q_Consumers q' = q_Consumers q ∖ {[c]} ∧
  q_InFlight q' = kept_of c (q_InFlight q) ∧ q_Ready q' = q_Ready q ++ returned.
Proof. unfold after_disconnect. by case_decide. Qed.

Lemma run_DisconnectConsumer `{!GoEnvOk E} e name x r q c s :
  core_wf s → bound e name x r q s →
  let returned :=
    returned_of c (q_InFlight q) (range_at (co_ranges s) (keys (q_InFlight q))) in
  let '(q', cs') := after_disconnect c returned q (co_chans s) in
  let s' := set_queue r q' cs' (tick s) in
  run (Exchange.DisconnectConsumer e name c) s =
  Val (Ok returned,
       if q_IsAutoDelete q && bool_decide (q_Consumers q ⊆ {[c]})
       then unbound e name x s' else s').
Proof.
  intros Hs Hb. pose proof Hb as [Hx Hr Hq]. cbv zeta.
  set (returned := returned_of _ _ _).
  pose proof (after_disconnect_fields c returned q (co_chans s)) as (Ha & Hc & _ & _).
  pose proof (DisconnectConsumer_eq (range_at (co_ranges s)) c q (co_chans s)
                (wf_keyed s Hs r q Hq) (wf_open s Hs r q Hq)) as HD.
  fold returned in HD. cbv zeta in HD.
  change (if decide (0 < length returned) then _ else _) with
    (after_disconnect c returned q (co_chans s)) in HD.
  destruct (after_disconnect c returned q (co_chans s)) as [q' cs'].
  simpl in Ha, Hc. unfold Exchange.DisconnectConsumer.
  rewrite (run_with_queue e name x r q s) by done.
  rewrite (run_bind_val _ _ s returned (set_queue r q' cs' (tick s)));
    [|rewrite run_atomic; by apply (run_on_queue_range r q)].
  set (s' := set_queue r q' cs' (tick s)).
  assert (co_qheap s' !! r = Some q') as Hq' by apply lookup_insert_eq.
  rewrite (run_bind_val _ _ _ _ _ (run_read_queue r q' s' Hq')). rewrite Ha.
  destruct (q_IsAutoDelete q); [|done]. rewrite run_bind.
  rewrite (run_bind_val _ _ _ _ _ (run_HasConsumers r q' s' Hq')).
  rewrite Hc. destruct (decide (q_Consumers q ⊆ {[c]})) as [Hsub|Hsub].
  - assert (q_Consumers q ∖ {[c]} = ∅) as -> by set_solver.
    rewrite bool_decide_false by tauto. rewrite bool_decide_true by done.
    rewrite run_atomic. by rewrite (run_write_delete e name x).
  - rewrite bool_decide_true by (intros H; by apply Hsub, empty_difference_subseteq_L).
    by rewrite bool_decide_false.
Qed.
End alone.

(** ** Properties *)

(** C20: routing is exact: a message with a valid key goes to the queues of the
    exchange that have a filter matching the key, to each of them once, whatever
    order the runtime ranges over them in, and an invalid key is refused; routing
    changes neither queues nor exchanges. *)
Theorem route_exact (E : GoEnv) e x key payload s :
  GoEnvOk E → core_wf s → co_eheap s !! e = Some x →
  ∃ r s', run (Exchange.Route e key payload) s = Val (r, s') ∧
    co_qheap s' = co_qheap s ∧ co_eheap s' = co_eheap s ∧
    match r with
    | Ok l => RoutingKey.IsValid key = true ∧ routed_to key payload x s l
    | Err err => RoutingKey.IsValid key = false ∧ err = InvalidRoutingKey
    end.
Proof.
  intros HE Hs Hx. rewrite (run_Route e x) by done.
  destruct (RoutingKey.IsValid key); eexists _, _; split_and!; try done.
  split; [done|]. eapply routed_to_snapshot; [done..|apply (range_perm (keys _))].
Qed.

Lemma route_exact_witness :
  ∃ l s', run (Exchange.Route demo_exchange "corp.users.create" []) demo_core
            = Val (Ok l, s') ∧ routed_to "corp.users.create" [] demo_x demo_core l
          ∧ (pd_QueueName <$> l) ≡ₚ ["users"; "audit"].
Proof.
  eexists _, _. split; [vm_compute; reflexivity|]. split; [|vm_compute; reflexivity].
  destruct (route_exact demo_env demo_exchange demo_x "corp.users.create" [] demo_core
    demo_env_ok demo_core_wf demo_x_eq) as (r & s' & Hrun & _ & _ & H).
  vm_compute in Hrun. injection Hrun as <- _. apply H.
Defined.

(** C21: publishing fans out: every queue the message is routed to gets one new
    delivery of it at the end of its ready list, pending, with no attempts, and its waiters are woken; no other queue and
    nothing else in the broker changes.  The ids are the next that the runtime draws,
    one for each delivery, so that none of them is the id of another delivery of this
    publication or of any delivery that a queue held, nor will be drawn again. *)
Theorem publish_fan_out (E : GoEnv) e x key payload s :
  GoEnvOk E → core_wf s → co_eheap s !! e = Some x → RoutingKey.IsValid key = true →
  ∃ l s', run (Exchange.Publish e key payload) s = Val (Ok l, s') ∧ core_wf s' ∧
    routed_to key payload x s l ∧ delivered (sent_to l) s s' ∧
    Forall (λ p, pd_Delivery p =
                 mkDelivery (dl_ID (pd_Delivery p)) (mkMessage payload key) "" 0) l ∧
    dl_ID ∘ pd_Delivery <$> l = uuid_at <$> seq (co_uuids s) (length l) ∧
    co_uuids s' = co_uuids s + length l ∧
    NoDup (dl_ID ∘ pd_Delivery <$> l) ∧
    (ids_drawn s → ids_drawn s' ∧
       ∀ p r q, p ∈ l → co_qheap s !! r = Some q → dl_ID (pd_Delivery p) ∉ ids q).
Proof.
  intros HE Hs Hx Hkey.
  pose proof (run_Route e x key payload s Hx Hs) as HR. rewrite Hkey in HR.
  set (l := omap _ _) in HR.
  assert (routed_to key payload x s l) as Hl
    by (eapply routed_to_snapshot; [done..|apply (range_perm (keys _))]).
  destruct (run_append_all l (tick s)) as (s' & Hrun & Hs' & Hd & Hu).
  { by apply wf_tick. }
  { apply Forall_forall. intros p Hp. destruct (rt_exact _ _ _ _ _ Hl
      (pd_QueueName p) (pd_Queue p)) as [_ H].
    destruct H as (_ & q & Hq & _); [|by exists q].
    by apply (list_elem_of_fmap_2' _ _ p). }
  change (co_uuids (tick s)) with (co_uuids s) in *.
  exists (drawn (co_uuids s) l), s'. split_and!.
  - unfold Exchange.Publish. rewrite (run_try_ok _ _ _ _ _ HR).
    by rewrite (run_bind_val _ _ _ _ _ Hrun).
  - done.
  - by apply routed_to_drawn.
  - by destruct Hd; split.
  - pose proof (rt_message _ _ _ _ _ Hl) as Hm. clear -Hm. generalize (co_uuids s).
    induction Hm as [|p l Hp _ IH]; intros n; csimpl; constructor; [|done].
    by rewrite Hp.
  - rewrite drawn_ids. by rewrite length_drawn.
  - by rewrite length_drawn.
  - rewrite drawn_ids. apply NoDup_fmap; [apply uuid_inj|apply NoDup_seq].
  - intros Hids. split; [|intros p r q Hp Hq; by eapply (drawn_fresh s (co_uuids s) l)].
    eapply (delivered_ids_drawn _ s); [done|by destruct Hd; split|lia|].
    intros p Hp. apply (list_elem_of_fmap_2 (dl_ID ∘ pd_Delivery)) in Hp.
    rewrite drawn_ids in Hp.
    apply list_elem_of_fmap in Hp as (j & Hj & Hjn%elem_of_seq). exists j.
    split; [lia|done].
Qed.

Lemma publish_fan_out_witness :
  ∃ l s', run (Exchange.Publish demo_exchange "corp.users.create" []) demo_core
            = Val (Ok l, s') ∧ delivered (sent_to l) demo_core s'
          ∧ sent_to l demo_users =
            [mkDelivery "id-0" (mkMessage [] "corp.users.create") "" 0].
Proof.
  eexists _, _. split; [vm_compute; reflexivity|]. split; [|vm_compute; reflexivity].
  destruct (publish_fan_out demo_env demo_exchange demo_x "corp.users.create" []
    demo_core demo_env_ok demo_core_wf demo_x_eq) as (r & s' & Hrun & _ & _ & H & _);
    [reflexivity|].
  vm_compute in Hrun. injection Hrun as <- <-. exact H.
Defined.

(** C27: registering under a free name: contradictory flags, a negative limit and
    a malformed filter are refused, in this order, and change nothing; otherwise
    the name is bound to a new empty queue with the given configuration, and
    every other queue and binding is as before. *)
Theorem register_new_queue (E : GoEnv) e x name d a m f s :
  core_wf s → co_eheap s !! e = Some x → ex_Queues x !! name = None →
  ∃ r s', run (Exchange.RegisterQueue e name d a m f) s = Val (r, s') ∧ core_wf s' ∧
  match r with
  | Err err => s' = s ∧
      err = (if decide (d = true ∧ a = true) then QueueFlagsConflict
             else if decide (m < 0)%Z then MaxAttemptsIncorrect else FiltersIncorrect) ∧
      (d = true ∧ a = true ∨ (m < 0)%Z ∨ ¬ Forall (λ v, RoutingFilter.IsValid v = true) f)
  | Ok ref =>
      ¬ (d = true ∧ a = true) ∧ (0 ≤ m)%Z ∧
      Forall (λ v, RoutingFilter.IsValid v = true) f ∧
      co_qheap s !! ref = None ∧
      co_eheap s' = <[e := mkExchange (ex_Name x) (<[name := ref]> (ex_Queues x))]>
                      (co_eheap s) ∧
      ∃ q, co_qheap s' = <[ref := q]> (co_qheap s) ∧
        q_Name q = name ∧ q_IsDurable q = d ∧ q_IsAutoDelete q = a ∧
        q_MaxAttempts q = m ∧ q_Filters q = f ∧
        q_Ready q = [] ∧ q_InFlight q = ∅ ∧ q_Consumers q = ∅
  end.
Proof.
  intros Hs Hx Hfree. unfold Exchange.RegisterQueue. rewrite run_atomic.
  rewrite (register_eq e name d a m f s x) by done. rewrite Hfree.
  destruct (decide (d = true ∧ a = true)) as [[-> ->]|Hda].
  { eexists _, _. split_and!; [done..|]. split_and!; [done|done|by left]. }
  assert (d && a = false) as -> by (destruct d, a; simpl; tauto).
  destruct (decide (m < 0)%Z) as [Hm|Hm].
  { eexists _, _. split_and!; [done..|]. split_and!; [done|done|by right; left]. }
  pose proof (validFilters_spec f) as Hf. destruct (validFilters f); simpl.
  - destruct (wf_registered s e x (fresh_queue name d a m f s)) as [Hs' _]; try done.
    { split; simpl; [done|lia|by apply Hf]. }
    eexists _, _. split_and!; [done..|].
    split_and!; [done|lia|by apply Hf|by apply fresh_queue_ref|done|].
    eexists. by split_and!.
  - eexists _, _. split_and!; [done..|]. split_and!; [done|done|right; right].
    intros H. by apply Hf in H.
Qed.

Lemma register_new_queue_witness :
  run (Exchange.RegisterQueue demo_exchange "new" true false (-1) []) demo_core
    = Val (Err MaxAttemptsIncorrect, demo_core) ∧
  ∃ s', run (Exchange.RegisterQueue demo_exchange "new" true false 1 []) demo_core
          = Val (Ok 4%positive, s') ∧ core_wf s'.
Proof.
  split; [vm_compute; reflexivity|].
  destruct (register_new_queue demo_env demo_exchange demo_x "new" true false 1 []
    demo_core demo_core_wf demo_x_eq eq_refl) as (r & s' & Hr & Hs' & _).
  exists s'. split; [|exact Hs']. rewrite Hr. vm_compute in Hr.
  injection Hr as <- _. reflexivity.
Defined.

(** C26: registering is idempotent: once a registration has made a queue, a
    registration of that name with the same flags, the same limit, as many filters
    and each of the queue's filters among them returns that queue, any other one is
    refused, and neither changes anything - whatever other calls have run in between,
    as long as the name is still bound to the queue.  When the queue's filters have no
    repetition, the condition on the filters says that they are the same in any order;
    with a repetition it says less ([a; a] and [a; b] pass for equal). *)
Theorem register_idempotent (E : GoEnv) e x name d a m f s ref s1 s2 x2 d' a' m' f' :
  core_wf s → co_eheap s !! e = Some x → ex_Queues x !! name = None →
  run (Exchange.RegisterQueue e name d a m f) s = Val (Ok ref, s1) →
  core_le s1 s2 → core_wf s2 →
  co_eheap s2 !! e = Some x2 → ex_Queues x2 !! name = Some ref →
  run (Exchange.RegisterQueue e name d' a' m' f') s2 =
  Val (if decide (d' = d ∧ a' = a ∧ m' = m ∧
                  length f' = length f ∧ Forall (λ v, v ∈ f') f) then Ok ref
       else Err QueueAlreadyExist, s2) ∧
  (NoDup f → length f' = length f ∧ Forall (λ v, v ∈ f') f ↔ f' ≡ₚ f).
Proof.
  intros Hs Hx Hfree Hreg Hle Hs2 Hx2 Href.
  destruct (register_new_queue E e x name d a m f s Hs Hx Hfree)
    as (r & s' & Hr & _ & H). rewrite Hr in Hreg. injection Hreg as -> ->.
  destruct H as (_ & _ & _ & _ & _ & q & Hq & _ & Hd & Ha & Hm & Hfs & _).
  assert (co_qheap s1 !! ref = Some q) as Hq1 by by rewrite Hq, lookup_insert_eq.
  destruct (le_queue _ _ Hle _ _ Hq1) as (q2 & Hq2 & [_ Cf Cd Ca Cm]).
  unfold Exchange.RegisterQueue. rewrite run_atomic.
  rewrite (register_eq e name d' a' m' f' s2 x2) by done.
  rewrite Href, Hq2, Cf, Cd, Ca, Cm, Hfs, Hd, Ha, Hm.
  assert (equalFilters f f' = true ↔ length f' = length f ∧ Forall (λ v, v ∈ f') f) as He
    by (rewrite equalFilters_spec, Forall_forall; naive_solver).
  split; [|intros Hf; rewrite <- He, equalFilters_perm by done; by split].
  case_decide as Hc.
  - destruct Hc as (-> & -> & -> & Hp). rewrite !bool_decide_true by done.
    simpl. apply He in Hp. by rewrite Hp.
  - destruct (bool_decide (d = d')) eqn:H1; [|done].
    destruct (bool_decide (a = a')) eqn:H2; [|done].
    destruct (bool_decide (m = m')) eqn:H3; [|done].
    rewrite bool_decide_eq_true in H1, H2, H3.
    destruct (equalFilters f f'); simpl; [|done]. exfalso. apply Hc.
    split_and!; try done; by apply He.
Qed.

(** The state in which "users" has just been registered, and a permutation of the
    filters of a later registration. *)
Lemma register_idempotent_witness :
  ∃ s', run (Exchange.RegisterQueue demo_exchange "new" true false 1 ["a.*"; "b"])
          demo_core = Val (Ok 4%positive, s') ∧
        run (Exchange.RegisterQueue demo_exchange "new" true false 1 ["b"; "a.*"]) s'
          = Val (Ok 4%positive, s').
Proof.
  destruct (run (Exchange.RegisterQueue demo_exchange "new" true false 1 ["a.*"; "b"])
    demo_core) as [[r s']|] eqn:Hr; [|vm_compute in Hr; discriminate Hr].
  assert (r = Ok 4%positive) as -> by (vm_compute in Hr; by injection Hr as <- _).
  exists s'. split; [reflexivity|].
  assert (core_wf s') as Hs'.
  { destruct (register_new_queue demo_env demo_exchange demo_x "new" true false 1
      ["a.*"; "b"] demo_core demo_core_wf demo_x_eq eq_refl) as (r & s2 & Hr2 & Hs2 & _).
    rewrite Hr in Hr2. by injection Hr2 as _ ->. }
  destruct (register_idempotent demo_env demo_exchange demo_x "new" true false 1
    ["a.*"; "b"] demo_core 4%positive s' s'
    (mkExchange "events" (<["new" := 4%positive]> (ex_Queues demo_x)))
    true false 1 ["b"; "a.*"]) as [Hrun _].
  - apply demo_core_wf.
  - apply demo_x_eq.
  - reflexivity.
  - exact Hr.
  - reflexivity.
  - exact Hs'.
  - vm_compute in Hr. injection Hr as <-. vm_compute. reflexivity.
  - vm_compute. reflexivity.
  - rewrite Hrun, decide_True; [reflexivity|]. split_and!; try reflexivity.
    apply (bool_decide_unpack _). vm_compute. exact I.
Defined.

(** C24: a negative acknowledgement by the holder of a delivery takes it out of
    flight. If its attempts have reached a positive limit, or no other consumer
    is registered, it leaves the queue as a dead letter that carries its message,
    its attempts and the name of the queue; otherwise it is the last of the ready
    ones, owned by nobody, with its attempts kept. *)
Theorem nack_outcome (E : GoEnv) e name x r q id c d s :
  GoEnvOk E → core_wf s → bound e name x r q s →
  q_InFlight q !! id = Some d → dl_ConsumerID d = c →
  ∃ res s' q', run (Exchange.NAck e name id c) s = Val (Ok res, s') ∧ core_wf s' ∧
    bound e name x r q' s' ∧ same_config q q' ∧ q_Consumers q' = q_Consumers q ∧
    q_InFlight q' = delete id (q_InFlight q) ∧
    if decide ((0 < q_MaxAttempts q ∧ q_MaxAttempts q ≤ dl_Attempts d)%Z
               ∨ q_Consumers q ⊆ {[c]})
    then na_IsDead res = true ∧ na_Delivery res = d ∧ q_Ready q' = q_Ready q ∧
         dead_Message (na_DeadLetter res) = dl_Message d ∧
         dead_SourceQueue (na_DeadLetter res) = name ∧
         dead_Attempts (na_DeadLetter res) = dl_Attempts d
    else na_IsDead res = false ∧ na_Delivery res = set_ConsumerID "" d ∧
         q_Ready q' = q_Ready q ++ [set_ConsumerID "" d].
Proof.
  intros HE Hs Hb Hd Hc. pose proof (run_NAck e name x r q id c s Hs Hb) as Hrun.
  rewrite Hd, decide_True in Hrun by done. cbv zeta in Hrun.
  destruct Hb as [Hx Hr Hq].
  assert (core_wf (tick s)) as Ht by by apply wf_tick.
  assert (exhausted q d || negb (Queue.other_consumer (range_at (co_ranges s)) c q) = true ↔
    (0 < q_MaxAttempts q ∧ q_MaxAttempts q ≤ dl_Attempts d)%Z ∨ q_Consumers q ⊆ {[c]})
    as Hdead by (apply gives_up_iff; apply _).
  assert (keyed (delete id (q_InFlight q))) as Hk
    by by apply keyed_delete, (wf_keyed s Hs r).
  destruct (exhausted q d || _) eqn:Hb.
  - eexists _, _, _. split; [exact Hrun|].
    split; [apply (wf_set_queue (tick s) r q); [done|done|by split|by left|done]|].
    rewrite decide_True by by apply Hdead.
    split; [split; [done|done|apply lookup_insert_eq]|]. split; [by split|].
    by split_and!.
  - eexists _, _, _. split; [exact Hrun|].
    split; [apply (wf_set_queue (tick s) r q); [done|done|by split|by right|done]|].
    rewrite decide_False by (intros H%Hdead; done).
    split; [split; [done|done|apply lookup_insert_eq]|]. split; [by split|].
    by split_and!.
Qed.

Lemma demo_users_bound :
  bound demo_exchange "users" demo_x demo_users (demo_queue_at demo_users) demo_busy.
Proof. split; vm_compute; reflexivity. Qed.

Lemma demo_audit_bound :
  bound demo_exchange "audit" demo_x demo_audit (demo_queue_at demo_audit) demo_busy.
Proof. split; vm_compute; reflexivity. Qed.

Lemma nack_outcome_witness :
  ∃ res s' q', run (Exchange.NAck demo_exchange "users" "d1" "c1") demo_busy
                 = Val (Ok res, s') ∧
    bound demo_exchange "users" demo_x demo_users q' s' ∧
    na_IsDead res = false ∧ q_Ready q' = [set_Attempts 1 (demo_delivery "d1")].
Proof.
  destruct (nack_outcome demo_env demo_exchange "users" demo_x demo_users
    (demo_queue_at demo_users) "d1" "c1"
    (set_ConsumerID "c1" (set_Attempts 1 (demo_delivery "d1"))) demo_busy
    demo_env_ok demo_busy_wf demo_users_bound) as
    (res & s' & q' & Hrun & _ & Hb & _ & _ & _ & H);
    [vm_compute; reflexivity|reflexivity|].
  rewrite decide_False in H.
  - exists res, s', q'. split_and!; [exact Hrun|apply Hb..|apply H|].
    destruct H as (_ & _ & H). rewrite H. vm_compute. reflexivity.
  - apply (bool_decide_unpack _). vm_compute. exact I.
Defined.

(** C25: a consumer that leaves gives back exactly what it held: those deliveries
    become ready again, owned by nobody, behind the ones that were; the others'
    stay in flight. A queue created with the auto-delete flag loses its name when
    the last consumer leaves, any other queue keeps it. *)
Theorem disconnect_outcome (E : GoEnv) e name x r q c s :
  GoEnvOk E → core_wf s → bound e name x r q s →
  ∃ returned s' q', run (Exchange.DisconnectConsumer e name c) s = Val (Ok returned, s') ∧
    co_qheap s' !! r = Some q' ∧ same_config q q' ∧
    q_Consumers q' = q_Consumers q ∖ {[c]} ∧
    q_Ready q' = q_Ready q ++ returned ∧
    (∀ d, d ∈ returned ↔
       ∃ d0, q_InFlight q !! dl_ID d = Some d0 ∧ dl_ConsumerID d0 = c
             ∧ d = set_ConsumerID "" d0) ∧
    (∀ id d, q_InFlight q' !! id = Some d ↔
             q_InFlight q !! id = Some d ∧ dl_ConsumerID d ≠ c) ∧
    co_eheap s' =
      (if decide (q_IsAutoDelete q = true ∧ q_Consumers q ⊆ {[c]})
       then <[e := mkExchange (ex_Name x) (delete name (ex_Queues x))]> (co_eheap s)
       else co_eheap s).
Proof.
  intros HE Hs Hb. pose proof (run_DisconnectConsumer e name x r q c s Hs Hb) as Hrun.
  cbv zeta in Hrun. set (returned := returned_of _ _ _) in Hrun.
  pose proof (after_disconnect_fields c returned q (co_chans s)) as (Ha & Hc & Hf & Hr).
  assert (same_config q (after_disconnect c returned q (co_chans s)).1) as Hsame.
  { unfold after_disconnect. destruct (decide (0 < length returned)); by split. }
  destruct (after_disconnect c returned q (co_chans s)) as [q' cs'].
  simpl in Ha, Hc, Hf, Hr, Hsame.
  eexists returned, _, q'. split; [exact Hrun|].
  assert (∀ b : bool, co_qheap (if b then unbound e name x (set_queue r q' cs' (tick s))
            else set_queue r q' cs' (tick s)) !! r = Some q') as Hq'
    by (intros []; apply lookup_insert_eq).
  split; [apply Hq'|]. split; [done|]. split; [done|]. split; [done|].
  split; [|split].
  - intros d. rewrite <- (elem_of_returned c) by apply (wf_keyed s Hs r), Hb.
    unfold returned. by rewrite (returned_of_perm c _ _ _ (range_perm (keys _))).
  - intros id d. rewrite Hf. unfold kept_of. by rewrite map_lookup_filter_Some.
  - destruct (q_IsAutoDelete q); cbn [andb]; [|by rewrite decide_False by (by intros [? _])].
    destruct (decide (q_Consumers q ⊆ {[c]})).
    + rewrite bool_decide_true by done. by rewrite decide_True.
    + rewrite bool_decide_false by done. by rewrite decide_False by tauto.
Qed.

Lemma disconnect_outcome_witness :
  ∃ returned s', run (Exchange.DisconnectConsumer demo_exchange "audit" "c3") demo_busy
                   = Val (Ok returned, s') ∧
    (set_Attempts 1 (demo_delivery "d2") ∈ returned) ∧
    co_eheap s' = <[demo_exchange := mkExchange "events" (delete "audit" (ex_Queues demo_x))]>
                    (co_eheap demo_busy).
Proof.
  destruct (disconnect_outcome demo_env demo_exchange "audit" demo_x demo_audit
    (demo_queue_at demo_audit) "c3" demo_busy demo_env_ok demo_busy_wf demo_audit_bound)
    as (returned & s' & q' & Hrun & _ & _ & _ & _ & Hret & _ & He).
  exists returned, s'. split_and!; [exact Hrun| |].
  - apply Hret. exists (set_ConsumerID "c3" (set_Attempts 1 (demo_delivery "d2"))).
    split_and!; vm_compute; reflexivity.
  - rewrite He, decide_True; [reflexivity|].
    apply (bool_decide_unpack _). vm_compute. exact I.
Defined.

(** An exchange has active consumers exactly when one of its queues has a
    consumer, and asking changes nothing. *)
Theorem has_active_consumers_spec (E : GoEnv) e x s :
  GoEnvOk E → core_wf s → co_eheap s !! e = Some x →
  ∃ b, run (Exchange.HasActiveConsumers e) s = Val (b, tick s) ∧
    (b = true ↔ ∃ name r q c, bound e name x r q s ∧ c ∈ q_Consumers q).
Proof.
  intros HE Hs Hx.
  destruct (run_HasActiveConsumers e x s Hs Hx) as (b & Hrun & Hb).
  exists b. split; [exact Hrun|].
  rewrite Hb, Exists_exists. split.
  - intros (r & (n & _ & Hr)%list_elem_of_omap & q & Hq & Hne).
    apply set_choose_L in Hne as [c Hc]. exists n, r, q, c. by split.
  - intros (n & r & q & c & [_ Hr Hq] & Hc). exists r. split.
    + apply list_elem_of_omap. exists n. split; [|done].
      rewrite (range_perm (keys _)), elem_of_keys. eauto.
    + exists q. split; [done|]. set_solver.
Qed.

Lemma has_active_consumers_spec_witness :
  run (Exchange.HasActiveConsumers demo_exchange) demo_busy = Val (true, tick demo_busy).
Proof.
  destruct (has_active_consumers_spec demo_env demo_exchange demo_x demo_busy
    demo_env_ok demo_busy_wf (b_exchange _ _ _ _ _ _ demo_users_bound)) as (b & Hrun & Hb).
  rewrite Hrun. do 2 f_equal. apply Hb.
  exists "users", demo_users, (demo_queue_at demo_users), "c1".
  split; [exact demo_users_bound|]. apply (bool_decide_unpack _). vm_compute. exact I.
Defined.

(** Lists with repeated filters: the comparison is not symmetric, and takes a
    registration with a filter that the queue does not have for a repetition of
    the old one. *)
Theorem equal_filters_repetition :
  equalFilters ["a"; "a"] ["a"; "b"] = true ∧ equalFilters ["a"; "b"] ["a"; "a"] = false.
Proof. split; vm_compute; reflexivity. Qed.
