(* ===== verification/AppConfig.v ===== *)
(** * Configuration ([internal/config])

    The environment is a function from names to values; the loaders are
    translated with their defaults, their order and their errors.  [Atoi] is
    [strconv.Atoi]: an optional sign and decimal digits, within [int]. *)

From S2P Require Import Prelude.
From Stdlib Require Import Ascii.

Definition environment : Type := string → option string.

Inductive config_error : Type :=
| NotAPositiveInteger (key : string)   (** "... must be a positive integer" *)
| NotGreaterThanZero (key : string)    (** "... must be greater than zero" *)
| RootTokenRequired.

#[export] Instance config_error_eq_dec : EqDecision config_error.
Proof. solve_decision. Defined.

Definition cfg (A : Type) : Type := (config_error + A)%type.

#[export] Instance cfg_ret : MRet cfg := λ A, inr.
#[export] Instance cfg_bind : MBind cfg := λ A B k m,
  match m with inl e => inl e | inr a => k a end.

(** ** [strconv.Atoi] *)

Definition digit (c : ascii) : option Z :=
  let n := Z.of_N (N_of_ascii c) in
  if decide (48 ≤ n ≤ 57)%Z then Some (n - 48)%Z else None.

Fixpoint digits (acc : Z) (s : string) : option Z :=
  match s with
  | EmptyString => Some acc
  | String c s => d ← digit c; digits (acc * 10 + d)%Z s
  end.

(** At least one digit. *)
Definition natural (s : string) : option Z :=
  match s with EmptyString => None | _ => digits 0 s end.

Definition Atoi (s : string) : option Z :=
  z ← match s with
      | String "-" s => n ← natural s; Some (- n)%Z
      | String "+" s => natural s
      | _ => natural s
      end;
  if decide (- 2 ^ 63 ≤ z < 2 ^ 63)%Z then Some z else None.

Record LimitsConfig : Type := mkLimits {
  MaxMessageSize : Z;
  MaxRoutingKeyLength : Z;
  MaxQueueFilters : Z;
  MaxInFlight : Z;
}.

Record DBConfig : Type := mkDBConfig {
  Host : string;
  Port : string;
  User : string;
  Password : string;
  Name : string;
  SSLMode : string;
  ConnectRetries : Z;
  RetryDelay : Z;   (** nanoseconds *)
}.

Record AuthConfig : Type := mkAuthConfig { RootToken : string }.

Record Config : Type := mkConfig {
  GRPCAddr : string;
  cfg_DB : DBConfig;
  cfg_Auth : AuthConfig;
  cfg_Limits : LimitsConfig;
}.

Section config.
Context (env : environment).

Definition lookupEnv (key : string) : option string := env key.

Definition getEnv (key fallback : string) : string :=
  match lookupEnv key with
  | Some value => if decide (value = "") then fallback else value
  | None => fallback
  end.

Definition getPositiveIntEnv (key : string) (fallback : Z) : cfg Z :=
  match lookupEnv key with
  | None => inr fallback
  | Some value =>
      if decide (value = "") then inr fallback
      else
        match Atoi value with
        | None => inl (NotAPositiveInteger key)
        | Some parsed =>
            if decide (parsed ≤ 0)%Z then inl (NotGreaterThanZero key)
            else inr parsed
        end
  end.

Definition defaultMaxMessageSize : Z := 1024 * 1024.
Definition defaultMaxRoutingKeyLength : Z := 255.
Definition defaultMaxQueueFilters : Z := 32.
Definition defaultMaxInFlight : Z := 32.

Definition loadLimitsConfig : cfg LimitsConfig :=
  maxMessageSize ← getPositiveIntEnv "MAX_MESSAGE_SIZE" defaultMaxMessageSize;
  maxRoutingKeyLength ←
    getPositiveIntEnv "MAX_ROUTING_KEY_LENGTH" defaultMaxRoutingKeyLength;
  maxQueueFilters ← getPositiveIntEnv "MAX_QUEUE_FILTERS" defaultMaxQueueFilters;
  maxInFlight ← getPositiveIntEnv "MAX_IN_FLIGHT" defaultMaxInFlight;
  mret (mkLimits maxMessageSize maxRoutingKeyLength maxQueueFilters maxInFlight).

Definition loadAuthConfig : cfg AuthConfig :=
  match lookupEnv "ROOT_TOKEN" with
  | Some rootToken =>
      if decide (rootToken = "") then inl RootTokenRequired
      else inr (mkAuthConfig rootToken)
  | None => inl RootTokenRequired
  end.

(** [time.Duration(retryDelayMs) * time.Millisecond] *)
Definition milliseconds (ms : Z) : Z := int64 (int64 ms * 1000000).

Definition loadDBConfig : cfg DBConfig :=
  connectRetries ← getPositiveIntEnv "DB_CONNECT_RETRIES" 5;
  retryDelayMs ← getPositiveIntEnv "DB_CONNECT_RETRY_DELAY_MS" 1000;
  mret (mkDBConfig
    (getEnv "DB_HOST" "localhost")
    (getEnv "DB_PORT" "5432")
    (getEnv "DB_USER" "message_broker")
    (getEnv "DB_PASSWORD" "message_broker")
    (getEnv "DB_NAME" "message_broker")
    (getEnv "DB_SSLMODE" "disable")
    connectRetries
    (milliseconds retryDelayMs)).

Definition Load : cfg Config :=
  dbConfig ← loadDBConfig;
  authConfig ← loadAuthConfig;
  limitsConfig ← loadLimitsConfig;
  mret (mkConfig (getEnv "GRPC_ADDR" ":50051") dbConfig authConfig limitsConfig).
End config.

(** [fmt.Sprintf("postgres://%s:%s@%s:%s/%s?sslmode=%s", ...)]: the fields go in
    as they are, without escaping. *)
Definition DSN (c : DBConfig) : string :=
  "postgres://" +:+ User c +:+ ":" +:+ Password c +:+ "@" +:+ Host c +:+ ":"
  +:+ Port c +:+ "/" +:+ Name c +:+ "?sslmode=" +:+ SSLMode c.
