(* ===== verification/Connect.v ===== *)
(** * Connecting to the database ([internal/db/db.go])

    [Connect] tries to open a pool of connections until one answers a ping, at most
    [ConnectRetries] times, and waits [RetryDelay] between two attempts.  The loop
    variable and [lastErr] are locals of the source; here they are fields of the
    state, next to the pools that are open.  The driver is not part of the
    repository: what [pgxpool.New] and [Ping] answer is a parameter. *)

From S2P Require Import Prelude Errors Process AppConfig.

(** A pool is named by the number of the call of [pgxpool.New] that made it. *)
Definition pool : Type := nat.

(** The error, if any, of the nth call of [pgxpool.New] and of a ping of its pool. *)
Class PoolEnv : Type := {
  new_fails : nat → string → option string;
  ping_fails : nat → option string;
}.

Record Connecting : Type := mkConnecting {
  cn_attempt : Z;
  cn_lastErr : option string;
  cn_calls : nat;         (** of [pgxpool.New] *)
  cn_open : gset pool;
}.

Inductive connect_error : Type :=
| ConnectEnded (e : ctx_error)                        (** [ctx.Err()] *)
| ConnectFailed (attempts : Z) (last : option string) (** "connect db after ..." *).

Section connect.
Context `{D : PoolEnv}.

(** [pgxpool.New(ctx, dsn)] *)
Definition new_pool (dsn : string) : GoM Connecting (string + pool) := λ s,
  let k := cn_calls s in
  match new_fails k dsn with
  | Some err =>
      Val (inl err, mkConnecting (cn_attempt s) (cn_lastErr s) (S k) (cn_open s))
  | None =>
      Val (inr k, mkConnecting (cn_attempt s) (cn_lastErr s) (S k) ({[k]} ∪ cn_open s))
  end.

Definition close_pool (p : pool) : GoM Connecting unit :=
  modify (λ s, mkConnecting (cn_attempt s) (cn_lastErr s) (cn_calls s) (cn_open s ∖ {[p]})).

Definition set_lastErr (err : string) : GoM Connecting unit :=
  modify (λ s, mkConnecting (cn_attempt s) (Some err) (cn_calls s) (cn_open s)).

(** [attempt++] *)
Definition next_attempt : GoM Connecting unit :=
  modify (λ s, mkConnecting (int64 (cn_attempt s + 1)) (cn_lastErr s) (cn_calls s)
                 (cn_open s)).

(** The statement after the loop. *)
Definition connect_failed (cfg : DBConfig) :
    prog Connecting (option (connect_error + pool)) :=
  lastErr ← atomic (gets cn_lastErr);
  Ret (Some (inl (ConnectFailed (ConnectRetries cfg) lastErr))).

(** What follows a failed attempt: give up, or wait and try again. *)
Definition connect_retry (cfg : DBConfig) (err : string) :
    prog Connecting (option (connect_error + pool)) :=
  atomic (set_lastErr err);;
  attempt ← atomic (gets cn_attempt);
  if decide (attempt = ConnectRetries cfg) then connect_failed cfg
  else
    Select (λ _, false) (λ w,
      match w with
      | CtxDone e => Ret (Some (inl (ConnectEnded e)))
      | TimerFired | Woken => atomic next_attempt;; Ret None
      end).

Definition connect_attempt (cfg : DBConfig) :
    prog Connecting (option (connect_error + pool)) :=
  attempt ← atomic (gets cn_attempt);
  if decide (attempt ≤ ConnectRetries cfg)%Z then
    r ← atomic (new_pool (DSN cfg));
    match r with
    | inr p =>
        match ping_fails p with
        | None => Ret (Some (inr p))
        | Some err => atomic (close_pool p);; connect_retry cfg err
        end
    | inl err => connect_retry cfg err
    end
  else connect_failed cfg.

(** The state in which the loop starts: [attempt := 1], [lastErr] nil. *)
Definition connect_start : Connecting := mkConnecting 1 None 0 ∅.

Definition Connect (cfg : DBConfig) : prog Connecting (connect_error + pool) :=
  Loop (connect_attempt cfg) Ret.

(** ** Attempts *)

(** Why the nth attempt fails, if it does. *)
Definition attempt_fails (cfg : DBConfig) (k : nat) : option string :=
  match new_fails k (DSN cfg) with
  | Some err => Some err
  | None => ping_fails k
  end.

(** The loop before its attempt number [k] (from 0): every earlier one failed, and
    none of their pools is open. *)
Definition before_attempt (k : nat) (last : option string) : Connecting :=
  mkConnecting (Z.of_nat k + 1) last k ∅.

Lemma pool_closed (k : pool) : ({[k]} ∪ ∅) ∖ {[k]} = (∅ : gset pool).
Proof. set_solver. Qed.

Lemma pool_opened (k : pool) : {[k]} ∪ ∅ = ({[k]} : gset pool).
Proof. set_solver. Qed.

(** Evaluates one attempt. *)
Ltac attempt_tac :=
  simpl; case_decide; [|lia]; simpl; unfold new_pool; simpl;
  repeat match goal with H : ?x = _ |- context [?x] => rewrite H; simpl end;
  repeat (case_decide; try contradiction; []); simpl;
  rewrite ?pool_closed, ?pool_opened; unfold before_attempt; auto;
  repeat (f_equal; auto).

(** One attempt takes finitely many steps, and comes to the answer or to the wait
    that follows it. *)
Lemma exec_attempt cfg k last :
  (Z.of_nat k < ConnectRetries cfg)%Z → in_int64 (ConnectRetries cfg) →
  match attempt_fails cfg k with
  | None =>
      ∃ m, ∀ n ws, exec (m + n) ws (Connect cfg) (before_attempt k last) =
        Finished (inr k) (mkConnecting (Z.of_nat k + 1) last (S k) {[k]}) ws
  | Some err =>
      let s := mkConnecting (Z.of_nat k + 1) (Some err) (S k) ∅ in
      ∃ m, ∀ n,
        if decide (Z.of_nat k + 1 = ConnectRetries cfg)%Z then
          ∀ ws, exec (m + n) ws (Connect cfg) (before_attempt k last) =
            Finished (inl (ConnectFailed (ConnectRetries cfg) (Some err))) s ws
        else
          (∀ e ws, exec (m + n) (CtxDone e :: ws) (Connect cfg) (before_attempt k last) =
            Finished (inl (ConnectEnded e)) s ws) ∧
          (∀ ws, exec (m + n) (TimerFired :: ws) (Connect cfg) (before_attempt k last) =
            exec n ws (Connect cfg) (before_attempt (S k) (Some err)))
  end.
Proof.
  intros Hk H64. unfold in_int64 in H64.
  assert (Z.of_nat k + 1 ≠ ConnectRetries cfg →
          int64 (Z.of_nat k + 1 + 1) = Z.of_nat (S k) + 1)%Z as Hnext.
  { intros Hne. rewrite int64_id; unfold in_int64; lia. }
  unfold attempt_fails, Connect. destruct (new_fails k (DSN cfg)) as [err|] eqn:Hnew;
    [|destruct (ping_fails k) as [err|] eqn:Hping].
  - exists 7. intros n. case_decide as Hlast; [|split]; intros; attempt_tac.
  - exists 8. intros n. case_decide as Hlast; [|split]; intros; attempt_tac.
  - exists 4. intros n ws. attempt_tac.
Qed.

(** ** The whole loop *)

(** How the loop ends when it comes to its attempt number [j] as its last one: the
    pool that answered is the only open one; after a failure none is. *)
Definition connect_ends (cfg : DBConfig) (j : nat) (ws : list wake)
    (o : exec_result Connecting (connect_error + pool)) : Prop :=
  ∃ rest last,
    let s := mkConnecting (Z.of_nat j + 1) last (S j) in
    match attempt_fails cfg j with
    | None => ws = replicate j TimerFired ++ rest ∧ o = Finished (inr j) (s {[j]}) rest
    | Some err =>
        last = Some err ∧
        if decide (Z.of_nat j + 1 = ConnectRetries cfg)%Z then
          ws = replicate j TimerFired ++ rest ∧
          o = Finished (inl (ConnectFailed (ConnectRetries cfg) (Some err))) (s ∅) rest
        else
          ∃ e, ws = replicate j TimerFired ++ CtxDone e :: rest ∧
               o = Finished (inl (ConnectEnded e)) (s ∅) rest
    end.

(** From the attempt number [k] on, with the waits of the attempts before it. *)
Lemma exec_connect cfg left k last ws :
  in_int64 (ConnectRetries cfg) → Z.of_nat (k + S left) = ConnectRetries cfg →
  Forall (λ w, w ≠ Woken) ws → left ≤ length ws →
  ∃ fuel j, k ≤ j < k + S left ∧ (∀ i, k ≤ i < j → is_Some (attempt_fails cfg i)) ∧
    connect_ends cfg j (replicate k TimerFired ++ ws)
      (exec fuel ws (Connect cfg) (before_attempt k last)).
Proof.
  intros H64. revert k last ws.
  induction left as [|left IH]; intros k last ws Hn Hws Hlen;
    pose proof (exec_attempt cfg k last ltac:(lia) H64) as Hk;
    destruct (attempt_fails cfg k) as [err|] eqn:Hfail;
    try (destruct Hk as [m Hm]; exists (m + 0), k;
         split; [lia|split; [lia|]]; exists ws, last; rewrite Hfail; by rewrite Hm).
  - destruct Hk as [m Hm]. exists (m + 0), k. split; [lia|]. split; [lia|].
    exists ws, (Some err). rewrite Hfail. specialize (Hm 0).
    rewrite decide_True in Hm by lia. rewrite Hm. intros s. split; [done|].
    by rewrite decide_True by lia.
  - destruct Hk as [m Hm]. destruct ws as [|w ws]; [simpl in Hlen; lia|].
    apply Forall_cons in Hws as [Hw Hws]. destruct w as [e| |]; [| |done].
    + exists (m + 0), k. split; [lia|]. split; [lia|]. exists ws, (Some err).
      rewrite Hfail. specialize (Hm 0). rewrite decide_False in Hm by lia.
      rewrite (proj1 Hm). intros s. split; [done|].
      rewrite decide_False by lia. eauto.
    + destruct (IH (S k) (Some err) ws) as (fuel & j & Hj & Hall & Hend);
        [lia|done|simpl in Hlen; lia|].
      exists (m + fuel), j. split; [lia|]. split.
      { intros i Hi. destruct (decide (i = k)) as [->|]; [by rewrite Hfail|].
        apply Hall. lia. }
      specialize (Hm fuel). rewrite decide_False in Hm by lia.
      rewrite (proj2 Hm). replace (replicate k TimerFired ++ TimerFired :: ws)
        with (replicate (S k) TimerFired ++ ws); [done|].
      by rewrite replicate_S_end, <- app_assoc.
Qed.
Lemma Connect_ends cfg ws :
  (0 < ConnectRetries cfg)%Z → in_int64 (ConnectRetries cfg) →
  Forall (λ w, w ≠ Woken) ws → (ConnectRetries cfg ≤ Z.of_nat (length ws) + 1)%Z →
  ∃ fuel j, (Z.of_nat j < ConnectRetries cfg)%Z ∧
    (∀ i, i < j → is_Some (attempt_fails cfg i)) ∧
    connect_ends cfg j ws (exec fuel ws (Connect cfg) connect_start).
Proof.
  intros Hpos H64 Hws Hlen.
  destruct (exec_connect cfg (Z.to_nat (ConnectRetries cfg) - 1) 0 None ws)
    as (fuel & j & Hj & Hall & Hend); [done|lia|done|lia|].
  exists fuel, j. split; [lia|]. split; [|done]. intros i Hi. apply Hall. lia.
Qed.
End connect.

(** ** Properties *)

(** C17: connecting ends: with a number of retries from 1 up, whatever the driver
    answers and whatever ends the waits, [Connect] returns after finitely many
    steps, with the pool of the first attempt that succeeds, or with the cause when
    the context ends during a wait, or with the error of the last attempt; it makes
    no attempt after a success and none beyond the number of retries, waits only
    between two attempts, and leaves no pool open but the one it returns. *)
Theorem connect_terminates (D : PoolEnv) cfg ws :
  (0 < ConnectRetries cfg)%Z → in_int64 (ConnectRetries cfg) →
  Forall (λ w, w ≠ Woken) ws → (ConnectRetries cfg ≤ Z.of_nat (length ws) + 1)%Z →
  ∃ fuel j, (Z.of_nat j < ConnectRetries cfg)%Z ∧
    (∀ i, i < j → is_Some (attempt_fails cfg i)) ∧
    connect_ends cfg j ws (exec fuel ws (Connect cfg) connect_start).
Proof. apply Connect_ends. Qed.

(** A server that is up at the third attempt: the second pool answered no ping. *)
Definition demo_driver : PoolEnv := {|
  new_fails k _ := if decide (k = 0) then Some "refused" else None;
  ping_fails k := if decide (k = 1) then Some "starting up" else None;
|}.

Definition demo_db : DBConfig := mkDBConfig "db" "5432" "u" "p" "n" "disable" 5 1000000000.

Lemma connect_terminates_witness :
  ∃ fuel last, exec fuel [TimerFired; TimerFired; TimerFired; TimerFired]
      (Connect (D := demo_driver) demo_db) connect_start
    = Finished (inr 2) (mkConnecting 3 last 3 {[2]}) [TimerFired; TimerFired].
Proof.
  destruct (connect_terminates demo_driver demo_db (replicate 4 TimerFired))
    as (fuel & j & Hj & Hall & rest & last & H).
  - reflexivity.
  - split; reflexivity || discriminate.
  - repeat constructor; discriminate.
  - discriminate.
  - exists fuel. destruct j as [|[|[|j]]].
    + destruct H as (_ & e & Hws & _). discriminate Hws.
    + destruct H as (_ & e & Hws & _). discriminate Hws.
    + destruct H as [Hws H]. injection Hws as <-. exists last. exact H.
    + destruct (Hall 2) as [err Herr]; [lia|discriminate Herr].
Defined.
