(* ===== verification/Repository.v ===== *)
(** * The storage interface

    [repository.BrokerState] ([internal/repository/state.go]) and the interface
    [service.Repository] ([internal/service/broker.go]) that the service is
    written against.  Storage keeps a state of its own, of a type [R] that the
    service does not look into; every operation is a program over it. *)

From S2P Require Import Prelude Errors Process Routing CoreQueue.

Record QueueState : Type := mkQueueState {
  qst_ExchangeName : string;
  qst_Name : string;
  qst_IsDurable : bool;
  qst_IsAutoDelete : bool;
  qst_MaxAttempts : Z;
  qst_Filters : list RoutingFilter;
}.

Record DeliveryState : Type := mkDeliveryState {
  dst_ExchangeName : string;
  dst_QueueName : string;
  dst_Delivery : Delivery;
}.

Record BrokerState : Type := mkBrokerState {
  st_Exchanges : list string;
  st_Queues : list QueueState;
  st_Deliveries : list DeliveryState;
}.

Class Repository (R : Type) : Type := {
  SaveExchange (exchangeName : string) : prog R (result unit);
  DeleteExchange (exchangeName : string) : prog R (result unit);
  SaveQueue (exchangeName : string) (queue : Queue) : prog R (result unit);
  DeleteQueue (exchangeName queueName : string) : prog R (result unit);
  SaveReadyDelivery (exchangeName queueName : string) (delivery : Delivery) :
    prog R (result unit);
  MarkInFlight (deliveryID consumerID : string) (attempts : Z) : prog R (result unit);
  MarkReady (deliveryID : string) : prog R (result unit);
  DeleteDelivery (deliveryID : string) : prog R (result unit);
  SaveDeadLetter (exchangeName : string) (letter : DeadLetter) : prog R (result unit);
  LoadState : prog R (result BrokerState);
}.
