(* ===== verification/Service.v ===== *)
(** * The broker service ([internal/service/broker.go])

    Every method of [BrokerService], over the memory of the core and the state of
    a storage that implements [Repository].  [ctx] shows only in how a [select]
    ends and in the errors storage may report; log lines are left out. *)

From S2P Require Import Prelude Errors Process Routing CoreQueue CoreExchange.
From S2P Require Import AppConfig Repository.

(** The state of the whole process and its storage. *)
Record World (R : Type) : Type := mkWorld {
  w_core : Core;
  w_repo : R;
}.
Arguments mkWorld {R} w_core w_repo.
Arguments w_core {R} w.
Arguments w_repo {R} w.

Definition core_lens {R} : lens (World R) Core :=
  Lens w_core (λ c w, mkWorld c (w_repo w)).

Definition repo_lens {R} : lens (World R) R :=
  Lens w_repo (λ r w, mkWorld (w_core w) r).

#[export] Instance core_lens_ok {R} : LensOk (@core_lens R).
Proof. by split; intros; try match goal with w : World _ |- _ => destruct w end. Qed.

#[export] Instance repo_lens_ok {R} : LensOk (@repo_lens R).
Proof. by split; intros; try match goal with w : World _ |- _ => destruct w end. Qed.

(** [30 * time.Second] *)
Definition streamFetchTimeout : Z := 30 * 1000000000.

Module BrokerService.
Section service.
Context `{E : GoEnv} {R : Type} `{Repo : Repository R} (limits : LimitsConfig).

(** A step of the core, a call of the storage. *)
Definition core {A} (p : prog Core A) : prog (World R) A := zoom core_lens p.
Definition repo {A} (p : prog R A) : prog (World R) A := zoom repo_lens p.

Definition CreateExchange (name : string) : prog (World R) (result eref) :=
  exchange ← core (Broker.CreateExchange name);
  repo (SaveExchange name) ?;
  Ret (Ok exchange).

Definition DeleteExchange (name : string) : prog (World R) (result unit) :=
  exchange <-? core (Broker.GetExchange name);;
  active ← core (Exchange.HasActiveConsumers exchange);
  if (active : bool) then Ret (Err ExchangeHasConsumers)
  else
    core (Broker.DeleteExchange name) ?;
    repo (DeleteExchange name) ?;
    Ret (Ok tt).

Definition RegisterQueue (exchangeName queueName : string)
    (isDurable isAutoDelete : bool) (maxAttempts : Z)
    (filters : list RoutingFilter) : prog (World R) (result qref) :=
  exchange <-? core (Broker.GetExchange exchangeName);;
  if decide (MaxQueueFilters limits < Z.of_nat (length filters))%Z
  then Ret (Err TooManyQueueFilters)
  else
    queue <-? core (Exchange.RegisterQueue exchange queueName isDurable
                      isAutoDelete maxAttempts filters);;
    q ← core (atomic (read_queue queue));
    (if q_IsDurable q then repo (SaveQueue exchangeName q) else Ret (Ok tt)) ?;
    Ret (Ok queue).

Definition DeleteQueue (exchangeName queueName : string) :
    prog (World R) (result unit) :=
  exchange <-? core (Broker.GetExchange exchangeName);;
  queue <-? core (Exchange.GetQueue exchange queueName);;
  core (Exchange.DeleteQueue exchange queueName) ?;
  q ← core (atomic (read_queue queue));
  (if q_IsDurable q then repo (DeleteQueue exchangeName queueName)
   else Ret (Ok tt)) ?;
  Ret (Ok tt).

(** The body of the loop of [Publish]. *)
Definition publish_item (exchangeName : string) (exchange : eref)
    (item : PublishedDelivery) : prog (World R) (result unit) :=
  q ← core (atomic (read_queue (pd_Queue item)));
  if negb (q_IsDurable q) then
    id ← core (atomic new_uuid);
    core (Exchange.EnqueueDelivery exchange (pd_QueueName item)
            (mkDelivery id (pd_Message item) "" 0)) ?;
    Ret (Ok tt)
  else
    id ← core (atomic new_uuid);
    let delivery := mkDelivery id (pd_Message item) "" 0 in
    repo (SaveReadyDelivery exchangeName (pd_QueueName item) delivery) ?;
    core (Exchange.EnqueueDelivery exchange (pd_QueueName item) delivery) ?;
    Ret (Ok tt).

Definition Publish (exchangeName routingKey : string) (payload : list Byte.byte) :
    prog (World R) (result unit) :=
  if decide (MaxMessageSize limits < Z.of_nat (length payload))%Z
  then Ret (Err MessageTooLarge)
  else if decide (MaxRoutingKeyLength limits < Z.of_nat (String.length routingKey))%Z
  then Ret (Err RoutingKeyTooLong)
  else
    exchange <-? core (Broker.GetExchange exchangeName);;
    published <-? core (Exchange.Route exchange routingKey payload);;
    for_each published (publish_item exchangeName exchange) ?;
    Ret (Ok tt).

(** The channel of a [select] case; a nil channel is never ready. *)
Definition wait_closed (waitCh : option chan) (w : World R) : bool :=
  match waitCh with
  | Some ch => chan_closed ch (co_chans (w_core w))
  | None => false
  end.

(** One iteration of the loop of [BlockingFetch]: [Some r] returns [r]. *)
Definition fetch_iteration (exchange : eref) (queue : qref)
    (queueName consumerID : string) (timeout : Z) :
    prog (World R) (option (result Delivery)) :=
  r ← core (Exchange.FetchOrWait exchange queueName consumerID (MaxInFlight limits));
  let '(delivery, waitCh, err) := r in
  match err with
  | None =>
      q ← core (atomic (read_queue queue));
      if q_IsDurable q then
        m ← repo (MarkInFlight (dl_ID delivery) consumerID (dl_Attempts delivery));
        match m with
        | Err err => Ret (Some (Err err))
        | Ok _ => Ret (Some (Ok delivery))
        end
      else Ret (Some (Ok delivery))
  | Some err =>
      if negb (errors_Is err QueueEmpty) then Ret (Some (Err err))
      else if decide (timeout ≤ 0)%Z then Ret (Some (Err QueueEmpty))
      else
        Select (wait_closed waitCh) (λ w,
          match w with
          | CtxDone e => Ret (Some (Err (CtxError e)))
          | TimerFired => Ret (Some (Err QueueEmpty))
          | Woken => Ret None
          end)
  end.

Definition BlockingFetch (exchangeName queueName consumerID : string)
    (timeout : Z) : prog (World R) (result Delivery) :=
  exchange <-? core (Broker.GetExchange exchangeName);;
  queue <-? core (Exchange.GetQueue exchange queueName);;
  Loop (fetch_iteration exchange queue queueName consumerID timeout) Ret.

Definition StreamFetch (exchangeName queueName consumerID : string) :
    prog (World R) (result Delivery) :=
  Loop (r ← BlockingFetch exchangeName queueName consumerID streamFetchTimeout;
        match r with
        | Ok delivery => Ret (Some (Ok delivery))
        | Err err =>
            if negb (errors_Is err QueueEmpty) then Ret (Some (Err err)) else Ret None
        end) Ret.

Definition Ack (exchangeName queueName deliveryID consumerID : string) :
    prog (World R) (result unit) :=
  exchange <-? core (Broker.GetExchange exchangeName);;
  queue <-? core (Exchange.GetQueue exchange queueName);;
  core (Exchange.Ack exchange queueName deliveryID consumerID) ?;
  q ← core (atomic (read_queue queue));
  if q_IsDurable q then repo (DeleteDelivery deliveryID) else Ret (Ok tt).

Definition NAck (exchangeName queueName deliveryID consumerID : string) :
    prog (World R) (result unit) :=
  exchange <-? core (Broker.GetExchange exchangeName);;
  queue <-? core (Exchange.GetQueue exchange queueName);;
  result <-? core (Exchange.NAck exchange queueName deliveryID consumerID);;
  q ← core (atomic (read_queue queue));
  if na_IsDead result then
    (if q_IsDurable q then repo (DeleteDelivery (dl_ID (na_Delivery result)))
     else Ret (Ok tt)) ?;
    repo (SaveDeadLetter exchangeName (na_DeadLetter result)) ?;
    Ret (Ok tt)
  else if q_IsDurable q then
    repo (MarkReady (dl_ID (na_Delivery result))) ?;
    Ret (Ok tt)
  else Ret (Ok tt).

Definition AddConsumer (exchangeName queueName consumerID : string) :
    prog (World R) (result unit) :=
  exchange <-? core (Broker.GetExchange exchangeName);;
  core (Exchange.AddConsumer exchange queueName consumerID).

Definition DisconnectConsumer (exchangeName queueName consumerID : string) :
    prog (World R) (result unit) :=
  exchange <-? core (Broker.GetExchange exchangeName);;
  queue <-? core (Exchange.GetQueue exchange queueName);;
  returned <-? core (Exchange.DisconnectConsumer exchange queueName consumerID);;
  q ← core (atomic (read_queue queue));
  if negb (q_IsDurable q) then Ret (Ok tt)
  else
    for_each returned (λ delivery, repo (MarkReady (dl_ID delivery))) ?;
    Ret (Ok tt).

(** ** Restoring the state after a restart *)

Definition restore_exchange (exchangeName : string) : prog (World R) (result unit) :=
  core (Broker.CreateExchange exchangeName);; Ret (Ok tt).

Definition restore_queue (queueState : QueueState) : prog (World R) (result unit) :=
  exchange <-? core (Broker.GetExchange (qst_ExchangeName queueState));;
  core (Exchange.RegisterQueue exchange (qst_Name queueState)
          (qst_IsDurable queueState) (qst_IsAutoDelete queueState)
          (qst_MaxAttempts queueState) (qst_Filters queueState)) ?;
  Ret (Ok tt).

Definition restore_delivery (deliveryState : DeliveryState) :
    prog (World R) (result unit) :=
  exchange <-? core (Broker.GetExchange (dst_ExchangeName deliveryState));;
  queue <-? core (Exchange.GetQueue exchange (dst_QueueName deliveryState));;
  core (atomic (on_queue queue (Queue.RestoreReady (dst_Delivery deliveryState))));;
  repo (MarkReady (dl_ID (dst_Delivery deliveryState))) ?;
  Ret (Ok tt).

Definition Restore : prog (World R) (result unit) :=
  state <-? repo LoadState;;
  for_each (st_Exchanges state) restore_exchange ?;
  for_each (st_Queues state) restore_queue ?;
  for_each (st_Deliveries state) restore_delivery ?;
  Ret (Ok tt).
End service.
End BrokerService.
