(* ===== verification/Transport.v ===== *)
(** * The gRPC front end ([internal/transport/grpc])

    The handlers of [BrokerHandler], the mapping of errors to gRPC statuses and
    the authentication interceptors.  The gRPC library is not part of the
    repository: the metadata of a call and [stream.Send] are arguments. *)

From S2P Require Import Prelude Errors Process Routing CoreQueue CoreExchange.
From S2P Require Import AppConfig Repository Service.

(** ** Statuses *)

Inductive code : Type :=
| InvalidArgument
| NotFound
| AlreadyExists
| PermissionDenied
| ResourceExhausted
| FailedPrecondition
| Internal
| Unauthenticated.

#[export] Instance code_eq_dec : EqDecision code.
Proof. solve_decision. Defined.

Record status : Type := mkStatus {
  s_code : code;
  s_message : string;
}.

Definition mapError (err : error) : status :=
  let Is := errors_Is err in
  if Is Errors.InvalidRoutingKey || Is FiltersIncorrect || Is MaxAttemptsIncorrect
     || Is MessageTooLarge || Is RoutingKeyTooLong || Is TooManyQueueFilters
     || Is TooManyInFlight || Is QueueFlagsConflict || Is MessageNotMatch
  then
    if Is TooManyInFlight then mkStatus ResourceExhausted (Error_text err)
    else mkStatus InvalidArgument (Error_text err)
  else if Is ExchangeNotFound || Is QueueNotFound || Is DeliveryNotFound
          || Is ConsumerNotFound || Is QueueEmpty
  then mkStatus NotFound (Error_text err)
  else if Is QueueHasConsumers || Is ExchangeHasConsumers
  then mkStatus FailedPrecondition (Error_text err)
  else if Is ExchangeAlreadyExist || Is QueueAlreadyExist
  then mkStatus AlreadyExists (Error_text err)
  else if Is DeliveryOwnerMismatch then mkStatus PermissionDenied (Error_text err)
  else if Is Unauthorized then mkStatus Unauthenticated (Error_text err)
  else mkStatus Internal (Error_text err).

(** A response, or the status of a failed call. *)
Definition reply (A : Type) : Type := (status + A)%type.

(** ** Authentication *)

(** The metadata of an incoming call, if there is any: the values of a key. *)
Definition metadata : Type := option (string → list string).

Definition rootTokenHeader : string := "x-root-token".

Module AuthInterceptor.
Section auth.
Context (rootToken : string).

Definition authorize (md : metadata) : option status :=
  match md with
  | None => Some (mkStatus Unauthenticated (Error_text Unauthorized))
  | Some md =>
      match md rootTokenHeader with
      | [] => Some (mkStatus Unauthenticated (Error_text Unauthorized))
      | value :: _ =>
          if decide (value ≠ rootToken)
          then Some (mkStatus Unauthenticated (Error_text Unauthorized))
          else None
      end
  end.

Definition Unary {S A} (md : metadata) (handler : prog S (reply A)) : prog S (reply A) :=
  match authorize md with
  | Some err => Ret (inl err)
  | None => handler
  end.

(** A stream ends with an error or without one. *)
Definition Stream {S} (md : metadata) (handler : prog S (option status)) :
    prog S (option status) :=
  match authorize md with
  | Some err => Ret (Some err)
  | None => handler
  end.
End auth.
End AuthInterceptor.

(** ** Handlers *)

Record DeliveryMessage : Type := mkDeliveryMessage {
  dm_DeliveryId : string;
  dm_RoutingKey : string;
  dm_Payload : list Byte.byte;
  dm_Attempts : Z;      (** int32 *)
}.

(** The message of a delivery; [int32(delivery.Attempts)] wraps around. *)
Definition delivery_message (delivery : Delivery) : DeliveryMessage :=
  mkDeliveryMessage (dl_ID delivery) (msg_RoutingKey (dl_Message delivery))
    (msg_Payload (dl_Message delivery)) (int32 (dl_Attempts delivery)).

(** [time.Duration(req.GetTimeoutMs()) * time.Millisecond], an int64. *)
Definition timeout_of (timeoutMs : Z) : Z := int64 (timeoutMs * 1000000).

(** [if err != nil { return nil, mapError(err) }] *)
Definition reply_try {S A B} (p : prog S (result A)) (k : A → prog S (reply B)) :
    prog S (reply B) :=
  r ← p;
  match r with
  | Ok a => k a
  | Err err => Ret (inl (mapError err))
  end.

Module BrokerHandler.
Section handlers.
Context `{E : GoEnv} {R : Type} `{Repo : Repository R} (limits : LimitsConfig).

Definition CreateExchange (name : string) : prog (World R) (reply string) :=
  reply_try (BrokerService.CreateExchange name) (λ exchange,
    x ← BrokerService.core (atomic (read_exchange exchange));
    Ret (inr (ex_Name x))).

Definition DeleteExchange (name : string) : prog (World R) (reply unit) :=
  reply_try (BrokerService.DeleteExchange name) (λ _, Ret (inr tt)).

Definition RegisterQueue (exchangeName queueName : string) (durable autoDelete : bool)
    (filters : list string) (maxAttempts : Z) :
    prog (World R) (reply (string * string)) :=
  reply_try (BrokerService.RegisterQueue limits exchangeName queueName durable
               autoDelete maxAttempts filters) (λ queue,
    q ← BrokerService.core (atomic (read_queue queue));
    Ret (inr (exchangeName, q_Name q))).

Definition DeleteQueue (exchangeName queueName : string) :
    prog (World R) (reply unit) :=
  reply_try (BrokerService.DeleteQueue exchangeName queueName) (λ _, Ret (inr tt)).

Definition Publish (exchangeName routingKey : string) (payload : list Byte.byte) :
    prog (World R) (reply unit) :=
  reply_try (BrokerService.Publish limits exchangeName routingKey payload)
    (λ _, Ret (inr tt)).

Definition Fetch (exchangeName queueName consumerId : string) (timeoutMs : Z) :
    prog (World R) (reply DeliveryMessage) :=
  let timeout := timeout_of timeoutMs in
  reply_try (BrokerService.BlockingFetch limits exchangeName queueName consumerId timeout)
    (λ delivery, Ret (inr (delivery_message delivery))).

(** The loop of [StreamFetch]; it ends with the error that is returned. *)
Definition stream_loop (send : DeliveryMessage → prog (World R) (option status))
    (exchangeName queueName consumerId : string) : prog (World R) status :=
  Loop (r ← BrokerService.StreamFetch limits exchangeName queueName consumerId;
        match r with
        | Err err => Ret (Some (mapError err))
        | Ok delivery => send (delivery_message delivery)
        end) Ret.

(** The deferred [DisconnectConsumer] runs whatever ends the loop, and its own
    error is dropped. *)
Definition StreamFetch (send : DeliveryMessage → prog (World R) (option status))
    (exchangeName queueName consumerId : string) : prog (World R) (option status) :=
  r ← BrokerService.AddConsumer exchangeName queueName consumerId;
  match r with
  | Err err => Ret (Some (mapError err))
  | Ok _ =>
      err ← stream_loop send exchangeName queueName consumerId;
      BrokerService.DisconnectConsumer exchangeName queueName consumerId;;
      Ret (Some err)
  end.

Definition Ack (exchangeName queueName deliveryId consumerId : string) :
    prog (World R) (reply unit) :=
  reply_try (BrokerService.Ack exchangeName queueName deliveryId consumerId)
    (λ _, Ret (inr tt)).

Definition Nack (exchangeName queueName deliveryId consumerId : string) :
    prog (World R) (reply unit) :=
  reply_try (BrokerService.NAck exchangeName queueName deliveryId consumerId)
    (λ _, Ret (inr tt)).

Definition AddConsumer (exchangeName queueName consumerId : string) :
    prog (World R) (reply unit) :=
  reply_try (BrokerService.AddConsumer exchangeName queueName consumerId)
    (λ _, Ret (inr tt)).

Definition DisconnectConsumer (exchangeName queueName consumerId : string) :
    prog (World R) (reply unit) :=
  reply_try (BrokerService.DisconnectConsumer exchangeName queueName consumerId)
    (λ _, Ret (inr tt)).
End handlers.
End BrokerHandler.

(** ** The server *)

(** The calls of [service BrokerService] ([proto/broker.proto]). *)
Inductive request : Type :=
| CreateExchangeRequest (name : string)
| DeleteExchangeRequest (name : string)
| RegisterQueueRequest (exchangeName queueName : string) (durable autoDelete : bool)
    (filters : list string) (maxAttempts : Z)
| DeleteQueueRequest (exchangeName queueName : string)
| PublishRequest (exchangeName routingKey : string) (payload : list Byte.byte)
| FetchRequest (exchangeName queueName consumerId : string) (timeoutMs : Z)
| SFetchRequest (exchangeName queueName consumerId : string)
| AckRequest (exchangeName queueName deliveryId consumerId : string)
| NackRequest (exchangeName queueName deliveryId consumerId : string)
| AddConsumerRequest (exchangeName queueName consumerId : string)
| DisconnectConsumerRequest (exchangeName queueName consumerId : string).

Section server.
Context `{E : GoEnv} {R : Type} `{Repo : Repository R}.
Context (limits : LimitsConfig) (rootToken : string).
Context (send : DeliveryMessage → prog (World R) (option status)).

(** The goroutine that the server starts for a call: the interceptor, then the
    handler. *)
Definition serve (call : metadata * request) : goroutine (World R) :=
  let '(md, req) := call in
  let unary {A} := @AuthInterceptor.Unary rootToken (World R) A md in
  match req with
  | CreateExchangeRequest n => Goroutine (unary (BrokerHandler.CreateExchange n))
  | DeleteExchangeRequest n => Goroutine (unary (BrokerHandler.DeleteExchange n))
  | RegisterQueueRequest x q d a f m =>
      Goroutine (unary (BrokerHandler.RegisterQueue limits x q d a f m))
  | DeleteQueueRequest x q => Goroutine (unary (BrokerHandler.DeleteQueue x q))
  | PublishRequest x k p => Goroutine (unary (BrokerHandler.Publish limits x k p))
  | FetchRequest x q c ms => Goroutine (unary (BrokerHandler.Fetch limits x q c ms))
  | SFetchRequest x q c =>
      Goroutine (AuthInterceptor.Stream rootToken md
                   (BrokerHandler.StreamFetch limits send x q c))
  | AckRequest x q d c => Goroutine (unary (BrokerHandler.Ack x q d c))
  | NackRequest x q d c => Goroutine (unary (BrokerHandler.Nack x q d c))
  | AddConsumerRequest x q c => Goroutine (unary (BrokerHandler.AddConsumer x q c))
  | DisconnectConsumerRequest x q c =>
      Goroutine (unary (BrokerHandler.DisconnectConsumer x q c))
  end.

(** A server in state [w] with these calls in progress. *)
Definition serving (w : World R) (calls : list (metadata * request)) :
    config (World R) := Running w (serve <$> calls).
End server.
