(* ===== verification/Client.v ===== *)
(** * The client library ([pkg/brokerclient])

    [Client], [Message], [MessageStream] and their options.  The generated stub and
    the gRPC library below it are not part of the repository: the connection is an
    interface, [GrpcConn], whose operations are programs over whatever is at its
    other end.  The only fields of a client that change are [conn]'s and the set of
    subscriptions that [c.mu] protects; they are the state, the rest is a record. *)

From S2P Require Import Prelude Errors Process Routing CoreQueue CoreExchange.
From S2P Require Import AppConfig Repository Service Transport.

(** The responses that the client looks into. *)
Definition response (req : request) : Type :=
  match req with
  | FetchRequest _ _ _ _ => option DeliveryMessage
  | _ => unit
  end.

(** A connection over [W] with errors of type [Err]. *)
Class GrpcConn (W Err : Type) : Type := {
  ctx : Type;
  Background : ctx;
  AppendToOutgoingContext : ctx → string → string → ctx;
  invoke : ctx → ∀ req : request, prog W (Err + response req);
  stream : Type;
  open_stream : ctx → request → prog W (Err + stream);
  Recv : stream → prog W (Err + option DeliveryMessage);
  close_conn : prog W (Err + unit);
}.

(** ** Options ([options.go]) *)

Section options.
Context {DialOption : Type}.

Record clientOptions : Type := mkClientOptions {
  opt_rootToken : string;
  opt_consumerID : string;
  opt_dialOptions : list DialOption;
}.

Definition Option : Type := clientOptions → clientOptions.

Definition WithRootToken (token : string) : Option := λ opts,
  mkClientOptions token (opt_consumerID opts) (opt_dialOptions opts).

Definition WithConsumerID (consumerID : string) : Option := λ opts,
  mkClientOptions (opt_rootToken opts) consumerID (opt_dialOptions opts).

Definition WithDialOptions (dialOptions : list DialOption) : Option := λ cfg,
  mkClientOptions (opt_rootToken cfg) (opt_consumerID cfg)
    (opt_dialOptions cfg ++ dialOptions).
End options.
Arguments clientOptions : clear implicits.
Arguments Option : clear implicits.

Record queueOptions : Type := mkQueueOptions {
  qo_maxAttempts : Z;       (** int32 *)
  qo_filters : list string;
}.

Definition QueueOption : Type := queueOptions → queueOptions.

Definition WithRoutingKey (filter : string) : QueueOption := λ opts,
  mkQueueOptions (qo_maxAttempts opts) (qo_filters opts ++ [filter]).

(** [int32(maxAttempts)] keeps the lowest 32 bits. *)
Definition WithMaxAttempts (maxAttempts : Z) : QueueOption := λ opts,
  mkQueueOptions (int32 maxAttempts) (qo_filters opts).

(** [for _, opt := range opts { opt(&cfg) }] *)
Definition apply_options {A} (opts : list (A → A)) (cfg : A) : A :=
  fold_left (λ cfg opt, opt cfg) opts cfg.

(** ** Clients ([client.go]) *)

Definition subscriptionKey : Type := string * string.

Record Client : Type := mkClient {
  cl_rootToken : string;
  cl_consumerID : string;
}.

Record ClientState (W : Type) : Type := mkClientState {
  cs_fetchSubscriptions : gset subscriptionKey;
  cs_conn : W;
}.
Arguments mkClientState {W} cs_fetchSubscriptions cs_conn.
Arguments cs_fetchSubscriptions {W} c.
Arguments cs_conn {W} c.

Definition conn_lens {W} : lens (ClientState W) W :=
  Lens cs_conn (λ w s, mkClientState (cs_fetchSubscriptions s) w).

#[export] Instance conn_lens_ok {W} : LensOk (@conn_lens W).
Proof. by split; intros; try match goal with s : ClientState _ |- _ => destruct s end. Qed.

(** [timeout.Milliseconds()]: an integer division, which truncates towards zero. *)
Definition Milliseconds (timeout : Z) : Z := Z.quot timeout 1000000.

(** [message.go], lines 9 to 17 *)
Record ClientMessage : Type := mkClientMessage {
  cm_client : Client;
  cm_exchangeName : string;
  cm_queueName : string;
  cm_deliveryID : string;
  cm_routingKey : string;
  cm_payload : list Byte.byte;
  cm_attempts : Z;          (** int32 *)
}.

Module Client.

(** What [New] answers; [uuid] is what [uuid.NewString] would draw, [NewClient] the
    error of [grpc.NewClient] if any. *)
Definition New {DialOption : Type} (insecure : DialOption)
    (NewClient : string → list DialOption → option string) (uuid : string)
    (addr : string) (opts : list (Option DialOption)) :
    string + (Client * gset subscriptionKey) :=
  let cfg := apply_options opts (mkClientOptions "" "" []) in
  if decide (opt_rootToken cfg = "") then inl "root token is required"
  else
    let consumerID := if decide (opt_consumerID cfg = "") then uuid else opt_consumerID cfg in
    match NewClient addr ([insecure] ++ opt_dialOptions cfg) with
    | Some err => inl ("create grpc client: " +:+ err)
    | None => inr (mkClient (opt_rootToken cfg) consumerID, ∅)
    end.

Section client.
Context {W Err : Type} `{C : GrpcConn W Err} (c : Client).

(** A call of the stub. *)
Definition api {A} (p : prog W A) : prog (ClientState W) A := zoom conn_lens p.

Definition withAuth (cx : ctx) : ctx :=
  AppendToOutgoingContext cx "x-root-token" (cl_rootToken c).

(** [_, err := c.api.X(c.withAuth(ctx), req); return err] *)
Definition call (cx : ctx) (req : request) : prog (ClientState W) (Err + unit) :=
  resp ← api (invoke (withAuth cx) req);
  match resp with
  | inl err => Ret (inl err)
  | inr _ => Ret (inr tt)
  end.

Definition CreateExchange (cx : ctx) (name : string) : prog (ClientState W) (Err + unit) :=
  call cx (CreateExchangeRequest name).

Definition DeleteExchange (cx : ctx) (name : string) : prog (ClientState W) (Err + unit) :=
  call cx (DeleteExchangeRequest name).

Definition RegisterQueue (cx : ctx) (exchangeName queueName : string)
    (durable autoDelete : bool) (opts : list QueueOption) :
    prog (ClientState W) (Err + unit) :=
  let cfg := apply_options opts (mkQueueOptions 0 []) in
  call cx (RegisterQueueRequest exchangeName queueName durable autoDelete
             (qo_filters cfg) (qo_maxAttempts cfg)).

Definition DeleteQueue (cx : ctx) (exchangeName queueName : string) :
    prog (ClientState W) (Err + unit) :=
  call cx (DeleteQueueRequest exchangeName queueName).

Definition Publish (cx : ctx) (exchangeName routingKey : string)
    (payload : list Byte.byte) : prog (ClientState W) (Err + unit) :=
  call cx (PublishRequest exchangeName routingKey payload).

(** The sections under [c.mu]. *)
Definition subscribed (key : subscriptionKey) : GoM (ClientState W) bool :=
  gets (λ s, bool_decide (key ∈ cs_fetchSubscriptions s)).

Definition subscribe (key : subscriptionKey) : GoM (ClientState W) unit :=
  modify (λ s, mkClientState ({[key]} ∪ cs_fetchSubscriptions s) (cs_conn s)).

Definition unsubscribe (key : subscriptionKey) : GoM (ClientState W) unit :=
  modify (λ s, mkClientState (cs_fetchSubscriptions s ∖ {[key]}) (cs_conn s)).

Definition AddConsumer (cx : ctx) (exchangeName queueName : string) :
    prog (ClientState W) (Err + unit) :=
  r ← call cx (AddConsumerRequest exchangeName queueName (cl_consumerID c));
  match r with
  | inl err => Ret (inl err)
  | inr _ => atomic (subscribe (exchangeName, queueName));; Ret (inr tt)
  end.

Definition DisconnectConsumer (cx : ctx) (exchangeName queueName : string) :
    prog (ClientState W) (Err + unit) :=
  r ← call cx (DisconnectConsumerRequest exchangeName queueName (cl_consumerID c));
  match r with
  | inl err => Ret (inl err)
  | inr _ => atomic (unsubscribe (exchangeName, queueName));; Ret (inr tt)
  end.

Definition ConsumerID : string := cl_consumerID c.

Definition ensureFetchSubscription (cx : ctx) (exchangeName queueName : string) :
    prog (ClientState W) (Err + unit) :=
  ok ← atomic (subscribed (exchangeName, queueName));
  if (ok : bool) then Ret (inr tt) else AddConsumer cx exchangeName queueName.

(** A nil delivery makes a nil message. *)
Definition newMessage (exchangeName queueName : string)
    (delivery : option DeliveryMessage) : option ClientMessage :=
  match delivery with
  | None => None
  | Some delivery =>
      Some (mkClientMessage c exchangeName queueName (dm_DeliveryId delivery)
              (dm_RoutingKey delivery) (dm_Payload delivery) (dm_Attempts delivery))
  end.

Definition Fetch (cx : ctx) (exchangeName queueName : string) (timeout : Z) :
    prog (ClientState W) (Err + option ClientMessage) :=
  r ← ensureFetchSubscription cx exchangeName queueName;
  match r with
  | inl err => Ret (inl err)
  | inr _ =>
      resp ← api (invoke (withAuth cx) (FetchRequest exchangeName queueName
                    (cl_consumerID c) (Milliseconds timeout)));
      match resp with
      | inl err => Ret (inl err)
      | inr delivery => Ret (inr (newMessage exchangeName queueName delivery))
      end
  end.

(** [MessageStream] ([stream.go]) *)
Record MessageStream : Type := mkMessageStream {
  ms_exchangeName : string;
  ms_queueName : string;
  ms_stream : stream;
}.

Definition StreamFetch (cx : ctx) (exchangeName queueName : string) :
    prog (ClientState W) (Err + MessageStream) :=
  r ← api (open_stream (withAuth cx)
             (SFetchRequest exchangeName queueName (cl_consumerID c)));
  match r with
  | inl err => Ret (inl err)
  | inr stream => Ret (inr (mkMessageStream exchangeName queueName stream))
  end.

Definition Receive (s : MessageStream) :
    prog (ClientState W) (Err + option ClientMessage) :=
  resp ← api (Recv (ms_stream s));
  match resp with
  | inl err => Ret (inl err)
  | inr delivery => Ret (inr (newMessage (ms_exchangeName s) (ms_queueName s) delivery))
  end.

(** The loop of [Close] over its copy of the subscriptions; errors are dropped. *)
Fixpoint close_loop (subscriptions : list subscriptionKey) : prog (ClientState W) unit :=
  match subscriptions with
  | [] => Ret tt
  | key :: subscriptions =>
      DisconnectConsumer Background key.1 key.2;;
      close_loop subscriptions
  end.

(** [range_subs] is the order of the range over the set of subscriptions. *)
Definition Close (range_subs : list subscriptionKey → list subscriptionKey) :
    prog (ClientState W) (Err + unit) :=
  subscriptions ← atomic (gets (λ s, range_subs (elements (cs_fetchSubscriptions s))));
  close_loop subscriptions;;
  api close_conn.
End client.
End Client.

(** ** Messages ([message.go]) *)

Module ClientMessage.
Section message.
Context {W Err : Type} `{C : GrpcConn W Err} (m : ClientMessage).

Definition DeliveryID : string := cm_deliveryID m.
Definition RoutingKey : string := cm_routingKey m.
Definition Payload : list Byte.byte := cm_payload m.
Definition Attempts : Z := cm_attempts m.

Definition Ack (cx : ctx) : prog (ClientState W) (Err + unit) :=
  Client.call (cm_client m) cx
    (AckRequest (cm_exchangeName m) (cm_queueName m) (cm_deliveryID m)
       (cl_consumerID (cm_client m))).

Definition NAck (cx : ctx) : prog (ClientState W) (Err + unit) :=
  Client.call (cm_client m) cx
    (NackRequest (cm_exchangeName m) (cm_queueName m) (cm_deliveryID m)
       (cl_consumerID (cm_client m))).
End message.
End ClientMessage.

(** ** The broker at the other end *)

Section loopback.
Context `{E : GoEnv} {R : Type} `{Repo : Repository R}.
Context (limits : LimitsConfig) (rootToken : string).

(** The response of a handler, as far as the client looks into it. *)
Definition forget {S A} (p : prog S (reply A)) : prog S (reply unit) :=
  r ← p; match r with inl err => Ret (inl err) | inr _ => Ret (inr tt) end.

Definition delivered_message {S} (p : prog S (reply DeliveryMessage)) :
    prog S (reply (option DeliveryMessage)) :=
  r ← p; match r with inl err => Ret (inl err) | inr d => Ret (inr (Some d)) end.

(** The unary handler of a request. *)
Definition handle (req : request) : prog (World R) (reply (response req)) :=
  match req with
  | CreateExchangeRequest n => forget (BrokerHandler.CreateExchange n)
  | DeleteExchangeRequest n => BrokerHandler.DeleteExchange n
  | RegisterQueueRequest x q d a f m =>
      forget (BrokerHandler.RegisterQueue limits x q d a f m)
  | DeleteQueueRequest x q => BrokerHandler.DeleteQueue x q
  | PublishRequest x k p => BrokerHandler.Publish limits x k p
  | FetchRequest x q c ms => delivered_message (BrokerHandler.Fetch limits x q c ms)
  | SFetchRequest x q c => Ret (inl (mkStatus Internal "not a unary method"))
  | AckRequest x q d c => BrokerHandler.Ack x q d c
  | NackRequest x q d c => BrokerHandler.Nack x q d c
  | AddConsumerRequest x q c => BrokerHandler.AddConsumer x q c
  | DisconnectConsumerRequest x q c => BrokerHandler.DisconnectConsumer x q c
  end.

(** What a client may rely on when nothing goes wrong between it and the broker:
    a call is the broker's, with the metadata of its context; values that are
    appended come after those of the same key (the documented behaviour of
    [AppendToOutgoingContext] and [metadata.MD]). *)
Class Loopback (C : GrpcConn (World R) status) : Type := {
  values : ctx → string → list string;
  values_background k : values Background k = [];
  values_append cx k v k' :
    values (AppendToOutgoingContext cx k v) k' =
      if decide (k' = k) then values cx k' ++ [v] else values cx k';
  invoke_loopback cx req :
    invoke cx req = AuthInterceptor.Unary rootToken (Some (values cx)) (handle req);
}.
End loopback.
Arguments values {_ _ _} limits rootToken {C _} cx k.
Arguments values_append {_ _ _} limits rootToken {C _} cx k v k'.
Arguments invoke_loopback {_ _ _} limits rootToken {C _} cx req.
