(* ===== verification/ClientCalls.v ===== *)
(** * The calls a client makes

    A client over an arbitrary peer: the peer keeps the list of what has reached it -
    calls, and the end of the connection - and answers in any way that depends on that
    list. *)

From S2P Require Import Prelude Errors Process Routing CoreQueue CoreExchange.
From S2P Require Import AppConfig Repository Service Transport Client.

Section peer.
Context {Err : Type}.

(** A call, with the pairs that were appended to its context. *)
Definition sent : Type := list (string * string) * request.

Inductive event : Type :=
| Called (call : sent)
| ConnClosed.

Context (answers : list event → ∀ req : request, Err + response req).
Context (closing : list event → Err + unit).

Definition peer : GrpcConn (list event) Err := {|
  ctx := list (string * string);
  Background := [];
  AppendToOutgoingContext cx k v := cx ++ [(k, v)];
  invoke cx req := atomic (λ log, Val (answers log req, log ++ [Called (cx, req)]));
  stream := unit;
  open_stream cx req := atomic (λ log, Val (inr tt, log ++ [Called (cx, req)]));
  Recv _ := Ret (inr None);
  close_conn := atomic (λ log, Val (closing log, log ++ [ConnClosed]));
|}.

#[local] Existing Instance peer.

Context (c : Client).

(** The call that ends a subscription. *)
Definition disconnect_call (key : subscriptionKey) : sent :=
  ([("x-root-token", cl_rootToken c)],
   DisconnectConsumerRequest key.1 key.2 (cl_consumerID c)).

Definition disconnect_calls (keys : list subscriptionKey) : list event :=
  Called ∘ disconnect_call <$> keys.

(** The peer refuses the call, when it has got [log]. *)
Definition refuses (log : list event) (key : subscriptionKey) : bool :=
  match answers log (disconnect_call key).2 with inl _ => true | inr _ => false end.

Lemma run_disconnect key subs log :
  run (Client.DisconnectConsumer c Background key.1 key.2) (mkClientState subs log) =
  Val (match answers log (disconnect_call key).2 with
       | inl err => inl err | inr _ => inr tt end,
       mkClientState (if refuses log key then subs else subs ∖ {[key]})
         (log ++ [Called (disconnect_call key)])).
Proof.
  unfold Client.DisconnectConsumer, Client.call, refuses. simpl.
  destruct (answers log (DisconnectConsumerRequest key.1 key.2 (cl_consumerID c)));
    simpl; [done|]. by destruct key.
Qed.

(** The subscriptions that are left after those of a list have been disconnected. *)
Fixpoint left_over (log : list event) (keys : list subscriptionKey)
    (subs : gset subscriptionKey) : gset subscriptionKey :=
  match keys with
  | [] => subs
  | key :: keys =>
      left_over (log ++ [Called (disconnect_call key)]) keys
        (if refuses log key then subs else subs ∖ {[key]})
  end.

Lemma run_close_loop keys subs log :
  run (Client.close_loop c keys) (mkClientState subs log) =
  Val (tt, mkClientState (left_over log keys subs) (log ++ disconnect_calls keys)).
Proof.
  revert subs log. induction keys as [|key keys IH]; intros subs log;
    cbn [Client.close_loop left_over]; [unfold disconnect_calls; csimpl; by rewrite app_nil_r|].
  unfold disconnect_calls. rewrite fmap_cons. rewrite (run_bind_val _ _ _ _ _ (run_disconnect key subs log)), IH.
  unfold disconnect_calls. by rewrite <- app_assoc.
Qed.

Lemma elem_of_left_over key log keys subs :
  NoDup keys →
  key ∈ left_over log keys subs ↔
  key ∈ subs ∧ ∀ i, keys !! i = Some key →
    refuses (log ++ disconnect_calls (take i keys)) key = true.
Proof.
  intros Hnd. revert log subs. induction Hnd as [|k keys Hk Hnd IH]; intros log subs;
    cbn [left_over]; [set_solver|].
  rewrite IH. split.
  - intros [Hin Hrest]. split; [destruct (refuses log k); set_solver|].
    intros [|i] Hi; simpl in *.
    + injection Hi as ->. rewrite app_nil_r. destruct (refuses log key) eqn:Hr; [done|].
      set_solver.
    + specialize (Hrest i Hi). by rewrite <- app_assoc in Hrest.
  - intros [Hin Hall]. split.
    + specialize (Hall 0). simpl in Hall. rewrite app_nil_r in Hall.
      destruct (refuses log k) eqn:Hr; [done|]. apply elem_of_difference. split; [done|].
      intros ->%elem_of_singleton. by rewrite Hall in Hr.
    + intros i Hi. rewrite <- app_assoc. by apply (Hall (S i)).
Qed.
End peer.

(** ** Options of a client *)

Inductive client_option (D : Type) : Type :=
| RootTokenOption (token : string)
| ConsumerIDOption (consumerID : string)
| DialOption (dialOptions : list D).
Arguments RootTokenOption {D} token.
Arguments ConsumerIDOption {D} consumerID.
Arguments DialOption {D} dialOptions.

Definition to_option {D} (o : client_option D) : Option D :=
  match o with
  | RootTokenOption token => WithRootToken token
  | ConsumerIDOption consumerID => WithConsumerID consumerID
  | DialOption ds => WithDialOptions ds
  end.

Definition token_in {D} (o : client_option D) : option string :=
  match o with RootTokenOption token => Some token | _ => None end.

Definition consumer_in {D} (o : client_option D) : option string :=
  match o with ConsumerIDOption consumerID => Some consumerID | _ => None end.

Definition dials_in {D} (o : client_option D) : list D :=
  match o with DialOption ds => ds | _ => [] end.

Lemma last_cons_default {A} (a : A) l : default a (last l) = default a (last (a :: l)).
Proof. rewrite last_cons. by destruct (last l). Qed.

Lemma client_options_from {D} (os : list (client_option D)) cfg :
  apply_options (to_option <$> os) cfg =
  mkClientOptions (default (opt_rootToken cfg) (last (omap token_in os)))
    (default (opt_consumerID cfg) (last (omap consumer_in os)))
    (opt_dialOptions cfg ++ (os ≫= dials_in)).
Proof.
  revert cfg. induction os as [|o os IH]; intros cfg; csimpl.
  { rewrite app_nil_r. by destruct cfg. }
  unfold apply_options in *. simpl. rewrite IH.
  destruct o as [t|i|ds]; csimpl; f_equal; try apply last_cons_default.
  - rewrite last_cons. by destruct (last (omap token_in os)).
  - rewrite last_cons. by destruct (last (omap consumer_in os)).
  - by rewrite <- app_assoc.
Qed.

(** ** Properties *)

(** What [New] needs and makes: without a root token, or with an empty one as the
    last, it fails before it has tried to connect; otherwise the only failure is that of
    the connection, which gets the insecure credentials first and then every dial
    option in order; the client has the last token, the last consumer id unless that
    is missing or empty - then the drawn UUID -, and no subscriptions. *)
Theorem client_new D (insecure : D) (NewClient : string → list D → option string)
    uuid addr (os : list (client_option D)) :
  let token := default "" (last (omap token_in os)) in
  let consumer := default "" (last (omap consumer_in os)) in
  Client.New insecure NewClient uuid addr (to_option <$> os) =
  if decide (token = "") then inl "root token is required"
  else match NewClient addr (insecure :: (os ≫= dials_in)) with
       | Some err => inl ("create grpc client: " +:+ err)
       | None =>
           inr (mkClient token (if decide (consumer = "") then uuid else consumer), ∅)
       end.
Proof.
  intros token consumer. unfold Client.New. rewrite client_options_from.
  cbn [opt_rootToken opt_consumerID opt_dialOptions]. reflexivity.
Qed.

(** C35: closing a client disconnects it from every queue it has subscribed to: one
    call for each subscription, with its token and its consumer id and without the
    caller's context, in the order of the range, whatever the earlier ones were
    answered; what remains subscribed is exactly what the peer refused to
    disconnect; then the connection is closed, once and after all the calls, and the
    result is what closing it answers. *)
Theorem client_close Err (answers : list event → ∀ req : request, Err + response req)
    (closing : list event → Err + unit) c range_subs subs log :
  range_subs (elements subs) ≡ₚ elements subs →
  let order := range_subs (elements subs) in
  let calls := log ++ disconnect_calls c order in
  ∃ left, run (Client.Close (C := peer answers closing) c range_subs)
            (mkClientState subs log)
    = Val (closing calls, mkClientState left (calls ++ [ConnClosed])) ∧
    (∀ key, key ∈ left ↔ ∃ i, order !! i = Some key ∧
       refuses answers c (log ++ disconnect_calls c (take i order)) key = true).
Proof.
  intros Hperm order calls. exists (left_over answers c log order subs). split.
  - unfold Client.Close. rewrite run_bind, run_atomic. unfold gets. cbv beta iota.
    cbn [cs_fetchSubscriptions]. fold order.
    by rewrite (run_bind_val _ _ _ _ _ (run_close_loop answers closing c order subs log)).
  - assert (NoDup order) as Hnd by (unfold order; rewrite Hperm; apply NoDup_elements).
    assert (∀ key, key ∈ order ↔ key ∈ subs) as Hin
      by (intros key; unfold order; rewrite Hperm; apply elem_of_elements).
    intros key. rewrite elem_of_left_over by done. split.
    + intros [Hs%Hin Hall]. apply list_elem_of_lookup in Hs as [i Hi]. eauto.
    + intros (i & Hi & Href). split; [apply Hin; by eapply list_elem_of_lookup_2|].
      intros j Hj. by rewrite (NoDup_lookup _ _ _ _ Hnd Hj Hi).
Qed.

(** A peer that refuses the second call. *)
Definition demo_answers (log : list event) (req : request) : string + response req :=
  match req return string + response req with
  | FetchRequest _ _ _ _ => inr None
  | _ => if decide (length log = 1) then inl "unavailable" else inr tt
  end.

Definition demo_subs : gset subscriptionKey := {[("x", "a"); ("x", "b")]}.

Lemma client_close_witness :
  ∃ left, run (Client.Close (C := peer demo_answers (λ _, inr tt)) (mkClient "t" "c") id)
      (mkClientState demo_subs [])
    = Val (inr tt, mkClientState left
        (disconnect_calls (mkClient "t" "c") (elements demo_subs) ++ [ConnClosed])) ∧
    size left = 1.
Proof.
  destruct (client_close string demo_answers (λ _, inr tt) (mkClient "t" "c") id
    demo_subs []) as (left & Hrun & _); [reflexivity|].
  exists left. split; [exact Hrun|].
  apply (f_equal (λ o, match o with
    | Val (_, s) => size (cs_fetchSubscriptions s) | Panic => 0 end)) in Hrun.
  exact (eq_sym Hrun).
Defined.
