(* ===== verification/ServiceSafety.v ===== *)
(** * The service under every interleaving

    Any number of request handlers run at once, their critical sections, storage
    statements and waits interleaved in any way: no goroutine ever panics, and the
    shared memory stays well formed.  The storage may fail, change its state or
    answer as it likes; all that is asked of it is that it does not panic and
    keeps an invariant of its own. *)

From S2P Require Import Prelude Errors Process Routing CoreQueue CoreExchange.
From S2P Require Import CoreSafety AppConfig Repository Service.

(** A program that cannot panic and keeps [J], whatever others that keep [J] do to
    its state. *)
Definition calm {S A} (J : S → Prop) (p : prog S A) : Prop :=
  ∀ s, wpc J (λ _ _, True) (λ _ _, True) p (λ _ _, True) s.

Section calm.
Context {S : Type} (J : S → Prop).

Lemma calm_ret {A} (a : A) : calm J (Ret a).
Proof. by intros s. Qed.

Lemma calm_atomic {A} (f : GoM S A) :
  (∀ s, J s → ∃ a s', f s = Val (a, s') ∧ J s') → calm J (atomic f).
Proof.
  intros H s s1 _ Hs1. destruct (H s1 Hs1) as (a & s2 & ? & ?).
  exists a, s2. by split_and!.
Qed.

Lemma calm_bind {A B} (p : prog S A) (k : A → prog S B) :
  calm J p → (∀ a, calm J (k a)) → calm J (p ≫= k).
Proof.
  intros Hp Hk s. apply wpc_bind. eapply wpc_mono; [|apply Hp].
  intros a s' _. apply Hk.
Qed.

Lemma calm_try {A B} (p : prog S (result A)) (k : A → prog S (result B)) :
  calm J p → (∀ a, calm J (k a)) → calm J (try p k).
Proof. intros Hp Hk. apply calm_bind; [done|]. intros [a|e]; [done|apply calm_ret]. Qed.
End calm.

(** What the service asks of its storage. *)
Class RepositoryCalm {R} (Repo : Repository R) (J : R → Prop) : Prop := {
  calm_SaveExchange x : calm J (SaveExchange x);
  calm_DeleteExchange x : calm J (DeleteExchange x);
  calm_SaveQueue x q : calm J (SaveQueue x q);
  calm_DeleteQueue x q : calm J (DeleteQueue x q);
  calm_SaveReadyDelivery x q d : calm J (SaveReadyDelivery x q d);
  calm_MarkInFlight d c n : calm J (MarkInFlight d c n);
  calm_MarkReady d : calm J (MarkReady d);
  calm_DeleteDelivery d : calm J (DeleteDelivery d);
  calm_SaveDeadLetter x l : calm J (SaveDeadLetter x l);
  calm_LoadState : calm J LoadState;
}.

#[export] Hint Resolve calm_SaveExchange calm_DeleteExchange calm_SaveQueue
  calm_DeleteQueue calm_SaveReadyDelivery calm_MarkInFlight calm_MarkReady
  calm_DeleteDelivery calm_SaveDeadLetter calm_LoadState : safe.

Definition world_wf {R} (J : R → Prop) (w : World R) : Prop :=
  core_wf (w_core w) ∧ J (w_repo w).
Definition world_le {R} (w w' : World R) : Prop := core_le (w_core w) (w_core w').

#[export] Instance world_le_preorder {R} : PreOrder (@world_le R).
Proof. split; unfold world_le; [by intros w|]. intros w1 w2 w3 ??. by etrans. Qed.

(** References into the core, seen from the world. *)
Definition has_exchange {R} (e : eref) (w : World R) : Prop := valid_exchange e (w_core w).
Definition has_queue {R} (r : qref) (w : World R) : Prop := valid_queue r (w_core w).

Lemma has_exchange_le {R} e (w w' : World R) :
  world_le w w' → has_exchange e w → has_exchange e w'.
Proof. apply valid_exchange_le. Qed.

Lemma has_queue_le {R} r (w w' : World R) :
  world_le w w' → has_queue r w → has_queue r w'.
Proof. apply valid_queue_le. Qed.

#[export] Hint Resolve has_exchange_le has_queue_le : safe.

Section service.
Context `{E : GoEnv} {R : Type} {Repo : Repository R}.
Context {J : R → Prop} `{!RepositoryCalm Repo J}.
Context (limits : LimitsConfig).

Local Abbreviation wspec := (spec (world_wf J) world_le).

Lemma wspec_core {A} (p : prog Core A) (w : World R) Q :
  cspec p (w_core w) Q →
  wspec (BrokerService.core p) w (λ a w', Q a (w_core w')).
Proof.
  intros H. unfold BrokerService.core. apply spec_wpc; [apply _|].
  eapply wpc_mono; [|apply (wpc_zoom core_lens core_wf core_le core_le)].
  - by intros a w' Ha; apply Ha.
  - by intros w' [Hw _].
  - done.
  - intros w' s [_ Hw] Hs Hle. by split.
  - eapply wpc_mono; [|exact H]. intros a s [_ Ha]. exact Ha.
Qed.

Lemma wspec_repo {A} (p : prog R A) (w : World R) :
  calm J p → wspec (BrokerService.repo p) w (λ _ _, True).
Proof.
  intros H. unfold BrokerService.repo. apply spec_wpc; [apply _|].
  eapply wpc_mono;
    [|apply (wpc_zoom repo_lens J (λ _ _, True) (λ _ _, True))]; try done.
  - by intros w' [_ Hw].
  - intros w' t [Hw _] Ht _. split; [by split|]. unfold world_le. simpl. reflexivity.
Qed.

(** Handlers: steps of the core and of the storage. *)
Lemma wspec_try_core {A B} (p : prog Core (result A))
    (k : A → prog (World R) (result B)) (w : World R) P :
  cspec p (w_core w) P →
  (∀ a w', world_le w w' → P (Ok a) (w_core w') → wspec (k a) w' (λ _ _, True)) →
  wspec (try (BrokerService.core p) k) w (λ _ _, True).
Proof.
  intros Hp Hk. eapply spec_try; [apply _|by apply wspec_core| |done].
  intros a w' Hle Ha. by apply Hk.
Qed.

Lemma wspec_bind_core {A B} (p : prog Core A) (k : A → prog (World R) B) (w : World R) P :
  cspec p (w_core w) P →
  (∀ a w', world_le w w' → P a (w_core w') → wspec (k a) w' (λ _ _, True)) →
  wspec (BrokerService.core p ≫= k) w (λ _ _, True).
Proof.
  intros Hp Hk. eapply spec_bind; [apply _|by apply wspec_core|].
  intros a w' Hle Ha. by apply Hk.
Qed.

Lemma wspec_try_repo {A B} (p : prog R (result A))
    (k : A → prog (World R) (result B)) (w : World R) :
  calm J p → (∀ a w', world_le w w' → wspec (k a) w' (λ _ _, True)) →
  wspec (try (BrokerService.repo p) k) w (λ _ _, True).
Proof.
  intros Hp Hk. eapply spec_try; [apply _|by apply wspec_repo| |done].
  intros a w' Hle _. by apply Hk.
Qed.

Lemma wspec_ret {A} (a : A) (w : World R) : wspec (Ret a) w (λ _ _, True).
Proof. by apply spec_ret; [apply _|]. Qed.

Lemma wspec_try_any {A B} (p : prog (World R) (result A))
    (k : A → prog (World R) (result B)) (w : World R) :
  wspec p w (λ _ _, True) →
  (∀ a w', world_le w w' → wspec (k a) w' (λ _ _, True)) →
  wspec (try p k) w (λ _ _, True).
Proof.
  intros Hp Hk. eapply spec_try; [apply _|exact Hp| |done].
  intros a w' Hle _. by apply Hk.
Qed.

Hint Resolve wspec_ret : safe.

(** Looking up the exchange, then the queue. *)
Lemma wspec_exchange {B} name (k : eref → prog (World R) (result B)) (w : World R) :
  (∀ e w', world_le w w' → has_exchange e w' → wspec (k e) w' (λ _ _, True)) →
  wspec (try (BrokerService.core (Broker.GetExchange name)) k) w (λ _ _, True).
Proof. intros Hk. eapply wspec_try_core; [apply cspec_GetExchange|]. eauto. Qed.

Lemma wspec_queue {B} e name (k : qref → prog (World R) (result B)) (w : World R) :
  has_exchange e w →
  (∀ r w', world_le w w' → has_exchange e w' → has_queue r w' →
     wspec (k r) w' (λ _ _, True)) →
  wspec (try (BrokerService.core (Exchange.GetQueue e name)) k) w (λ _ _, True).
Proof.
  intros He Hk. eapply wspec_try_core; [by apply cspec_GetQueue|].
  intros r w' Hle Hr. eapply Hk; eauto with safe.
Qed.

Lemma wspec_read {B} r (k : Queue → prog (World R) B) (w : World R) :
  has_queue r w →
  (∀ q w', world_le w w' → wspec (k q) w' (λ _ _, True)) →
  wspec (BrokerService.core (atomic (read_queue r)) ≫= k) w (λ _ _, True).
Proof.
  intros Hr Hk. eapply wspec_bind_core; [by apply cspec_read_queue|]. eauto.
Qed.

(** A storage call made for durable queues only. *)
Lemma wspec_if_durable {B} (b : bool) (p : prog R (result unit))
    (k : unit → prog (World R) (result B)) (w : World R) :
  calm J p → (∀ a w', world_le w w' → wspec (k a) w' (λ _ _, True)) →
  wspec (try (if b then BrokerService.repo p else Ret (Ok tt)) k) w (λ _ _, True).
Proof.
  intros Hp Hk. apply wspec_try_any; [|done].
  destruct b; [by apply wspec_repo|apply wspec_ret].
Qed.

Lemma wspec_CreateExchange name (w : World R) :
  wspec (BrokerService.CreateExchange name) w
    (λ r w', match r with Ok e => has_exchange e w' | Err _ => True end).
Proof.
  eapply spec_bind; [apply _|apply wspec_core, cspec_CreateExchange|]. intros e w1 _ He.
  eapply spec_try; [apply _|by apply wspec_repo; auto with safe| |done].
  intros _ w2 Hle _. apply spec_ret; [apply _|]. by eapply has_exchange_le.
Qed.

Lemma wspec_DeleteExchange name (w : World R) :
  wspec (BrokerService.DeleteExchange name) w (λ _ _, True).
Proof.
  apply wspec_exchange. intros e w1 _ He.
  eapply wspec_bind_core; [by apply cspec_HasActiveConsumers|].
  intros [] w2 _ _; [auto with safe|].
  eapply wspec_try_core; [apply cspec_DeleteExchange|]. intros _ w3 _ _.
  apply wspec_try_repo; auto with safe.
Qed.

Lemma wspec_RegisterQueue x n d a m f (w : World R) :
  wspec (BrokerService.RegisterQueue limits x n d a m f) w
    (λ r w', match r with Ok q => has_queue q w' | Err _ => True end).
Proof.
  eapply spec_try; [apply _|apply wspec_core, cspec_GetExchange| |done].
  intros e w1 _ He. case_decide; [by apply spec_ret; [apply _|]|].
  eapply spec_try; [apply _|by apply wspec_core, cspec_RegisterQueue| |done].
  intros r w2 _ Hr.
  eapply spec_bind; [apply _|by apply wspec_core, cspec_read_queue|].
  intros q w3 Hle3 _.
  eapply spec_try; [apply _| | |done].
  { destruct (q_IsDurable q); [apply wspec_repo; auto with safe|apply wspec_ret]. }
  intros _ w4 Hle4 _. apply spec_ret; [apply _|].
  eapply has_queue_le; [done|]. by eapply has_queue_le.
Qed.

Lemma wspec_DeleteQueue x n (w : World R) :
  wspec (BrokerService.DeleteQueue x n) w (λ _ _, True).
Proof.
  apply wspec_exchange. intros e w1 _ He.
  apply wspec_queue; [done|]. intros r w2 _ He2 Hr.
  eapply wspec_try_core; [by apply cspec_DeleteQueue|]. intros _ w3 Hle _.
  apply wspec_read; [eauto with safe|]. intros q w4 _.
  apply wspec_if_durable; auto with safe.
Qed.

Lemma wspec_publish_item x e item (w : World R) :
  has_exchange e w → has_queue (pd_Queue item) w →
  wspec (BrokerService.publish_item x e item) w (λ _ _, True).
Proof.
  intros He Hr. apply wspec_read; [done|]. intros q w1 Hle1.
  assert (∀ w : World R, cspec (atomic new_uuid) (w_core w) (λ _ _, True)) as Hid.
  { intros w'. apply cspec_step. intros s _ Hs. eexists _, _. split; [done|].
    destruct (wf_counters s (S (co_uuids s)) (co_ranges s) Hs) as [??]; [lia|]. done. }
  destruct (negb (q_IsDurable q)).
  - eapply wspec_bind_core; [by apply Hid|]. intros id w2 Hle2 _.
    eapply wspec_try_core;
      [apply cspec_EnqueueDelivery; eapply has_exchange_le; eauto with safe|].
    auto with safe.
  - eapply wspec_bind_core; [by apply Hid|]. intros id w2 Hle2 _.
    apply wspec_try_repo; [auto with safe|]. intros _ w3 Hle3.
    eapply wspec_try_core;
      [apply cspec_EnqueueDelivery; eapply has_exchange_le; eauto with safe|].
    auto with safe.
Qed.

Lemma wspec_for_each {A} (P : A → World R → Prop) (l : list A) body (w : World R) :
  (∀ x w w', world_le w w' → P x w → P x w') →
  Forall (λ x, P x w) l →
  (∀ x w, P x w → wspec (body x) w (λ _ _, True)) →
  wspec (for_each l body) w (λ _ _, True).
Proof.
  intros HP Hl Hb. eapply (spec_for_each _ _ P); [apply HP|done| |done].
  intros x w' Hx. eapply spec_mono; [by apply Hb|]. by intros [].
Qed.

Lemma wspec_Publish x key payload (w : World R) :
  wspec (BrokerService.Publish limits x key payload) w (λ _ _, True).
Proof.
  unfold BrokerService.Publish. case_decide; [auto with safe|].
  case_decide; [auto with safe|].
  apply wspec_exchange. intros e w1 _ He.
  eapply wspec_try_core; [by apply cspec_Route|]. intros l w2 Hle Hl.
  apply wspec_try_any; [|auto with safe].
  apply (wspec_for_each (λ p w, has_exchange e w ∧ has_queue (pd_Queue p) w)).
  - intros p w3 w4 Hle34 [??]. split; eauto with safe.
  - eapply Forall_impl; [exact Hl|]. intros p Hp. split; [eauto with safe|exact Hp].
  - intros p w3 [??]. by apply wspec_publish_item.
Qed.

Lemma wspec_Ack x n d c (w : World R) :
  wspec (BrokerService.Ack x n d c) w (λ _ _, True).
Proof.
  apply wspec_exchange. intros e w1 _ He.
  apply wspec_queue; [done|]. intros r w2 _ He2 Hr.
  eapply wspec_try_core; [by apply cspec_Ack|]. intros _ w3 Hle _.
  apply wspec_read; [eauto with safe|]. intros q w4 _.
  destruct (q_IsDurable q); [apply wspec_repo; auto with safe|auto with safe].
Qed.

Lemma wspec_NAck x n d c (w : World R) :
  wspec (BrokerService.NAck x n d c) w (λ _ _, True).
Proof.
  apply wspec_exchange. intros e w1 _ He.
  apply wspec_queue; [done|]. intros r w2 _ He2 Hr.
  eapply wspec_try_core; [by apply cspec_NAck|]. intros res w3 Hle _.
  apply wspec_read; [eauto with safe|]. intros q w4 _.
  destruct (na_IsDead res); [|destruct (q_IsDurable q); [|auto with safe]].
  - apply wspec_if_durable; [auto with safe|]. intros _ w5 _.
    apply wspec_try_repo; auto with safe.
  - apply wspec_try_repo; auto with safe.
Qed.

Lemma wspec_AddConsumer x n c (w : World R) :
  wspec (BrokerService.AddConsumer x n c) w (λ _ _, True).
Proof.
  apply wspec_exchange. intros e w1 _ He.
  eapply spec_mono; [apply wspec_core; by apply cspec_AddConsumer|done].
Qed.

Lemma wspec_DisconnectConsumer x n c (w : World R) :
  wspec (BrokerService.DisconnectConsumer x n c) w (λ _ _, True).
Proof.
  apply wspec_exchange. intros e w1 _ He.
  apply wspec_queue; [done|]. intros r w2 _ He2 Hr.
  eapply wspec_try_core; [by apply cspec_DisconnectConsumer|]. intros l w3 Hle _.
  apply wspec_read; [eauto with safe|]. intros q w4 _.
  destruct (negb (q_IsDurable q)); [auto with safe|].
  apply wspec_try_any; [|auto with safe].
  apply (wspec_for_each (λ _ _, True)); [done|by apply Forall_true|].
  intros d w5 _. apply wspec_repo. auto with safe.
Qed.

Lemma wspec_fetch_iteration e r n c timeout (w : World R) :
  has_exchange e w → has_queue r w →
  wspec (BrokerService.fetch_iteration limits e r n c timeout) w (λ _ _, True).
Proof.
  intros He Hr. eapply wspec_bind_core; [by apply cspec_FetchOrWait|].
  intros [[d ch] [err|]] w1 Hle _.
  - destruct (negb (errors_Is err QueueEmpty)); [auto with safe|].
    case_decide; [auto with safe|].
    apply spec_select; [apply _|]. intros [ce| |] w2 _ _; auto with safe.
  - apply wspec_read; [eauto with safe|]. intros q w2 _.
    destruct (q_IsDurable q); [|auto with safe].
    eapply spec_bind; [apply _|apply wspec_repo; auto with safe|].
    intros [] w3 _ _; auto with safe.
Qed.

Lemma wspec_BlockingFetch x n c timeout (w : World R) :
  wspec (BrokerService.BlockingFetch limits x n c timeout) w (λ _ _, True).
Proof.
  apply wspec_exchange. intros e w1 _ He.
  apply wspec_queue; [done|]. intros r w2 _ He2 Hr.
  apply spec_loop; [apply _|]. intros w3 Hle.
  eapply spec_mono; [apply wspec_fetch_iteration; eauto with safe|].
  intros [] w4 _ _; auto with safe.
Qed.

Lemma wspec_StreamFetch x n c (w : World R) :
  wspec (BrokerService.StreamFetch limits x n c) w (λ _ _, True).
Proof.
  apply spec_loop; [apply _|]. intros w1 _.
  eapply spec_bind; [apply _|apply wspec_BlockingFetch|].
  intros [d|err] w2 _ _; [by apply spec_ret; [apply _|]; auto with safe|].
  destruct (negb (errors_Is err QueueEmpty));
    by apply spec_ret; [apply _|]; auto with safe.
Qed.

Lemma wspec_Restore (w : World R) : wspec BrokerService.Restore w (λ _ _, True).
Proof.
  apply wspec_try_repo; [auto with safe|]. intros st w1 _.
  apply wspec_try_any.
  { apply (wspec_for_each (λ _ _, True)); [done|by apply Forall_true|].
    intros name w2 _. eapply wspec_bind_core; [apply cspec_CreateExchange|].
    auto with safe. }
  intros _ w2 _. apply wspec_try_any.
  { apply (wspec_for_each (λ _ _, True)); [done|by apply Forall_true|].
    intros q w3 _. apply wspec_exchange. intros e w4 _ He.
    eapply wspec_try_core; [by apply cspec_RegisterQueue|]. auto with safe. }
  intros _ w3 _. apply wspec_try_any; [|auto with safe].
  apply (wspec_for_each (λ _ _, True)); [done|by apply Forall_true|].
  intros d w4 _. apply wspec_exchange. intros e w5 _ He.
  apply wspec_queue; [done|]. intros r w6 _ _ Hr.
  eapply wspec_bind_core; [apply cspec_on_queue; [apply safe_RestoreReady|exact Hr]|].
  intros _ w7 _ _. apply wspec_try_repo; auto with safe.
Qed.
End service.
