(* ===== verification/Database.v ===== *)
(** * The tables ([migrations/00001_init.sql]) and the statements sent to them

    Each table is a map from its primary key to the other columns, so that a
    primary key cannot be violated; foreign keys and checks are conditions of the
    statements, and [ON DELETE CASCADE] is part of the deletions.  A statement is
    a function on the tables: the number of affected rows, or a constraint that
    would be violated, and then nothing changes.

    A NOT NULL column matters where the process can send NULL, which is for the
    payloads only: the driver sends a nil byte slice as NULL.  An empty payload is
    always nil in the process - decoding a message that carries no bytes leaves the
    field nil, and a row with an empty payload is never written - so that the empty
    list stands for nil.

    The server is not part of the repository.  What it decides is a parameter:
    which strings a TEXT column can hold, the clock, how strings are ordered, and
    whether a statement reaches the server and its answer comes back. *)

From S2P Require Import Prelude Errors Process Routing CoreQueue.

(** ** Rows and tables *)

Inductive row_status : Type := ready | in_flight.

#[export] Instance row_status_eq_dec : EqDecision row_status.
Proof. solve_decision. Defined.

Record QueueRow : Type := mkQueueRow {
  qr_durable : bool;
  qr_auto_delete : bool;
  qr_max_attempts : Z;
  qr_created_at : Z;
}.

Record DeliveryRow : Type := mkDeliveryRow {
  dr_exchange_name : string;
  dr_queue_name : string;
  dr_routing_key : string;
  dr_payload : list Byte.byte;
  dr_status : row_status;
  dr_attempts : Z;
  dr_consumer_id : option string;
  dr_created_at : Z;
  dr_updated_at : Z;
}.

Record DeadRow : Type := mkDeadRow {
  xr_exchange_name : string;
  xr_source_queue : string;
  xr_routing_key : string;
  xr_payload : list Byte.byte;
  xr_reason : string;
  xr_attempts : Z;
  xr_created_at : Z;
}.

Record Tables : Type := mkTables {
  t_exchanges : gmap string Z;                     (** [created_at] by name *)
  t_queues : gmap (string * string) QueueRow;
  t_filters : gset (string * string * string);
  t_deliveries : gmap string DeliveryRow;
  t_dead : gmap string DeadRow;
}.

Definition no_tables : Tables := mkTables ∅ ∅ ∅ ∅ ∅.

Definition dr_queue (d : DeliveryRow) : string * string :=
  (dr_exchange_name d, dr_queue_name d).

(** ** The server *)

(** What happens to a statement: it is executed and answered, it never reaches
    the server, or its answer is lost. *)
Inductive fault : Type :=
| NoFault
| FailBefore (text : string)
| FailAfter (text : string).

Class PgEnv : Type := {
  fault_at : nat → fault;
  now_at : nat → Z;
  text_ok : string → bool;
  text_le : relation string;
  text_le_dec :: RelDecision text_le;
  dead_uuid_at : nat → string;   (** the UUIDs that [SaveDeadLetter] draws *)
}.

(** A collation is a total order on strings. *)
Class PgEnvOk (P : PgEnv) : Prop := {
  text_le_trans :: Transitive text_le;
  text_le_antisymm :: AntiSymm (=) text_le;
  text_le_total :: Total text_le;
  dead_uuid_inj :: Inj (=) (=) dead_uuid_at;
}.

(** A statement, at the time [now]. *)
Definition stmt : Type := Z → Tables → string + (nat * Tables).

Section statements.
Context `{P : PgEnv}.

Definition texts_ok (ss : list string) : bool := forallb text_ok ss.

(** [INSERT INTO exchanges(name) VALUES($1) ON CONFLICT (name) DO NOTHING] *)
Definition insert_exchange (name : string) : stmt := λ now t,
  if negb (texts_ok [name]) then inl "invalid text"
  else if decide (is_Some (t_exchanges t !! name)) then inr (0, t)
  else inr (1, mkTables (<[name := now]> (t_exchanges t)) (t_queues t) (t_filters t)
                 (t_deliveries t) (t_dead t)).

(** [DELETE FROM exchanges WHERE name = $1], with the rows that go with it *)
Definition delete_exchange (name : string) : stmt := λ now t,
  if negb (texts_ok [name]) then inl "invalid text"
  else if decide (is_Some (t_exchanges t !! name)) then
    inr (1, mkTables (delete name (t_exchanges t))
              (filter (λ kv, kv.1.1 ≠ name) (t_queues t))
              (filter (λ f, f.1.1 ≠ name) (t_filters t))
              (filter (λ kv, dr_exchange_name kv.2 ≠ name) (t_deliveries t))
              (filter (λ kv, xr_exchange_name kv.2 ≠ name) (t_dead t)))
  else inr (0, t).

(** [INSERT INTO queues (...) ... ON CONFLICT (exchange_name, name) DO NOTHING] *)
Definition insert_queue (x n : string) (durable auto_delete : bool)
    (max_attempts : Z) : stmt := λ now t,
  if negb (texts_ok [x; n]) then inl "invalid text"
  else if decide (¬ in_int32 max_attempts) then inl "integer out of range"
  else if decide (max_attempts < 0)%Z then inl "queues_max_attempts_check"
  else if decide (is_Some (t_queues t !! (x, n))) then inr (0, t)
  else if decide (is_Some (t_exchanges t !! x)) then
    inr (1, mkTables (t_exchanges t)
              (<[(x, n) := mkQueueRow durable auto_delete max_attempts now]> (t_queues t))
              (t_filters t) (t_deliveries t) (t_dead t))
  else inl "queues_exchange_name_fkey".

(** [INSERT INTO queue_filters (...) ... ON CONFLICT (...) DO NOTHING] *)
Definition insert_filter (x n f : string) : stmt := λ now t,
  if negb (texts_ok [x; n; f]) then inl "invalid text"
  else if decide ((x, n, f) ∈ t_filters t) then inr (0, t)
  else if decide (is_Some (t_queues t !! (x, n))) then
    inr (1, mkTables (t_exchanges t) (t_queues t) ({[(x, n, f)]} ∪ t_filters t)
              (t_deliveries t) (t_dead t))
  else inl "queue_filters_exchange_name_queue_name_fkey".

(** [DELETE FROM queues WHERE exchange_name = $1 AND name = $2] *)
Definition delete_queue (x n : string) : stmt := λ now t,
  if negb (texts_ok [x; n]) then inl "invalid text"
  else if decide (is_Some (t_queues t !! (x, n))) then
    inr (1, mkTables (t_exchanges t) (delete (x, n) (t_queues t))
              (filter (λ f, f.1 ≠ (x, n)) (t_filters t))
              (filter (λ kv, dr_queue kv.2 ≠ (x, n)) (t_deliveries t))
              (t_dead t))
  else inr (0, t).

(** The insertion into [deliveries] of [SaveReadyDelivery] *)
Definition insert_ready (id x n key : string) (payload : list Byte.byte)
    (attempts : Z) : stmt := λ now t,
  if negb (texts_ok [id; x; n; key]) then inl "invalid text"
  else if decide (¬ in_int32 attempts) then inl "integer out of range"
  else if decide (payload = []) then inl "null value in column payload"
  else if decide (attempts < 0)%Z then inl "deliveries_attempts_check"
  else if decide (is_Some (t_deliveries t !! id)) then inl "deliveries_pkey"
  else if decide (is_Some (t_queues t !! (x, n))) then
    inr (1, mkTables (t_exchanges t) (t_queues t) (t_filters t)
              (<[id := mkDeliveryRow x n key payload ready attempts None now now]>
                 (t_deliveries t)) (t_dead t))
  else inl "deliveries_exchange_name_queue_name_fkey".

(** [UPDATE deliveries SET status = ..., ... WHERE id = $1] *)
Definition update_delivery (id : string) (f : DeliveryRow → DeliveryRow) (t : Tables) :
    nat * Tables :=
  match t_deliveries t !! id with
  | None => (0, t)
  | Some d =>
      (1, mkTables (t_exchanges t) (t_queues t) (t_filters t)
            (<[id := f d]> (t_deliveries t)) (t_dead t))
  end.

Definition update_in_flight (id consumer : string) (attempts : Z) : stmt := λ now t,
  if negb (texts_ok [id; consumer]) then inl "invalid text"
  else if decide (¬ in_int32 attempts) then inl "integer out of range"
  else if decide (attempts < 0 ∧ is_Some (t_deliveries t !! id))%Z
  then inl "deliveries_attempts_check"
  else inr (update_delivery id (λ d,
    mkDeliveryRow (dr_exchange_name d) (dr_queue_name d) (dr_routing_key d)
      (dr_payload d) in_flight attempts (Some consumer) (dr_created_at d) now) t).

Definition update_ready (id : string) : stmt := λ now t,
  if negb (texts_ok [id]) then inl "invalid text"
  else inr (update_delivery id (λ d,
    mkDeliveryRow (dr_exchange_name d) (dr_queue_name d) (dr_routing_key d)
      (dr_payload d) ready (dr_attempts d) None (dr_created_at d) now) t).

(** [DELETE FROM deliveries WHERE id = $1] *)
Definition delete_delivery (id : string) : stmt := λ now t,
  if negb (texts_ok [id]) then inl "invalid text"
  else
    inr (if decide (is_Some (t_deliveries t !! id)) then 1 else 0,
         mkTables (t_exchanges t) (t_queues t) (t_filters t)
           (delete id (t_deliveries t)) (t_dead t)).

(** The insertion into [dead_letters] of [SaveDeadLetter] *)
Definition insert_dead (id x source key : string) (payload : list Byte.byte)
    (reason : string) (attempts : Z) : stmt := λ now t,
  if negb (texts_ok [id; x; source; key; reason]) then inl "invalid text"
  else if decide (¬ in_int32 attempts) then inl "integer out of range"
  else if decide (payload = []) then inl "null value in column payload"
  else if decide (attempts < 0)%Z then inl "dead_letters_attempts_check"
  else if decide (is_Some (t_dead t !! id)) then inl "dead_letters_pkey"
  else if decide (is_Some (t_exchanges t !! x)) then
    inr (1, mkTables (t_exchanges t) (t_queues t) (t_filters t) (t_deliveries t)
              (<[id := mkDeadRow x source key payload reason attempts now]> (t_dead t)))
  else inl "dead_letters_exchange_name_fkey".
End statements.

(** ** Integrity *)

(** Foreign keys, checks and not-null constraints of the schema. *)
Record tables_ok (t : Tables) : Prop := {
  fk_queue x n q : t_queues t !! (x, n) = Some q → is_Some (t_exchanges t !! x);
  fk_filter x n f : (x, n, f) ∈ t_filters t → is_Some (t_queues t !! (x, n));
  fk_delivery id d : t_deliveries t !! id = Some d → is_Some (t_queues t !! dr_queue d);
  fk_dead id d : t_dead t !! id = Some d → is_Some (t_exchanges t !! xr_exchange_name d);
  ck_queue k q : t_queues t !! k = Some q →
    (0 ≤ qr_max_attempts q)%Z ∧ in_int32 (qr_max_attempts q);
  ck_delivery id d : t_deliveries t !! id = Some d →
    (0 ≤ dr_attempts d)%Z ∧ in_int32 (dr_attempts d);
  ck_dead id d : t_dead t !! id = Some d →
    (0 ≤ xr_attempts d)%Z ∧ in_int32 (xr_attempts d);
  nn_delivery id d : t_deliveries t !! id = Some d → dr_payload d ≠ [];
  nn_dead id d : t_dead t !! id = Some d → xr_payload d ≠ [];
}.

(** A statement that keeps every constraint. *)
Definition keeps (s : stmt) : Prop := ∀ now t n t',
  tables_ok t → s now t = inr (n, t') → tables_ok t'.

Section integrity.
Context `{P : PgEnv}.

Lemma tables_ok_empty : tables_ok no_tables.
Proof. split; simpl; intros *; rewrite ?lookup_empty; done. Qed.

Lemma keeps_insert_exchange name : keeps (insert_exchange name).
Proof.
  intros now t n t' Ht H. unfold insert_exchange in H. repeat case_match; simplify_eq;
    [done|]. destruct Ht; split; simpl; try done.
  - intros x m q Hq. apply lookup_insert_is_Some'. right. eauto.
  - intros id d Hd. apply lookup_insert_is_Some'. right. eauto.
Qed.

Lemma keeps_delete_exchange name : keeps (delete_exchange name).
Proof.
  intros now t n t' Ht H. unfold delete_exchange in H. repeat case_match; simplify_eq;
    [|done]. destruct Ht as [F1 F2 F3 F4 C1 C2 C3 N1 N2]; split; simpl.
  - intros x m q [Hq Hne]%map_lookup_filter_Some. simpl in Hne.
    rewrite lookup_delete_ne by done. eauto.
  - intros x m f [Hne Hf]%elem_of_filter. simpl in Hne.
    destruct (F2 _ _ _ Hf) as [q Hq]. exists q. by apply map_lookup_filter_Some.
  - intros id d [Hd Hne]%map_lookup_filter_Some. simpl in Hne.
    destruct (F3 _ _ Hd) as [q Hq]. exists q. by apply map_lookup_filter_Some.
  - intros id d [Hd Hne]%map_lookup_filter_Some. simpl in Hne.
    rewrite lookup_delete_ne by done. eauto.
  - intros k q [Hq _]%map_lookup_filter_Some. eauto.
  - intros k q [Hq _]%map_lookup_filter_Some. eauto.
  - intros k q [Hq _]%map_lookup_filter_Some. eauto.
  - intros k q [Hq _]%map_lookup_filter_Some. eauto.
  - intros k q [Hq _]%map_lookup_filter_Some. eauto.
Qed.

Lemma keeps_insert_queue x n d a m : keeps (insert_queue x n d a m).
Proof.
  intros now t k t' Ht H. unfold insert_queue in H. repeat case_match; simplify_eq;
    [done|]. destruct Ht as [F1 F2 F3 F4 C1 C2 C3 N1 N2]; split; simpl; try done.
  - intros x' m' q [[[= <- <-] _]|[_ Hq]]%lookup_insert_Some; eauto.
  - intros x' m' f Hf. apply lookup_insert_is_Some'. right. eauto.
  - intros id d' Hd. apply lookup_insert_is_Some'. right. eauto.
  - intros k q [[<- <-]|[_ Hq]]%lookup_insert_Some; [|by eauto]. simpl.
    split; [lia|]. by destruct (decide (in_int32 m)).
Qed.

Lemma keeps_insert_filter x n f : keeps (insert_filter x n f).
Proof.
  intros now t k t' Ht H. unfold insert_filter in H. repeat case_match; simplify_eq;
    [done|]. destruct Ht as [F1 F2 F3 F4 C1 C2 C3 N1 N2]; split; simpl; try done.
  intros x' n' f' [Heq%elem_of_singleton|Hf]%elem_of_union; [by simplify_eq|eauto].
Qed.

Lemma keeps_delete_queue x n : keeps (delete_queue x n).
Proof.
  intros now t k t' Ht H. unfold delete_queue in H. repeat case_match; simplify_eq;
    [|done]. destruct Ht as [F1 F2 F3 F4 C1 C2 C3 N1 N2]; split; simpl; try done.
  - intros x' n' q [_ Hq]%lookup_delete_Some. eauto.
  - intros x' n' f [Hne Hf]%elem_of_filter. simpl in Hne.
    rewrite lookup_delete_ne by done. eauto.
  - intros id d [Hd Hne]%map_lookup_filter_Some. simpl in Hne.
    rewrite lookup_delete_ne by done. eauto.
  - intros k q [_ Hq]%lookup_delete_Some. eauto.
  - intros id d [Hd _]%map_lookup_filter_Some. eauto.
  - intros id d [Hd _]%map_lookup_filter_Some. eauto.
Qed.

(** Changing one delivery, within its queue and with a legal number of attempts. *)
Lemma keeps_set_delivery t id d :
  tables_ok t → is_Some (t_queues t !! dr_queue d) →
  (0 ≤ dr_attempts d)%Z → in_int32 (dr_attempts d) → dr_payload d ≠ [] →
  tables_ok (mkTables (t_exchanges t) (t_queues t) (t_filters t)
               (<[id := d]> (t_deliveries t)) (t_dead t)).
Proof.
  intros [F1 F2 F3 F4 C1 C2 C3 N1 N2] Hq H0 H32 Hp. split; simpl; try done.
  - intros id' d' [[<- <-]|[_ Hd]]%lookup_insert_Some; eauto.
  - intros id' d' [[<- <-]|[_ Hd]]%lookup_insert_Some; eauto.
  - intros id' d' [[<- <-]|[_ Hd]]%lookup_insert_Some; eauto.
Qed.

Lemma keeps_insert_ready id x n key p a : keeps (insert_ready id x n key p a).
Proof.
  intros now t k t' Ht H. unfold insert_ready in H. repeat case_match; simplify_eq.
  apply keeps_set_delivery; simpl; [done|done|lia| |done].
  by destruct (decide (in_int32 a)).
Qed.

Lemma keeps_update_in_flight id c a : keeps (update_in_flight id c a).
Proof.
  intros now t k t' Ht H. unfold update_in_flight, update_delivery in H.
  destruct (negb _); [done|]. destruct (decide (¬ in_int32 a)) as [|Ha]; [done|].
  case_decide as Hneg; [done|]. destruct (t_deliveries t !! id) as [d|] eqn:Hd;
    simplify_eq; [|done].
  apply keeps_set_delivery; simpl; [done|exact (fk_delivery t Ht id d Hd)| | |
    by eapply (nn_delivery t Ht)].
  - destruct (decide (a < 0)%Z); [|lia]. exfalso. eauto.
  - by destruct (decide (in_int32 a)).
Qed.

Lemma keeps_update_ready id : keeps (update_ready id).
Proof.
  intros now t k t' Ht H. unfold update_ready, update_delivery in H.
  destruct (negb _); [done|]. destruct (t_deliveries t !! id) as [d|] eqn:Hd;
    simplify_eq; [|done].
  apply keeps_set_delivery; simpl; [done|exact (fk_delivery t Ht id d Hd)|..];
    (by eapply (ck_delivery t Ht)) || by eapply (nn_delivery t Ht).
Qed.

Lemma keeps_delete_delivery id : keeps (delete_delivery id).
Proof.
  intros now t k t' Ht H. unfold delete_delivery in H. destruct (negb _); [done|].
  simplify_eq. destruct Ht as [F1 F2 F3 F4 C1 C2 C3 N1 N2]; split; simpl; try done;
    intros id' d [_ Hd]%lookup_delete_Some; eauto.
Qed.

Lemma keeps_insert_dead id x src key p reason a :
  keeps (insert_dead id x src key p reason a).
Proof.
  intros now t k t' Ht H. unfold insert_dead in H. repeat case_match; simplify_eq.
  destruct Ht as [F1 F2 F3 F4 C1 C2 C3 N1 N2]; split; simpl; try done;
    intros id' d [[<- <-]|[_ Hd]]%lookup_insert_Some; eauto.
  simpl. split; [lia|]. by destruct (decide (in_int32 a)).
Qed.
End integrity.

#[export] Hint Resolve keeps_insert_exchange keeps_delete_exchange keeps_insert_queue
  keeps_insert_filter keeps_delete_queue keeps_insert_ready keeps_update_in_flight
  keeps_update_ready keeps_delete_delivery keeps_insert_dead : broker.
