(* ===== verification/Postgres.v ===== *)
(** * The PostgreSQL repository ([internal/repository/postgres.go])

    Every operation is the statements it sends, one atomic step each; the
    transaction of [SaveQueue] is one step, since its rows are invisible to other
    sessions until it commits.  Log lines are left out. *)

From S2P Require Import Prelude Errors Process Routing CoreQueue Repository Database.

(** The server, and how many statements it was sent so far. *)
Record DB : Type := mkDB {
  db_tables : Tables;
  db_time : nat;
  db_uuids : nat;
}.

Definition new_db : DB := mkDB no_tables 0 0.

(** ** ORDER BY *)

(** Compare two components in turn. *)
Definition lex {A B} `{EqDecision A} (R1 : relation A) (R2 : relation B) :
    relation (A * B) :=
  λ x y, if decide (x.1 = y.1) then R2 x.2 y.2 else R1 x.1 y.1.

(** NULLS LAST, the default of an ascending order. *)
Definition nulls_last {A} (R : relation A) : relation (option A) :=
  λ x y, match x, y with
         | _, None => True
         | None, Some _ => False
         | Some a, Some b => R a b
         end.

Definition order_by {A B} (key : A → B) (R : relation B) : relation A :=
  λ x y, R (key x) (key y).

#[export] Instance lex_dec {A B} `{EqDecision A} (R1 : relation A) (R2 : relation B)
  `{!RelDecision R1, !RelDecision R2} : RelDecision (lex R1 R2).
Proof. intros x y. unfold lex. destruct (decide (x.1 = y.1)); apply _. Defined.

#[export] Instance nulls_last_dec {A} (R : relation A) `{!RelDecision R} :
  RelDecision (nulls_last R).
Proof. intros [x|] [y|]; simpl; apply _. Defined.

#[export] Instance order_by_dec {A B} (key : A → B) (R : relation B)
  `{!RelDecision R} : RelDecision (order_by key R).
Proof. intros x y. unfold order_by. apply _. Defined.

(** A row of the join of [queues] with [queue_filters]. *)
Record JoinedRow : Type := mkJoinedRow {
  jr_key : string * string;
  jr_queue : QueueRow;
  jr_filter : option string;
}.

Abbreviation queueKey := (string * string)%type.

(** ** Statements and queries *)

Section postgres.
Context `{P : PgEnv}.

Definition exec_stmt (s : stmt) : GoM DB (result nat) := λ db,
  let done t := mkDB t (S (db_time db)) (db_uuids db) in
  let r := s (now_at (db_time db)) (db_tables db) in
  match fault_at (db_time db) with
  | FailBefore text => Val (Err (StorageError text), done (db_tables db))
  | NoFault =>
      match r with
      | inl text => Val (Err (StorageError text), done (db_tables db))
      | inr (rows, t) => Val (Ok rows, done t)
      end
  | FailAfter text =>
      Val (Err (StorageError text),
           done (match r with inl _ => db_tables db | inr (_, t) => t end))
  end.

(** [r.db.Exec(ctx, sql, ...)]; the result is [tag.RowsAffected()]. *)
Definition Exec (s : stmt) : prog DB (result nat) := atomic (exec_stmt s).

(** The statements of a transaction, on a copy of the tables. *)
Fixpoint tx_stmts (ss : list stmt) (now : Z) (time : nat) (t : Tables) :
    nat * (string + Tables) :=
  match ss with
  | [] => (time, inr t)
  | s :: ss =>
      match fault_at time with
      | FailBefore text | FailAfter text => (S time, inl text)
      | NoFault =>
          match s now t with
          | inl text => (S time, inl text)
          | inr (_, t) => tx_stmts ss now (S time) t
          end
      end
  end.

(** [Begin], the statements, [Commit]; [defer tx.Rollback] on every error. *)
Definition transaction (ss : list stmt) : GoM DB (result unit) := λ db,
  let t := db_tables db in
  match fault_at (db_time db) with
  | FailBefore text | FailAfter text =>
      Val (Err (StorageError text), mkDB t (S (db_time db)) (db_uuids db))
  | NoFault =>
      match tx_stmts ss (now_at (db_time db)) (S (db_time db)) t with
      | (time, inl text) => Val (Err (StorageError text), mkDB t time (db_uuids db))
      | (time, inr t') =>
          match fault_at time with
          | NoFault => Val (Ok tt, mkDB t' (S time) (db_uuids db))
          | FailBefore text =>
              Val (Err (StorageError text), mkDB t (S time) (db_uuids db))
          | FailAfter text =>
              Val (Err (StorageError text), mkDB t' (S time) (db_uuids db))
          end
      end
  end.

(** [r.db.Query(...)] and the loop over its rows. *)
Definition Query {A} (f : Tables → outcome A) : prog DB (result A) :=
  atomic (λ db,
    let db' := mkDB (db_tables db) (S (db_time db)) (db_uuids db) in
    match fault_at (db_time db) with
    | FailBefore text | FailAfter text => Val (Err (StorageError text), db')
    | NoFault =>
        match f (db_tables db) with
        | Val a => Val (Ok a, db')
        | Panic => Panic
        end
    end).

Definition pg_SaveExchange (exchangeName : string) : prog DB (result unit) :=
  Exec (insert_exchange exchangeName) ?;
  Ret (Ok tt).

Definition pg_DeleteExchange (exchangeName : string) : prog DB (result unit) :=
  Exec (delete_exchange exchangeName) ?;
  Ret (Ok tt).

Definition pg_SaveQueue (exchangeName : string) (queue : Queue) : prog DB (result unit) :=
  atomic (transaction
    (insert_queue exchangeName (q_Name queue) (q_IsDurable queue)
       (q_IsAutoDelete queue) (q_MaxAttempts queue)
     :: (insert_filter exchangeName (q_Name queue) <$> q_Filters queue))).

Definition pg_DeleteQueue (exchangeName queueName : string) : prog DB (result unit) :=
  Exec (delete_queue exchangeName queueName) ?;
  Ret (Ok tt).

Definition pg_SaveReadyDelivery (exchangeName queueName : string) (delivery : Delivery) :
    prog DB (result unit) :=
  Exec (insert_ready (dl_ID delivery) exchangeName queueName
          (msg_RoutingKey (dl_Message delivery)) (msg_Payload (dl_Message delivery))
          (dl_Attempts delivery)) ?;
  Ret (Ok tt).

Definition pg_MarkInFlight (deliveryID consumerID : string) (attempts : Z) :
    prog DB (result unit) :=
  tag <-? Exec (update_in_flight deliveryID consumerID attempts);;
  if decide (tag = 0) then Ret (Err DeliveryNotFound) else Ret (Ok tt).

Definition pg_MarkReady (deliveryID : string) : prog DB (result unit) :=
  Exec (update_ready deliveryID) ?;
  Ret (Ok tt).

Definition pg_DeleteDelivery (deliveryID : string) : prog DB (result unit) :=
  Exec (delete_delivery deliveryID) ?;
  Ret (Ok tt).

(** [uuid.New().String()], drawn before the statement is sent. *)
Definition draw_uuid : GoM DB string := λ db,
  Val (dead_uuid_at (db_uuids db),
       mkDB (db_tables db) (db_time db) (S (db_uuids db))).

Definition pg_SaveDeadLetter (exchangeName : string) (letter : DeadLetter) :
    prog DB (result unit) :=
  id ← atomic draw_uuid;
  Exec (insert_dead id exchangeName (dead_SourceQueue letter)
          (msg_RoutingKey (dead_Message letter)) (msg_Payload (dead_Message letter))
          (dead_Reason letter) (dead_Attempts letter)) ?;
  Ret (Ok tt).

(** ** Loading *)

(** [SELECT name FROM exchanges ORDER BY created_at, name] *)
Definition exchange_rows (t : Tables) : list (string * Z) :=
  merge_sort (order_by (λ row, (row.2, row.1)) (lex Z.le text_le))
    (map_to_list (t_exchanges t)).

Definition loadExchanges : prog DB (result (list string)) :=
  Query (λ t, Val (exchange_rows t).*1).

(** The filters of one queue. *)
Definition filters_of (k : queueKey) (t : Tables) : list string :=
  omap (λ f, if decide (f.1 = k) then Some f.2 else None) (elements (t_filters t)).

(** The rows that a queue contributes to the join: a queue without filters has
    one, with NULL for the filter. *)
Definition joined (t : Tables) (kq : queueKey * QueueRow) : list JoinedRow :=
  match filters_of kq.1 t with
  | [] => [mkJoinedRow kq.1 kq.2 None]
  | fs => (λ f, mkJoinedRow kq.1 kq.2 (Some f)) <$> fs
  end.

(** [FROM queues q LEFT JOIN queue_filters qf ON ...] *)
Definition left_join (t : Tables) : list JoinedRow :=
  map_to_list (t_queues t) ≫= joined t.

(** [ORDER BY q.exchange_name, q.name, qf.filter] *)
Definition queue_rows (t : Tables) : list JoinedRow :=
  merge_sort
    (order_by (λ row, (jr_key row, jr_filter row))
       (lex (lex text_le text_le) (nulls_last text_le)))
    (left_join t).

Definition add_filter (f : string) (q : QueueState) : QueueState :=
  mkQueueState (qst_ExchangeName q) (qst_Name q) (qst_IsDurable q)
    (qst_IsAutoDelete q) (qst_MaxAttempts q) (qst_Filters q ++ [f]).

(** The loop over the rows: [queuesByKey] holds pointers, so a filter is added to
    the one state that the key has. *)
Fixpoint group_rows (rows : list JoinedRow) (queuesByKey : gmap queueKey QueueState)
    (order : list queueKey) : gmap queueKey QueueState * list queueKey :=
  match rows with
  | [] => (queuesByKey, order)
  | row :: rows =>
      let key := jr_key row in
      let queue := mkQueueState key.1 key.2 (qr_durable (jr_queue row))
        (qr_auto_delete (jr_queue row)) (qr_max_attempts (jr_queue row)) [] in
      let '(queuesByKey, order) :=
        match queuesByKey !! key with
        | None => (<[key := queue]> queuesByKey, order ++ [key])
        | Some _ => (queuesByKey, order)
        end in
      let queuesByKey :=
        match jr_filter row with
        | Some f => alter (add_filter f) key queuesByKey
        | None => queuesByKey
        end in
      group_rows rows queuesByKey order
  end.

(** [*queuesByKey[key]] for every key; a missing key would be a nil pointer. *)
Fixpoint collect (queuesByKey : gmap queueKey QueueState) (order : list queueKey) :
    outcome (list QueueState) :=
  match order with
  | [] => Val []
  | key :: order =>
      match queuesByKey !! key, collect queuesByKey order with
      | Some q, Val qs => Val (q :: qs)
      | _, _ => Panic
      end
  end.

Definition loadQueues : prog DB (result (list QueueState)) :=
  Query (λ t,
    let '(queuesByKey, order) := group_rows (queue_rows t) ∅ [] in
    collect queuesByKey order).

(** [... FROM deliveries ORDER BY created_at, id] *)
Definition delivery_rows (t : Tables) : list (string * DeliveryRow) :=
  merge_sort (order_by (λ row, (dr_created_at row.2, row.1)) (lex Z.le text_le))
    (map_to_list (t_deliveries t)).

Definition delivery_state (row : string * DeliveryRow) : DeliveryState :=
  mkDeliveryState (dr_exchange_name row.2) (dr_queue_name row.2)
    (mkDelivery row.1 (mkMessage (dr_payload row.2) (dr_routing_key row.2)) ""
       (dr_attempts row.2)).

Definition loadDeliveries : prog DB (result (list DeliveryState)) :=
  Query (λ t, Val (map delivery_state (delivery_rows t))).

Definition pg_LoadState : prog DB (result BrokerState) :=
  exchanges <-? loadExchanges;;
  queues <-? loadQueues;;
  deliveries <-? loadDeliveries;;
  Ret (Ok (mkBrokerState exchanges queues deliveries)).

#[export] Instance postgres : Repository DB := {
  SaveExchange := pg_SaveExchange;
  DeleteExchange := pg_DeleteExchange;
  SaveQueue := pg_SaveQueue;
  DeleteQueue := pg_DeleteQueue;
  SaveReadyDelivery := pg_SaveReadyDelivery;
  MarkInFlight := pg_MarkInFlight;
  MarkReady := pg_MarkReady;
  DeleteDelivery := pg_DeleteDelivery;
  SaveDeadLetter := pg_SaveDeadLetter;
  LoadState := pg_LoadState;
}.
End postgres.
