(* ===== verification/PostgresSpec.v ===== *)
(** * What the repository promises

    Whatever fails, the constraints of the schema hold and the transaction of
    [SaveQueue] is all or nothing; loading returns exactly what the tables hold. *)

From S2P Require Import Prelude Errors Process Routing CoreQueue Repository Database.
From S2P Require Import Postgres ServiceSafety.

Definition db_ok (db : DB) : Prop := tables_ok (db_tables db).

(** ** The scan loop of [loadQueues] *)

(** The state that a list of rows gives for the queue [k]. *)
Definition state_of (cfg : gmap queueKey QueueRow) (rows : list JoinedRow)
    (k : queueKey) : option QueueState :=
  q ← cfg !! k;
  Some (mkQueueState k.1 k.2 (qr_durable q) (qr_auto_delete q) (qr_max_attempts q)
          (omap jr_filter (filter (λ row, jr_key row = k) rows))).

(** The variables of the loop after [rows]. *)
Record grouped (cfg : gmap queueKey QueueRow) (rows : list JoinedRow)
    (m : gmap queueKey QueueState) (order : list queueKey) : Prop := {
  gr_once : NoDup order;
  gr_order k : k ∈ order ↔ k ∈ (jr_key <$> rows);
  gr_states k : m !! k = if decide (k ∈ order) then state_of cfg rows k else None;
}.

Lemma state_of_snoc_other cfg rows row k :
  jr_key row ≠ k → state_of cfg (rows ++ [row]) k = state_of cfg rows k.
Proof.
  intros Hne. unfold state_of. by rewrite filter_app, filter_cons_False, app_nil_r.
Qed.

Lemma state_of_snoc cfg rows row k :
  jr_key row = k →
  state_of cfg (rows ++ [row]) k =
  match jr_filter row with
  | Some f => add_filter f <$> state_of cfg rows k
  | None => state_of cfg rows k
  end.
Proof.
  intros Hk. unfold state_of. rewrite filter_app, filter_cons_True by done.
  rewrite omap_app. destruct (cfg !! k) as [q|]; csimpl; [|by destruct (jr_filter row)].
  destruct (jr_filter row); csimpl; [done|]. by rewrite app_nil_r.
Qed.

Lemma group_rows_grouped cfg rows pre m order :
  Forall (λ row, cfg !! jr_key row = Some (jr_queue row)) rows →
  grouped cfg pre m order →
  grouped cfg (pre ++ rows) (group_rows rows m order).1 (group_rows rows m order).2.
Proof.
  intros Hrows. revert pre m order.
  induction Hrows as [|row rows Hrow _ IH]; intros pre m order Hg; simpl.
  { by rewrite app_nil_r. }
  destruct Hg as [H1 H2 H3]. set (k := jr_key row) in *.
  set (q0 := mkQueueState _ _ _ _ _ _).
  rewrite (cons_middle row pre rows), app_assoc.
  assert (m !! k = None ↔ k ∉ order) as Hnew.
  { rewrite H3. case_decide as Hk; [|done]. unfold state_of. rewrite Hrow. simpl.
    split; [done|]. intros. done. }
  destruct (m !! k) as [q|] eqn:Hm.
  - assert (k ∈ order) as Hk by (destruct (decide (k ∈ order)); naive_solver).
    apply IH. split; [done| |].
    + intros k'. rewrite H2, fmap_app, elem_of_app. csimpl.
      rewrite list_elem_of_singleton, <- H2. split; [by left|]. intros [?| ->]; done.
    + intros k'. destruct (decide (k' = k)) as [->|Hne].
      * rewrite decide_True by done. rewrite state_of_snoc by done.
        pose proof (H3 k) as Hk3. rewrite Hm, decide_True in Hk3 by done.
        rewrite <- Hk3. destruct (jr_filter row); [|done].
        by rewrite lookup_alter_eq, Hm.
      * rewrite state_of_snoc_other by done. rewrite <- H3.
        destruct (jr_filter row); [|done]. by rewrite lookup_alter_ne.
  - assert (k ∉ order) as Hk by by apply Hnew.
    assert (filter (λ row, jr_key row = k) pre = []) as Hpre.
    { apply filter_none, Forall_forall. intros row' Hin Heq. apply Hk, H2.
      by apply (list_elem_of_fmap_2' _ _ row'). }
    apply IH. split.
    + by apply NoDup_snoc.
    + intros k'. rewrite fmap_app, !elem_of_app. csimpl.
      by rewrite !list_elem_of_singleton, H2.
    + intros k'. destruct (decide (k' = k)) as [->|Hne].
      * rewrite decide_True by set_solver. rewrite state_of_snoc by done.
        unfold state_of. rewrite Hpre, Hrow. csimpl.
        destruct (jr_filter row); [|apply lookup_insert_eq].
        rewrite lookup_alter_eq, lookup_insert_eq. done.
      * rewrite state_of_snoc_other by done.
        replace (match jr_filter row with Some f => _ | None => _ end !! k')
          with (m !! k').
        { rewrite H3. apply decide_ext. set_solver. }
        destruct (jr_filter row); rewrite ?lookup_alter_ne by done;
          by rewrite lookup_insert_ne.
Qed.

Lemma collect_eq (m : gmap queueKey QueueState) order :
  Forall (λ k, is_Some (m !! k)) order →
  ∃ qs, collect m order = Val qs ∧ Forall2 (λ k q, m !! k = Some q) order qs.
Proof.
  induction 1 as [|k order [q Hq] _ (qs & Hqs & HF)]; simpl; [by exists []|].
  exists (q :: qs). rewrite Hq, Hqs. split; [done|by constructor].
Qed.

(** ** The join *)

Lemma joined_filters t kq : omap jr_filter (joined t kq) = filters_of kq.1 t.
Proof.
  unfold joined. destruct (filters_of kq.1 t) as [|f fs]; [done|]. csimpl. f_equal.
  induction fs as [|f' fs IH]; csimpl; [done|]. by rewrite IH.
Qed.

Lemma joined_rows t kq :
  Forall (λ row, jr_key row = kq.1 ∧ jr_queue row = kq.2) (joined t kq) ∧ joined t kq ≠ [].
Proof.
  unfold joined. destruct (filters_of kq.1 t) as [|f fs]; csimpl;
    (split; [|done]); [by repeat constructor|].
  constructor; [done|]. apply Forall_fmap, Forall_true. done.
Qed.

Lemma elem_of_filters_of k f t : f ∈ filters_of k t ↔ (k, f) ∈ t_filters t.
Proof.
  unfold filters_of. rewrite list_elem_of_omap. split.
  - intros ([k' f'] & Hin%elem_of_elements & H). case_decide; by simplify_eq/=.
  - intros H. exists (k, f). rewrite elem_of_elements. split; [done|]. simpl.
    by rewrite decide_True.
Qed.

Lemma NoDup_filters_of k t : NoDup (filters_of k t).
Proof.
  unfold filters_of. pose proof (NoDup_elements (t_filters t)) as H.
  induction H as [|[k' f] l Hx _ IH]; csimpl; [constructor|].
  case_decide; [|done]. simpl in *. subst. constructor; [|done].
  rewrite list_elem_of_omap. intros ([k'' f'] & Hin & H). case_decide; simplify_eq/=.
  done.
Qed.

Lemma left_join_queue t :
  Forall (λ row, t_queues t !! jr_key row = Some (jr_queue row)) (left_join t).
Proof.
  unfold left_join. apply Forall_forall. intros row Hrow.
  apply list_elem_of_bind in Hrow as (kq & Hrow & Hkq).
  destruct kq as [k q]. apply elem_of_map_to_list in Hkq.
  destruct (joined_rows t (k, q)) as [HF _]. rewrite Forall_forall in HF.
  destruct (HF row Hrow) as [-> ->]. done.
Qed.

Lemma left_join_keys t k : k ∈ (jr_key <$> left_join t) ↔ is_Some (t_queues t !! k).
Proof.
  split.
  - intros (row & -> & Hrow)%list_elem_of_fmap.
    pose proof (left_join_queue t) as H. rewrite Forall_forall in H.
    rewrite (H row Hrow). eauto.
  - intros [q Hq]. destruct (joined_rows t (k, q)) as [HF Hne].
    destruct (joined t (k, q)) as [|row rows] eqn:Hj; [done|].
    apply Forall_cons in HF as [[Hk _] _]. simpl in Hk.
    apply (list_elem_of_fmap_2' _ _ row); [|done].
    unfold left_join. apply list_elem_of_bind. exists (k, q). split.
    + rewrite Hj. by left.
    + by apply elem_of_map_to_list.
Qed.

Lemma bind_joined_filters t k l :
  NoDup l.*1 →
  omap jr_filter (filter (λ row, jr_key row = k) (l ≫= joined t)) =
  if decide (k ∈ l.*1) then filters_of k t else [].
Proof.
  intros Hl. induction l as [|[k' q] l IH]; [done|].
  change (((k', q) :: l) ≫= joined t) with (joined t (k', q) ++ (l ≫= joined t)).
  csimpl in *. apply NoDup_cons in Hl as [Hk Hl]. simpl in Hk.
  rewrite filter_app, omap_app, IH by done.
  destruct (joined_rows t (k', q)) as [HF _]. simpl in HF.
  destruct (decide (k' = k)) as [->|Hne].
  - rewrite filter_all by (eapply Forall_impl; [exact HF|]; intros row [? _]; done).
    rewrite joined_filters. rewrite decide_False by done. simpl.
    rewrite app_nil_r, decide_True; [done|by left].
  - rewrite filter_none by (eapply Forall_impl; [exact HF|]; intros row [-> _]; done).
    simpl. apply decide_ext. rewrite elem_of_cons. naive_solver.
Qed.

Lemma left_join_filters t k :
  is_Some (t_queues t !! k) →
  omap jr_filter (filter (λ row, jr_key row = k) (left_join t)) = filters_of k t.
Proof.
  intros Hk. unfold left_join. rewrite bind_joined_filters by apply NoDup_keys.
  rewrite decide_True; [done|]. by apply elem_of_keys.
Qed.

(** ** Queries *)

(** What a state of a queue must say of the tables. *)
Record queue_loaded (t : Tables) (q : QueueState) (row : QueueRow) : Prop := {
  ql_row : t_queues t !! (qst_ExchangeName q, qst_Name q) = Some row;
  ql_durable : qst_IsDurable q = qr_durable row;
  ql_auto_delete : qst_IsAutoDelete q = qr_auto_delete row;
  ql_max_attempts : qst_MaxAttempts q = qr_max_attempts row;
  ql_filters f : f ∈ qst_Filters q ↔
    (qst_ExchangeName q, qst_Name q, f) ∈ t_filters t;
  ql_once : NoDup (qst_Filters q);
}.

Definition state_key (q : QueueState) : queueKey := (qst_ExchangeName q, qst_Name q).

(** [qs] holds every queue of the tables, once, with its flags and filters. *)
Record queues_loaded (t : Tables) (qs : list QueueState) : Prop := {
  qsl_once : NoDup (state_key <$> qs);
  qsl_keys k : k ∈ (state_key <$> qs) ↔ is_Some (t_queues t !! k);
  qsl_queues : Forall (λ q, ∃ row, queue_loaded t q row) qs;
}.

Section queries.
Context `{P : PgEnv}.

Lemma state_of_loaded t rows k q :
  rows ≡ₚ left_join t → state_of (t_queues t) rows k = Some q →
  state_key q = k ∧ ∃ row, queue_loaded t q row.
Proof.
  intros Hrows Hq. unfold state_of in Hq.
  destruct (t_queues t !! k) as [row|] eqn:Hk; csimpl in Hq; [|done].
  simplify_eq. destruct k as [x n]; simpl in *. split; [done|]. exists row.
  assert (omap jr_filter (filter (λ r, jr_key r = (x, n)) rows) ≡ₚ filters_of (x, n) t)
    as Hf by (rewrite <- (left_join_filters t) by eauto; by rewrite Hrows).
  split; simpl; try done.
  - intros f. by rewrite Hf, elem_of_filters_of.
  - rewrite Hf. apply NoDup_filters_of.
Qed.

Lemma loadQueues_ok t :
  ∃ qs, (let '(m, order) := group_rows (queue_rows t) ∅ [] in collect m order) = Val qs
        ∧ queues_loaded t qs.
Proof.
  assert (queue_rows t ≡ₚ left_join t) as Hperm by apply merge_sort_Permutation.
  assert (grouped (t_queues t) (queue_rows t)
            (group_rows (queue_rows t) ∅ []).1 (group_rows (queue_rows t) ∅ []).2)
    as [H1 H2 H3].
  { apply (group_rows_grouped _ _ []).
    - rewrite Hperm. apply left_join_queue.
    - split; [constructor|done|]. intros k. by rewrite lookup_empty. }
  assert (∀ k, k ∈ (group_rows (queue_rows t) ∅ []).2 ↔ is_Some (t_queues t !! k)) as Hin.
  { intros k. by rewrite H2, Hperm, left_join_keys. }
  destruct (group_rows (queue_rows t) ∅ []) as [m order]. simpl in *.
  destruct (collect_eq m order) as (qs & Hqs & HF).
  { apply Forall_forall. intros k Hk. rewrite H3, decide_True by done.
    apply Hin in Hk as [row Hrow]. unfold state_of. rewrite Hrow. csimpl. eauto. }
  exists qs. split; [done|].
  assert (Forall2 (λ k q, state_key q = k ∧ ∃ row, queue_loaded t q row) order qs) as HF2.
  { eapply Forall2_impl; [exact HF|]. intros k q Hq. cbv beta in Hq. rewrite H3 in Hq.
    case_decide; [|done]. by eapply state_of_loaded. }
  assert (state_key <$> qs = order) as Hkeys.
  { clear -HF2. induction HF2 as [|k q order qs [<- _] _ IH]; csimpl; [done|].
    by rewrite IH. }
  split; rewrite ?Hkeys; [done|done|].
  clear -HF2. induction HF2 as [|k q order qs [_ ?] _ IH]; by constructor.
Qed.

(** No fault strikes the next [n] statements. *)
Definition quiet (n : nat) (db : DB) : Prop :=
  ∀ i, i < n → fault_at (db_time db + i) = NoFault.

(** [n] statements later, on the same tables. *)
Definition elapsed (n : nat) (db : DB) : DB :=
  mkDB (db_tables db) (db_time db + n) (db_uuids db).

(** A program of [n] queries: it changes nothing, fails only when a query does, and
    otherwise its result is [good]. *)
Definition loads {A} (n : nat) (db : DB) (p : prog DB (result A)) (good : A → Prop) :
    Prop :=
  ∃ r db', run p db = Val (r, db') ∧ db_tables db' = db_tables db ∧
    (quiet n db → is_ok r = true) ∧
    match r with
    | Ok a => db' = elapsed n db ∧ good a
    | Err err => ∃ text, err = StorageError text
    end.

Lemma loads_query {A} (f : Tables → outcome A) db a (good : A → Prop) :
  f (db_tables db) = Val a → good a → loads 1 db (Query f) good.
Proof.
  intros Hf Ha. unfold loads, Query. rewrite run_atomic, Hf.
  assert (quiet 1 db → fault_at (db_time db) = NoFault) as Hq.
  { intros H. rewrite <- (Nat.add_0_r (db_time db)). apply H. lia. }
  destruct (fault_at (db_time db)) as [|text|text]; eexists _, _; (split; [done|]);
    (split; [done|]); split; eauto; [|intros H; by apply Hq in H..].
  split; [|done]. unfold elapsed. by rewrite Nat.add_1_r.
Qed.

Lemma loads_ret {A} db (a : A) (good : A → Prop) : good a → loads 0 db (Ret (Ok a)) good.
Proof.
  intros Ha. exists (Ok a), db. split_and!; try done.
  unfold elapsed. rewrite Nat.add_0_r. by destruct db.
Qed.

Lemma loads_try {A B} n m db (p : prog DB (result A)) (k : A → prog DB (result B)) G G2 :
  loads n db p G → (∀ a, G a → loads m (elapsed n db) (k a) G2) →
  loads (n + m) db (try p k) G2.
Proof.
  intros (r & db' & Hr & Ht & Hq & Hg) Hk. unfold loads. rewrite run_try, Hr.
  destruct r as [a|e].
  - destruct Hg as [-> Ha]. destruct (Hk a Ha) as (r2 & db2 & Hr2 & Ht2 & Hq2 & Hg2).
    exists r2, db2. split_and!; [done|done| |].
    + intros H. apply Hq2. intros i Hi. simpl. rewrite <- Nat.add_assoc. apply H. lia.
    + destruct r2; [|done]. destruct Hg2 as [-> ?]. split; [|done].
      unfold elapsed. simpl. by rewrite Nat.add_assoc.
  - eexists _, _. split; [done|]. split_and!; [done| |done].
    intros H. apply Hq. intros i Hi. apply H. lia.
Qed.

(** What the rows of the tables become, oldest first. *)
Record state_loaded (t : Tables) (st : BrokerState) : Prop := {
  sl_exchanges : st_Exchanges st ≡ₚ keys (t_exchanges t);
  sl_queues : queues_loaded t (st_Queues st);
  sl_deliveries : ∃ rows, st_Deliveries st = map delivery_state rows ∧
    rows ≡ₚ map_to_list (t_deliveries t) ∧
    Sorted Z.le ((λ row, dr_created_at row.2) <$> rows);
}.

Lemma lex_first {A B} `{EqDecision A} (R1 : relation A) (R2 : relation B) x y :
  Reflexive R1 → lex R1 R2 x y → R1 x.1 y.1.
Proof. intros Hr. unfold lex. case_decide as H; [by rewrite H|done]. Qed.

#[export] Instance lex_total {A B} `{EqDecision A} (R1 : relation A) (R2 : relation B)
  `{!Total R1, !Total R2} : Total (lex R1 R2).
Proof.
  intros x y. unfold lex. destruct (decide (x.1 = y.1)) as [Heq|Hne].
  - rewrite (decide_True (P := y.1 = x.1)) by done. apply (total R2).
  - rewrite (decide_False (P := y.1 = x.1)) by congruence. apply (total R1).
Qed.

#[export] Instance order_by_total {A B} (key : A → B) (R : relation B) `{!Total R} :
  Total (order_by key R).
Proof. intros x y. apply (total R). Qed.

Lemma delivery_rows_sorted `{!PgEnvOk P} t :
  Sorted Z.le ((λ row, dr_created_at row.2) <$> delivery_rows t).
Proof.
  unfold delivery_rows.
  apply (Sorted_fmap _ (order_by (λ row, (dr_created_at row.2, row.1)) (lex Z.le text_le)));
    [|apply Sorted_merge_sort; apply _].
  intros x y H. by apply (lex_first Z.le text_le) in H; [|apply _].
Qed.
End queries.

(** ** Statements and transactions *)

Section statements.
Context `{P : PgEnv}.

Lemma exec_stmt_ok s db :
  keeps s → db_ok db →
  ∃ r db', exec_stmt s db = Val (r, db') ∧ db_ok db'.
Proof.
  intros Hs Hdb. unfold exec_stmt. cbv zeta.
  destruct (s (now_at (db_time db)) (db_tables db)) as [text|[n t]] eqn:Hst;
    destruct (fault_at (db_time db)) as [|e|e]; eexists _, _; split; try done;
    by eapply Hs.
Qed.

Lemma tx_stmts_ok ss now time t :
  Forall keeps ss → tables_ok t →
  match (tx_stmts ss now time t).2 with inl _ => True | inr t' => tables_ok t' end.
Proof.
  intros Hss. revert time t. induction Hss as [|s ss Hs _ IH]; intros time t Ht;
    simpl; [done|].
  destruct (fault_at time); [|done|done].
  destruct (s now t) as [e|[n t1]] eqn:Hst; [done|].
  apply IH. by eapply Hs.
Qed.

Lemma transaction_ok ss db :
  Forall keeps ss → db_ok db →
  ∃ r db', transaction ss db = Val (r, db') ∧ db_ok db'.
Proof.
  intros Hss Hdb. unfold transaction. cbv zeta.
  pose proof (tx_stmts_ok ss (now_at (db_time db)) (S (db_time db)) (db_tables db)
                Hss Hdb) as Ht.
  destruct (fault_at (db_time db)); [|by eexists _, _..].
  destruct (tx_stmts _ _ _ _) as [time [e|t]]; simpl in *; [by eexists _, _|].
  destruct (fault_at time); by eexists _, _.
Qed.

(** The changes of a transaction: all of them, or none. *)
Lemma transaction_atomic ss db r db' :
  transaction ss db = Val (r, db') →
  (db_tables db' = db_tables db ∧ ∃ text, r = Err (StorageError text)) ∨
  (∃ time, tx_stmts ss (now_at (db_time db)) (S (db_time db)) (db_tables db)
           = (time, inr (db_tables db')) ∧
           (r = Ok tt ∨ ∃ text, r = Err (StorageError text))).
Proof.
  unfold transaction. cbv zeta.
  destruct (fault_at (db_time db)); [|intros [= <- <-]; left; eauto..].
  destruct (tx_stmts _ _ _ _) as [time [e|t]] eqn:Htx; [intros [= <- <-]; left; eauto|].
  destruct (fault_at time) eqn:Hf; intros [= <- <-]; [right|left|right]; simpl; eauto.
Qed.
End statements.

(** ** The repository keeps the constraints and never panics *)

Section calm.
Context `{P : PgEnv}.

Lemma calm_Exec s : keeps s → calm db_ok (Exec s).
Proof. intros Hs. apply calm_atomic. intros db Hdb. by apply exec_stmt_ok. Qed.

Lemma calm_Query {A} (f : Tables → outcome A) :
  (∀ t, ∃ a, f t = Val a) → calm db_ok (Query f).
Proof.
  intros Hf. apply calm_atomic. intros db Hdb.
  destruct (Hf (db_tables db)) as [a ->].
  destruct (fault_at (db_time db)); by eexists _, _.
Qed.

Hint Resolve calm_Exec calm_Query calm_ret calm_try : broker.

#[export] Instance postgres_calm : RepositoryCalm postgres db_ok.
Proof.
  split; intros; simpl; try (apply calm_try; [apply calm_Exec; auto with broker|];
                             intros; apply calm_ret).
  - apply calm_atomic. intros db Hdb. apply transaction_ok; [|done].
    constructor; [auto with broker|]. apply Forall_fmap, Forall_true.
    intros f. apply keeps_insert_filter.
  - apply calm_try; [apply calm_Exec; auto with broker|].
    intros tag. case_decide; apply calm_ret.
  - apply calm_bind; [by apply calm_atomic; intros db Hdb; eexists _, _|].
    intros id. apply calm_try; [apply calm_Exec; auto with broker|].
    intros. apply calm_ret.
  - apply calm_try; [apply calm_Query; intros t; eauto|]. intros xs.
    apply calm_try; [apply calm_Query; intros t|].
    { destruct (loadQueues_ok t) as (qs & Hqs & _). eauto. }
    intros qs. apply calm_try; [apply calm_Query; intros t; eauto|].
    intros ds. apply calm_ret.
Qed.
End calm.

(** ** A server to test on *)

(** A TEXT column takes no NUL character. *)
Fixpoint no_nul (s : string) : bool :=
  match s with
  | EmptyString => true
  | String a s => bool_decide (a ≠ Ascii.zero) && no_nul s
  end.

(** Strings ordered by their codes, a clock that counts statements, and chosen
    faults. *)
Definition demo_server (faults : nat → fault) : PgEnv := {|
  fault_at := faults;
  now_at := Z.of_nat;
  text_ok := no_nul;
  text_le s1 s2 := (encode s1 ≤ encode s2)%positive;
  text_le_dec s1 s2 := decide (encode s1 ≤ encode s2)%positive;
  dead_uuid_at n := String.concat "" (repeat "i" n);
|}.

Lemma demo_dead_uuid_length n :
  String.length (String.concat "" (repeat "i" n)) = n.
Proof.
  induction n as [|[|n] IH]; [done|done|].
  change (String.length ("i" +:+ String.concat "" (repeat "i" (S n))) = S (S n)).
  simpl. f_equal. exact IH.
Qed.

#[export] Instance demo_server_ok faults : PgEnvOk (demo_server faults).
Proof.
  split.
  - intros s1 s2 s3; simpl; lia.
  - intros s1 s2 H1 H2. simpl in *. apply (inj encode). lia.
  - intros s1 s2. simpl. lia.
  - intros n m H. simpl in H. rewrite <- (demo_dead_uuid_length n), H.
    apply demo_dead_uuid_length.
Qed.

(** A server that loses the statement [n]. *)
Definition lossy (n : nat) : nat → fault :=
  λ i, if decide (i = n) then FailBefore "connection lost" else NoFault.

Definition demo_pg_queue : Queue :=
  mkQueue "users" ["corp.users.*"; "corp.*.create"] true false 3 [] ∅ ∅ 1%positive.

(** An exchange with one queue and one delivery in flight. *)
Definition demo_db : DB :=
  let p : prog DB (result unit) :=
    pg_SaveExchange (P := demo_server (λ _, NoFault)) "events" ?;
    pg_SaveQueue (P := demo_server (λ _, NoFault)) "events" demo_pg_queue ?;
    pg_SaveReadyDelivery (P := demo_server (λ _, NoFault)) "events" "users"
      (mkDelivery "d1" (mkMessage [Byte.x68] "corp.users.create") "" 0) ?;
    pg_MarkInFlight (P := demo_server (λ _, NoFault)) "d1" "c1" 1 in
  match run p new_db with Val (_, db) => db | Panic => new_db end.

(** What [SaveQueue] makes of the tables when it goes through. *)
Definition queue_saved (x : string) (q : Queue) (t t' : Tables) : Prop :=
  ∃ row, t_queues t' = <[(x, q_Name q) := row]> (t_queues t) ∧
    t_filters t' = list_to_set ((λ f, (x, q_Name q, f)) <$> q_Filters q) ∪ t_filters t ∧
    t_exchanges t' = t_exchanges t ∧ t_deliveries t' = t_deliveries t ∧
    t_dead t' = t_dead t ∧
    match t_queues t !! (x, q_Name q) with
    | Some old => row = old
    | None => qr_durable row = q_IsDurable q ∧ qr_auto_delete row = q_IsAutoDelete q
              ∧ qr_max_attempts row = q_MaxAttempts q
    end.

Lemma filters_saved `{P : PgEnv} x n fs now time0 t time t' :
  tx_stmts (insert_filter x n <$> fs) now time0 t = (time, inr t') →
  t_queues t' = t_queues t ∧ t_exchanges t' = t_exchanges t ∧
  t_deliveries t' = t_deliveries t ∧ t_dead t' = t_dead t ∧
  t_filters t' = list_to_set ((λ f, (x, n, f)) <$> fs) ∪ t_filters t.
Proof.
  revert time0 t. induction fs as [|f fs IH]; intros time0 t H; csimpl in H.
  { simplify_eq. csimpl. split_and!; try done. set_solver. }
  destruct (fault_at time0); [|done|done]. unfold insert_filter in H at 1.
  destruct (negb _); [done|]. csimpl.
  case_decide as Hin.
  - apply IH in H as (-> & -> & -> & -> & ->). split_and!; try done. set_solver.
  - case_decide; [|done]. apply IH in H as (-> & -> & -> & -> & ->). simpl.
    split_and!; try done. set_solver.
Qed.

Lemma queue_saved_tx `{P : PgEnv} x q now time0 t time t' :
  tx_stmts (insert_queue x (q_Name q) (q_IsDurable q) (q_IsAutoDelete q) (q_MaxAttempts q)
            :: (insert_filter x (q_Name q) <$> q_Filters q)) now time0 t = (time, inr t') →
  queue_saved x q t t'.
Proof.
  intros Htx. unfold queue_saved. simpl in Htx. destruct (fault_at time0); [|done|done].
  unfold insert_queue in Htx. destruct (negb _); [done|]. do 2 (case_decide; [done|]).
  destruct (decide (is_Some (t_queues t !! (x, q_Name q)))) as [[old Hold]|Hnone].
  - apply filters_saved in Htx as (Hq & -> & -> & -> & ->). exists old.
    rewrite Hq, insert_id by done. rewrite Hold. by split_and!.
  - case_decide; [|done]. apply filters_saved in Htx as (Hq & -> & -> & -> & ->).
    simpl in *. apply eq_None_not_Some in Hnone. eexists. split; [exact Hq|].
    rewrite Hnone. by split_and!.
Qed.

Lemma run_SaveQueue `{P : PgEnv} x q db r db' :
  run (pg_SaveQueue x q) db = Val (r, db') →
  (db_tables db' = db_tables db ∧ ∃ text, r = Err (StorageError text)) ∨
  (queue_saved x q (db_tables db) (db_tables db') ∧
   (r = Ok tt ∨ ∃ text, r = Err (StorageError text))).
Proof.
  intros Hrun. unfold pg_SaveQueue in Hrun. rewrite run_atomic in Hrun.
  apply transaction_atomic in Hrun as [H|(time & Htx & H)]; [by left|right].
  split; [by eapply queue_saved_tx|]. done.
Qed.

Lemma run_LoadState `{P : PgEnv} `{!PgEnvOk P} db :
  ∃ r db', run pg_LoadState db = Val (r, db') ∧ db_tables db' = db_tables db ∧
    (quiet 3 db → is_ok r = true) ∧
    match r with
    | Ok st => state_loaded (db_tables db) st
    | Err err => ∃ text, err = StorageError text
    end.
Proof.
  assert (loads 3 db pg_LoadState (state_loaded (db_tables db)))
    as (r & db' & Hr & Ht & Hq & Hg).
  { apply (loads_try 1 2 _ _ _ (λ xs, xs ≡ₚ keys (t_exchanges (db_tables db)))).
    { eapply loads_query; [done|]. unfold exchange_rows, keys.
      by rewrite merge_sort_Permutation. }
    intros xs Hxs. destruct (loadQueues_ok (db_tables db)) as (qs & Hqs & Hload).
    apply (loads_try 1 1 _ _ _ (queues_loaded (db_tables db)));
      [by eapply loads_query|]. clear qs Hqs Hload. intros qs Hqs.
    apply (loads_try 1 0 _ _ _ (eq (map delivery_state (delivery_rows (db_tables db)))));
      [by eapply loads_query|]. intros ds <-.
    apply loads_ret. split; [done|done|]. exists (delivery_rows (db_tables db)).
    split_and!; [done|apply merge_sort_Permutation|apply delivery_rows_sorted]. }
  exists r, db'. split_and!; [done..|]. destruct r; [apply Hg|done].
Qed.

(** ** Properties *)

(** The database of the scenario keeps its constraints. *)
Lemma demo_db_ok : db_ok demo_db.
Proof.
  set (P := demo_server (λ _, NoFault)).
  assert (∀ A (p : prog DB A) db, calm db_ok p → straight p → db_ok db →
            ∃ a db', run p db = Val (a, db') ∧ db_ok db') as Hrun.
  { intros A p db Hp Hst Hdb. assert (Reflexive (λ _ _ : DB, True)) by done.
    destruct (wpc_run db_ok (λ _ _, True) (λ _ _, True) p
      (λ _ _, True) db Hst Hdb (Hp db)) as (a & db' & ? & ? & _). eauto. }
  edestruct Hrun as (a & db' & Hr & Hdb'); [| | |].
  4: { unfold demo_db. cbv zeta. rewrite Hr. exact Hdb'. }
  - apply calm_try; [apply (calm_SaveExchange (Repo := postgres))|]. intros _.
    apply calm_try; [apply (calm_SaveQueue (Repo := postgres))|]. intros _.
    apply calm_try; [apply (calm_SaveReadyDelivery (Repo := postgres))|]. intros _.
    apply (calm_MarkInFlight (Repo := postgres)).
  - unfold pg_SaveExchange, pg_SaveQueue, pg_SaveReadyDelivery, pg_MarkInFlight, Exec.
    straight_tac.
  - apply tables_ok_empty.
Qed.

(** C23: [SaveQueue] is all or nothing: whatever fails, either the tables are
    untouched and an error is reported, or the queue has its row (the old one if
    there was one) and every one of its filters, and nothing else has changed; the
    call reports success in the second case only. *)
Theorem save_queue_atomic (P : PgEnv) x q db r db' :
  run (pg_SaveQueue x q) db = Val (r, db') →
  (db_tables db' = db_tables db ∧ ∃ text, r = Err (StorageError text)) ∨
  (queue_saved x q (db_tables db) (db_tables db') ∧
   (r = Ok tt ∨ ∃ text, r = Err (StorageError text))).
Proof. apply run_SaveQueue. Qed.

(** The fourth statement, the first filter, is lost. *)
Lemma save_queue_atomic_witness :
  let P := demo_server (lossy 3) in
  let db := mkDB (mkTables {["events" := 0%Z]} ∅ ∅ ∅ ∅) 1 0 in
  ∃ r db', run (pg_SaveQueue "events" demo_pg_queue) db = Val (r, db') ∧
    is_ok r = false ∧ db_tables db' = db_tables db.
Proof.
  intros P db.
  destruct (run (pg_SaveQueue "events" demo_pg_queue) db) as [[r db']|] eqn:Hrun;
    [|vm_compute in Hrun; discriminate].
  exists r, db'. split; [reflexivity|].
  destruct (save_queue_atomic P "events" demo_pg_queue db r db' Hrun)
    as [[Ht [text ->]]|[(row & Hq & _) _]]; [split; [reflexivity|exact Ht]|exfalso].
  vm_compute in Hrun. injection Hrun as <- <-.
  apply (f_equal (lookup ("events", "users"))) in Hq. vm_compute in Hq. discriminate.
Defined.

(** C22: loading returns exactly what the tables hold: every exchange, every queue
    once with its flags and each of its filters once, every delivery - ready or in
    flight - with its message and attempts and without an owner, oldest first. It
    changes nothing, and it succeeds when its three queries do. *)
Theorem load_state_exact (P : PgEnv) db :
  PgEnvOk P →
  ∃ r db', run pg_LoadState db = Val (r, db') ∧ db_tables db' = db_tables db ∧
    (quiet 3 db → is_ok r = true) ∧
    match r with
    | Ok st => state_loaded (db_tables db) st
    | Err err => ∃ text, err = StorageError text
    end.
Proof. intros HP. apply run_LoadState. Qed.

Lemma load_state_exact_witness :
  let P := demo_server (λ _, NoFault) in
  ∃ st db', run pg_LoadState demo_db = Val (Ok st, db') ∧
    state_loaded (db_tables demo_db) st ∧
    st_Deliveries st = [mkDeliveryState "events" "users"
      (mkDelivery "d1" (mkMessage [Byte.x68] "corp.users.create") "" 1)].
Proof.
  intros P.
  destruct (load_state_exact P demo_db (demo_server_ok _)) as (r & db' & Hrun & _ & _ & H).
  destruct r as [st|e]; [|vm_compute in Hrun; discriminate].
  exists st, db'. split; [exact Hrun|]. split; [exact H|].
  vm_compute in Hrun. injection Hrun as <- _. reflexivity.
Defined.
