(* ===== verification/ServerSafety.v ===== *)
(** * The whole server: safety of every interleaving, authentication, statuses

    Any number of calls, with any metadata, in progress at once. *)

From S2P Require Import Prelude Errors Process Routing CoreQueue CoreExchange.
From S2P Require Import CoreSafety Scenario AppConfig Repository Service Transport.
From S2P Require Import ServiceSafety Database Postgres PostgresSpec.

Section handlers.
Context `{E : GoEnv} {R : Type} {Repo : Repository R}.
Context {J : R → Prop} `{!RepositoryCalm Repo J}.
Context (limits : LimitsConfig) (rootToken : string).
Context (send : DeliveryMessage → prog (World R) (option status)).

Local Abbreviation wspec := (spec (world_wf J) world_le).

(** Sending does not touch the broker. *)
Context (Hsend : ∀ m w, wspec (send m) w (λ _ _, True)).

Lemma wspec_reply {A B} (p : prog (World R) (result A)) (k : A → prog (World R) (reply B))
    w P :
  wspec p w P →
  (∀ a w', world_le w w' → P (Ok a) w' → wspec (k a) w' (λ _ _, True)) →
  wspec (reply_try p k) w (λ _ _, True).
Proof.
  intros Hp Hk. eapply spec_bind; [apply _|exact Hp|].
  intros [a|e] w' Hle Ha; [by apply Hk|by apply spec_ret; [apply _|]].
Qed.

Lemma wspec_reply_tt {A B} (p : prog (World R) (result A)) (b : B) w :
  wspec p w (λ _ _, True) → wspec (reply_try p (λ _, Ret (inr b))) w (λ _ _, True).
Proof. intros Hp. eapply wspec_reply; [exact Hp|]. intros. apply wspec_ret. Qed.

Lemma wspec_Fetch x q c ms w :
  wspec (BrokerHandler.Fetch limits x q c ms) w (λ _ _, True).
Proof. eapply wspec_reply; [apply wspec_BlockingFetch|]. intros. apply wspec_ret. Qed.

Lemma wspec_stream x q c w :
  wspec (BrokerHandler.StreamFetch limits send x q c) w (λ _ _, True).
Proof.
  eapply spec_bind; [apply _|apply wspec_AddConsumer|].
  intros [_|e] w1 _ _; [|apply wspec_ret].
  apply (spec_bind _ _ _ _ _ (λ _ _, True)).
  - apply spec_loop; [apply _|]. intros w2 _.
    eapply spec_bind; [apply _|apply wspec_StreamFetch|].
    intros [d|e] w3 _ _; [|by apply spec_ret; [apply _|]; apply wspec_ret].
    eapply spec_mono; [apply Hsend|]. intros [err|] w4 _ _; [apply wspec_ret|done].
  - intros err w2 _ _. eapply spec_bind; [apply _|apply wspec_DisconnectConsumer|].
    intros _ w3 _ _. apply wspec_ret.
Qed.

(** The interceptor runs the handler or answers at once. *)
Lemma wspec_unary {A} md (h : prog (World R) (reply A)) w :
  wspec h w (λ _ _, True) →
  wspec (AuthInterceptor.Unary rootToken md h) w (λ _ _, True).
Proof.
  intros Hh. unfold AuthInterceptor.Unary.
  destruct (AuthInterceptor.authorize rootToken md); [apply wspec_ret|done].
Qed.

Lemma wspec_serve call w :
  wspec (g_prog (serve limits rootToken send call)) w (λ _ _, True).
Proof.
  destruct call as [md req].
  destruct req; cbn [serve g_prog]; try apply wspec_unary;
    try (apply wspec_reply_tt; auto using wspec_DeleteExchange, wspec_DeleteQueue,
           wspec_Publish, wspec_Ack, wspec_NAck, wspec_AddConsumer,
           wspec_DisconnectConsumer).
  - eapply wspec_reply; [apply wspec_CreateExchange|]. intros e w1 _ He.
    eapply spec_bind; [apply _| |intros; apply wspec_ret].
    apply wspec_core, cspec_step. intros s Hle Hs.
    apply (step_read_exchange _ _ (λ _ _, True)); [done| |done].
    by eapply valid_exchange_le.
  - eapply wspec_reply; [apply wspec_RegisterQueue|]. intros r w1 _ Hr.
    eapply spec_bind; [apply _|by apply wspec_core, cspec_read_queue|].
    intros. apply wspec_ret.
  - apply wspec_Fetch.
  - unfold AuthInterceptor.Stream.
    destruct (AuthInterceptor.authorize rootToken md); [apply wspec_ret|].
    apply wspec_stream.
Qed.
End handlers.

(** ** All calls together *)

Lemma serving_safe (E : GoEnv) R (Repo : Repository R) (J : R → Prop)
    limits rootToken send w calls c :
  RepositoryCalm Repo J →
  (∀ m w, spec (world_wf J) world_le (send m) w (λ _ _, True)) →
  core_wf (w_core w) → J (w_repo w) →
  rtc pool_step (serving limits rootToken send w calls) c →
  ∃ w' ts, c = Running w' ts ∧ core_wf (w_core w') ∧ J (w_repo w').
Proof.
  intros HR Hsend Hw HJ Hsteps.
  pose proof (pool_safe (world_wf J) (λ _, world_le) (λ _, world_le)
                ltac:(by intros) _ _ Hsteps) as H.
  destruct c as [w' ts|]; [exists w', ts; split; [done|]; apply H|exfalso; apply H];
    (split; [by split|]);
    intros i g Hi; apply list_lookup_fmap_Some in Hi as (call & -> & _);
    exists w; (split; [reflexivity|]);
    (eapply wpc_mono; [|by apply wspec_serve]); done.
Qed.

(** ** Properties *)

(** C1: however many calls are in progress, with whatever metadata, and however
    their critical sections, storage statements and waits interleave, no goroutine
    panics (no nil or dangling pointer, no channel closed twice), the shared
    memory stays well formed (every name is bound to a queue or exchange of that
    name, no queue belongs to two exchanges or names, registered configurations
    are valid, every queue waits on an open channel of its own), and the storage
    keeps its invariant. *)
Theorem server_never_crashes (E : GoEnv) R (Repo : Repository R) (J : R → Prop)
    limits rootToken send w calls c :
  RepositoryCalm Repo J →
  (∀ m w, spec (world_wf J) world_le (send m) w (λ _ _, True)) →
  core_wf (w_core w) → J (w_repo w) →
  rtc pool_step (serving limits rootToken send w calls) c →
  ∃ w' ts, c = Running w' ts ∧ core_wf (w_core w') ∧ J (w_repo w').
Proof. intros HR Hsend Hw HJ Hsteps. by eapply serving_safe. Qed.

(** A server with the scenario's core and database; sends never fail. *)
Definition demo_limits : LimitsConfig := mkLimits 1048576 255 32 32.

Definition demo_send (m : DeliveryMessage) : prog (World DB) (option status) := Ret None.

Definition demo_metadata : metadata :=
  Some (λ key, if decide (key = rootTokenHeader) then ["secret"] else []).

Definition demo_world : World DB := mkWorld demo_busy demo_db.

Definition demo_serving (calls : list request) : config (World DB) :=
  serving (E := demo_env) (Repo := postgres (P := demo_server (λ _, NoFault)))
    demo_limits "secret" demo_send demo_world ((λ r, (demo_metadata, r)) <$> calls).

(** Goroutine [i] takes [n] steps. *)
Definition steps (i n : nat) : list (nat * choice) := repeat (i, Go) n.

(** Whether every step of a schedule can be taken. *)
Definition runnable {S} (sched : list (nat * choice)) (c : config S) : bool :=
  match run_schedule sched c with Some _ => true | None => false end.

Lemma schedule_runs {S} sched (c : config S) :
  runnable sched c = true → ∃ c', run_schedule sched c = Some c'.
Proof. unfold runnable. destruct (run_schedule sched c); [eauto|done]. Qed.

(** A publication in the middle of which the queue's consumer leaves. *)
Definition demo_calls : list request :=
  [PublishRequest "events" "corp.users.create" [Byte.x68];
   DisconnectConsumerRequest "events" "audit" "c3"].

Definition demo_schedule : list (nat * choice) :=
  steps 0 4 ++ steps 1 7 ++ steps 0 5 ++ steps 1 1.

Lemma server_never_crashes_witness :
  ∃ w ts, run_schedule demo_schedule (demo_serving demo_calls) = Some (Running w ts)
          ∧ core_wf (w_core w) ∧ db_ok (w_repo w).
Proof.
  destruct (schedule_runs demo_schedule (demo_serving demo_calls)) as [c Hc];
    [vm_compute; reflexivity|].
  destruct (server_never_crashes demo_env DB _ db_ok demo_limits "secret" demo_send
    demo_world ((λ r, (demo_metadata, r)) <$> demo_calls) c
    (postgres_calm (P := demo_server (λ _, NoFault)))) as (w & ts & -> & Hw & Hdb).
  - intros m w. apply wspec_ret.
  - apply demo_busy_wf.
  - apply demo_db_ok.
  - apply (run_schedule_steps demo_schedule). exact Hc.
  - exists w, ts. split; [exact Hc|]. split; [exact Hw|exact Hdb].
Defined.
