(* ===== verification/Hazards.v ===== *)
(** * Interleavings and failures that lose something

    Concrete schedules and a lost transaction, run on the scenario's server ([Lost]
    has the lost statements of any server).  Each shows that a property one might expect of the broker does not hold, and why
    the theorems of the development are stated as they are. *)

From S2P Require Import Prelude Errors Process Routing CoreQueue CoreExchange.
From S2P Require Import CoreSafety Scenario AppConfig Repository Service Transport.
From S2P Require Import ServiceSafety Database Postgres PostgresSpec ServerSafety.

(** The world in which a schedule ends. *)
Definition end_of (sched : list (nat * choice)) (c : config (World DB)) : World DB :=
  match run_schedule sched c with
  | Some (Running w _) => w
  | _ => demo_world
  end.

(** A call that has been answered without an error. *)
Definition answered {A} (a : A) : goroutine (World DB) :=
  Goroutine (g_result := reply A) (Ret (inr a)).

Definition queue_named (x n : string) (w : World DB) : option qref :=
  e ← co_Exchanges (w_core w) !! x;
  ex ← co_eheap (w_core w) !! e;
  ex_Queues ex !! n.

(** ** Auto-delete against a new consumer *)

(** The last consumer of an auto-delete queue leaves while another one is being
    added, between the test [!queue.HasConsumers()] and the deletion. *)
Definition auto_delete_calls : list request :=
  [DisconnectConsumerRequest "events" "audit" "c3";
   AddConsumerRequest "events" "audit" "c4"].

Definition auto_delete_schedule : list (nat * choice) :=
  steps 0 6 ++ steps 1 3 ++ steps 0 2.

(** C38: a hazard: both calls succeed, and the new consumer is registered at a queue that no
    longer has a name. *)
Theorem auto_delete_race :
  let w := end_of auto_delete_schedule (demo_serving auto_delete_calls) in
  rtc pool_step (demo_serving auto_delete_calls) (Running w [answered tt; answered tt]) ∧
  queue_named "events" "audit" w = None ∧
  q_Consumers <$> co_qheap (w_core w) !! demo_audit = Some {["c4"]}.
Proof.
  intros w. split; [apply (run_schedule_steps auto_delete_schedule)|split];
    vm_compute; reflexivity.
Qed.

(** ** Deleting a queue against registering it again *)

Definition re_register_calls : list request :=
  [DeleteQueueRequest "events" "users";
   RegisterQueueRequest "events" "users" true false ["corp.users.*"] 3].

(** The registration falls between the deletion in memory and the one in the
    database: its own rows are already there, and are then deleted. *)
Definition re_register_schedule : list (nat * choice) :=
  steps 0 4 ++ steps 1 5 ++ steps 0 1.

Definition quiet_server : PgEnv := demo_server (λ _, NoFault).

Definition calm_world : World DB := mkWorld demo_core demo_db.

Definition re_register_start : config (World DB) :=
  serving (Repo := postgres (P := quiet_server)) demo_limits "secret" demo_send
    calm_world ((λ r, (demo_metadata, r)) <$> re_register_calls).

(** C37: a hazard: both calls succeed; the queue is there, durable, and has no row, so that a
    message for it can no longer be published. *)
Theorem re_register_race :
  let w := end_of re_register_schedule re_register_start in
  rtc pool_step re_register_start
    (Running w [answered tt; answered ("events", "users")]) ∧
  (∃ r, queue_named "events" "users" w = Some r ∧
        q_IsDurable <$> co_qheap (w_core w) !! r = Some true) ∧
  t_queues (db_tables (w_repo w)) !! ("events", "users") = None ∧
  fst <$> (match run (BrokerService.Publish (Repo := postgres (P := quiet_server))
                    demo_limits "events" "corp.users.create" [Byte.x68]) w with
        | Val r => Some r | Panic => None end)
  = Some (Err (StorageError "deliveries_exchange_name_queue_name_fkey")).
Proof.
  intros w. split; [apply (run_schedule_steps re_register_schedule);
                    vm_compute; reflexivity|].
  split; [|split; vm_compute; reflexivity].
  exists 4%positive. split; vm_compute; reflexivity.
Qed.

(** ** A registration that failed in storage *)

(** [SaveQueue] fails and the caller gets an error, but the queue is registered in
    memory; until the registration is repeated it has no row. *)
Theorem unsaved_queue :
  ∃ w, run (BrokerService.RegisterQueue (Repo := postgres (P := demo_server (lossy 8)))
              demo_limits "events" "new" true false 0 ["a"]) calm_world
       = Val (Err (StorageError "connection lost"), w) ∧
  queue_named "events" "new" w = Some 4%positive ∧
  t_queues (db_tables (w_repo w)) !! ("events", "new") = None.
Proof.
  eexists. split; [vm_compute; reflexivity|]. split; vm_compute; reflexivity.
Qed.
