(* ===== verification/FrontEnd.v ===== *)
(** * Properties of the front end: authentication, statuses, conversions *)

From S2P Require Import Prelude Errors Process Routing CoreQueue CoreExchange.
From S2P Require Import AppConfig Repository Service Transport Scenario Database Postgres.
From S2P Require Import PostgresSpec ServerSafety.

(** The goroutine of a call that goes through: the handler of its method, with the
    fields of the request. *)
Definition handler `{E : GoEnv} {R} `{Repo : Repository R} (limits : LimitsConfig)
    (send : DeliveryMessage → prog (World R) (option status)) (req : request) :
    goroutine (World R) :=
  match req with
  | CreateExchangeRequest n => Goroutine (BrokerHandler.CreateExchange n)
  | DeleteExchangeRequest n => Goroutine (BrokerHandler.DeleteExchange n)
  | RegisterQueueRequest x q d a f m =>
      Goroutine (BrokerHandler.RegisterQueue limits x q d a f m)
  | DeleteQueueRequest x q => Goroutine (BrokerHandler.DeleteQueue x q)
  | PublishRequest x k p => Goroutine (BrokerHandler.Publish limits x k p)
  | FetchRequest x q c ms => Goroutine (BrokerHandler.Fetch limits x q c ms)
  | SFetchRequest x q c => Goroutine (BrokerHandler.StreamFetch limits send x q c)
  | AckRequest x q d c => Goroutine (BrokerHandler.Ack x q d c)
  | NackRequest x q d c => Goroutine (BrokerHandler.Nack x q d c)
  | AddConsumerRequest x q c => Goroutine (BrokerHandler.AddConsumer x q c)
  | DisconnectConsumerRequest x q c =>
      Goroutine (BrokerHandler.DisconnectConsumer x q c)
  end.

(** C30: a call goes through exactly when its metadata has the root token as the
    first value of the header, and its goroutine is then the handler of its method
    with the fields of the request and nothing else; any other call is answered
    "unauthenticated" without a single step on the broker or its storage, whatever it asks for. *)
Theorem authentication (E : GoEnv) R (Repo : Repository R) limits rootToken send md req :
  (AuthInterceptor.authorize rootToken md = None ↔
     ∃ f rest, md = Some f ∧ f rootTokenHeader = rootToken :: rest) ∧
  (AuthInterceptor.authorize rootToken md = None →
     serve limits rootToken send (md, req) = handler limits send req) ∧
  (AuthInterceptor.authorize rootToken md ≠ None →
     let err := mkStatus Unauthenticated "invalid root token" in
     (∃ A, serve limits rootToken send (md, req) =
           Goroutine (g_result := reply A) (Ret (inl err))) ∨
     serve limits rootToken send (md, req) =
       Goroutine (g_result := option status) (Ret (Some err))).
Proof.
  split; [|split].
  - unfold AuthInterceptor.authorize. destruct md as [f|].
    + destruct (f rootTokenHeader) as [|v rest] eqn:Hf.
      * split; [done|]. intros (f' & rest & [= <-] & H). congruence.
      * case_decide as Hv; split; try done.
        -- intros (f' & rest' & [= <-] & H). congruence.
        -- intros _. exists f, rest. split; [done|].
           destruct (decide (v = rootToken)); congruence.
    + split; [done|]. by intros (f & rest & ? & _).
  - intros Hok. destruct req; cbn [serve handler];
      unfold AuthInterceptor.Unary, AuthInterceptor.Stream; by rewrite Hok.
  - intros Hno err.
    assert (AuthInterceptor.authorize rootToken md = Some err) as Ha.
    { revert Hno. unfold AuthInterceptor.authorize. destruct md as [f|]; [|done].
      destruct (f rootTokenHeader); [done|]. by case_decide. }
    destruct req; cbn [serve]; unfold AuthInterceptor.Unary, AuthInterceptor.Stream;
      rewrite Ha; solve [left; eexists; reflexivity | right; reflexivity].
Qed.

Lemma authentication_witness :
  AuthInterceptor.authorize "secret" None ≠ None ∧
  ∃ A, serve (E := demo_env) (Repo := postgres (P := demo_server (λ _, NoFault)))
         demo_limits "secret" demo_send (None, DeleteExchangeRequest "events")
       = Goroutine (g_result := reply A)
           (Ret (inl (mkStatus Unauthenticated "invalid root token"))).
Proof.
  split; [discriminate|].
  destruct (proj2 (proj2 (authentication demo_env DB (postgres (P := demo_server (λ _, NoFault)))
    demo_limits "secret" demo_send None (DeleteExchangeRequest "events"))))
    as [H|H]; [discriminate|exact H|].
  exists unit. reflexivity.
Defined.

(** The class of an error, as the broker's clients see it. *)
Definition caller_error (err : error) : Prop :=
  match err with StorageError _ | CtxError _ => False | _ => True end.

(** Every error that the broker itself makes has a status of its own kind -
    only storage and cancellation errors are "internal" -, and the message of a
    status is the text of the error. *)
Theorem map_error_internal err :
  (s_code (mapError err) = Internal ↔ ¬ caller_error err) ∧
  s_message (mapError err) = Error_text err.
Proof.
  assert (∀ c : code, c ≠ Internal → c = Internal ↔ ¬ True) as Hno by tauto.
  destruct err; (split; [|reflexivity]); try (apply Hno; discriminate);
    (split; [by intros _ []|reflexivity]).
Qed.

(** C36: the timeout of [Fetch] is the requested one, to the nanosecond, for every
    request from -9223372036854 to 9223372036854 milliseconds (292 years); beyond
    that it wraps around, and a longer request may get a timeout that is not
    positive, so that [Fetch] does not wait at all. *)
Theorem fetch_timeout_range ms :
  in_int64 ms →
  in_int64 (timeout_of ms) ∧
  (timeout_of ms = ms * 1000000 ↔ -9223372036854 ≤ ms ≤ 9223372036854)%Z ∧
  (timeout_of 9223372036855 < 0)%Z.
Proof.
  intros Hms. split; [apply int64_range|]. split; [|vm_compute; reflexivity].
  split.
  - intros H. pose proof (int64_range (ms * 1000000)) as Hr.
    unfold timeout_of in H. rewrite H in Hr. unfold in_int64 in Hr. lia.
  - intros H. apply int64_id. unfold in_int64. lia.
Qed.

Lemma fetch_timeout_range_witness :
  in_int64 5000 ∧ timeout_of 5000 = 5000000000%Z.
Proof.
  split; [unfold in_int64; lia|].
  apply (proj1 (proj2 (fetch_timeout_range 5000 ltac:(unfold in_int64; lia)))). lia.
Defined.
