(* ===== verification/ConfigSpec.v ===== *)
(** * Properties of the configuration *)

From S2P Require Import Prelude AppConfig.

Lemma Atoi_range s z : Atoi s = Some z → in_int64 z.
Proof.
  unfold Atoi. destruct (match s with String _ _ => _ | _ => _ end) as [n|]; [|done].
  simpl. case_decide; [|done]. by intros [= <-].
Qed.

(** What an integer variable says: its fallback when unset or empty, a positive
    integer otherwise. *)
Definition setting (env : environment) (key : string) (fallback z : Z) : Prop :=
  match env key with
  | None => z = fallback
  | Some v => if decide (v = "") then z = fallback else Atoi v = Some z ∧ (0 < z)%Z
  end.

(** What is wrong with it, if anything. *)
Definition complaint (env : environment) (key : string) : option config_error :=
  v ← env key;
  if decide (v = "") then None
  else match Atoi v with
       | None => Some (NotAPositiveInteger key)
       | Some z => if decide (z ≤ 0)%Z then Some (NotGreaterThanZero key) else None
       end.

Lemma getPositiveIntEnv_spec env key fallback :
  match getPositiveIntEnv env key fallback with
  | inl e => complaint env key = Some e
  | inr z => complaint env key = None ∧ setting env key fallback z
  end.
Proof.
  unfold getPositiveIntEnv, lookupEnv, complaint, setting.
  destruct (env key) as [v|]; [|done]. csimpl. case_decide; [done|].
  destruct (Atoi v) as [z|] eqn:Hz; [|done]. case_decide; [done|].
  split; [done|]. split; [done|lia].
Qed.

Lemma setting_pos env key fallback z :
  (0 < fallback)%Z → in_int64 fallback → setting env key fallback z →
  (0 < z)%Z ∧ in_int64 z.
Proof.
  unfold setting. destruct (env key) as [v|]; [|by intros ?? ->].
  case_decide; [by intros ?? ->|]. intros _ _ [Hz Hp]. split; [done|by eapply Atoi_range].
Qed.

(** Reads the next variable of a loader. *)
Ltac next_setting key z :=
  match goal with
  | |- context [getPositiveIntEnv ?env key ?fb] =>
      let H := fresh "H" in
      pose proof (getPositiveIntEnv_spec env key fb) as H;
      destruct (getPositiveIntEnv env key fb) as [?|z];
      [|let H1 := fresh "Hno" in let H2 := fresh "Hset" in destruct H as [H1 H2]]
  end.

(** The complaints seen so far decide which one comes first. *)
Ltac use_complaints :=
  repeat match goal with H : complaint _ _ = _ |- _ => rewrite H; clear H end.

(** The variables of [Load], in the order in which it reads them. *)
Definition first_complaint (env : environment) : option config_error :=
  let token :=
    match env "ROOT_TOKEN" with
    | Some v => if decide (v = "") then Some RootTokenRequired else None
    | None => Some RootTokenRequired
    end in
  head (omap id
    [complaint env "DB_CONNECT_RETRIES"; complaint env "DB_CONNECT_RETRY_DELAY_MS";
     token; complaint env "MAX_MESSAGE_SIZE"; complaint env "MAX_ROUTING_KEY_LENGTH";
     complaint env "MAX_QUEUE_FILTERS"; complaint env "MAX_IN_FLIGHT"]).

(** What a loaded configuration guarantees to the rest of the program. *)
Record config_loaded (env : environment) (c : Config) : Prop := {
  cl_retries : setting env "DB_CONNECT_RETRIES" 5 (ConnectRetries (cfg_DB c));
  cl_delay : ∃ ms, setting env "DB_CONNECT_RETRY_DELAY_MS" 1000 ms ∧
    RetryDelay (cfg_DB c) = milliseconds ms;
  cl_token : env "ROOT_TOKEN" = Some (RootToken (cfg_Auth c)) ∧
    RootToken (cfg_Auth c) ≠ "";
  cl_message : setting env "MAX_MESSAGE_SIZE" 1048576 (MaxMessageSize (cfg_Limits c));
  cl_key : setting env "MAX_ROUTING_KEY_LENGTH" 255 (MaxRoutingKeyLength (cfg_Limits c));
  cl_filters : setting env "MAX_QUEUE_FILTERS" 32 (MaxQueueFilters (cfg_Limits c));
  cl_in_flight : setting env "MAX_IN_FLIGHT" 32 (MaxInFlight (cfg_Limits c));
}.

Lemma Load_spec env :
  match Load env with
  | inl e => first_complaint env = Some e
  | inr c =>
      first_complaint env = None ∧ config_loaded env c ∧
      Forall (λ z, (0 < z)%Z ∧ in_int64 z)
        [ConnectRetries (cfg_DB c); MaxMessageSize (cfg_Limits c);
         MaxRoutingKeyLength (cfg_Limits c); MaxQueueFilters (cfg_Limits c);
         MaxInFlight (cfg_Limits c)]
  end.
Proof.
  unfold Load, loadDBConfig, loadLimitsConfig, loadAuthConfig, lookupEnv, first_complaint.
  cbv [mbind cfg_bind mret cfg_ret].
  next_setting "DB_CONNECT_RETRIES" retries; [by use_complaints|].
  next_setting "DB_CONNECT_RETRY_DELAY_MS" delay; [by use_complaints|].
  destruct (env "ROOT_TOKEN") as [token|] eqn:Htoken; [|by use_complaints].
  destruct (decide (token = "")) as [|Hne]; [by use_complaints|].
  next_setting "MAX_MESSAGE_SIZE" bytes; [by use_complaints|].
  next_setting "MAX_ROUTING_KEY_LENGTH" len; [by use_complaints|].
  next_setting "MAX_QUEUE_FILTERS" filters; [by use_complaints|].
  next_setting "MAX_IN_FLIGHT" flight; [by use_complaints|].
  split; [by use_complaints|]. split.
  - split; simpl; try done. by exists delay.
  - unfold defaultMaxMessageSize, defaultMaxRoutingKeyLength, defaultMaxQueueFilters,
      defaultMaxInFlight in *.
    repeat constructor; simpl;
      match goal with
      | H : setting _ _ _ ?z |- (0 < ?z)%Z => eapply setting_pos; [| |exact H]
      | H : setting _ _ _ ?z |- (- _ ≤ ?z)%Z => eapply setting_pos; [| |exact H]
      | H : setting _ _ _ ?z |- (?z < _)%Z => eapply setting_pos; [| |exact H]
      end; unfold in_int64; lia.
Qed.

(** C33: loading fails with the first complaint, in the order in which the
    variables are read, and succeeds when there is none; then the root token is
    not empty, every setting is the given or the default one, and all limits and
    the number of connection attempts are positive machine integers. *)
Theorem load_config env :
  match Load env with
  | inl e => first_complaint env = Some e
  | inr c =>
      first_complaint env = None ∧ config_loaded env c ∧
      Forall (λ z, (0 < z)%Z ∧ in_int64 z)
        [ConnectRetries (cfg_DB c); MaxMessageSize (cfg_Limits c);
         MaxRoutingKeyLength (cfg_Limits c); MaxQueueFilters (cfg_Limits c);
         MaxInFlight (cfg_Limits c)]
  end.
Proof. apply Load_spec. Qed.

(** [milliseconds] is exact for the delays that fit, about 292 years. *)
Lemma milliseconds_exact ms :
  (0 ≤ ms ≤ 9223372036854)%Z → milliseconds ms = (ms * 1000000)%Z.
Proof.
  intros H. unfold milliseconds. rewrite (int64_id ms) by (unfold in_int64; lia).
  apply int64_id. unfold in_int64. lia.
Qed.
