(* ===== verification/Mirror.v ===== *)
(** * What is durable: one abstract state for memory and tables

    The durable part of the broker - its exchanges, its durable queues with their
    configuration, and the letters in them - as the tables hold it ([abs_of]) and
    as memory shows it ([shows]).  The changes that the calls make to it are
    operations on the abstract state; this file proves them for the statements of
    the repository. *)

From S2P Require Import Prelude Errors Process Routing CoreQueue QueueSpec.
From S2P Require Import CoreExchange CoreSafety ExchangeSpec Repository Database Postgres.
From S2P Require Import ServiceSafety PostgresSpec.

(** ** The abstract state *)

Record DurableQueue : Type := mkDurable {
  dq_auto_delete : bool;
  dq_max_attempts : Z;
  dq_filters : gset string;
}.

(** A delivery in a durable queue: where it is, and who holds it ([None] when it
    is ready). *)
Record Letter : Type := mkLetter {
  lt_queue : string * string;
  lt_message : Message;
  lt_attempts : Z;
  lt_owner : option string;
}.

Record Abs : Type := mkAbs {
  a_exchanges : gset string;
  a_queues : gmap (string * string) DurableQueue;
  a_letters : gmap string Letter;
}.

Lemma abs_eq a b :
  a_exchanges a = a_exchanges b → a_queues a = a_queues b → a_letters a = a_letters b →
  a = b.
Proof. destruct a, b; simpl. congruence. Qed.

(** ** Its operations *)

Definition ab_create (x : string) (a : Abs) : Abs :=
  mkAbs ({[x]} ∪ a_exchanges a) (a_queues a) (a_letters a).

Definition ab_drop_exchange (x : string) (a : Abs) : Abs :=
  mkAbs (a_exchanges a ∖ {[x]}) (filter (λ kq, kq.1.1 ≠ x) (a_queues a))
    (filter (λ il, (lt_queue il.2).1 ≠ x) (a_letters a)).

Definition ab_register (k : string * string) (dq : DurableQueue) (a : Abs) : Abs :=
  mkAbs (a_exchanges a)
    (match a_queues a !! k with Some _ => a_queues a | None => <[k := dq]> (a_queues a) end)
    (a_letters a).

Definition ab_drop_queue (k : string * string) (a : Abs) : Abs :=
  mkAbs (a_exchanges a) (delete k (a_queues a))
    (filter (λ il, lt_queue il.2 ≠ k) (a_letters a)).

Definition ab_set (id : string) (l : Letter) (a : Abs) : Abs :=
  mkAbs (a_exchanges a) (a_queues a) (<[id := l]> (a_letters a)).

Definition ab_remove (id : string) (a : Abs) : Abs :=
  mkAbs (a_exchanges a) (a_queues a) (delete id (a_letters a)).

(** Nobody holds the letter any more. *)
Definition released (l : Letter) : Letter :=
  mkLetter (lt_queue l) (lt_message l) (lt_attempts l) None.

Definition ab_release (id : string) (a : Abs) : Abs :=
  mkAbs (a_exchanges a) (a_queues a) (alter released id (a_letters a)).

(** ** The tables *)

Definition letter_of (row : DeliveryRow) : Letter :=
  mkLetter (dr_queue row) (mkMessage (dr_payload row) (dr_routing_key row))
    (dr_attempts row)
    (match dr_status row with ready => None | in_flight => dr_consumer_id row end).

Definition durable_of (t : Tables) (k : string * string) (row : QueueRow) : DurableQueue :=
  mkDurable (qr_auto_delete row) (qr_max_attempts row) (list_to_set (filters_of k t)).

Definition abs_of (t : Tables) : Abs :=
  mkAbs (dom (t_exchanges t))
    (map_imap (λ k row, Some (durable_of t k row)) (t_queues t))
    (letter_of <$> t_deliveries t).

Lemma abs_queue t k :
  a_queues (abs_of t) !! k = durable_of t k <$> t_queues t !! k.
Proof. simpl. rewrite map_lookup_imap. by destruct (t_queues t !! k). Qed.

Lemma abs_letter t id : a_letters (abs_of t) !! id = letter_of <$> t_deliveries t !! id.
Proof. simpl. apply lookup_fmap. Qed.

(** Only durable queues have rows, a delivery in flight has a holder, and an id that
    was stored is a text that can be stored. *)
Record rows_good `{P : PgEnv} (t : Tables) : Prop := {
  rd_queue k row : t_queues t !! k = Some row → qr_durable row = true;
  rd_owner id row : t_deliveries t !! id = Some row → dr_status row = in_flight →
    is_Some (dr_consumer_id row);
  rd_text id : is_Some (t_deliveries t !! id) → text_ok id = true;
}.

Section statements.
Context `{P : PgEnv}.

(** A statement has the effect [f] on the abstract state. *)
Definition effect (s : stmt) (f : Abs → Abs) : Prop := ∀ now t n t',
  tables_ok t → rows_good t → s now t = inr (n, t') →
  abs_of t' = f (abs_of t) ∧ rows_good t'.

Lemma filters_of_ext k t t' :
  (∀ f, (k, f) ∈ t_filters t ↔ (k, f) ∈ t_filters t') →
  (list_to_set (filters_of k t) : gset string) = list_to_set (filters_of k t').
Proof.
  intros H. apply set_eq. intros f. by rewrite !elem_of_list_to_set, !elem_of_filters_of.
Qed.

Lemma effect_insert_exchange x : effect (insert_exchange x) (ab_create x).
Proof.
  intros now t n t' Ht [Rq Ro Rx] H. unfold insert_exchange in H.
  repeat case_match; simplify_eq.
  - split; [|done]. apply abs_eq; [|done|done]. simpl.
    assert (x ∈ dom (t_exchanges t')) by by apply elem_of_dom. set_solver.
  - split; [|by split]. apply abs_eq; [|done|done]. simpl. by rewrite dom_insert_L.
Qed.

Lemma effect_delete_exchange x : effect (delete_exchange x) (ab_drop_exchange x).
Proof.
  intros now t n t' Ht [Rq Ro Rx] H. unfold delete_exchange in H.
  repeat case_match; simplify_eq.
  - split.
    + apply abs_eq; simpl.
      * by rewrite dom_delete_L.
      * apply map_eq. intros k. apply option_eq. intros dq.
        rewrite map_lookup_imap, bind_Some, map_lookup_filter_Some, map_lookup_imap,
          bind_Some.
        setoid_rewrite map_lookup_filter_Some. simpl.
        assert (∀ q, durable_of (mkTables (delete x (t_exchanges t))
          (filter (λ kv, kv.1.1 ≠ x) (t_queues t)) (filter (λ f, f.1.1 ≠ x) (t_filters t))
          (filter (λ kv, dr_exchange_name kv.2 ≠ x) (t_deliveries t))
          (filter (λ kv, xr_exchange_name kv.2 ≠ x) (t_dead t))) k q
          = durable_of t k q ∨ k.1 = x) as Hd.
        { intros q. destruct (decide (k.1 = x)); [by right|left]. unfold durable_of.
          f_equal. apply filters_of_ext. intros f. simpl. rewrite elem_of_filter. simpl.
          tauto. }
        split.
        -- intros (q & [Hq Hk] & [= <-]). destruct (Hd q) as [->|]; [|done]. eauto.
        -- intros [(q & Hq & [= <-]) Hk]. exists q. destruct (Hd q) as [->|]; [|done]. done.
      * apply map_eq. intros id. apply option_eq. intros l.
        rewrite lookup_fmap, fmap_Some, map_lookup_filter_Some, lookup_fmap, fmap_Some.
        setoid_rewrite map_lookup_filter_Some. simpl. naive_solver.
    + split; simpl; [intros k row [Hrow _]%map_lookup_filter_Some; eauto..|].
      intros id [row [Hrow _]%map_lookup_filter_Some]. eauto.
  - split; [|done]. assert (t_exchanges t' !! x = None) as Hx by by apply eq_None_not_Some.
    apply abs_eq; simpl.
    + assert (x ∉ dom (t_exchanges t')) by by apply not_elem_of_dom. set_solver.
    + symmetry. apply map_filter_id. intros [x' m] dq Hdq. simpl. intros ->.
      rewrite map_lookup_imap, bind_Some in Hdq. destruct Hdq as (q & Hq & _).
      apply (fk_queue t' Ht) in Hq. rewrite Hx in Hq. by destruct Hq.
    + symmetry. apply map_filter_id. intros id l Hl. simpl.
      rewrite lookup_fmap, fmap_Some in Hl. destruct Hl as (row & Hrow & ->). simpl.
      intros Heq. apply (fk_delivery t' Ht) in Hrow as [q Hq]. unfold dr_queue in Hq.
      rewrite Heq in Hq. apply (fk_queue t' Ht) in Hq. rewrite Hx in Hq. by destruct Hq.
Qed.

Lemma effect_delete_queue x n : effect (delete_queue x n) (ab_drop_queue (x, n)).
Proof.
  intros now t m t' Ht [Rq Ro Rx] H. unfold delete_queue in H.
  repeat case_match; simplify_eq.
  - split.
    + apply abs_eq; simpl; [done| |].
      * apply map_eq. intros k. apply option_eq. intros dq.
        rewrite map_lookup_imap, bind_Some, lookup_delete_Some, map_lookup_imap, bind_Some.
        setoid_rewrite lookup_delete_Some.
        assert (∀ q, k ≠ (x, n) → durable_of (mkTables (t_exchanges t)
          (delete (x, n) (t_queues t)) (filter (λ f, f.1 ≠ (x, n)) (t_filters t))
          (filter (λ kv, dr_queue kv.2 ≠ (x, n)) (t_deliveries t)) (t_dead t)) k q
          = durable_of t k q) as Hd.
        { intros q Hk. unfold durable_of. f_equal. apply filters_of_ext. intros f.
          simpl. rewrite elem_of_filter. simpl. tauto. }
        split.
        -- intros (q & [Hk Hq] & [= <-]). rewrite Hd by done. eauto.
        -- intros [Hk (q & Hq & [= <-])]. exists q. rewrite Hd by done. eauto.
      * apply map_eq. intros id. apply option_eq. intros l.
        rewrite lookup_fmap, fmap_Some, map_lookup_filter_Some, lookup_fmap, fmap_Some.
        setoid_rewrite map_lookup_filter_Some. simpl. naive_solver.
    + split; simpl.
      * intros k row [_ Hrow]%lookup_delete_Some; eauto.
      * intros id row [Hrow _]%map_lookup_filter_Some; eauto.
      * intros id [row [Hrow _]%map_lookup_filter_Some]. eauto.
  - split; [|done]. assert (t_queues t' !! (x, n) = None) as Hx by by apply eq_None_not_Some.
    apply abs_eq; simpl; [done| |].
    + symmetry. apply delete_id. by rewrite map_lookup_imap, Hx.
    + symmetry. apply map_filter_id. intros id l Hl. simpl.
      rewrite lookup_fmap, fmap_Some in Hl. destruct Hl as (row & Hrow & ->). simpl.
      intros Heq. apply (fk_delivery t' Ht) in Hrow as [q Hq]. by rewrite Heq, Hx in Hq.
Qed.

Lemma effect_insert_ready id x n key payload attempts :
  effect (insert_ready id x n key payload attempts)
    (ab_set id (mkLetter (x, n) (mkMessage payload key) attempts None)).
Proof.
  intros now t m t' Ht [Rq Ro Rx] H. unfold insert_ready in H.
  destruct (texts_ok _) eqn:Htext; [|done]. repeat case_match; simplify_eq. split.
  - apply abs_eq; simpl; [done|done|]. by rewrite fmap_insert.
  - split; simpl; [done|..].
    + intros id' row [[<- <-]|[_ Hrow]]%lookup_insert_Some; eauto. done.
    + intros id' [->|[_ Hrow]]%lookup_insert_is_Some; [|eauto].
      by apply andb_true_iff in Htext as [? _].
Qed.

Lemma effect_update_ready id : effect (update_ready id) (ab_release id).
Proof.
  intros now t m t' Ht [Rq Ro Rx] H. unfold update_ready, update_delivery in H.
  destruct (negb _); [done|]. destruct (t_deliveries t !! id) as [d|] eqn:Hd; simplify_eq.
  - split.
    + apply abs_eq; simpl; [done|done|]. rewrite fmap_insert. apply map_eq. intros i.
      destruct (decide (i = id)) as [->|Hne].
      * by rewrite lookup_insert_eq, lookup_alter_eq, lookup_fmap, Hd.
      * by rewrite lookup_insert_ne, lookup_alter_ne.
    + split; simpl; [done|..].
      * intros id' row [[<- <-]|[_ Hrow]]%lookup_insert_Some; eauto. done.
      * intros id' [->|[_ Hrow]]%lookup_insert_is_Some; eauto.
  - split; [|done]. apply abs_eq; simpl; [done|done|]. symmetry. apply map_eq. intros i.
    destruct (decide (i = id)) as [->|Hne]; [|by rewrite lookup_alter_ne].
    by rewrite lookup_alter_eq, lookup_fmap, Hd.
Qed.

Lemma effect_delete_delivery id : effect (delete_delivery id) (ab_remove id).
Proof.
  intros now t m t' Ht [Rq Ro Rx] H. unfold delete_delivery in H.
  destruct (negb _); simplify_eq. split.
  - apply abs_eq; simpl; [done|done|]. by rewrite fmap_delete.
  - split; simpl; [done|..].
    + intros id' row [_ Hrow]%lookup_delete_Some. eauto.
    + intros id' [row [_ Hrow]%lookup_delete_Some]. eauto.
Qed.

Lemma effect_insert_dead id x src key p reason att :
  effect (insert_dead id x src key p reason att) (λ a, a).
Proof.
  intros now t m t' Ht [Rq Ro Rx] H. unfold insert_dead in H.
  by repeat case_match; simplify_eq.
Qed.

(** Leasing: the row that is there keeps its message. *)
Lemma effect_update_in_flight id c att now t m t' l :
  tables_ok t → rows_good t → update_in_flight id c att now t = inr (m, t') →
  a_letters (abs_of t) !! id = Some l →
  m = 1 ∧ abs_of t' = ab_set id (mkLetter (lt_queue l) (lt_message l) att (Some c)) (abs_of t)
  ∧ rows_good t'.
Proof.
  intros Ht [Rq Ro Rx] H Hl. rewrite abs_letter, fmap_Some in Hl.
  destruct Hl as (d & Hd & ->). unfold update_in_flight, update_delivery in H.
  rewrite Hd in H. destruct (negb _); [done|]. do 2 (case_decide; [done|]). simplify_eq.
  split; [done|]. split.
  - apply abs_eq; simpl; [done|done|]. by rewrite fmap_insert.
  - split; simpl; [done|..].
    + intros id' row [[<- <-]|[_ Hrow]]%lookup_insert_Some; eauto.
    + intros id' [->|[_ Hrow]]%lookup_insert_is_Some; eauto.
Qed.

(** The configuration of a queue in memory. *)
Definition config_of (q : Queue) : DurableQueue :=
  mkDurable (q_IsAutoDelete q) (q_MaxAttempts q) (list_to_set (q_Filters q)).

Lemma effect_saved x q t t' :
  tables_ok t → rows_good t → queue_saved x q t t' → q_IsDurable q = true →
  (∀ dq, a_queues (abs_of t) !! (x, q_Name q) = Some dq → dq = config_of q) →
  abs_of t' = ab_register (x, q_Name q) (config_of q) (abs_of t) ∧ rows_good t'.
Proof.
  intros Ht [Rq Ro Rx] (row & Hq & Hf & Hx & Hd & _ & Hrow) Hdur Hcfg.
  set (k := (x, q_Name q)) in *. rewrite abs_queue in Hcfg.
  assert (∀ k', k' ≠ k → ∀ r, durable_of t' k' r = durable_of t k' r) as Hother.
  { intros k' Hne r. unfold durable_of. f_equal. apply filters_of_ext. intros f.
    rewrite Hf, elem_of_union, elem_of_list_to_set, list_elem_of_fmap.
    split; [|by right]. intros [(f' & [= ->] & _)|]; [exfalso; by apply Hne|done]. }
  assert ((list_to_set (filters_of k t') : gset string) =
          list_to_set (q_Filters q) ∪ list_to_set (filters_of k t)) as Hfs.
  { apply set_eq. intros f.
    rewrite elem_of_union, !elem_of_list_to_set, !elem_of_filters_of, Hf, elem_of_union,
      elem_of_list_to_set, list_elem_of_fmap.
    split; (intros [H|H]; [left|by right]); [by destruct H as (f' & [= ->] & ?)|].
    by exists f. }
  assert (durable_of t' k row = config_of q ∧ qr_durable row = true) as [Hk Hkd].
  { unfold durable_of, config_of. rewrite Hfs.
    destruct (t_queues t !! k) as [old|] eqn:Hold; simpl in *.
    - subst row. pose proof (Hcfg _ eq_refl) as H. unfold durable_of, config_of in H.
      injection H as -> -> ->. split; [|by eapply Rq]. f_equal. set_solver.
    - destruct Hrow as (-> & -> & ->). split; [|done]. f_equal.
      assert (filters_of k t = []) as ->; [|set_solver].
      apply elem_of_nil_inv. intros f Hin%elem_of_filters_of.
      apply (fk_filter t Ht) in Hin. change (is_Some (t_queues t !! k)) in Hin.
      rewrite Hold in Hin. by destruct Hin. }
  split.
  - apply abs_eq; simpl; [by rewrite Hx| |by rewrite Hd].
    rewrite map_lookup_imap. apply map_eq. intros k'.
    rewrite map_lookup_imap, Hq. destruct (decide (k' = k)) as [->|Hne].
    + rewrite lookup_insert_eq. simpl. rewrite Hk.
      destruct (t_queues t !! k) as [old|] eqn:Hold; simpl.
      * rewrite map_lookup_imap, Hold. simpl. f_equal. symmetry. by apply Hcfg.
      * by rewrite lookup_insert_eq.
    + rewrite lookup_insert_ne by done.
      destruct (t_queues t !! k); simpl; rewrite ?lookup_insert_ne by done;
        rewrite map_lookup_imap; destruct (t_queues t !! k'); simpl;
        by rewrite ?Hother.
  - split; [|by rewrite Hd..]. rewrite Hq.
    intros k' r [[<- <-]|[_ Hr]]%lookup_insert_Some; eauto.
Qed.
End statements.
