(* ===== verification/MirrorCore.v ===== *)
(** * The durable state as memory shows it, and how the core changes it

    [shows s a]: the exchanges, durable queues and letters of [a] are those that
    the heap of the core [s] holds.  Each method of the core is shown to have, on
    what memory shows, the effect that its statement has on the tables. *)

From S2P Require Import Prelude Errors Process Routing CoreQueue QueueSpec.
From S2P Require Import CoreExchange CoreSafety ExchangeSpec Repository Database Postgres.
From S2P Require Import Mirror.

(** ** What memory shows *)

(** The durable queue [n] of the exchange [x]. *)
Definition durable_at (s : Core) (x n : string) (r : qref) (q : Queue) : Prop :=
  ∃ e ex, co_Exchanges s !! x = Some e ∧ bound e n ex r q s ∧ q_IsDurable q = true.

Definition letter (k : string * string) (d : Delivery) (owner : option string) : Letter :=
  mkLetter k (dl_Message d) (dl_Attempts d) owner.

(** The queue [q], known as [k], holds the letter [l] under [id]. *)
Definition holds_letter (k : string * string) (q : Queue) (id : string) (l : Letter) :
    Prop :=
  (∃ d, d ∈ q_Ready q ∧ dl_ID d = id ∧ l = letter k d None) ∨
  (∃ d, q_InFlight q !! id = Some d ∧ l = letter k d (Some (dl_ConsumerID d))).

Record shows (s : Core) (a : Abs) : Prop := {
  sh_exchanges x : x ∈ a_exchanges a ↔ is_Some (co_Exchanges s !! x);
  sh_queues x n dq : a_queues a !! (x, n) = Some dq ↔
    ∃ r q, durable_at s x n r q ∧ dq = config_of q;
  sh_letters id l : a_letters a !! id = Some l ↔
    ∃ x n r q, durable_at s x n r q ∧ holds_letter (x, n) q id l;
}.

(** The invariant of the core that the mirror needs on top of [core_wf]. *)
Record core_good `{E : GoEnv} (s : Core) : Prop := {
  cg_wf : core_wf s;
  cg_inv r q : co_qheap s !! r = Some q → queue_inv q;
  cg_ids r q id : co_qheap s !! r = Some q → id ∈ ids q →
    ∃ i, i < co_uuids s ∧ id = uuid_at i;
}.

(** ** Facts about [durable_at] and [holds_letter] *)

Lemma durable_at_fun s x n r q r' q' :
  durable_at s x n r q → durable_at s x n r' q' → r = r' ∧ q = q'.
Proof.
  intros (e & ex & He & [Hx Hr Hq] & _) (e' & ex' & He' & [Hx' Hr' Hq'] & _).
  by simplify_eq.
Qed.

Lemma durable_at_ref s x n q x' n' r q' :
  core_wf s → durable_at s x n r q → durable_at s x' n' r q' → (x, n) = (x', n').
Proof.
  intros Hs (e & ex & He & [Hx Hr Hq] & _) (e' & ex' & He' & [Hx' Hr' Hq'] & _).
  destruct (wf_owner s Hs _ _ _ _ _ _ _ Hx Hr Hx' Hr') as [-> ->].
  destruct (wf_exchanges s Hs _ _ He) as (y & Hy & <-).
  destruct (wf_exchanges s Hs _ _ He') as (y' & Hy' & <-). by simplify_eq.
Qed.

Lemma holds_letter_queue k q id l : holds_letter k q id l → lt_queue l = k.
Proof. by intros [(d & _ & _ & ->)|(d & _ & ->)]. Qed.

Lemma holds_letter_ids k q id l : queue_inv q → holds_letter k q id l → id ∈ ids q.
Proof.
  intros Hq [(d & Hd & <- & _)|(d & Hd & _)]; [by apply ready_in_ids|].
  eapply flight_in_ids; [apply Hq|done].
Qed.

(** The letters of [a] in a durable queue are those that the queue holds. *)
Lemma shows_queue_letters s a x n r q id l :
  shows s a → durable_at s x n r q →
  holds_letter (x, n) q id l ↔ a_letters a !! id = Some l ∧ lt_queue l = (x, n).
Proof.
  intros Ha Hd. split.
  - intros Hl. split; [|by eapply holds_letter_queue]. apply (sh_letters s a Ha). eauto 10.
  - intros [(x' & n' & r' & q' & Hd' & Hl')%(sh_letters s a Ha) Hk].
    pose proof (holds_letter_queue _ _ _ _ Hl') as Hk'. rewrite Hk in Hk'. simplify_eq.
    by destruct (durable_at_fun _ _ _ _ _ _ _ Hd Hd') as [-> ->].
Qed.

(** An id that no queue holds has no letter. *)
Lemma shows_fresh s a id :
  shows s a → (∀ r q, co_qheap s !! r = Some q → id ∉ dl_ID <$> q_Ready q) →
  (∀ r q, co_qheap s !! r = Some q → q_InFlight q !! id = None) →
  a_letters a !! id = None.
Proof.
  intros Ha H1 H2. destruct (a_letters a !! id) as [l|] eqn:Hl; [exfalso|done].
  apply (sh_letters s a Ha) in Hl as (x & n & r & q & (e & ex & _ & [_ _ Hq] & _) & Hl).
  destruct Hl as [(d & Hd & Hid & _)|(d & Hd & _)].
  - apply (H1 r q Hq). rewrite <- Hid. by apply list_elem_of_fmap_2.
  - by rewrite (H2 r q Hq) in Hd.
Qed.

(** ** A change of one queue *)

Lemma durable_at_set s x n r q q' cs' x' n' r' p :
  core_wf s → durable_at s x n r q → same_config q q' →
  durable_at (set_queue r q' cs' s) x' n' r' p ↔
  ((x', n') = (x, n) ∧ r' = r ∧ p = q') ∨ ((x', n') ≠ (x, n) ∧ durable_at s x' n' r' p).
Proof.
  intros Hs Hd Hc. pose proof Hd as (e & ex & He & [Hx Hr Hq] & Hdur). split.
  - intros (e' & ex' & He' & [Hx' Hr' Hq'] & Hdur'). simpl in *.
    apply lookup_insert_Some in Hq' as [[<- <-]|[Hne Hq']].
    + left. destruct (wf_owner s Hs _ _ _ _ _ _ _ Hx Hr Hx' Hr') as [-> ->].
      destruct (wf_exchanges s Hs _ _ He) as (y & Hy & <-).
      destruct (wf_exchanges s Hs _ _ He') as (y' & Hy' & <-). by simplify_eq.
    + right. split; [|by exists e', ex']. intros [= -> ->]. simplify_eq.
  - intros [([= -> ->] & -> & ->)|(Hne & e' & ex' & He' & [Hx' Hr' Hq'] & Hdur')].
    + exists e, ex. split; [done|]. split; [|by rewrite (sc_IsDurable _ _ Hc)].
      split; [done|done|apply lookup_insert_eq].
    + exists e', ex'. split; [done|]. split; [|done]. split; [done|done|]. simpl.
      rewrite lookup_insert_ne; [done|]. intros ->. apply Hne.
      eapply (durable_at_ref s x' n' p x n r' q); [done| |done].
      by exists e', ex'.
Qed.

Lemma config_of_same q q' : same_config q q' → config_of q' = config_of q.
Proof. intros [_ Hf _ Ha Hm]. unfold config_of. by rewrite Hf, Ha, Hm. Qed.

Lemma shows_set s a a' x n r q q' cs' :
  core_wf s → shows s a → durable_at s x n r q → same_config q q' →
  a_exchanges a' = a_exchanges a → a_queues a' = a_queues a →
  (∀ id l, a_letters a' !! id = Some l ↔
     (a_letters a !! id = Some l ∧ lt_queue l ≠ (x, n)) ∨ holds_letter (x, n) q' id l) →
  shows (set_queue r q' cs' s) a'.
Proof.
  intros Hs Ha Hd Hc He Hq Hl.
  pose proof (λ x' n' r' p, durable_at_set s x n r q q' cs' x' n' r' p Hs Hd Hc) as Hset.
  split.
  - intros x'. rewrite He. apply Ha.
  - intros x' n' dq. rewrite Hq, (sh_queues s a Ha). setoid_rewrite Hset.
    destruct (decide ((x', n') = (x, n))) as [Heq|Hne].
    + injection Heq as -> ->. split.
      * intros (r1 & q1 & Hd1 & ->).
        destruct (durable_at_fun _ _ _ _ _ _ _ Hd Hd1) as [<- <-].
        exists r, q'. rewrite (config_of_same q q') by done. auto.
      * intros (r1 & q1 & [(_ & -> & ->)|[? _]] & ->); [|done].
        exists r, q. by rewrite (config_of_same q q').
    + split; [intros (r1 & q1 & ? & ?); eauto 10|].
      intros (r1 & q1 & [[? _]|[_ ?]] & ?); [done|eauto].
  - intros id l. rewrite Hl. setoid_rewrite Hset. split.
    + intros [[(x1 & n1 & r1 & q1 & Hd1 & Hl1)%(sh_letters s a Ha) Hk]|Hl1].
      * rewrite (holds_letter_queue _ _ _ _ Hl1) in Hk. eauto 12.
      * exists x, n, r, q'. auto.
    + intros (x1 & n1 & r1 & q1 & [(Heq & -> & ->)|[Hne Hd1]] & Hl1).
      * injection Heq as -> ->. by right.
      * left. split; [apply (sh_letters s a Ha); eauto 10|].
        by rewrite (holds_letter_queue _ _ _ _ Hl1).
Qed.

(** A change of a queue that is not durable does not show. *)
Lemma shows_set_volatile s a r q q' cs' :
  shows s a → co_qheap s !! r = Some q → same_config q q' → q_IsDurable q = false →
  shows (set_queue r q' cs' s) a.
Proof.
  intros Ha Hq Hc Hv.
  assert (∀ x n r1 q1, durable_at (set_queue r q' cs' s) x n r1 q1 ↔ durable_at s x n r1 q1)
    as Hd.
  { intros x n r1 q1. split; intros (e & ex & He & [Hx Hr Hq1] & Hdur); exists e, ex;
      (split; [done|]); (split; [|done]); (split; [done|done|]); simpl in *.
    - apply lookup_insert_Some in Hq1 as [[<- <-]|[_ ?]]; [|done].
      by rewrite (sc_IsDurable _ _ Hc), Hv in Hdur.
    - rewrite lookup_insert_ne; [done|]. intros ->. congruence. }
  destruct Ha as [H1 H2 H3]. split; [done| |].
  - intros x n dq. rewrite H2. by setoid_rewrite Hd.
  - intros id l. rewrite H3. by setoid_rewrite Hd.
Qed.

(** ** The letters of one queue *)

Lemma letters_push k q d id l :
  holds_letter k (push d q) id l ↔
  holds_letter k q id l ∨ (id = dl_ID d ∧ l = letter k d None).
Proof.
  unfold holds_letter, push; simpl. split.
  - intros [(d' & [Hd| ->%list_elem_of_singleton]%elem_of_app & <- & ->)|H]; eauto 10.
  - intros [[(d' & Hd & <- & ->)|H]|[-> ->]]; [left|by right|left].
    + exists d'. rewrite elem_of_app. auto.
    + exists d. rewrite elem_of_app, list_elem_of_singleton. auto.
Qed.

Lemma letters_take k q id0 d id l :
  queue_inv q → q_InFlight q !! id0 = Some d →
  holds_letter k (set_InFlight (delete id0 (q_InFlight q)) q) id l ↔
  holds_letter k q id l ∧ id ≠ id0.
Proof.
  intros Hq Hd. unfold holds_letter; simpl. setoid_rewrite lookup_delete_Some. split.
  - intros [(d' & Hd' & <- & ->)|(d' & [Hne Hd'] & ->)].
    + split; [left; eauto|]. intros Heq.
      pose proof (ready_not_in_flight q d' Hq Hd') as H. by rewrite Heq, Hd in H.
    + split; [right; eauto|done].
  - intros [[H|(d' & Hd' & ->)] Hne]; [by left|right; eauto].
Qed.

Lemma letters_lease k q c d rest id l :
  queue_inv q → q_Ready q = d :: rest →
  holds_letter k (set_Ready rest (set_InFlight (<[dl_ID d := leased c d]> (q_InFlight q)) q))
    id l ↔
  (holds_letter k q id l ∧ id ≠ dl_ID d) ∨
  (id = dl_ID d ∧ l = letter k (leased c d) (Some c)).
Proof.
  intros Hq Hr. unfold holds_letter; simpl. rewrite Hr. setoid_rewrite lookup_insert_Some.
  assert (∀ d', d' ∈ rest → dl_ID d' ≠ dl_ID d) as Hrest.
  { pose proof (inv_nodup q Hq) as Hn. unfold ids, held in Hn. rewrite Hr in Hn.
    csimpl in Hn. apply NoDup_cons in Hn as [Hn _]. intros d' Hd' Heq. apply Hn.
    rewrite <- Heq. apply list_elem_of_fmap_2, elem_of_app. by left. }
  split.
  - intros [(d' & Hd' & <- & ->)|(d' & [[<- <-]|[Hne Hd']] & ->)].
    + left. split; [left|by apply Hrest]. exists d'. rewrite elem_of_cons. auto.
    + by right.
    + left. split; [right; eauto|done].
  - intros [[[(d' & [->|Hd']%elem_of_cons & <- & ->)|(d' & Hd' & ->)] Hne]|[-> ->]].
    + done.
    + left; eauto.
    + right. exists d'. auto.
    + right. exists (leased c d). auto.
Qed.

(** The consumer [c] of the queue [k] gives back what it holds. *)
Definition give_back (k : string * string) (c : string) (l : Letter) : Letter :=
  if decide (lt_queue l = k ∧ lt_owner l = Some c) then released l else l.

Lemma letters_disconnect k q c ids id l :
  queue_inv q → ids ≡ₚ keys (q_InFlight q) →
  holds_letter k (disconnected c (returned_of c (q_InFlight q) ids) q) id l ↔
  ∃ l0, holds_letter k q id l0 ∧ l = give_back k c l0.
Proof.
  intros Hq Hids. set (returned := returned_of _ _ _).
  assert (∀ d, d ∈ returned ↔ ∃ d0, q_InFlight q !! dl_ID d = Some d0 ∧
            dl_ConsumerID d0 = c ∧ d = set_ConsumerID "" d0) as Hret.
  { intros d. rewrite <- (elem_of_returned c) by apply Hq. unfold returned.
    by rewrite (returned_of_perm c _ _ _ Hids). }
  unfold holds_letter, disconnected, kept_of; simpl.
  setoid_rewrite map_lookup_filter_Some. setoid_rewrite elem_of_app. simpl.
  assert (∀ d, give_back k c (letter k d None) = letter k d None) as Hn.
  { intros d. unfold give_back. rewrite decide_False; [done|]. by intros [_ ?]. }
  assert (∀ d, give_back k c (letter k d (Some (dl_ConsumerID d))) =
            if decide (dl_ConsumerID d = c) then letter k d None
            else letter k d (Some (dl_ConsumerID d))) as Hs.
  { intros d. unfold give_back. simpl.
    destruct (decide (dl_ConsumerID d = c)) as [->|Hne]; [by rewrite decide_True|].
    rewrite decide_False; [done|]. intros [_ ?]. congruence. }
  split.
  - intros [(d & [Hd|Hd] & <- & ->)|(d & [Hd Hc] & ->)].
    + exists (letter k d None). rewrite Hn. split; [left; eauto|done].
    + apply Hret in Hd as (d0 & Hd0 & Hc & ->). simpl in *.
      exists (letter k d0 (Some (dl_ConsumerID d0))). rewrite Hs, decide_True by done.
      split; [right; eauto|done].
    + exists (letter k d (Some (dl_ConsumerID d))). rewrite Hs, decide_False by done.
      split; [right; eauto|done].
  - intros (l0 & [(d & Hd & <- & ->)|(d & Hd & ->)] & ->).
    + rewrite Hn. left. eauto.
    + rewrite Hs. case_decide as Hc; [left|right; eauto].
      exists (set_ConsumerID "" d). split; [right|].
      * apply Hret. exists d. simpl. by rewrite (inv_keyed q Hq _ _ Hd).
      * split; [exact (inv_keyed q Hq _ _ Hd)|done].
Qed.

(** ** The effects of the methods of a durable queue *)

Section methods.
Context `{E : GoEnv} `{!GoEnvOk E}.

(** Leases of [c] in [k] are given back. *)
Definition ab_give_back (k : string * string) (c : string) (a : Abs) : Abs :=
  mkAbs (a_exchanges a) (a_queues a) (give_back k c <$> a_letters a).

Section on_durable.
Context (s : Core) (a : Abs) (x n : string) (r : qref) (q : Queue).
Context (Hs : core_wf s) (Ha : shows s a) (Hd : durable_at s x n r q) (Hq : queue_inv q).

Let k : string * string := (x, n).

(** What the queue holds, in terms of the letters of [a]. *)
Lemma held_letters id l :
  holds_letter k q id l ↔ a_letters a !! id = Some l ∧ lt_queue l = k.
Proof. by apply (shows_queue_letters s a x n r q). Qed.

Lemma shows_push d cs' q' :
  q_Ready q' = q_Ready q ++ [d] → q_InFlight q' = q_InFlight q → same_config q q' →
  a_letters a !! dl_ID d = None →
  shows (set_queue r q' cs' s) (ab_set (dl_ID d) (letter k d None) a).
Proof.
  intros Hr Hf Hc Hfresh. apply (shows_set s a _ x n r q q'); try done.
  intros id l.
  assert (holds_letter (x, n) q' id l ↔ holds_letter k (push d q) id l) as ->.
  { unfold holds_letter. by rewrite Hr, Hf. }
  rewrite letters_push, held_letters. simpl. rewrite lookup_insert_Some. fold k.
  destruct (decide (id = dl_ID d)) as [->|Hne].
  - rewrite Hfresh. naive_solver.
  - destruct (decide (lt_queue l = k)); naive_solver.
Qed.

Lemma shows_take id0 d cs' q' :
  q_InFlight q !! id0 = Some d →
  q_Ready q' = q_Ready q → q_InFlight q' = delete id0 (q_InFlight q) → same_config q q' →
  shows (set_queue r q' cs' s) (ab_remove id0 a).
Proof.
  intros Hid Hr Hf Hc. apply (shows_set s a _ x n r q q'); try done.
  intros id l.
  assert (holds_letter (x, n) q' id l ↔
          holds_letter k (set_InFlight (delete id0 (q_InFlight q)) q) id l) as ->.
  { unfold holds_letter. by rewrite Hr, Hf. }
  rewrite (letters_take k q id0 d) by done. rewrite held_letters. simpl.
  rewrite lookup_delete_Some. fold k.
  destruct (decide (id = id0)) as [->|Hne].
  - split; [naive_solver|]. intros [[Hl Hk]|[_ ?]]; [|done]. exfalso. apply Hk.
    assert (holds_letter k q id0 (letter k d (Some (dl_ConsumerID d)))) as H
      by (right; eauto).
    apply held_letters in H as [H1 H2]. naive_solver.
  - destruct (decide (lt_queue l = k)); naive_solver.
Qed.

Lemma shows_requeue id0 d cs' q' :
  q_InFlight q !! id0 = Some d →
  q_Ready q' = q_Ready q ++ [set_ConsumerID "" d] →
  q_InFlight q' = delete id0 (q_InFlight q) → same_config q q' →
  shows (set_queue r q' cs' s) (ab_release id0 a).
Proof.
  intros Hid Hr Hf Hc. apply (shows_set s a _ x n r q q'); try done.
  pose proof (inv_keyed q Hq _ _ Hid) as Hkey.
  assert (a_letters a !! id0 = Some (letter k d (Some (dl_ConsumerID d)))) as Hl0.
  { apply (held_letters id0). right. eauto. }
  intros id l.
  assert (holds_letter (x, n) q' id l ↔
          holds_letter k (push (set_ConsumerID "" d)
            (set_InFlight (delete id0 (q_InFlight q)) q)) id l) as ->.
  { unfold holds_letter, push. simpl. by rewrite Hr, Hf. }
  rewrite letters_push, (letters_take k q id0 d), held_letters by done. simpl. fold k.
  rewrite Hkey. destruct (decide (id = id0)) as [->|Hne].
  - rewrite lookup_alter_eq, Hl0. simpl.
    change (released (letter k d (Some (dl_ConsumerID d)))) with (letter k d None).
    split; [intros [= <-]; right; by right|].
    intros [[[= <-] ?]|[[_ ?]|[_ ->]]]; done.
  - rewrite lookup_alter_ne by done. destruct (decide (lt_queue l = k)); naive_solver.
Qed.

Lemma shows_lease c d rest cs' q' :
  q_Ready q = d :: rest → q_Ready q' = rest →
  q_InFlight q' = <[dl_ID d := leased c d]> (q_InFlight q) → same_config q q' →
  shows (set_queue r q' cs' s) (ab_set (dl_ID d) (letter k (leased c d) (Some c)) a).
Proof.
  intros Hready Hr Hf Hc. apply (shows_set s a _ x n r q q'); try done.
  assert (a_letters a !! dl_ID d = Some (letter k d None)) as Hl0.
  { apply (held_letters (dl_ID d)). left. exists d. rewrite Hready, elem_of_cons. auto. }
  intros id l.
  assert (holds_letter (x, n) q' id l ↔ holds_letter k (set_Ready rest
            (set_InFlight (<[dl_ID d := leased c d]> (q_InFlight q)) q)) id l) as ->.
  { unfold holds_letter. simpl. by rewrite Hr, Hf. }
  rewrite letters_lease, held_letters by done. simpl. rewrite lookup_insert_Some. fold k.
  destruct (decide (id = dl_ID d)) as [->|Hne].
  - rewrite Hl0. naive_solver.
  - destruct (decide (lt_queue l = k)); naive_solver.
Qed.

Lemma shows_disconnect c ids cs' q' :
  ids ≡ₚ keys (q_InFlight q) →
  let returned := returned_of c (q_InFlight q) ids in
  q_Ready q' = q_Ready q ++ returned → q_InFlight q' = kept_of c (q_InFlight q) →
  same_config q q' →
  shows (set_queue r q' cs' s) (ab_give_back k c a).
Proof.
  intros Hids returned Hr Hf Hc. apply (shows_set s a _ x n r q q'); try done.
  intros id l.
  assert (holds_letter (x, n) q' id l ↔
          holds_letter k (disconnected c returned q) id l) as ->.
  { unfold holds_letter. simpl. by rewrite Hr, Hf. }
  unfold returned. rewrite (letters_disconnect k q c ids) by done.
  setoid_rewrite held_letters.
  simpl. rewrite lookup_fmap, fmap_Some. fold k.
  assert (∀ l0, lt_queue (give_back k c l0) = lt_queue l0) as Hk.
  { intros l0. unfold give_back. by case_decide. }
  split.
  - intros (l0 & Hl0 & ->). destruct (decide (lt_queue l0 = k)); [eauto|].
    left. rewrite Hk. split; [|done]. unfold give_back.
    rewrite decide_False by tauto. done.
  - intros [[Hl Hne]|(l0 & [Hl0 _] & ->)]; [|eauto]. exists l. split; [done|].
    unfold give_back. rewrite decide_False by tauto. done.
Qed.
End on_durable.
End methods.

(** ** The methods, run alone: result, invariant and effect *)

(** The queue after its first ready delivery has been leased. *)
Definition after_lease (c : string) (d : Delivery) (rest : list Delivery) (q : Queue) :
    Queue :=
  set_Ready rest (set_InFlight (<[dl_ID d := leased c d]> (q_InFlight q)) q).

(** One attempt, as a function of the queue. *)
Definition attempt (max : Z) (c : string) (q : Queue) :
    Delivery * option chan * option error * Queue :=
  if decide (c ∈ q_Consumers q) then
    if at_limit c max q
    then (Delivery_zero, None, Some TooManyInFlight, q)
    else
      match q_Ready q with
      | [] => (Delivery_zero, Some (q_readyNotify q), Some QueueEmpty, q)
      | d :: rest => (leased c d, None, None, after_lease c d rest q)
      end
  else (Delivery_zero, None, Some ConsumerNotFound, q).

Ltac attempt_cases :=
  unfold attempt;
  repeat match goal with
    | |- context [decide (?c ∈ ?s)] => destruct (decide (c ∈ s))
    | |- context [at_limit ?c ?m ?q] => destruct (at_limit c m q)
    | |- context [q_Ready ?q] => destruct (q_Ready q)
    end.

Section effects.
Context `{E : GoEnv} `{!GoEnvOk E}.

Lemma run_attempt e n ex r q max c s :
  bound e n ex r q s →
  let '(o, q') := attempt max c q in
  run (Exchange.FetchOrWait e n c max) s =
  Val (o, set_queue r q' (co_chans s) (tick s)).
Proof.
  intros [Hex Hr Hq].
  assert (Queue.FetchOrWait (range_at (co_ranges s)) c max (q, co_chans s)
    = Val ((attempt max c q).1, ((attempt max c q).2, co_chans s))) as HF.
  { rewrite FetchOrWait_eq by apply _. by attempt_cases. }
  unfold Exchange.FetchOrWait. rewrite run_bind, (run_GetQueue e n ex), Hr by done.
  pose proof (run_on_queue_range r q (λ ro, Queue.FetchOrWait ro c max)
    _ _ _ _ Hq HF) as Hrun.
  assert (match (attempt max c q).1 with
          | (d, ch, Some err) => d = Delivery_zero
          | (d, ch, None) => ch = None
          end) as Hzero by by attempt_cases.
  destruct (attempt max c q) as [[[d ch] err] q']. simpl in Hrun, Hzero.
  rewrite run_bind, run_atomic, Hrun. destruct err; by subst.
Qed.

Lemma good_tick s : core_good s → core_good (tick s).
Proof. intros [H1 H2 H3]. split; [by apply wf_tick|done|done]. Qed.

(** Only the maps and the heaps show. *)
Lemma shows_same s s' a :
  co_Exchanges s' = co_Exchanges s → co_eheap s' = co_eheap s →
  co_qheap s' = co_qheap s → shows s a → shows s' a.
Proof.
  intros Hx He Hq [H1 H2 H3].
  assert (∀ x n r q, durable_at s' x n r q ↔ durable_at s x n r q) as Hd.
  { intros x n r q. unfold durable_at. setoid_rewrite Hx.
    split; intros (e & ex & ? & [? ? ?] & ?); exists e, ex;
      (split; [done|]); (split; [|done]); split; congruence. }
  split; [by rewrite Hx| |].
  - intros x n dq. rewrite H2. by setoid_rewrite Hd.
  - intros id l. rewrite H3. by setoid_rewrite Hd.
Qed.

Lemma shows_tick s a : shows s a → shows (tick s) a.
Proof. by apply shows_same. Qed.

Lemma bound_tick e n ex r q s : bound e n ex r q s → bound e n ex r q (tick s).
Proof. intros []. by split. Qed.

Lemma good_set s r q q' cs' :
  core_good s → co_qheap s !! r = Some q → core_wf (set_queue r q' cs' s) →
  queue_inv q' → (∀ id, id ∈ ids q' → id ∈ ids q ∨ ∃ i, i < co_uuids s ∧ id = uuid_at i) →
  core_good (set_queue r q' cs' s).
Proof.
  intros [H1 H2 H3] Hq Hwf Hinv Hids. split; [done| |]; simpl.
  - intros r1 q1 [[<- <-]|[_ Hr]]%lookup_insert_Some; eauto.
  - intros r1 q1 id [[<- <-]|[_ Hr]]%lookup_insert_Some Hid; [|by eauto].
    destruct (Hids id Hid); eauto.
Qed.

(** Every id of the new queue was one of the old queue. *)
Lemma good_set_sub s r q q' cs' :
  core_good s → co_qheap s !! r = Some q → core_wf (set_queue r q' cs' s) →
  queue_inv q' → (∀ id, id ∈ ids q' → id ∈ ids q) → core_good (set_queue r q' cs' s).
Proof. intros Hs Hq Hwf Hinv Hids. apply (good_set s r q); auto. Qed.

(** The queue a method works on, by its exchange and name. *)
Context (s : Core) (a : Abs) (x n : string) (e : eref) (ex : Exchange) (r : qref)
  (q : Queue).
Context (Hs : core_good s) (Ha : shows s a).
Context (Hx : co_Exchanges s !! x = Some e) (Hb : bound e n ex r q s).

Let Hwf : core_wf s := cg_wf s Hs.
Let Hq : co_qheap s !! r = Some q := b_queue _ _ _ _ _ _ Hb.
Let Hinv : queue_inv q := cg_inv s Hs r q Hq.
Let Hopen : notify_open q (co_chans s) := wf_open s Hwf r q Hq.

Lemma at_durable : q_IsDurable q = true → durable_at s x n r q.
Proof using Hx Hb. intros Hd. exists e, ex. by split_and!. Qed.

(** An id that no queue holds yet. *)
Definition unused (id : string) : Prop :=
  ∀ r' q', co_qheap s !! r' = Some q' → id ∉ ids q'.

Lemma unused_letter id : unused id → a_letters a !! id = None.
Proof using Ha Hs.
  intros Hid. apply (shows_fresh s); [done| |]; intros r' q' Hq'.
  - intros Hin. apply (Hid r' q' Hq'). unfold ids, held. rewrite fmap_app, elem_of_app.
    by left.
  - destruct (q_InFlight q' !! id) as [d|] eqn:Hd; [|done]. exfalso.
    apply (Hid r' q' Hq'). eapply flight_in_ids; [|done].
    apply (cg_inv s Hs r' q' Hq').
Qed.

Lemma effect_Enqueue d :
  dl_ConsumerID d = "" → unused (dl_ID d) →
  (∃ i, i < co_uuids s ∧ dl_ID d = uuid_at i) →
  ∃ s', run (Exchange.EnqueueDelivery e n d) s = Val (Ok tt, s') ∧ core_good s' ∧
    co_qheap s' = <[r := notified_q (push d q) (co_chans s)]> (co_qheap s) ∧
    co_Exchanges s' = co_Exchanges s ∧ co_eheap s' = co_eheap s ∧
    co_uuids s' = co_uuids s ∧
    shows s' (if q_IsDurable q then ab_set (dl_ID d) (letter (x, n) d None) a else a).
Proof using All.
  intros Hd Hid Hdrawn.
  exists (set_queue r (notified_q (push d q) (co_chans s)) (notified_cs q (co_chans s)) s).
  split.
  { unfold Exchange.EnqueueDelivery. rewrite (run_with_queue e n ex r q) by done.
    rewrite run_bind, run_atomic, (run_on_queue r q _ _ _ _ _ Hq
      (EnqueueDelivery_eq d q (co_chans s) Hopen)). done. }
  split; [|split; [done|split; [done|split; [done|split; [done|]]]]].
  - apply (good_set s r q); [done|done| | |].
    + apply (wf_set_queue s r q); [done|done|by split|by right|apply Hinv].
    + apply inv_notified, inv_push; [done|done|]. by apply (Hid r).
    + intros id. rewrite <- (right_id [] (++) (ids q)). unfold ids at 1.
      rewrite held_notified, held_push. csimpl. rewrite elem_of_cons, app_nil_r.
      intros [->|?]; auto.
  - destruct (q_IsDurable q) eqn:Hdur.
    + apply (shows_push s a x n r q); try done; [by apply at_durable|].
      exact (unused_letter (dl_ID d) Hid).
    + by apply (shows_set_volatile s a r q).
Qed.

Lemma effect_Ack id c :
  ∃ res s', run (Exchange.Ack e n id c) s = Val (res, s') ∧ core_good s' ∧
    match res with
    | Ok _ => shows s' (if q_IsDurable q then ab_remove id a else a)
    | Err _ => s' = s
    end ∧ (∃ q', co_qheap s' !! r = Some q' ∧ same_config q q').
Proof using All.
  unfold Exchange.Ack. rewrite (run_with_queue e n ex r q) by done.
  pose proof (Ack_eq id c q (co_chans s)) as HA.
  destruct (q_InFlight q !! id) as [d|] eqn:Hd.
  2: { exists (Err DeliveryNotFound), s. rewrite run_try, run_atomic,
         (run_on_queue r q _ _ _ _ _ Hq HA), set_queue_same by done.
       split_and!; [done|done|done|]. by exists q. }
  destruct (decide (dl_ConsumerID d = c)).
  2: { exists (Err DeliveryOwnerMismatch), s. rewrite run_try, run_atomic,
         (run_on_queue r q _ _ _ _ _ Hq HA), set_queue_same by done.
       split_and!; [done|done|done|]. by exists q. }
  eexists (Ok tt), _. rewrite run_try, run_atomic, (run_on_queue r q _ _ _ _ _ Hq HA).
  split; [done|]. split; [|split].
  - apply (good_set_sub s r q); [done|done| |by eapply inv_take|].
    + apply (wf_set_queue s r q); [done|done|by split|by left|].
      apply keyed_delete, Hinv.
    + intros i Hi. unfold ids in *. rewrite (held_take id d q Hd). csimpl. by right.
  - destruct (q_IsDurable q) eqn:Hdur.
    + by apply (shows_take s a x n r q Hwf Ha (at_durable Hdur) Hinv id d).
    + by apply (shows_set_volatile s a r q).
  - eexists. split; [apply lookup_insert_eq|]. by split.
Qed.

(** A lease keeps the invariants, and shows as one. *)
Lemma effect_lease c d rest :
  c ∈ q_Consumers q → q_Ready q = d :: rest →
  let s' := set_queue r (after_lease c d rest q) (co_chans s) (tick s) in
  core_good s' ∧
  shows s' (if q_IsDurable q
            then ab_set (dl_ID d) (letter (x, n) (leased c d) (Some c)) a else a).
Proof using All.
  intros Hc Hready. cbv zeta. pose proof (good_tick s Hs) as Ht. split.
  - apply (good_set_sub (tick s) r q); [done|done| |by apply (inv_fetch c d rest q)|].
    + apply (wf_set_queue (tick s) r q); [apply Ht|done|by split|by left|].
      apply keyed_insert; [done|]. apply Hinv.
    + intros i. unfold ids. rewrite !list_elem_of_fmap.
      intros (d' & -> & Hd'%elem_of_held). destruct Hd' as [Hd'|[k Hk]].
      * exists d'. split; [done|]. apply elem_of_held. left. rewrite Hready. by right.
      * simpl in Hk. apply lookup_insert_Some in Hk as [[_ <-]|[_ Hk]].
        -- exists d. split; [done|]. apply elem_of_held. left. rewrite Hready. by left.
        -- exists d'. split; [done|]. apply elem_of_held. by right; exists k.
  - destruct (q_IsDurable q) eqn:Hdur.
    + apply (shows_lease (tick s) a x n r q (wf_tick s Hwf) (shows_tick s a Ha))
        with (rest := rest); try done.
      exists e, ex. split; [done|]. split; [by apply bound_tick|done].
    + apply (shows_set_volatile (tick s) a r q); try done. by apply shows_tick.
Qed.

(** What a fetch does: nothing, unless it hands out the first ready delivery. *)
Lemma effect_Fetch c max :
  ∃ d ch err s', run (Exchange.FetchOrWait e n c max) s = Val (d, ch, err, s') ∧
    core_good s' ∧
    match err with
    | Some _ => s' = tick s
    | None => ∃ d0 rest, q_Ready q = d0 :: rest ∧ d = leased c d0 ∧
        shows s' (if q_IsDurable q
                  then ab_set (dl_ID d0) (letter (x, n) (leased c d0) (Some c)) a else a)
    end ∧ (∃ q', co_qheap s' !! r = Some q' ∧ same_config q q').
Proof using All.
  pose proof (run_attempt e n ex r q max c s Hb) as Hrun. unfold attempt in Hrun.
  assert (set_queue r q (co_chans s) (tick s) = tick s) as Hsame
    by exact (set_queue_same r q (tick s) Hq).
  pose proof (good_tick s Hs) as Ht.
  assert (∃ q', co_qheap (tick s) !! r = Some q' ∧ same_config q q') as Hcfg
    by by exists q.
  destruct (decide (c ∈ q_Consumers q)) as [Hc|];
    [destruct (at_limit c max q); [|destruct (q_Ready q) as [|d rest] eqn:Hready]|];
    try (rewrite Hsame in Hrun; by eexists _, _, _, _).
  destruct (effect_lease c d rest Hc Hready) as [Hgood Hshows].
  eexists _, _, _, _. split; [exact Hrun|]. split; [done|]. split; [by exists d, rest|].
  eexists. split; [apply lookup_insert_eq|]. by split.
Qed.

Lemma effect_NAck id c :
  ∃ res s', run (Exchange.NAck e n id c) s = Val (res, s') ∧ core_good s' ∧
    match res with
    | Ok na => dl_ID (na_Delivery na) = id ∧
        shows s' (if q_IsDurable q
                  then (if na_IsDead na then ab_remove id a else ab_release id a) else a)
    | Err _ => s' = tick s
    end ∧ (∃ q', co_qheap s' !! r = Some q' ∧ same_config q q').
Proof using All.
  pose proof (run_NAck e n ex r q id c s Hwf Hb) as Hrun.
  assert (∃ q', co_qheap (tick s) !! r = Some q' ∧ same_config q q') as Hcfg
    by by exists q.
  destruct (q_InFlight q !! id) as [d|] eqn:Hd;
    [|eexists _, _; split; [exact Hrun|split_and!; [by apply good_tick|done|done]]].
  destruct (decide (dl_ConsumerID d = c));
    [|eexists _, _; split; [exact Hrun|split_and!; [by apply good_tick|done|done]]].
  cbv zeta in Hrun. pose proof (inv_keyed q Hinv _ _ Hd) as Hid.
  assert (durable_at (tick s) x n r q ∨ q_IsDurable q = false) as Hdur.
  { destruct (q_IsDurable q) eqn:Hdur; [left|by right].
    exists e, ex. split; [done|]. split; [by apply bound_tick|done]. }
  assert (core_good (tick s)) as Ht by by apply good_tick.
  assert (keyed (delete id (q_InFlight q))) as Hk by apply keyed_delete, Hinv.
  destruct (exhausted q d || _); eexists _, _; (split; [exact Hrun|]).
  - split; [|split; [split; [done|]|]].
    + apply (good_set_sub (tick s) r q); [done|done| |by eapply inv_take|].
      * by apply (wf_set_queue (tick s) r q); [apply Ht|done|by split|by left|].
      * intros i Hi. unfold ids in *. rewrite (held_take id d q Hd). csimpl. by right.
    + simpl. destruct Hdur as [Hdur|Hv].
      * pose proof Hdur as (_ & _ & _ & _ & ->).
        by apply (shows_take (tick s) a x n r q (wf_tick s Hwf) (shows_tick s a Ha) Hdur
                    Hinv id d).
      * rewrite Hv. apply (shows_set_volatile (tick s) a r q); try done.
        by apply shows_tick.
    + eexists. split; [apply lookup_insert_eq|]. by split.
  - split; [|split; [split; [done|]|]].
    + apply (good_set_sub (tick s) r q); [done|done| | |].
      * by apply (wf_set_queue (tick s) r q); [apply Ht|done|by split|by right|].
      * apply inv_notified, inv_push; [by eapply inv_take|done|].
        simpl. by eapply taken_not_held.
      * intros i. unfold ids. rewrite held_notified, held_push, (held_take id d q Hd).
        csimpl. done.
    + simpl. destruct Hdur as [Hdur|Hv].
      * pose proof Hdur as (_ & _ & _ & _ & ->).
        by apply (shows_requeue (tick s) a x n r q (wf_tick s Hwf) (shows_tick s a Ha) Hdur
                    Hinv id d).
      * rewrite Hv. apply (shows_set_volatile (tick s) a r q); try done.
        by apply shows_tick.
    + eexists. split; [apply lookup_insert_eq|]. by split.
Qed.
End effects.
