(* ===== verification/MirrorHeap.v ===== *)
(** * Creating and removing exchanges and queues, as memory shows it

    The methods that change which exchanges and queues there are, run alone, and
    their effect on the durable state; and [DisconnectConsumer], which does both. *)

From S2P Require Import Prelude Errors Process Routing CoreQueue QueueSpec.
From S2P Require Import CoreExchange CoreSafety ExchangeSpec Repository Database Postgres.
From S2P Require Import Mirror MirrorCore.

Section structure.
Context `{E : GoEnv} `{!GoEnvOk E}.

(** ** Removing *)

(** Some queues are gone, with everything in them. *)
Lemma shows_drop s s' a a' (gone : string * string → Prop) :
  (∀ x n r q, durable_at s' x n r q ↔ ¬ gone (x, n) ∧ durable_at s x n r q) →
  (∀ x, x ∈ a_exchanges a' ↔ is_Some (co_Exchanges s' !! x)) →
  (∀ k dq, a_queues a' !! k = Some dq ↔ a_queues a !! k = Some dq ∧ ¬ gone k) →
  (∀ id l, a_letters a' !! id = Some l ↔
           a_letters a !! id = Some l ∧ ¬ gone (lt_queue l)) →
  shows s a → shows s' a'.
Proof.
  intros Hd Hx Hq Hl Ha. split; [done| |].
  - intros x n dq. rewrite Hq, (sh_queues s a Ha). setoid_rewrite Hd. naive_solver.
  - intros id l. rewrite Hl, (sh_letters s a Ha). setoid_rewrite Hd. split.
    + intros [(x & n & r & q & Hq' & Hh) Hg].
      rewrite (holds_letter_queue _ _ _ _ Hh) in Hg. eauto 10.
    + intros (x & n & r & q & [Hg Hq'] & Hh).
      rewrite (holds_letter_queue _ _ _ _ Hh). eauto 10.
Qed.

Lemma good_unbound e n ex s :
  core_good s → co_eheap s !! e = Some ex → core_good (unbound e n ex s).
Proof.
  intros [H1 H2 H3] Hx. split; [|done..].
  destruct (step_write_delete e n s H1) as (u & s' & Hw & Hs' & _); [by exists ex|].
  rewrite (run_write_delete e n ex) in Hw by done. by simplify_eq.
Qed.

(** The exchange that a reference is bound to has one name. *)
Lemma exchange_name s x x' e :
  core_wf s → co_Exchanges s !! x = Some e → co_Exchanges s !! x' = Some e → x = x'.
Proof.
  intros Hs H1 H2. destruct (wf_exchanges s Hs _ _ H1) as (y & Hy & <-).
  destruct (wf_exchanges s Hs _ _ H2) as (y' & Hy' & <-). by simplify_eq.
Qed.

Lemma durable_at_unbound s x n e ex x' n' r q :
  core_wf s → co_Exchanges s !! x = Some e → co_eheap s !! e = Some ex →
  durable_at (unbound e n ex s) x' n' r q ↔
  (x', n') ≠ (x, n) ∧ durable_at s x' n' r q.
Proof.
  intros Hs Hx Hex. split.
  - intros (e' & ex' & He' & [Hx' Hr' Hq'] & Hdur). simpl in *.
    apply lookup_insert_Some in Hx' as [[<- <-]|[Hne Hx']].
    + simpl in Hr'. apply lookup_delete_Some in Hr' as [Hnn Hr'].
      split; [congruence|]. exists e, ex. by split_and!.
    + split; [intros [= -> ->]; congruence|]. exists e', ex'. by split_and!.
  - intros (Hne & e' & ex' & He' & [Hx' Hr' Hq'] & Hdur).
    destruct (decide (e' = e)) as [->|Hee].
    + simplify_eq. exists e, (mkExchange (ex_Name ex) (delete n (ex_Queues ex))).
      split; [done|]. split; [|done].
      split; [apply lookup_insert_eq| |done]. simpl. rewrite lookup_delete_ne; [done|].
      intros ->. apply Hne. by rewrite (exchange_name s x x' e).
    + exists e', ex'. split; [done|]. split; [|done]. split; [|done..]. simpl.
      by rewrite lookup_insert_ne.
Qed.

Lemma shows_unbound s a x n e ex :
  core_wf s → shows s a → co_Exchanges s !! x = Some e → co_eheap s !! e = Some ex →
  shows (unbound e n ex s) (ab_drop_queue (x, n) a).
Proof.
  intros Hs Ha Hx Hex. apply (shows_drop s _ a _ (λ k, k = (x, n))); [| | | |done].
  - intros x' n' r q. by apply durable_at_unbound.
  - intros y. apply Ha.
  - intros k dq. simpl. rewrite lookup_delete_Some. naive_solver.
  - intros id l. simpl. by rewrite map_lookup_filter_Some.
Qed.

(** There is nothing durable to remove. *)
Lemma drop_absent s a x n :
  shows s a → (∀ r q, ¬ durable_at s x n r q) → ab_drop_queue (x, n) a = a.
Proof.
  intros Ha Hno. apply abs_eq; simpl; [done| |].
  - apply delete_id, eq_None_not_Some. intros [dq Hdq].
    apply (sh_queues s a Ha) in Hdq as (r & q & Hd & _). by eapply Hno.
  - apply map_filter_id. intros id l Hl. simpl. intros Hk.
    apply (sh_letters s a Ha) in Hl as (x' & n' & r & q & Hd & Hh).
    rewrite (holds_letter_queue _ _ _ _ Hh) in Hk. injection Hk as -> ->.
    by eapply Hno.
Qed.

Lemma not_durable_at s x n e ex r q :
  co_Exchanges s !! x = Some e → bound e n ex r q s → q_IsDurable q = false →
  ∀ r' q', ¬ durable_at s x n r' q'.
Proof.
  intros Hx [H1 H2 H3] Hv r' q' (e' & ex' & Hx' & [H1' H2' H3'] & Hd).
  simplify_eq. congruence.
Qed.

Lemma shows_deleted s a x :
  shows s a → shows (set_Exchanges (delete x (co_Exchanges s)) s) (ab_drop_exchange x a).
Proof.
  intros Ha. apply (shows_drop s _ a _ (λ k, k.1 = x)); [| | | |done].
  - intros x' n r q. simpl. split.
    + intros (e & ex & He & Hb & Hd). simpl in He.
      apply lookup_delete_Some in He as [Hne He]. split; [done|].
      exists e, ex. split; [done|]. split; [|done]. by destruct Hb.
    + intros (Hne & e & ex & He & Hb & Hd). exists e, ex. split; [|split; [|done]].
      * simpl. by rewrite lookup_delete_ne.
      * by destruct Hb.
  - intros y. simpl. rewrite elem_of_difference, elem_of_singleton, (sh_exchanges s a Ha).
    unfold is_Some. setoid_rewrite lookup_delete_Some. naive_solver.
  - intros k dq. simpl. by rewrite map_lookup_filter_Some.
  - intros id l. simpl. by rewrite map_lookup_filter_Some.
Qed.

(** ** Making *)

Lemma durable_at_registered s x e ex q x' n' r' q' :
  core_wf s → co_Exchanges s !! x = Some e → co_eheap s !! e = Some ex →
  ex_Queues ex !! q_Name q = None →
  durable_at (registered e ex q s) x' n' r' q' ↔
  ((x', n') = (x, q_Name q) ∧ r' = co_qnext s ∧ q' = q ∧ q_IsDurable q = true) ∨
  durable_at s x' n' r' q'.
Proof.
  intros Hs Hx Hex Hnew. pose proof (fresh_queue_ref s Hs) as Hfresh. split.
  - intros (e' & ex' & He' & [Hx' Hr' Hq'] & Hdur). simpl in *.
    apply lookup_insert_Some in Hx' as [[<- <-]|[Hne Hx']].
    + simpl in Hr'. apply lookup_insert_Some in Hr' as [[<- <-]|[Hnn Hr']].
      * left. rewrite lookup_insert_eq in Hq'. simplify_eq.
        rewrite (exchange_name s x x' e) by done. by split_and!.
      * right. exists e, ex. split; [done|]. split; [|done]. split; [done|done|].
        apply lookup_insert_Some in Hq' as [[<- <-]|[_ ?]]; [|done].
        destruct (wf_queues s Hs _ _ _ _ Hex Hr') as (? & ? & _). congruence.
    + right. exists e', ex'. split; [done|]. split; [|done]. split; [done|done|].
      apply lookup_insert_Some in Hq' as [[<- <-]|[_ ?]]; [|done].
      destruct (wf_queues s Hs _ _ _ _ Hx' Hr') as (? & ? & _). congruence.
  - intros [([= -> ->] & -> & -> & Hd)|(e' & ex' & He' & [Hx' Hr' Hq'] & Hdur)].
    + eexists e, _. split; [done|]. split; [|done].
      split; [apply lookup_insert_eq|apply lookup_insert_eq|apply lookup_insert_eq].
    + assert (co_qnext s ≠ r') as Hrr by congruence.
      destruct (decide (e' = e)) as [->|Hee].
      * simplify_eq. eexists e, _. split; [done|]. split; [|done].
        split; [apply lookup_insert_eq| |]; simpl; rewrite lookup_insert_ne;
          congruence.
      * exists e', ex'. split; [done|]. split; [|done].
        split; [|done|]; simpl; by rewrite lookup_insert_ne.
Qed.

Lemma shows_registered s a x e ex q :
  core_wf s → shows s a → co_Exchanges s !! x = Some e → co_eheap s !! e = Some ex →
  ex_Queues ex !! q_Name q = None → q_Ready q = [] → q_InFlight q = ∅ →
  shows (registered e ex q s)
    (if q_IsDurable q then ab_register (x, q_Name q) (config_of q) a else a).
Proof.
  intros Hs Ha Hx Hex Hnew Hr Hf.
  assert (∀ r q', ¬ durable_at s x (q_Name q) r q') as Hno.
  { intros r q' (e' & ex' & Hx' & [H1 H2 H3] & _). simplify_eq. }
  assert (∀ k id l, ¬ holds_letter k q id l) as Hempty.
  { intros k id l [(d & Hd & _)|(d & Hd & _)]; [rewrite Hr in Hd|rewrite Hf in Hd].
    - by apply not_elem_of_nil in Hd.
    - by rewrite lookup_empty in Hd. }
  pose proof (λ x' n' r' q',
    durable_at_registered s x e ex q x' n' r' q' Hs Hx Hex Hnew) as Hd.
  destruct (q_IsDurable q) eqn:Hdur.
  - assert (a_queues a !! (x, q_Name q) = None) as Hfree.
    { apply eq_None_not_Some. intros [dq Hdq].
      apply (sh_queues s a Ha) in Hdq as (r & q' & Hd' & _). by eapply Hno. }
    split; [apply Ha| |].
    + intros x' n' dq. simpl. rewrite Hfree, lookup_insert_Some. setoid_rewrite Hd.
      rewrite (sh_queues s a Ha). split.
      * intros [[[= <- <-] <-]|[Hne (r & q' & H1 & H2)]]; [|eauto 10].
        exists (co_qnext s), q. split; [|done]. left. done.
      * intros (r & q' & [([= -> ->] & -> & -> & _)|H1] & ->); [by left|right].
        split; [|eauto]. intros [= <- <-]. by eapply Hno.
    + intros id l. simpl. rewrite (sh_letters s a Ha). setoid_rewrite Hd. split.
      * intros (x' & n' & r' & q' & ? & ?). eauto 10.
      * intros (x' & n' & r' & q' & [(_ & _ & -> & _)|?] & Hh); [|eauto 10].
        by apply Hempty in Hh.
  - assert (∀ x' n' r' q', durable_at (registered e ex q s) x' n' r' q'
                           ↔ durable_at s x' n' r' q') as Hd'.
    { intros. rewrite Hd. split; [|by right]. by intros [(_ & _ & _ & ?)|?]. }
    split; [apply Ha| |].
    + intros x' n' dq. rewrite (sh_queues s a Ha). by setoid_rewrite Hd'.
    + intros id l. rewrite (sh_letters s a Ha). by setoid_rewrite Hd'.
Qed.

(** A new queue is good: it is empty. *)
Lemma good_registered s e ex n d au m f :
  core_good s → co_eheap s !! e = Some ex → ex_Queues ex !! n = None →
  config_ok (fresh_queue n d au m f s) →
  core_good (registered e ex (fresh_queue n d au m f s) s).
Proof.
  intros [H1 H2 H3] Hex Hn Hcfg.
  destruct (wf_registered s e ex (fresh_queue n d au m f s)) as [Hwf _]; try done.
  split; [done|..]; simpl.
  - intros r1 q1 [[<- <-]|[_ H]]%lookup_insert_Some; [|eauto].
    destruct (inv_new n d au m f (co_chans s)) as (q0 & [= <-] & Hq0 & _). exact Hq0.
  - intros r1 q1 id [[<- <-]|[_ H]]%lookup_insert_Some Hid; [|eauto].
    unfold ids, held in Hid. simpl in Hid. by apply not_elem_of_nil in Hid.
Qed.

Lemma shows_created s a x :
  core_wf s → shows s a → co_Exchanges s !! x = None →
  shows (exchange_created x s) (ab_create x a).
Proof.
  intros Hs Ha Hx. pose proof (fresh_exchange_ref s Hs) as Hfresh.
  assert (∀ x' n r q, durable_at (exchange_created x s) x' n r q
                      ↔ durable_at s x' n r q) as Hd.
  { intros x' n r q. split.
    - intros (e & ex & He & [H1 H2 H3] & Hdur). simpl in *.
      apply lookup_insert_Some in H1 as [[<- <-]|[Hne H1]];
        [simpl in H2; by rewrite lookup_empty in H2|].
      apply lookup_insert_Some in He as [[<- <-]|[_ He]]; [done|].
      exists e, ex. split; [done|]. by split.
    - intros (e & ex & He & [H1 H2 H3] & Hdur). exists e, ex. split.
      + simpl. rewrite lookup_insert_ne; [done|congruence].
      + split; [|done]. split; [|done..]. simpl. rewrite lookup_insert_ne; [done|congruence]. }
  split.
  - intros y. simpl. rewrite elem_of_union, elem_of_singleton, (sh_exchanges s a Ha).
    unfold is_Some. setoid_rewrite lookup_insert_Some.
    destruct (decide (x = y)) as [->|]; naive_solver.
  - intros x' n dq. rewrite (sh_queues s a Ha). by setoid_rewrite Hd.
  - intros id l. rewrite (sh_letters s a Ha). by setoid_rewrite Hd.
Qed.
End structure.

(** ** Leases given back one by one *)

Fixpoint ab_release_all (ids : list string) (a : Abs) : Abs :=
  match ids with
  | [] => a
  | id :: ids => ab_release_all ids (ab_release id a)
  end.

Lemma release_all_fields ids a :
  a_exchanges (ab_release_all ids a) = a_exchanges a ∧
  a_queues (ab_release_all ids a) = a_queues a.
Proof.
  revert a. induction ids as [|id ids IH]; intros a; simpl; [done|].
  by destruct (IH (ab_release id a)) as [-> ->].
Qed.

Lemma release_all_letter ids a id :
  a_letters (ab_release_all ids a) !! id =
  (if decide (id ∈ ids) then released else λ l, l) <$> a_letters a !! id.
Proof.
  revert a. induction ids as [|i ids IH]; intros a; cbn [ab_release_all].
  - destruct (decide (id ∈ [])) as [H|_]; [by apply not_elem_of_nil in H|].
    by destruct (a_letters a !! id).
  - rewrite IH. simpl. destruct (decide (i = id)) as [->|Hne].
    + rewrite lookup_alter_eq, (decide_True (P := id ∈ id :: ids)) by by left.
      destruct (a_letters a !! id) as [l|]; simpl; [|done]. f_equal. by case_decide.
    + rewrite lookup_alter_ne by done. f_equal. apply decide_ext.
      rewrite elem_of_cons. naive_solver.
Qed.

Lemma release_all_eq ids k c a :
  (∀ id l, a_letters a !! id = Some l →
     id ∈ ids ↔ lt_queue l = k ∧ lt_owner l = Some c) →
  ab_release_all ids a = ab_give_back k c a.
Proof.
  intros H. destruct (release_all_fields ids a) as [H1 H2].
  apply abs_eq; [done|done|]. simpl. apply map_eq. intros id.
  rewrite release_all_letter, lookup_fmap.
  destruct (a_letters a !! id) as [l|] eqn:Hl; simpl; [|done]. f_equal.
  unfold give_back. pose proof (H id l Hl) as Hid.
  destruct (decide (id ∈ ids)); [rewrite decide_True|rewrite decide_False]; tauto.
Qed.

(** ** The methods *)

Section methods.
Context `{E : GoEnv} `{!GoEnvOk E}.
Context (s : Core) (a : Abs) (Hs : core_good s) (Ha : shows s a).

Let Hwf : core_wf s := cg_wf s Hs.

Lemma effect_CreateExchange x :
  ∃ e s', run (Broker.CreateExchange x) s = Val (e, s') ∧ core_good s' ∧
          co_Exchanges s' !! x = Some e ∧ shows s' (ab_create x a).
Proof using All.
  rewrite CreateExchange_eq. destruct (co_Exchanges s !! x) as [e|] eqn:Hx.
  - exists e, s. split_and!; [done..|].
    assert (ab_create x a = a) as ->; [|done].
    apply abs_eq; [|done..]. simpl.
    assert (x ∈ a_exchanges a) by (apply (sh_exchanges s a Ha); by rewrite Hx). set_solver.
  - destruct Hs as [H1 H2 H3].
    destruct (wf_exchange_created x s H1) as [? _].
    eexists _, _. split; [done|]. split; [by split|].
    split; [apply lookup_insert_eq|]. by apply shows_created.
Qed.

Lemma effect_DeleteExchange x :
  ∃ r s', run (Broker.DeleteExchange x) s = Val (r, s') ∧ core_good s' ∧
    match r with Ok _ => shows s' (ab_drop_exchange x a) | Err _ => s' = s end.
Proof using All.
  unfold Broker.DeleteExchange. rewrite run_atomic. go_unfold.
  destruct (co_Exchanges s !! x) as [e|] eqn:Hx.
  - eexists _, _. split; [done|]. destruct Hs as [H1 H2 H3].
    destruct (wf_set_Exchanges (delete x (co_Exchanges s)) s H1) as [? _].
    { intros n e1 [_ H]%lookup_delete_Some. by eapply wf_exchanges. }
    split; [by split|]. by apply shows_deleted.
  - by eexists _, _.
Qed.

Lemma effect_RegisterQueue x e ex n d au m f :
  co_Exchanges s !! x = Some e → co_eheap s !! e = Some ex →
  ∃ r s', run (Exchange.RegisterQueue e n d au m f) s = Val (r, s') ∧ core_good s' ∧
    match r with
    | Err _ => s' = s
    | Ok ref => ∃ ex' q, bound e n ex' ref q s' ∧ q_Name q = n ∧ q_IsDurable q = d ∧
        shows s' (if d then ab_register (x, n) (config_of q) a else a) ∧
        (d = true → ∀ dq, a_queues a !! (x, n) = Some dq → dq = config_of q)
    end.
Proof using All.
  intros Hx Hex. unfold Exchange.RegisterQueue. rewrite run_atomic.
  rewrite (register_eq e n d au m f s ex) by done.
  destruct (ex_Queues ex !! n) as [r|] eqn:Hr.
  - destruct (wf_queues s Hwf _ _ _ _ Hex Hr) as (q & Hq & Hn). rewrite Hq.
    destruct (_ && equalFilters _ _) eqn:Hsame; [|by eexists _, _].
    repeat rewrite andb_true_iff in Hsame. destruct Hsame as [[[Hd _] _] _].
    apply bool_decide_eq_true in Hd.
    assert (bound e n ex r q s) as Hb by by split.
    assert (d = true → a_queues a !! (x, n) = Some (config_of q)) as Hin.
    { intros ->. apply (sh_queues s a Ha). exists r, q. split; [|done].
      exists e, ex. by split_and!. }
    eexists _, s. split; [done|]. split; [done|]. exists ex, q.
    split_and!; [done|done|done| |].
    + destruct d; [|done]. assert (ab_register (x, n) (config_of q) a = a) as ->; [|done].
      unfold ab_register. rewrite Hin by done. by apply abs_eq.
    + intros Hdt dq Hdq. rewrite Hin in Hdq by done. congruence.
  - destruct (d && au) eqn:Hda; [by eexists _, _|].
    destruct (decide (m < 0)%Z); [by eexists _, _|].
    destruct (negb (validFilters f)) eqn:Hf; [by eexists _, _|].
    apply negb_false_iff, validFilters_spec in Hf.
    set (q := fresh_queue n d au m f s).
    assert (config_ok q) as Hok by (split; simpl; [by intros [-> ->]|lia|done]).
    eexists _, _. split; [done|]. split; [by apply good_registered|].
    eexists _, q. split; [split; apply lookup_insert_eq|].
    split; [done|]. split; [done|]. split.
    + exact (shows_registered s a x e ex q Hwf Ha Hx Hex Hr eq_refl eq_refl).
    + intros -> dq Hdq. exfalso.
      apply (sh_queues s a Ha) in Hdq as (r & q' & (e' & ex' & Hx' & [? ? ?] & _) & _).
      simplify_eq.
Qed.

Lemma effect_DeleteQueue x e ex n r q :
  co_Exchanges s !! x = Some e → bound e n ex r q s →
  ∃ res s', run (Exchange.DeleteQueue e n) s = Val (res, s') ∧ core_good s' ∧
    co_qheap s' = co_qheap s ∧
    match res with
    | Err _ => s' = s
    | Ok _ => shows s' (if q_IsDurable q then ab_drop_queue (x, n) a else a)
    end.
Proof using All.
  intros Hx Hb. pose proof Hb as [Hex Hr Hq]. unfold Exchange.DeleteQueue.
  rewrite run_atomic. unfold Exchange.delete_locked.
  rewrite (GoM_bind_val _ _ s ex s) by (unfold read_exchange; by rewrite Hex). rewrite Hr.
  rewrite (GoM_bind_val _ _ s (bool_decide (q_Consumers q ≠ ∅)) s).
  2: { rewrite (run_on_queue r q _ _ _ _ _ Hq (HasConsumers_eq q (co_chans s))).
       by rewrite set_queue_same. }
  case_bool_decide; [by eexists _, _|].
  rewrite (GoM_bind_val _ _ s tt (unbound e n ex s)) by by apply run_write_delete.
  eexists _, _. split; [done|]. split; [by apply good_unbound|]. split; [done|].
  pose proof (shows_unbound s a x n e ex Hwf Ha Hx Hex) as Hsh.
  destruct (q_IsDurable q) eqn:Hd; [done|].
  by rewrite (drop_absent s a x n Ha (not_durable_at s x n e ex r q Hx Hb Hd)) in Hsh.
Qed.

Lemma effect_AddConsumer x e ex n r q c :
  co_Exchanges s !! x = Some e → bound e n ex r q s →
  ∃ res s', run (Exchange.AddConsumer e n c) s = Val (res, s') ∧ core_good s' ∧ shows s' a.
Proof using All.
  intros Hx Hb. pose proof Hb as [Hex Hr Hq]. unfold Exchange.AddConsumer.
  rewrite (run_with_queue e n ex r q) by done.
  rewrite run_bind, run_atomic,
    (run_on_queue r q _ _ _ _ _ Hq (AddConsumer_eq c q (co_chans s))).
  eexists _, _. split; [done|]. split.
  - apply (good_set_sub s r q); [done|done| | |done].
    + apply (wf_set_queue s r q); [done|done|by split|by left|].
      exact (wf_keyed s Hwf r q Hq).
    + apply inv_add_consumer. by apply (cg_inv s Hs r).
  - destruct (q_IsDurable q) eqn:Hd; [|by apply (shows_set_volatile s a r q)].
    assert (durable_at s x n r q) as Hda by by exists e, ex.
    apply (shows_set s a _ x n r q); try done. intros id l.
    pose proof (shows_queue_letters s a x n r q id l Ha Hda) as Hl.
    unfold holds_letter in *. simpl. rewrite Hl.
    destruct (decide (lt_queue l = (x, n))); naive_solver.
Qed.

(** The queue after [DisconnectConsumer]: the deliveries are back, and perhaps those
    who wait have been told. *)
Lemma after_disconnect_cases c returned q cs q' cs' :
  after_disconnect c returned q cs = (q', cs') →
  (q' = disconnected c returned q ∧ cs' = cs) ∨
  (q' = notified_q (disconnected c returned q) cs ∧ cs' = notified_cs q cs).
Proof. unfold after_disconnect. intros H. case_decide; simplify_eq; auto. Qed.

(** The ids that a leaving consumer gives back. *)
Lemma returned_ids q c names id :
  queue_inv q → names ≡ₚ keys (q_InFlight q) →
  id ∈ dl_ID <$> returned_of c (q_InFlight q) names ↔
  ∃ d, q_InFlight q !! id = Some d ∧ dl_ConsumerID d = c.
Proof.
  intros Hinv Hperm. rewrite (returned_of_perm c _ _ _ Hperm), list_elem_of_fmap.
  setoid_rewrite elem_of_returned; [|apply Hinv]. split.
  - intros (d & -> & d0 & ? & ? & _). eauto.
  - intros (d & Hd & Hc). exists (set_ConsumerID "" d). simpl.
    rewrite (inv_keyed q Hinv _ _ Hd). eauto.
Qed.

Section leaving.
Context (x : string) (e : eref) (ex : Exchange) (n : string) (r : qref) (q : Queue).
Context (Hx : co_Exchanges s !! x = Some e) (Hb : bound e n ex r q s).
Context (c : string) (names : list string) (Hperm : names ≡ₚ keys (q_InFlight q)).

Let returned : list Delivery := returned_of c (q_InFlight q) names.

(** Giving them back one by one is giving back all that the consumer held. *)
Lemma release_returned :
  q_IsDurable q = true → ab_release_all (dl_ID <$> returned) a = ab_give_back (x, n) c a.
Proof using All.
  intros Hdur. assert (durable_at s x n r q) as Hd by by exists e, ex.
  pose proof (cg_inv s Hs r q (b_queue _ _ _ _ _ _ Hb)) as Hinv.
  apply release_all_eq. intros id l Hl. unfold returned.
  rewrite (returned_ids q c names id Hinv Hperm).
  pose proof (λ l, shows_queue_letters _ _ _ _ _ _ id l Ha Hd) as Hk. split.
  - intros (d & Hd' & Hc).
    assert (holds_letter (x, n) q id (letter (x, n) d (Some (dl_ConsumerID d)))) as Hh
      by (right; eauto).
    apply Hk in Hh as [Hh _]. rewrite Hl in Hh. simplify_eq. done.
  - intros [H1 H2]. destruct (proj2 (Hk l) (conj Hl H1)) as
      [(d & _ & _ & ->)|(d & Hd' & ->)]; [done|]. simpl in H2. exists d.
    split; [done|]. congruence.
Qed.

Context (q' : Queue) (cs' : Chans).
Context (Hafter : after_disconnect c returned q (co_chans s) = (q', cs')).

Lemma after_disconnect_config : same_config q q'.
Proof using Hafter.
  by destruct (after_disconnect_cases _ _ _ _ _ _ Hafter) as [[-> _]|[-> _]].
Qed.

Lemma good_disconnected :
  (∃ ro, RangeOrder ro ∧ names = ro (keys (q_InFlight q))) →
  core_good (set_queue r q' cs' (tick s)).
Proof using All.
  intros (ro & Hro & Hnames). pose proof (after_disconnect_cases _ _ _ _ _ _ Hafter) as Hq'.
  pose proof (b_queue _ _ _ _ _ _ Hb) as Hq. pose proof (cg_inv s Hs r q Hq) as Hinv.
  assert (queue_inv (disconnected c returned q)) as Hdinv.
  { unfold returned. rewrite Hnames. by apply (inv_disconnected ro). }
  assert (queue_inv q') as Hinv' by (destruct Hq' as [[-> _]|[-> _]]; auto with queue).
  apply (good_set_sub (tick s) r q); [by apply good_tick|done| |done|].
  - apply (wf_set_queue (tick s) r q); [by apply wf_tick|done| | |apply Hinv'].
    + apply after_disconnect_config.
    + destruct Hq' as [[-> ->]|[-> ->]]; [by left|by right].
  - intros id. rewrite !ids_tags.
    assert (held q' = held (disconnected c returned q)) as ->
      by by destruct Hq' as [[-> _]|[-> _]].
    rewrite (held_disconnected c returned q); [done|]. by apply returned_of_perm.
Qed.

Lemma shows_disconnected :
  shows (set_queue r q' cs' (tick s))
    (if q_IsDurable q then ab_release_all (dl_ID <$> returned) a else a).
Proof using All.
  pose proof (after_disconnect_cases _ _ _ _ _ _ Hafter) as Hq'.
  pose proof after_disconnect_config as Hcfg.
  destruct (q_IsDurable q) eqn:Hdur.
  - rewrite release_returned by done.
    assert (durable_at (tick s) x n r q) as Hd
      by (exists e, ex; split; [done|]; split; [by apply bound_tick|done]).
    pose proof (wf_tick s Hwf) as Hwf'. pose proof (shows_tick s a Ha) as Ha'.
    pose proof (cg_inv s Hs r q (b_queue _ _ _ _ _ _ Hb)) as Hinv.
    apply (shows_disconnect (tick s) a x n r q) with (ids := names); try done;
      by destruct Hq' as [[-> _]|[-> _]].
  - apply (shows_set_volatile (tick s) a r q); try done;
      [by apply shows_tick|by apply Hb].
Qed.
End leaving.

Lemma effect_DisconnectConsumer x e ex n r q c :
  co_Exchanges s !! x = Some e → bound e n ex r q s →
  ∃ returned s' q', run (Exchange.DisconnectConsumer e n c) s = Val (Ok returned, s') ∧
    core_good s' ∧ co_qheap s' !! r = Some q' ∧ q_IsDurable q' = q_IsDurable q ∧
    shows s' (if q_IsDurable q then ab_release_all (dl_ID <$> returned) a else a).
Proof using All.
  intros Hx Hb. pose proof Hb as [Hex Hr Hq].
  pose proof (run_DisconnectConsumer e n ex r q c s Hwf Hb) as Hrun.
  cbv zeta in Hrun. set (names := range_at _ _) in Hrun.
  assert (names ≡ₚ keys (q_InFlight q)) as Hperm by apply range_perm.
  destruct (after_disconnect _ _ _ _) as [q' cs'] eqn:Hafter.
  pose proof (after_disconnect_config q c names q' cs' Hafter) as Hcfg.
  pose proof (good_disconnected x e ex n r q Hx Hb c names Hperm q' cs' Hafter) as Hs1.
  pose proof (shows_disconnected x e ex n r q Hx Hb c names Hperm q' cs' Hafter) as Hshow.
  specialize (Hs1 (ex_intro _ (range_at (co_ranges s)) (conj (range_order _) eq_refl))).
  set (s1 := set_queue r q' cs' (tick s)) in *.
  assert (co_qheap s1 !! r = Some q') as Hq1 by apply lookup_insert_eq.
  eexists _, _, q'. split; [exact Hrun|].
  destruct (q_IsAutoDelete q) eqn:Hauto; simpl.
  2: { split_and!; try done. apply Hcfg. }
  destruct (bool_decide _); [|split_and!; try done; apply Hcfg].
  assert (q_IsDurable q = false) as Hv.
  { apply not_true_is_false. intros Hd. destruct (wf_config s Hwf r q Hq) as [Hno _ _].
    by apply Hno. }
  split; [by apply good_unbound|]. split; [done|]. split; [apply Hcfg|].
  rewrite Hv in Hshow |- *.
  pose proof (shows_unbound s1 a x n e ex (cg_wf _ Hs1) Hshow Hx Hex) as Hun.
  rewrite (drop_absent s1 a x n Hshow) in Hun; [exact Hun|].
  apply (not_durable_at s1 x n e ex r q'); [done|by split|].
  by rewrite (sc_IsDurable _ _ Hcfg).
Qed.
End methods.
