(* ===== verification/MirrorService.v ===== *)
(** * The service keeps memory and tables in agreement

    [agree w]: the memory of the broker and the tables show the same durable
    state.  Every method of the service, run alone on such a world, leaves such a
    world unless it ends with an error of the storage. *)

From S2P Require Import Prelude Errors Process Routing CoreQueue QueueSpec.
From S2P Require Import CoreExchange CoreSafety ExchangeSpec AppConfig Repository Service.
From S2P Require Import Database Postgres ServiceSafety PostgresSpec.
From S2P Require Import Mirror MirrorCore MirrorHeap.

(** ** A goroutine that is alone

    [alone p w Q]: run by itself from [w], [p] never panics, and whenever it
    returns, however its waits end, the result and the state satisfy [Q]. *)

Section alone.
Context {S : Type}.

Definition alone {A} (p : prog S A) (s : S) (Q : A → S → Prop) : Prop :=
  wpc (λ _, True) eq (λ _ _, True) p Q s.

Lemma alone_ret {A} (a : A) s (Q : A → S → Prop) : Q a s → alone (Ret a) s Q.
Proof. done. Qed.

Lemma alone_mono {A} (p : prog S A) s (Q Q' : A → S → Prop) :
  alone p s Q → (∀ a s', Q a s' → Q' a s') → alone p s Q'.
Proof. intros H HQ. by eapply wpc_mono. Qed.

Lemma alone_run {A} (p : prog S A) s a s' Q :
  run p s = Val (a, s') → Q a s' → alone p s Q.
Proof.
  unfold alone. revert s. induction p as [A a0|A X f h IH|A c h IH|A X body IHb h IH];
    intros s H HQ; simpl in *; [by simplify_eq| |done|done].
  intros s1 <- _. destruct (f s) as [[x s2]|]; [|done]. exists x, s2. eauto.
Qed.

Lemma alone_bind {A B} (p : prog S A) (k : A → prog S B) s P Q :
  alone p s P → (∀ a s', P a s' → alone (k a) s' Q) → alone (p ≫= k) s Q.
Proof. intros Hp Hk. apply wpc_bind. eapply wpc_mono; [|done]. apply Hk. Qed.

Lemma alone_try {A B} (p : prog S (result A)) (k : A → prog S (result B)) s P Q :
  alone p s P → (∀ a s', P (Ok a) s' → alone (k a) s' Q) →
  (∀ e s', P (Err e) s' → Q (Err e) s') → alone (try p k) s Q.
Proof.
  intros Hp Hk He. eapply alone_bind; [done|]. intros [a|e] s' H; [by apply Hk|].
  by apply alone_ret, He.
Qed.

Lemma alone_select {A} (closed : S → bool) (k : wake → prog S A) s Q :
  (∀ w, alone (k w) s Q) → alone (Select closed k) s Q.
Proof. intros H w s1 <- _ _. apply H. Qed.

Lemma alone_loop {A X} (body : prog S (option X)) (k : X → prog S A) (J : S → Prop) s Q :
  J s →
  (∀ s, J s → alone body s (λ r s', match r with
                                   | Some x => alone (k x) s' Q
                                   | None => J s'
                                   end)) →
  alone (Loop body k) s Q.
Proof. intros HJ Hb. by exists J. Qed.

Lemma alone_for_each {A} (J : list A → S → Prop) (l : list A) body s
    (Q : result unit → S → Prop) :
  J l s →
  (∀ x l s, J (x :: l) s →
     alone (body x) s (λ r s', match r with Ok _ => J l s' | Err e => Q (Err e) s' end)) →
  (∀ s, J [] s → Q (Ok tt) s) →
  alone (for_each l body) s Q.
Proof.
  intros HJ Hb HQ. revert s HJ. induction l as [|x l IH]; intros s HJ; simpl.
  { by apply alone_ret, HQ. }
  eapply alone_try; [by apply Hb| |done]. intros [] s' H. by apply IH.
Qed.
End alone.

(** ** What the storage does *)

Record db_good `{P : PgEnv} (db : DB) : Prop := {
  dg_ok : tables_ok (db_tables db);
  dg_rows : rows_good (db_tables db);
}.

Section repository.
Context `{P : PgEnv}.

(** [p] has the effect [f] on the durable state, or reports a storage error. *)
Definition does (p : prog DB (result unit)) (db : DB) (f : Abs → Abs) : Prop :=
  ∃ r db', run p db = Val (r, db') ∧
    match r with
    | Ok _ => db_good db' ∧ abs_of (db_tables db') = f (abs_of (db_tables db))
    | Err e => ∃ text, e = StorageError text
    end.

Lemma run_Exec s db :
  ∃ r db', run (Exec s) db = Val (r, db') ∧
    match r with
    | Ok n => s (now_at (db_time db)) (db_tables db) = inr (n, db_tables db')
    | Err e => ∃ text, e = StorageError text
    end.
Proof.
  unfold Exec. rewrite run_atomic. unfold exec_stmt. cbv zeta.
  destruct (s (now_at (db_time db)) (db_tables db)) as [text|[n t]] eqn:Hst;
    destruct (fault_at (db_time db)); eexists _, _; (split; [reflexivity|]); simpl;
    first [done | eauto].
Qed.

Lemma does_stmt s f db :
  keeps s → effect s f → db_good db → does (Exec s ?; Ret (Ok tt)) db f.
Proof.
  intros Hk Hf [Hok Hrows]. destruct (run_Exec s db) as ([n|e] & db' & Hrun & H);
    unfold does; rewrite run_try, Hrun; eexists _, _; (split; [done|]); [|done].
  destruct (Hf _ _ _ _ Hok Hrows H). split; [|done]. split; [by eapply Hk|done].
Qed.

Lemma does_SaveExchange x db : db_good db → does (SaveExchange x) db (ab_create x).
Proof. apply does_stmt; [auto with broker|apply effect_insert_exchange]. Qed.

Lemma does_DeleteExchange x db :
  db_good db → does (DeleteExchange x) db (ab_drop_exchange x).
Proof. apply does_stmt; [auto with broker|apply effect_delete_exchange]. Qed.

Lemma does_DeleteQueue x n db :
  db_good db → does (DeleteQueue x n) db (ab_drop_queue (x, n)).
Proof. apply does_stmt; [auto with broker|apply effect_delete_queue]. Qed.

Lemma does_SaveReadyDelivery x n d db :
  db_good db →
  does (SaveReadyDelivery x n d) db (ab_set (dl_ID d) (letter (x, n) d None)).
Proof.
  intros Hdb. unfold letter. destruct d as [id [payload key] c att]; simpl.
  apply does_stmt; [auto with broker|apply effect_insert_ready|done].
Qed.

Lemma does_MarkReady id db : db_good db → does (MarkReady id) db (ab_release id).
Proof. apply does_stmt; [auto with broker|apply effect_update_ready]. Qed.

Lemma does_DeleteDelivery id db :
  db_good db → does (DeleteDelivery id) db (ab_remove id).
Proof. apply does_stmt; [auto with broker|apply effect_delete_delivery]. Qed.

Lemma does_SaveDeadLetter x l db : db_good db → does (SaveDeadLetter x l) db (λ a, a).
Proof.
  intros [Hok Hrows]. unfold does.
  change (SaveDeadLetter x l) with (pg_SaveDeadLetter x l). unfold pg_SaveDeadLetter.
  rewrite run_bind, run_atomic. cbn [draw_uuid].
  apply (does_stmt _ (λ a, a) (mkDB (db_tables db) (db_time db) (S (db_uuids db))));
    [auto with broker|apply effect_insert_dead|by split].
Qed.

(** A letter that is there can be leased. *)
Lemma does_MarkInFlight id c att db l :
  db_good db → a_letters (abs_of (db_tables db)) !! id = Some l →
  does (MarkInFlight id c att) db
    (ab_set id (mkLetter (lt_queue l) (lt_message l) att (Some c))).
Proof.
  intros [Hok Hrows] Hl. unfold does.
  change (MarkInFlight id c att) with (pg_MarkInFlight id c att). unfold pg_MarkInFlight.
  destruct (run_Exec (update_in_flight id c att) db) as ([n|e] & db' & Hrun & H);
    rewrite run_try, Hrun; [|by eexists _, _].
  destruct (effect_update_in_flight _ _ _ _ _ _ _ _ Hok Hrows H Hl) as (-> & Ha & Hr).
  eexists _, _. split; [done|]. split; [|done]. split; [|done].
  by eapply keeps_update_in_flight.
Qed.

Lemma does_SaveQueue x q db :
  db_good db → q_IsDurable q = true →
  (∀ dq, a_queues (abs_of (db_tables db)) !! (x, q_Name q) = Some dq → dq = config_of q) →
  does (SaveQueue x q) db (ab_register (x, q_Name q) (config_of q)).
Proof.
  intros [Hok Hrows] Hd Hcfg. unfold does. simpl.
  destruct (transaction_ok
    (insert_queue x (q_Name q) (q_IsDurable q) (q_IsAutoDelete q) (q_MaxAttempts q)
     :: (insert_filter x (q_Name q) <$> q_Filters q)) db) as (r & db' & Hrun & Hok');
    [|done|].
  { constructor; [auto with broker|]. apply Forall_fmap, Forall_true. auto with broker. }
  assert (run (pg_SaveQueue x q) db = Val (r, db')) as Hrun'
    by (unfold pg_SaveQueue; by rewrite run_atomic).
  exists r, db'. split; [done|].
  destruct (run_SaveQueue x q db r db' Hrun') as [(_ & text & ->)|[Hsaved [->|[text ->]]]];
    [eauto| |eauto].
  destruct (effect_saved x q (db_tables db) (db_tables db') Hok Hrows Hsaved Hd Hcfg)
    as [Ha Hr].
  split; [by split|done].
Qed.
End repository.

(** ** Agreement *)

Record agree `{E : GoEnv} `{P : PgEnv} (w : World DB) : Prop := {
  ag_core : core_good (w_core w);
  ag_db : db_good (w_repo w);
  ag_shows : shows (w_core w) (abs_of (db_tables (w_repo w)));
}.

Section service.
Context `{E : GoEnv} `{!GoEnvOk E} `{P : PgEnv} (limits : LimitsConfig).

(** An error of the storage, or agreement. *)
Definition settled {A} (r : result A) (w : World DB) : Prop :=
  match r with Err (StorageError _) => True | _ => agree w end.

Lemma settled_agree {A} (r : result A) w : agree w → settled r w.
Proof. intros Hw. by destruct r as [a|[]]. Qed.

(** ** Steps of the core and of the storage *)

Lemma run_core {A} (p : prog Core A) (w : World DB) a s :
  run p (w_core w) = Val (a, s) →
  run (BrokerService.core p) w = Val (a, mkWorld s (w_repo w)).
Proof.
  intros H. unfold BrokerService.core. rewrite run_zoom by apply _. unfold zoomM.
  change (view core_lens w) with (w_core w). by rewrite H.
Qed.

Lemma alone_core {A B} (p : prog Core A) (k : A → prog (World DB) B) w a s Q :
  run p (w_core w) = Val (a, s) → alone (k a) (mkWorld s (w_repo w)) Q →
  alone (BrokerService.core p ≫= k) w Q.
Proof.
  intros H Hk. eapply (alone_bind _ _ _ (λ a' w', a' = a ∧ w' = mkWorld s (w_repo w))).
  - eapply alone_run; [by apply run_core|done].
  - by intros a' w' [-> ->].
Qed.

Lemma alone_try_core {A B} (p : prog Core (result A)) (k : A → prog (World DB) (result B))
    w r s Q :
  run p (w_core w) = Val (r, s) →
  match r with
  | Ok a => alone (k a) (mkWorld s (w_repo w)) Q
  | Err e => Q (Err e) (mkWorld s (w_repo w))
  end → alone (try (BrokerService.core p) k) w Q.
Proof. intros H Hk. eapply alone_core; [done|]. by destruct r. Qed.

Lemma alone_repo (p : prog DB (result unit)) (w : World DB) f (Q : _ → _ → Prop) :
  does p (w_repo w) f →
  (∀ db', db_good db' → abs_of (db_tables db') = f (abs_of (db_tables (w_repo w))) →
     Q (Ok tt) (mkWorld (w_core w) db')) →
  (∀ text w', Q (Err (StorageError text)) w') →
  alone (BrokerService.repo p) w Q.
Proof.
  intros (r & db' & Hrun & H) Hok Herr.
  apply (alone_run _ _ r (mkWorld (w_core w) db')).
  - unfold BrokerService.repo. rewrite run_zoom by apply _. unfold zoomM.
    change (view repo_lens w) with (w_repo w). by rewrite Hrun.
  - destruct r as [[]|e]; [apply Hok; apply H|]. destruct H as [text ->]. apply Herr.
Qed.

Lemma alone_try_repo {B} (p : prog DB (result unit)) (k : unit → prog (World DB) (result B))
    w f Q :
  does p (w_repo w) f → (∀ text w', Q (Err (StorageError text)) w') →
  (∀ db', db_good db' → abs_of (db_tables db') = f (abs_of (db_tables (w_repo w))) →
     alone (k tt) (mkWorld (w_core w) db') Q) →
  alone (try (BrokerService.repo p) k) w Q.
Proof.
  intros Hp Herr Hk.
  apply (alone_try _ _ _ (λ r w', match r with
    | Ok _ => alone (k tt) w' Q
    | Err e => ∃ text, e = StorageError text
    end)); [|by intros []|by intros e w' [text ->]].
  eapply alone_repo; [done|done|]. intros text w'. by exists text.
Qed.

(** The storage call that a durable queue needs, and agreement after it. *)
Lemma alone_last {B} (p : prog DB (result unit)) (w : World DB) f (b : B) :
  core_good (w_core w) → does p (w_repo w) f →
  shows (w_core w) (f (abs_of (db_tables (w_repo w)))) →
  alone (try (BrokerService.repo p) (λ _, Ret (Ok b))) w settled.
Proof.
  intros Hc Hp Hs. eapply alone_try_repo; [done|done|]. intros db' Hdb Habs.
  apply alone_ret. split; [done|done|]. simpl. by rewrite Habs.
Qed.

(** ** Finding an exchange and a queue *)

Lemma alone_exchange {B} x (k : eref → prog (World DB) (result B)) w :
  agree w →
  (∀ e ex, co_Exchanges (w_core w) !! x = Some e → co_eheap (w_core w) !! e = Some ex →
     alone (k e) w settled) →
  alone (try (BrokerService.core (Broker.GetExchange x)) k) w settled.
Proof.
  intros Hw Hk.
  apply (alone_try_core _ _ _ (match co_Exchanges (w_core w) !! x with
    | Some e => Ok e | None => Err ExchangeNotFound end) (w_core w)).
  { unfold Broker.GetExchange. rewrite run_atomic. go_unfold.
    by destruct (co_Exchanges (w_core w) !! x). }
  destruct w as [s db]. simpl in *.
  destruct (co_Exchanges s !! x) as [e|] eqn:He; [|done].
  destruct (wf_exchanges s (cg_wf s (ag_core _ Hw)) _ _ He) as (ex & Hex & _).
  by eapply Hk.
Qed.

Lemma alone_queue {B} e ex n (k : qref → prog (World DB) (result B)) w :
  agree w → co_eheap (w_core w) !! e = Some ex →
  (∀ r q, bound e n ex r q (w_core w) → alone (k r) w settled) →
  alone (try (BrokerService.core (Exchange.GetQueue e n)) k) w settled.
Proof.
  intros Hw Hex Hk. eapply alone_try_core; [by apply run_GetQueue|].
  destruct w as [s db]. simpl in *. destruct (ex_Queues ex !! n) as [r|] eqn:Hr; [|done].
  destruct (wf_queues s (cg_wf s (ag_core _ Hw)) _ _ _ _ Hex Hr) as (q & Hq & _).
  by eapply Hk.
Qed.

Lemma alone_read {B} r q (k : Queue → prog (World DB) B) w Q :
  co_qheap (w_core w) !! r = Some q → alone (k q) w Q →
  alone (BrokerService.core (atomic (read_queue r)) ≫= k) w Q.
Proof.
  intros Hq Hk. eapply alone_core; [by apply run_read_queue|]. by destruct w.
Qed.

(** ** The methods *)

Lemma settled_CreateExchange x w :
  agree w → alone (BrokerService.CreateExchange x) w settled.
Proof.
  intros [Hc Hd Hs].
  destruct (effect_CreateExchange _ _ Hc Hs x) as (e & s' & Hrun & Hc' & _ & Hs').
  eapply alone_core; [exact Hrun|].
  by eapply alone_last; [|by apply does_SaveExchange|].
Qed.

Lemma agree_tick w : agree w → agree (mkWorld (tick (w_core w)) (w_repo w)).
Proof. intros [Hc Hd Hs]. split; [by apply good_tick|done|by apply shows_tick]. Qed.

Lemma settled_DeleteExchange x w :
  agree w → alone (BrokerService.DeleteExchange x) w settled.
Proof.
  intros Hw. apply alone_exchange; [done|]. intros e ex Hx Hex.
  destruct (run_HasActiveConsumers e ex (w_core w)) as (b & Hrun & _); [apply Hw|done|].
  eapply alone_core; [exact Hrun|].
  pose proof (agree_tick w Hw) as Hw'. destruct b; [done|]. destruct Hw' as [Hc Hd Hs].
  destruct (effect_DeleteExchange _ _ Hc Hs x) as (r & s' & Hrun' & Hc' & Hs').
  eapply alone_try_core; [exact Hrun'|]. destruct r as [[]|err].
  - by eapply alone_last; [|by apply does_DeleteExchange|].
  - apply settled_agree. by rewrite Hs'.
Qed.

Lemma settled_RegisterQueue x n d au m f w :
  agree w → alone (BrokerService.RegisterQueue limits x n d au m f) w settled.
Proof.
  intros Hw. apply alone_exchange; [done|]. intros e ex Hx Hex.
  destruct (decide _); [done|]. destruct Hw as [Hc Hd Hs].
  destruct (effect_RegisterQueue _ _ Hc Hs x e ex n d au m f Hx Hex)
    as (r & s' & Hrun & Hc' & H).
  eapply alone_try_core; [exact Hrun|].
  destruct r as [ref|err]; [|subst s'; apply settled_agree; by split].
  destruct H as (ex' & q & Hb & Hn & Hdur & Hs' & Hcfg).
  eapply alone_read; [by apply Hb|]. rewrite Hdur. destruct d.
  - eapply alone_last; [done| |]; rewrite <- Hn in *.
    + apply does_SaveQueue; auto.
    + done.
  - by split.
Qed.

Lemma settled_DeleteQueue x n w :
  agree w → alone (BrokerService.DeleteQueue x n) w settled.
Proof.
  intros Hw. apply alone_exchange; [done|]. intros e ex Hx Hex.
  apply (alone_queue e ex); [done..|]. intros r q Hb. destruct Hw as [Hc Hd Hs].
  destruct (effect_DeleteQueue _ _ Hc Hs x e ex n r q Hx Hb)
    as (res & s' & Hrun & Hc' & Hheap & H).
  eapply alone_try_core; [exact Hrun|].
  destruct res as [[]|err]; [|subst s'; apply settled_agree; by split].
  eapply (alone_read _ q); [simpl; rewrite Hheap; apply Hb|].
  destruct (q_IsDurable q).
  - by eapply alone_last; [|by apply does_DeleteQueue|].
  - by apply settled_agree.
Qed.

Lemma settled_AddConsumer x n c w :
  agree w → alone (BrokerService.AddConsumer x n c) w settled.
Proof.
  intros Hw. apply alone_exchange; [done|]. intros e ex Hx Hex.
  destruct (ex_Queues ex !! n) as [r|] eqn:Hr.
  - destruct (wf_queues _ (cg_wf _ (ag_core _ Hw)) _ _ _ _ Hex Hr) as (q & Hq & _).
    destruct Hw as [Hc Hd Hs].
    destruct (effect_AddConsumer _ _ Hc Hs x e ex n r q c Hx) as (res & s' & Hrun & ? & ?);
      [by split|].
    eapply alone_run; [by apply run_core|]. by apply settled_agree.
  - eapply alone_run;
      [apply run_core; unfold Exchange.AddConsumer; by apply (run_without_queue e n ex)|].
    apply settled_agree. by destruct w.
Qed.

Lemma settled_Ack x n id c w :
  agree w → alone (BrokerService.Ack x n id c) w settled.
Proof.
  intros Hw. apply alone_exchange; [done|]. intros e ex Hx Hex.
  apply (alone_queue e ex); [done..|]. intros r q Hb. destruct Hw as [Hc Hd Hs].
  destruct (effect_Ack _ _ x n e ex r q Hc Hs Hx Hb id c)
    as (res & s' & Hrun & Hc' & H & q' & Hq' & Hcfg).
  eapply alone_try_core; [exact Hrun|].
  destruct res as [[]|err]; [|subst s'; apply settled_agree; by split].
  eapply alone_read; [exact Hq'|]. rewrite (sc_IsDurable _ _ Hcfg).
  destruct (q_IsDurable q); [|by apply settled_agree].
  eapply alone_repo; [by apply does_DeleteDelivery| |done].
  intros db' Hdb Habs. split; [done|done|]. simpl. by rewrite Habs.
Qed.

Lemma settled_NAck x n id c w :
  agree w → alone (BrokerService.NAck x n id c) w settled.
Proof.
  intros Hw. apply alone_exchange; [done|]. intros e ex Hx Hex.
  apply (alone_queue e ex); [done..|]. intros r q Hb.
  pose proof (agree_tick w Hw) as Hw'. destruct Hw as [Hc Hd Hs].
  destruct (effect_NAck _ _ x n e ex r q Hc Hs Hx Hb id c)
    as (res & s' & Hrun & Hc' & H & q' & Hq' & Hcfg).
  eapply alone_try_core; [exact Hrun|].
  destruct res as [na|err]; [|subst s'; by apply settled_agree].
  destruct H as [Hid Hs'].
  eapply alone_read; [exact Hq'|]. rewrite (sc_IsDurable _ _ Hcfg), Hid.
  assert (∀ w', core_good (w_core w') → db_good (w_repo w') →
            shows (w_core w') (abs_of (db_tables (w_repo w'))) →
            alone (try (BrokerService.repo (SaveDeadLetter x (na_DeadLetter na)))
                     (λ _, Ret (Ok tt))) w' settled) as Hdead.
  { intros w' H1 H2 H3. by eapply alone_last; [|by apply does_SaveDeadLetter|]. }
  destruct (na_IsDead na), (q_IsDurable q).
  - eapply alone_try_repo; [by apply does_DeleteDelivery|done|]. intros db' Hdb Habs.
    apply Hdead; [done|done|]. simpl. by rewrite Habs.
  - by apply Hdead.
  - by eapply alone_last; [|by apply does_MarkReady|].
  - by apply settled_agree.
Qed.

Lemma settled_DisconnectConsumer x n c w :
  agree w → alone (BrokerService.DisconnectConsumer x n c) w settled.
Proof.
  intros Hw. apply alone_exchange; [done|]. intros e ex Hx Hex.
  apply (alone_queue e ex); [done..|]. intros r q Hb. destruct Hw as [Hc Hd Hs].
  destruct (effect_DisconnectConsumer _ _ Hc Hs x e ex n r q c Hx Hb)
    as (returned & s' & q' & Hrun & Hc' & Hq' & Hdur & Hs').
  eapply alone_try_core; [exact Hrun|]. simpl.
  eapply alone_read; [exact Hq'|]. rewrite Hdur.
  destruct (q_IsDurable q); simpl; [|by split].
  eapply (alone_try _ _ _ settled); [|by intros []|by intros [] ?].
  apply (alone_for_each (λ l w', core_good (w_core w') ∧ db_good (w_repo w') ∧
    shows (w_core w') (ab_release_all (dl_ID <$> l) (abs_of (db_tables (w_repo w')))))).
  - done.
  - intros d l w' (H1 & H2 & H3).
    eapply alone_repo; [by apply does_MarkReady| |done].
    intros db' Hdb Habs. split_and!; [done|done|]. simpl. by rewrite Habs.
  - intros w' (H1 & H2 & H3). by split.
Qed.

(** ** Publishing *)

(** The next UUID is drawn. *)
Definition drawn_uuid (s : Core) : Core :=
  mkCore (co_Exchanges s) (co_eheap s) (co_qheap s) (co_chans s)
    (co_enext s) (co_qnext s) (S (co_uuids s)) (co_ranges s).

Lemma good_drawn s : core_good s → core_good (drawn_uuid s).
Proof.
  intros [H1 H2 H3]. split; [|done|].
  - by destruct (wf_counters s (S (co_uuids s)) (co_ranges s) H1) as [? _]; [lia|].
  - intros r q id Hq Hid. destruct (H3 r q id Hq Hid) as (i & ? & ?). simpl. eauto with lia.
Qed.

(** No queue holds an id that has not been drawn. *)
Lemma unused_next s : core_good s → unused (drawn_uuid s) (uuid_at (co_uuids s)).
Proof.
  intros Hs r q Hq Hid. destruct (cg_ids s Hs r q _ Hq Hid) as (i & Hi & Heq).
  apply uuid_inj in Heq. lia.
Qed.

(** The loop of [Publish]: the queues it still has to serve have their names. *)
Definition publishing (x : string) (e : eref) (ex : Exchange)
    (l : list PublishedDelivery) (w : World DB) : Prop :=
  agree w ∧ co_Exchanges (w_core w) !! x = Some e ∧ co_eheap (w_core w) !! e = Some ex ∧
  Forall (λ p, ex_Queues ex !! pd_QueueName p = Some (pd_Queue p)) l.

Lemma publishing_item x e ex p l w :
  publishing x e ex (p :: l) w →
  alone (BrokerService.publish_item x e p) w (λ r w',
    match r with Ok _ => publishing x e ex l w' | Err err => settled (A := unit) (Err err) w' end).
Proof.
  intros (Hw & Hx & Hex & [Hp Hl]%Forall_cons).
  destruct (wf_queues _ (cg_wf _ (ag_core _ Hw)) _ _ _ _ Hex Hp) as (q & Hq & _).
  eapply alone_read; [exact Hq|]. destruct Hw as [Hc Hd Hs].
  set (id := uuid_at (co_uuids (w_core w))).
  set (d := mkDelivery id (pd_Message p) "" 0).
  set (s1 := drawn_uuid (w_core w)).
  assert (core_good s1) as Hc1 by by apply good_drawn.
  assert (∀ db, shows s1 (abs_of (db_tables db)) →
    ∃ s2, run (Exchange.EnqueueDelivery e (pd_QueueName p) d) s1 = Val (Ok tt, s2) ∧
      core_good s2 ∧ co_Exchanges s2 = co_Exchanges s1 ∧ co_eheap s2 = co_eheap s1 ∧
      shows s2 (if q_IsDurable q
                then ab_set id (letter (x, pd_QueueName p) d None) (abs_of (db_tables db))
                else abs_of (db_tables db))) as Henq.
  { intros db Hs1.
    destruct (effect_Enqueue s1 (abs_of (db_tables db)) x (pd_QueueName p) e ex
      (pd_Queue p) q Hc1 Hs1 Hx) with (d := d) as (s2 & ? & ? & _ & ? & ? & _ & ?);
      [by split|done|by apply unused_next| |eauto 10].
    exists (co_uuids (w_core w)). split; [simpl; lia|done]. }
  assert (run (atomic new_uuid) (w_core w) = Val (id, s1)) as Hnew by by rewrite run_atomic.
  assert (shows s1 (abs_of (db_tables (w_repo w)))) as Hs1 by by apply (shows_same (w_core w)).
  destruct (q_IsDurable q); cbn [negb]; (eapply alone_core; [exact Hnew|]).
  - eapply alone_try_repo; [by apply does_SaveReadyDelivery|done|]. intros db' Hdb Habs.
    cbn [w_repo w_core] in *.
    destruct (Henq (w_repo w) Hs1) as (s2 & Hrun & Hc2 & Hx2 & He2 & Hs2).
    eapply alone_try_core; [exact Hrun|].
    split; [split; [done|done|]|]; simpl; [by rewrite Habs|].
    rewrite Hx2, He2. by split_and!.
  - destruct (Henq (w_repo w) Hs1) as (s2 & Hrun & Hc2 & Hx2 & He2 & Hs2).
    eapply alone_try_core; [exact Hrun|].
    split; [by split|]. simpl. rewrite Hx2, He2. by split_and!.
Qed.

Lemma settled_Publish x key payload w :
  agree w → alone (BrokerService.Publish limits x key payload) w settled.
Proof.
  intros Hw. unfold BrokerService.Publish. destruct (decide _); [done|].
  destruct (decide _); [done|].
  apply alone_exchange; [done|]. intros e ex Hx Hex.
  pose proof (cg_wf _ (ag_core _ Hw)) as Hwf.
  pose proof (run_Route e ex key payload (w_core w) Hex Hwf) as Hrun.
  destruct (RoutingKey.IsValid key).
  2: { eapply alone_try_core; [exact Hrun|]. by destruct w. }
  eapply alone_try_core; [exact Hrun|].
  eapply (alone_try _ _ _ settled); [|by intros []|by intros []].
  apply (alone_for_each (publishing x e ex)).
  - split; [by apply agree_tick|]. split; [done|]. split; [done|].
    destruct (routed_to_snapshot key payload ex e (w_core w)
      (range_at (co_ranges (w_core w)) (keys (ex_Queues ex))) Hwf Hex (range_perm _))
      as [_ Hexact _].
    apply Forall_forall. intros p Hp.
    assert (destination p ∈ destination <$> omap (routed key (mkMessage payload key) (w_core w))
              (omap (λ n, ex_Queues ex !! n)
                 (range_at (co_ranges (w_core w)) (keys (ex_Queues ex))))) as Hin
      by by apply list_elem_of_fmap_2.
    by apply Hexact in Hin as [? _].
  - intros p l w' H. by apply publishing_item.
  - by intros w' [H _].
Qed.

(** ** Fetching *)

Lemma settled_fetch x n c timeout e r w :
  agree w → co_Exchanges (w_core w) !! x = Some e →
  (∃ ex q, bound e n ex r q (w_core w)) →
  alone (BrokerService.fetch_iteration limits e r n c timeout) w (λ o w',
    match o with
    | Some res => settled res w'
    | None => agree w' ∧ co_Exchanges (w_core w') !! x = Some e ∧
              ∃ ex q, bound e n ex r q (w_core w')
    end).
Proof.
  intros Hw Hx (ex & q & Hb). pose proof (agree_tick w Hw) as Hw'.
  destruct Hw as [Hc Hd Hs].
  destruct (effect_Fetch _ _ x n e ex r q Hc Hs Hx Hb c (MaxInFlight limits))
    as (d & ch & err & s' & Hrun & Hc' & H & q' & Hq' & Hcfg).
  eapply alone_core; [exact Hrun|]. destruct err as [err|]; cbv beta iota.
  - subst s'. destruct (negb (errors_Is err QueueEmpty)); [by apply settled_agree|].
    destruct (decide _); [done|]. apply alone_select. intros [ce| |]; [done|done|].
    split; [done|]. split; [done|]. exists ex, q. by destruct Hb.
  - destruct H as (d0 & rest & Hready & -> & Hs').
    eapply alone_read; [exact Hq'|]. rewrite (sc_IsDurable _ _ Hcfg).
    destruct (q_IsDurable q) eqn:Hdur; [|by split].
    assert (a_letters (abs_of (db_tables (w_repo w))) !! dl_ID d0
            = Some (letter (x, n) d0 None)) as Hl.
    { apply (sh_letters _ _ Hs). exists x, n, r, q. split; [by exists e, ex|].
      left. exists d0. rewrite Hready. split; [by left|done]. }
    eapply (alone_bind _ _ _ (λ m w', match m with
      | Ok _ => agree w'
      | Err er => ∃ text, er = StorageError text end)).
    + eapply alone_repo; [by eapply does_MarkInFlight| |].
      * intros db' Hdb Habs. split; [done|done|]. cbn [w_core w_repo] in *. by rewrite Habs.
      * intros text w'. by exists text.
    + intros [u|er] w' Hm; [done|]. destruct Hm as [text ->]. done.
Qed.

Lemma settled_BlockingFetch x n c timeout w :
  agree w → alone (BrokerService.BlockingFetch limits x n c timeout) w settled.
Proof.
  intros Hw. apply alone_exchange; [done|]. intros e ex Hx Hex.
  apply (alone_queue e ex); [done..|]. intros r q Hb.
  apply (alone_loop _ _ (λ w, agree w ∧ co_Exchanges (w_core w) !! x = Some e ∧
                              ∃ ex q, bound e n ex r q (w_core w))); [eauto|].
  intros w' (H1 & H2 & H3).
  eapply alone_mono; [by eapply settled_fetch|]. intros [res|] w2 H; done.
Qed.

Lemma settled_StreamFetch x n c w :
  agree w → alone (BrokerService.StreamFetch limits x n c) w settled.
Proof.
  intros Hw. apply (alone_loop _ _ agree); [done|]. intros w1 Hw1.
  eapply alone_bind; [by apply settled_BlockingFetch|].
  intros [d|err] w2 H2; [done|].
  destruct (errors_Is err QueueEmpty) eqn:He; simpl; [|done].
  apply bool_decide_eq_true in He. by subst err.
Qed.
End service.
