(* ===== verification/Recovery.v ===== *)
(** * Crashes and restarts

    A crash loses the memory and keeps the tables.  Starting from a world in which
    the two agreed, [Restore] rebuilds every exchange, every durable queue and
    every durable message, with nobody holding any of them. *)

From S2P Require Import Prelude Errors Process Routing CoreQueue QueueSpec.
From S2P Require Import CoreExchange CoreSafety Scenario ExchangeSpec AppConfig Repository.
From S2P Require Import Service Database Postgres ServiceSafety PostgresSpec.
From S2P Require Import Mirror MirrorCore MirrorHeap MirrorService.

(** Nobody holds any letter. *)
Definition ab_all_ready (a : Abs) : Abs :=
  mkAbs (a_exchanges a) (a_queues a) (released <$> a_letters a).

(** The world right after a restart: the UUIDs of the previous process are not
    drawn again. *)
Definition restarted (w : World DB) : World DB :=
  mkWorld (Broker.NewBroker (co_uuids (w_core w)) (co_ranges (w_core w))) (w_repo w).

(** ** What the tables hold can be restored *)

(** A queue that the restored broker will accept. *)
Record restorable (q : QueueState) : Prop := {
  rs_durable : qst_IsDurable q = true;
  rs_auto : qst_IsAutoDelete q = false;
  rs_attempts : (0 ≤ qst_MaxAttempts q)%Z;
  rs_filters : Forall (λ f, RoutingFilter.IsValid f = true) (qst_Filters q);
}.

Definition state_config (q : QueueState) : DurableQueue :=
  mkDurable (qst_IsAutoDelete q) (qst_MaxAttempts q) (list_to_set (qst_Filters q)).

(** The queues and the letters that a part of the loaded state accounts for. *)
Definition queues_of (qs : list QueueState) : gmap (string * string) DurableQueue :=
  list_to_map ((λ q, (state_key q, state_config q)) <$> qs).

Definition letters_of (rows : list (string * DeliveryRow)) : gmap string Letter :=
  list_to_map ((λ row, (row.1, released (letter_of row.2))) <$> rows).

Section recovery.
Context `{E : GoEnv} `{!GoEnvOk E} `{P : PgEnv} `{!PgEnvOk P}.

Lemma loaded_config t q row :
  queue_loaded t q row → durable_of t (state_key q) row = state_config q.
Proof.
  intros [_ _ Ha Hm Hf _]. unfold durable_of, state_config. rewrite Ha, Hm. f_equal.
  apply set_eq. intros f. by rewrite !elem_of_list_to_set, elem_of_filters_of, Hf.
Qed.

Lemma loaded_restorable s t q row :
  core_good s → shows s (abs_of t) → rows_good t → queue_loaded t q row → restorable q.
Proof.
  intros Hs Ha Hrows Hq. pose proof (loaded_config t q row Hq) as Hcfg.
  assert (a_queues (abs_of t) !! state_key q = Some (state_config q)) as Hin.
  { rewrite abs_queue. unfold state_key. rewrite (ql_row t q row Hq). simpl. by f_equal. }
  apply (sh_queues s _ Ha) in Hin as (r & mq & (e & ex & _ & [_ _ Hr] & Hd) & Heq).
  destruct (wf_config s (cg_wf s Hs) r mq Hr) as [Hno Hm Hf].
  unfold state_config, config_of in Heq. injection Heq as Ha' Hm' Hf'. split.
  - rewrite (ql_durable t q row Hq). eapply (rd_queue t Hrows), Hq.
  - rewrite Ha'. destruct (q_IsAutoDelete mq); [|done]. exfalso. by apply Hno.
  - by rewrite Hm'.
  - apply Forall_forall. intros f Hin. rewrite Forall_forall in Hf. apply Hf.
    assert (f ∈ (list_to_set (q_Filters mq) : gset string)) as H.
    { rewrite <- Hf'. by apply elem_of_list_to_set. }
    by apply elem_of_list_to_set in H.
Qed.

Lemma queues_of_loaded t qs : queues_loaded t qs → queues_of qs = a_queues (abs_of t).
Proof.
  intros [Hnd Hkeys Hqs]. apply map_eq. intros k. unfold queues_of.
  assert (NoDup ((λ q, (state_key q, state_config q)) <$> qs).*1) as Hnd'
    by by rewrite <- list_fmap_compose.
  rewrite abs_queue. destruct (t_queues t !! k) as [row|] eqn:Hk; simpl.
  - assert (k ∈ state_key <$> qs) as (q & -> & Hq)%list_elem_of_fmap
      by (apply Hkeys; by rewrite Hk).
    apply elem_of_list_to_map; [done|]. apply list_elem_of_fmap. exists q.
    split; [|done]. f_equal. rewrite Forall_forall in Hqs.
    destruct (Hqs q Hq) as (row' & Hrow). pose proof (ql_row t q row' Hrow) as Hrow'.
    unfold state_key in Hk. rewrite Hk in Hrow'. simplify_eq. by apply loaded_config.
  - apply not_elem_of_list_to_map_1. rewrite <- list_fmap_compose.
    change (k ∉ state_key <$> qs). rewrite Hkeys, Hk. by intros [? ?].
Qed.

Lemma letters_of_rows t rows :
  rows ≡ₚ map_to_list (t_deliveries t) →
  letters_of rows = released <$> a_letters (abs_of t).
Proof.
  intros Hrows. unfold letters_of.
  assert (((λ row, (row.1, released (letter_of row.2))) <$> rows) =
          prod_map id (released ∘ letter_of) <$> rows) as ->.
  { apply list_fmap_ext. by intros _ [id row] _. }
  rewrite list_to_map_fmap. simpl. rewrite map_fmap_compose. do 2 f_equal.
  rewrite (list_to_map_proper rows (map_to_list (t_deliveries t))); [|..|done].
  - apply list_to_map_to_list.
  - rewrite Hrows. apply NoDup_fst_map_to_list.
Qed.

(** ** The three loops *)

Lemma release_all_snoc m id a :
  ab_release_all (m ++ [id]) a = ab_release id (ab_release_all m a).
Proof. revert a. induction m as [|i m IH]; intros a; simpl; [done|]. apply IH. Qed.

Lemma run_GetExchange x e s :
  co_Exchanges s !! x = Some e → run (Broker.GetExchange x) s = Val (Ok e, s).
Proof.
  intros He. unfold Broker.GetExchange. rewrite run_atomic. go_unfold. by rewrite He.
Qed.

(** The server executes and answers every statement. *)
Definition server_up : Prop := ∀ n, fault_at n = NoFault.

(** Restoring fails because the storage does. *)
Definition storage_failed (e : error) : Prop :=
  (∃ text, e = StorageError text) ∧ ¬ server_up.

(** The world [w] before the crash. *)
Context (w : World DB) (Hw : agree w).

Let before : Abs := abs_of (db_tables (w_repo w)).

(** On the way: memory shows [a], the deliveries [marked] have been restored. *)
Record rebuilt (a : Abs) (marked : list string) (w1 : World DB) : Prop := {
  rb_core : core_good (w_core w1);
  rb_shows : shows (w_core w1) a;
  rb_durable r q : co_qheap (w_core w1) !! r = Some q → q_IsDurable q = true;
  rb_ids r q id : co_qheap (w_core w1) !! r = Some q → id ∈ ids q → id ∈ marked;
  rb_uuids : co_uuids (w_core w1) = co_uuids (w_core w);
  rb_db : db_good (w_repo w1);
  rb_tables : abs_of (db_tables (w_repo w1)) = ab_release_all marked before;
}.

Lemma rebuilt_exchange x a m w1 :
  rebuilt a m w1 →
  alone (BrokerService.restore_exchange x) w1
    (λ r w2, r = Ok tt ∧ rebuilt (ab_create x a) m w2).
Proof using All.
  intros [H1 H2 H3 H4 H5 H6 H7]. unfold BrokerService.restore_exchange.
  destruct (effect_CreateExchange _ _ H1 H2 x) as (e & s' & Hrun & Hc & _ & Hs).
  eapply alone_core; [exact Hrun|]. split; [done|].
  rewrite CreateExchange_eq in Hrun.
  destruct (co_Exchanges (w_core w1) !! x); simplify_eq; by split.
Qed.

Lemma rebuilt_queue qs a m w1 :
  restorable qs → qst_ExchangeName qs ∈ a_exchanges a → a_queues a !! state_key qs = None →
  rebuilt a m w1 →
  alone (BrokerService.restore_queue qs) w1
    (λ r w2, r = Ok tt ∧ rebuilt (ab_register (state_key qs) (state_config qs) a) m w2).
Proof using All.
  intros [Hd Hau Hm Hf] Hx Hfree [H1 H2 H3 H4 H5 H6 H7].
  destruct w1 as [s1 db1]. cbn [w_core w_repo] in *.
  apply (sh_exchanges s1 a H2) in Hx as [e He].
  destruct (wf_exchanges s1 (cg_wf s1 H1) _ _ He) as (ex & Hex & _).
  unfold BrokerService.restore_queue.
  eapply alone_try_core; [by apply run_GetExchange|]. cbn [w_core w_repo].
  assert (ex_Queues ex !! qst_Name qs = None) as Hnew.
  { apply eq_None_not_Some. intros [r Hr].
    destruct (wf_queues s1 (cg_wf s1 H1) _ _ _ _ Hex Hr) as (q & Hq & _).
    assert (a_queues a !! state_key qs = Some (config_of q)) as Hin; [|congruence].
    apply (sh_queues s1 a H2). exists r, q. split; [|done].
    exists e, ex. split; [done|]. split; [by split|]. by eapply H3. }
  set (q := fresh_queue (qst_Name qs) (qst_IsDurable qs) (qst_IsAutoDelete qs)
              (qst_MaxAttempts qs) (qst_Filters qs) s1).
  assert (config_ok q) as Hok.
  { split; [|exact Hm|exact Hf]. intros [_ Hc].
    change (qst_IsAutoDelete qs = true) in Hc. congruence. }
  assert (run (Exchange.RegisterQueue e (qst_Name qs) (qst_IsDurable qs)
    (qst_IsAutoDelete qs) (qst_MaxAttempts qs) (qst_Filters qs)) s1
    = Val (Ok (co_qnext s1), registered e ex q s1)) as Hrun.
  { unfold Exchange.RegisterQueue. rewrite run_atomic, (register_eq _ _ _ _ _ _ _ ex);
      [|by apply H1|done]. unfold q. rewrite Hnew, Hd, Hau. simpl.
    rewrite decide_False by lia. by apply validFilters_spec in Hf as ->. }
  eapply alone_try_core; [exact Hrun|]. split; [done|].
  pose proof (shows_registered s1 a _ e ex q (cg_wf s1 H1) H2 He Hex Hnew eq_refl eq_refl)
    as Hs. change (q_IsDurable q) with (qst_IsDurable qs) in Hs. rewrite Hd in Hs.
  split; cbn [w_core w_repo co_qheap registered]; try done.
  - by apply good_registered.
  - intros r1 q1 [[<- <-]|[_ Hq1]]%lookup_insert_Some; [done|eauto].
  - intros r1 q1 id [[<- <-]|[_ Hq1]]%lookup_insert_Some Hid; [|eauto].
    unfold ids, held in Hid. simpl in Hid. by apply not_elem_of_nil in Hid.
Qed.

(** Marking a stored delivery fails only with the server. *)
Lemma run_MarkReady id db :
  db_good db → text_ok id = true →
  ∃ r db', run (MarkReady id) db = Val (r, db') ∧
    match r with
    | Ok _ => db_good db' ∧ abs_of (db_tables db') = ab_release id (abs_of (db_tables db))
    | Err e => storage_failed e
    end.
Proof using All.
  intros Hdb Hid. destruct (does_MarkReady id db Hdb) as (r & db' & Hrun & H).
  exists r, db'. split; [done|]. destruct r as [u|e]; [done|]. split; [done|]. intros Hup.
  change (MarkReady id) with (pg_MarkReady id) in Hrun. unfold pg_MarkReady, Exec in Hrun.
  rewrite run_try, run_atomic in Hrun. unfold exec_stmt, update_ready in Hrun.
  simpl in Hrun. rewrite Hup, Hid in Hrun. simpl in Hrun.
  by destruct (update_delivery _ _ _).
Qed.

Lemma rebuilt_delivery id row a m w1 :
  is_Some (a_queues a !! dr_queue row) → id ∉ m → text_ok id = true →
  (∃ i, i < co_uuids (w_core w) ∧ id = uuid_at i) →
  rebuilt a m w1 →
  alone (BrokerService.restore_delivery (delivery_state (id, row))) w1 (λ r w2,
    match r with
    | Ok _ => rebuilt (ab_set id (released (letter_of row)) a) (m ++ [id]) w2
    | Err e => storage_failed e
    end).
Proof using All.
  intros [dq Hdq] Hm Htext Hdrawn [H1 H2 H3 H4 H5 H6 H7].
  destruct w1 as [s1 db1]. cbn [w_core w_repo] in *.
  pose proof Hdq as (r & q & (e & ex & He & Hb & Hdur) & _)%(sh_queues s1 a H2).
  unfold BrokerService.restore_delivery.
  eapply alone_try_core; [by apply run_GetExchange|]. cbn [w_core w_repo].
  eapply alone_try_core; [by apply (run_GetQueue e _ ex), Hb|]. cbn [w_core w_repo].
  simpl dst_QueueName. rewrite (b_ref _ _ _ _ _ _ Hb).
  set (d := dst_Delivery (delivery_state (id, row))).
  destruct (effect_Enqueue s1 a (dr_exchange_name row) (dr_queue_name row) e ex r q
    H1 H2 He Hb) with (d := d) as (s2 & Hrun & Hc2 & Hheap & _ & _ & Hu2 & Hs2);
    [done|..].
  { intros r' q' Hq' Hid. by apply Hm, (H4 r' q'). }
  { destruct Hdrawn as (i & Hi & ->). exists i. by rewrite H5. }
  rewrite Hdur in Hs2. unfold Exchange.EnqueueDelivery in Hrun.
  rewrite (run_with_queue e _ ex r q) in Hrun by done.
  rewrite run_bind, run_atomic in Hrun.
  destruct (on_queue r (Queue.EnqueueDelivery d) s1) as [[u s3]|] eqn:Hq; [|done].
  injection Hrun as ->.
  eapply alone_core; [rewrite run_atomic; exact Hq|].
  cbn [w_core w_repo].
  destruct (run_MarkReady id db1 H6 Htext) as (res & db2 & Hmark & Hres).
  eapply (alone_try _ _ _ (λ res' w2, res' = res ∧ w2 = mkWorld s2 db2)).
  { eapply alone_run; [|done]. unfold BrokerService.repo. rewrite run_zoom by apply _.
    unfold zoomM. change (view repo_lens (mkWorld s2 db1)) with db1.
    change (dl_ID d) with id. by rewrite Hmark. }
  - intros u' w2 [<- ->]. destruct Hres as [Hdb2 Habs].
    split; cbn [w_core w_repo]; try done.
    + intros r' q'. rewrite Hheap. intros [[<- <-]|[_ Hq']]%lookup_insert_Some; eauto.
    + intros r' q' id'. rewrite Hheap, elem_of_app, list_elem_of_singleton.
      intros [[<- <-]|[_ Hq']]%lookup_insert_Some Hid; [|by eauto].
      unfold ids in Hid. rewrite held_notified, held_push in Hid. csimpl in Hid.
      apply elem_of_cons in Hid as [->|Hid]; [by right|left].
      eapply H4; [apply Hb|done].
    + by rewrite Hu2.
    + by rewrite Habs, H7, release_all_snoc.
  - intros err w2 [<- ->]. exact Hres.
Qed.

Lemma rebuilt_nothing : rebuilt (mkAbs ∅ ∅ ∅) [] (restarted w).
Proof using All.
  assert (∀ x n r q, ¬ durable_at (w_core (restarted w)) x n r q) as Hno
    by by intros x n r q (e & ex & He & _).
  split; [| |done|done|done|apply Hw|done].
  - split; [apply core_wf_new|done|done].
  - split.
    + intros x. simpl. rewrite lookup_empty. split; [set_solver|by intros [? ?]].
    + intros x n dq. simpl. rewrite lookup_empty. split; [done|].
      intros (r & q & H & _). by apply Hno in H.
    + intros id l. simpl. rewrite lookup_empty. split; [done|].
      intros (x & n & r & q & H & _). by apply Hno in H.
Qed.

(** The result of a step of [Restore]. *)
Definition restoring (a : Abs) (m : list string) (r : result unit) (w1 : World DB) : Prop :=
  match r with Ok _ => rebuilt a m w1 | Err e => storage_failed e end.

Lemma restore_exchanges xs w1 :
  rebuilt (mkAbs ∅ ∅ ∅) [] w1 →
  alone (for_each xs BrokerService.restore_exchange) w1
    (restoring (mkAbs (list_to_set xs) ∅ ∅) []).
Proof using All.
  intros H1. apply (alone_for_each (λ l w2, ∃ past, xs = past ++ l ∧
    rebuilt (mkAbs (list_to_set past) ∅ ∅) [] w2)).
  - by exists [].
  - intros x l w2 (past & -> & H). eapply alone_mono; [by apply rebuilt_exchange|].
    intros r w3 [-> H3]. exists (past ++ [x]). rewrite <- app_assoc. split; [done|].
    unfold ab_create in H3. cbn [a_exchanges a_queues a_letters] in H3.
    assert (list_to_set (past ++ [x]) = {[x]} ∪ (list_to_set past : gset string)) as ->
      by set_solver.
    exact H3.
  - intros w2 (past & -> & H). by rewrite app_nil_r.
Qed.

Lemma queues_of_snoc past q :
  state_key q ∉ (state_key <$> past) →
  queues_of (past ++ [q]) = <[state_key q := state_config q]> (queues_of past) ∧
  queues_of past !! state_key q = None.
Proof.
  intros Hq. unfold queues_of.
  assert (state_key q ∉ ((λ q, (state_key q, state_config q)) <$> past).*1) as Hnot
    by by rewrite <- list_fmap_compose.
  rewrite fmap_app. csimpl. split; [by apply list_to_map_snoc|].
  by apply not_elem_of_list_to_map_1.
Qed.

Lemma letters_of_snoc past row :
  row.1 ∉ past.*1 →
  letters_of (past ++ [row]) = <[row.1 := released (letter_of row.2)]> (letters_of past).
Proof.
  intros Hrow. unfold letters_of. rewrite fmap_app. csimpl. apply list_to_map_snoc.
  by rewrite <- list_fmap_compose.
Qed.

Lemma restore_queues X qs w1 :
  NoDup (state_key <$> qs) → Forall restorable qs →
  Forall (λ q, qst_ExchangeName q ∈ X) qs → rebuilt (mkAbs X ∅ ∅) [] w1 →
  alone (for_each qs BrokerService.restore_queue) w1
    (restoring (mkAbs X (queues_of qs) ∅) []).
Proof using All.
  intros Hnd Hok Hx H1. apply (alone_for_each (λ l w2, ∃ past, qs = past ++ l ∧
    rebuilt (mkAbs X (queues_of past) ∅) [] w2)).
  - by exists [].
  - intros q l w2 (past & -> & H). rewrite fmap_app in Hnd. csimpl in Hnd.
    apply Forall_app in Hok as [_ [Hq _]%Forall_cons].
    apply Forall_app in Hx as [_ [Hxq _]%Forall_cons].
    destruct (queues_of_snoc past q) as [Hsnoc Hfree].
    { apply NoDup_app in Hnd as (_ & Hnd & _). intros Hin. apply (Hnd _ Hin). by left. }
    eapply alone_mono;
      [exact (rebuilt_queue q (mkAbs X (queues_of past) ∅) [] w2 Hq Hxq Hfree H)|].
    intros r w3 [-> H3]. exists (past ++ [q]). rewrite <- app_assoc. split; [done|].
    unfold ab_register in H3. cbn [a_exchanges a_queues a_letters] in H3.
    rewrite Hfree in H3. by rewrite Hsnoc.
  - intros w2 (past & -> & H). by rewrite app_nil_r.
Qed.

(** A stored delivery that can be restored. *)
Definition restorable_row (Q : gmap (string * string) DurableQueue)
    (row : string * DeliveryRow) : Prop :=
  is_Some (Q !! dr_queue row.2) ∧ text_ok row.1 = true ∧
  ∃ i, i < co_uuids (w_core w) ∧ row.1 = uuid_at i.

Lemma restore_deliveries X Q rows w1 :
  NoDup rows.*1 → Forall (restorable_row Q) rows → rebuilt (mkAbs X Q ∅) [] w1 →
  alone (for_each (map delivery_state rows) BrokerService.restore_delivery) w1
    (restoring (mkAbs X Q (letters_of rows)) rows.*1).
Proof using All.
  intros Hnd Hok H1. apply (alone_for_each (λ l w2, ∃ past rest,
    rows = past ++ rest ∧ l = map delivery_state rest ∧
    rebuilt (mkAbs X Q (letters_of past)) past.*1 w2)).
  - by exists [], rows.
  - intros ds l w2 (past & rest & -> & Hl & H). destruct rest as [|[id row] rest]; [done|].
    injection Hl as -> ->. rewrite fmap_app in Hnd. csimpl in Hnd.
    apply Forall_app in Hok as [_ [(Hq & Ht & Hdrawn) _]%Forall_cons].
    assert (id ∉ past.*1) as Hid.
    { apply NoDup_app in Hnd as (_ & Hnd & _). intros Hin. apply (Hnd _ Hin). by left. }
    eapply alone_mono; [exact (rebuilt_delivery id row (mkAbs X Q (letters_of past))
      past.*1 w2 Hq Hid Ht Hdrawn H)|].
    intros [u|err] w3 H3; [|done]. exists (past ++ [(id, row)]), rest.
    rewrite <- app_assoc. split; [done|]. split; [done|].
    by rewrite letters_of_snoc, fmap_app.
  - intros w2 (past & rest & -> & Hl & H). destruct rest; [|done]. by rewrite app_nil_r.
Qed.

(** ** [Restore] *)

Lemma restored_exchanges t xs :
  xs ≡ₚ keys (t_exchanges t) → (list_to_set xs : gset string) = a_exchanges (abs_of t).
Proof.
  intros Hxs. apply set_eq. intros x. simpl.
  by rewrite elem_of_list_to_set, Hxs, elem_of_keys, elem_of_dom.
Qed.

Lemma restored_rows rows :
  rows ≡ₚ map_to_list (t_deliveries (db_tables (w_repo w))) →
  NoDup rows.*1 ∧ Forall (restorable_row (a_queues before)) rows.
Proof using All.
  intros Hrows. split; [rewrite Hrows; apply NoDup_fst_map_to_list|].
  apply Forall_forall. intros [id row] Hin. rewrite Hrows in Hin.
  apply elem_of_map_to_list in Hin. destruct Hw as [Hc [Hok Hr] Hs]. split; [|split].
  - destruct (fk_delivery _ Hok id row Hin) as [q Hq]. unfold before.
    rewrite abs_queue. simpl. by rewrite Hq.
  - apply (rd_text _ Hr). by exists row.
  - assert (a_letters before !! id = Some (letter_of row)) as Hl
      by (unfold before; by rewrite abs_letter, Hin).
    apply (sh_letters _ _ Hs) in Hl as (x & n & r & q & (e & ex & _ & [_ _ Hq] & _) & Hh).
    apply (cg_ids _ Hc r q id Hq).
    destruct Hh as [(d & Hd & <- & _)|(d & Hd & _)]; [by apply ready_in_ids|].
    eapply flight_in_ids; [apply (cg_inv _ Hc r q Hq)|done].
Qed.

Lemma all_released rows :
  rows ≡ₚ map_to_list (t_deliveries (db_tables (w_repo w))) →
  ab_release_all rows.*1 before = ab_all_ready before.
Proof using All.
  intros Hrows. destruct (release_all_fields rows.*1 before) as [H1 H2].
  apply abs_eq; [done|done|]. apply map_eq. intros id.
  rewrite release_all_letter. simpl. rewrite !lookup_fmap.
  destruct (t_deliveries (db_tables (w_repo w)) !! id) as [row|] eqn:Hrow; simpl; [|done].
  rewrite decide_True; [done|]. rewrite Hrows.
  apply (list_elem_of_fmap_2' _ _ (id, row)); [|done]. by apply elem_of_map_to_list.
Qed.

Lemma alone_Restore :
  alone BrokerService.Restore (restarted w) (λ r w',
    match r with
    | Ok _ => agree w' ∧ abs_of (db_tables (w_repo w')) = ab_all_ready before
    | Err e => storage_failed e
    end).
Proof using All.
  destruct (run_LoadState (w_repo w)) as (res & db & Hrun & Htab & Hquiet & Hst).
  unfold BrokerService.Restore.
  eapply (alone_try _ _ _ (λ r w1, r = res ∧ w1 = mkWorld (w_core (restarted w)) db)).
  { eapply alone_run; [|done]. unfold BrokerService.repo. rewrite run_zoom by apply _.
    unfold zoomM. change (view repo_lens (restarted w)) with (w_repo w).
    change LoadState with pg_LoadState. by rewrite Hrun. }
  2: { intros e w1 [<- ->]. split; [done|]. intros Hup.
       assert (is_ok (Err e : result BrokerState) = true); [|done].
       apply Hquiet. intros i _. apply Hup. }
  intros st w1 [<- ->]. destruct Hst as [Hxs Hqs (rows & Hds & Hrows & _)].
  pose proof (restored_rows rows Hrows) as [Hnd Hrest].
  assert (rebuilt (mkAbs ∅ ∅ ∅) [] (mkWorld (w_core (restarted w)) db)) as Hstart.
  { destruct rebuilt_nothing as [H1 H2 H3 H4 H5 H6 H7]. split; try done.
    - destruct H6. split; simpl; by rewrite Htab.
    - simpl. by rewrite Htab. }
  eapply alone_try; [by apply restore_exchanges| |done]. intros [] w1 H1.
  rewrite (restored_exchanges _ _ Hxs) in H1.
  eapply alone_try; [apply restore_queues; [apply Hqs|..|exact H1]| |done].
  { eapply Forall_impl; [apply Hqs|]. intros q [row Hq].
    destruct Hw as [Hc [_ Hr] Hs]. by eapply loaded_restorable. }
  { eapply Forall_impl; [apply Hqs|]. intros q [row Hq]. simpl. apply elem_of_dom.
    destruct Hw as [_ [Hok _] _]. eapply (fk_queue _ Hok), Hq. }
  intros [] w2 H2. rewrite (queues_of_loaded _ _ Hqs) in H2. rewrite Hds.
  eapply alone_try; [by apply restore_deliveries| |done].
  intros [] w3 [K1 K2 _ _ _ K6 K7].
  rewrite (all_released rows Hrows) in K7. split; [|done]. split; [done|done|].
  rewrite K7. by rewrite (letters_of_rows _ _ Hrows) in K2.
Qed.
End recovery.
