(* ===== verification/History.v ===== *)
(** * Histories of one broker: calls, crashes, restarts

    Calls one after the other, on a storage that may fail: memory and tables agree
    as long as no call ends with a storage error, and a restart brings back every
    exchange, durable queue and durable message.  ([Hazards] shows what concurrent
    calls can do to the same agreement.) *)

From S2P Require Import Prelude Errors Process Routing CoreQueue QueueSpec.
From S2P Require Import CoreExchange CoreSafety Scenario ExchangeSpec AppConfig Repository.
From S2P Require Import Service Database Postgres ServiceSafety PostgresSpec.
From S2P Require Import Mirror MirrorCore MirrorHeap MirrorService Recovery.

(** ** From the logic to executions *)

Lemma alone_exec {S A} n ws (p : prog S A) s Q :
  alone p s Q →
  match exec n ws p s with
  | Finished a s' _ => Q a s'
  | Panicked => False
  | Waiting _ _ | OutOfFuel => True
  end.
Proof.
  unfold alone. revert ws p s. induction n as [|n IH]; intros ws p s H; simpl; [done|].
  destruct p as [a|X f k|closed k|X body k]; [done| | |].
  - destruct (H s eq_refl I) as (x & s2 & Hf & _ & _ & Hk). rewrite Hf. by apply IH.
  - destruct ws as [|wk ws]; [done|].
    destruct (if decide (wk = Woken) then closed s else true) eqn:Hw; [|done].
    apply IH, H; [done|done|]. intros ->. by rewrite decide_True in Hw.
  - apply IH, wpc_bind. destruct H as (J & HJ & Hb).
    eapply wpc_mono; [|by apply Hb]. intros [x|] s2 H2; [done|]. by exists J.
Qed.

(** ** Calls *)

Inductive call : Type :=
| CallCreateExchange (x : string)
| CallDeleteExchange (x : string)
| CallRegisterQueue (x n : string) (d a : bool) (m : Z) (f : list RoutingFilter)
| CallDeleteQueue (x n : string)
| CallPublish (x key : string) (payload : list Byte.byte)
| CallBlockingFetch (x n c : string) (timeout : Z)
| CallStreamFetch (x n c : string)
| CallAck (x n id c : string)
| CallNAck (x n id c : string)
| CallAddConsumer (x n c : string)
| CallDisconnectConsumer (x n c : string).

Section calls.
Context `{E : GoEnv} `{P : PgEnv} (limits : LimitsConfig).

(** Only the error of a call is looked at. *)
Definition answer {A} (p : prog (World DB) (result A)) : prog (World DB) (option error) :=
  r ← p; Ret (match r with Ok _ => None | Err e => Some e end).

Definition perform (c : call) : prog (World DB) (option error) :=
  match c with
  | CallCreateExchange x => answer (BrokerService.CreateExchange x)
  | CallDeleteExchange x => answer (BrokerService.DeleteExchange x)
  | CallRegisterQueue x n d a m f => answer (BrokerService.RegisterQueue limits x n d a m f)
  | CallDeleteQueue x n => answer (BrokerService.DeleteQueue x n)
  | CallPublish x key payload => answer (BrokerService.Publish limits x key payload)
  | CallBlockingFetch x n c timeout =>
      answer (BrokerService.BlockingFetch limits x n c timeout)
  | CallStreamFetch x n c => answer (BrokerService.StreamFetch limits x n c)
  | CallAck x n id c => answer (BrokerService.Ack x n id c)
  | CallNAck x n id c => answer (BrokerService.NAck x n id c)
  | CallAddConsumer x n c => answer (BrokerService.AddConsumer x n c)
  | CallDisconnectConsumer x n c => answer (BrokerService.DisconnectConsumer x n c)
  end.

(** The first process, on an empty database. *)
Definition first_world : World DB := mkWorld (Broker.NewBroker 0 0) new_db.

(** Calls one after the other, none of which waits or takes more than [fuel] steps;
    [None] when one of them does not return, or ends with a storage error. *)
Fixpoint live (fuel : nat) (cs : list call) (w : World DB) : option (World DB) :=
  match cs with
  | [] => Some w
  | c :: cs =>
      match exec fuel [] (perform c) w with
      | Finished (Some (StorageError _)) _ _ => None
      | Finished _ w' _ => live fuel cs w'
      | _ => None
      end
  end.

Context `{!GoEnvOk E}.

Lemma alone_answer {A} (p : prog (World DB) (result A)) w :
  alone p w settled →
  alone (answer p) w (λ e w', (∃ text, e = Some (StorageError text)) ∨ agree w').
Proof.
  intros H. eapply alone_bind; [done|]. intros [a|[]] w' Hw; try (by right).
  left. eauto.
Qed.

Lemma alone_perform c w :
  agree w →
  alone (perform c) w (λ e w', (∃ text, e = Some (StorageError text)) ∨ agree w').
Proof.
  intros Hw. destruct c; apply alone_answer; auto using settled_CreateExchange,
    settled_DeleteExchange, settled_RegisterQueue, settled_DeleteQueue, settled_Publish,
    settled_BlockingFetch, settled_StreamFetch, settled_Ack, settled_NAck,
    settled_AddConsumer, settled_DisconnectConsumer.
Qed.

Lemma agree_first : agree first_world.
Proof.
  split.
  - split; [apply core_wf_new|done|done].
  - split; [apply tables_ok_empty|]. split; [done|done|]. by intros id [row ?].
  - split.
    + intros x. simpl. rewrite dom_empty_L, lookup_empty. split; [set_solver|by intros [? ?]].
    + intros x n dq. rewrite abs_queue. simpl. rewrite lookup_empty. split; [done|].
      by intros (r & q & (e & ex & He & _) & _).
    + intros id l. rewrite abs_letter. simpl. rewrite lookup_empty. split; [done|].
      by intros (x & n & r & q & (e & ex & He & _) & _).
Qed.

Lemma live_agree fuel cs w w' : live fuel cs w = Some w' → agree w → agree w'.
Proof.
  revert w. induction cs as [|c cs IH]; intros w H Hw; cbn [live] in H;
    [by simplify_eq|].
  pose proof (alone_exec fuel [] _ _ _ (alone_perform c w Hw)) as Hc.
  destruct (exec fuel [] (perform c) w) as [e w1 ws| | |]; try done.
  destruct Hc as [[text ->]|Hw1]; [done|].
  apply (IH w1); [|done]. by destruct e as [[]|].
Qed.
End calls.

(** ** A broker with durable messages *)

Section demo.

Definition demo_calls : list call :=
  [CallCreateExchange "events";
   CallRegisterQueue "events" "users" true false 3 ["corp.users.*"; "corp.*.create"];
   CallRegisterQueue "events" "audit" false true 0 ["corp.*.*"];
   CallPublish "events" "corp.users.create" [Byte.x68];
   CallPublish "events" "corp.users.delete" [Byte.x69];
   CallAddConsumer "events" "users" "c1";
   CallBlockingFetch "events" "users" "c1" 0].

Definition demo_pg : PgEnv := demo_server (λ _, NoFault).

(** Two messages in the durable queue, one of them held by [c1]. *)
Definition demo_lived : World DB :=
  default first_world
    (live (E := demo_env) (P := demo_pg) (mkLimits 100 100 10 10) 200 demo_calls first_world).
End demo.

Lemma demo_lived_agree : agree (E := demo_env) (P := demo_pg) demo_lived.
Proof.
  unfold demo_lived.
  destruct (live (mkLimits 100 100 10 10) 200 demo_calls first_world) as [w|] eqn:Hl.
  - apply (live_agree (E := demo_env) (P := demo_pg) _ _ _ _ _ Hl). apply agree_first.
  - apply agree_first.
Qed.

(** ** What a restart brings back *)

(** The calls that may wait. *)
Definition waits (c : call) : bool :=
  match c with CallBlockingFetch _ _ _ _ | CallStreamFetch _ _ _ => true | _ => false end.

Section restart.
Context `{E : GoEnv} `{!GoEnvOk E} `{P : PgEnv} `{!PgEnvOk P}.

(** Straight lines over the core and the storage. *)
Ltac straight_world :=
  repeat (progress (straight_tac; try apply straight_zoom)).

Lemma straight_Restore : straight BrokerService.Restore.
Proof.
  unfold BrokerService.Restore, BrokerService.repo, BrokerService.core, LoadState, postgres,
    pg_LoadState, loadExchanges, loadQueues, loadDeliveries, Query.
  unfold BrokerService.restore_exchange, BrokerService.restore_queue,
    BrokerService.restore_delivery, BrokerService.repo, BrokerService.core, MarkReady,
    pg_MarkReady, Exec.
  straight_world.
Qed.

Lemma straight_perform limits c : waits c = false → straight (perform limits c).
Proof.
  destruct c; try done; intros _; unfold perform, answer;
    (apply straight_bind; [|by intros []]);
    unfold BrokerService.CreateExchange, BrokerService.DeleteExchange,
      BrokerService.RegisterQueue, BrokerService.DeleteQueue, BrokerService.Publish,
      BrokerService.Ack, BrokerService.NAck, BrokerService.AddConsumer,
      BrokerService.DisconnectConsumer, BrokerService.publish_item,
      BrokerService.repo, BrokerService.core;
    unfold SaveExchange, DeleteExchange, SaveQueue, DeleteQueue, SaveReadyDelivery,
      MarkReady, DeleteDelivery, SaveDeadLetter, postgres, pg_SaveExchange,
      pg_DeleteExchange, pg_SaveQueue, pg_DeleteQueue, pg_SaveReadyDelivery, pg_MarkReady,
      pg_DeleteDelivery, pg_SaveDeadLetter, Exec; straight_world.
Qed.

Lemma run_Restore w :
  agree w →
  ∃ r w', run BrokerService.Restore (restarted w) = Val (r, w') ∧
    (server_up → r = Ok tt) ∧
    match r with
    | Ok _ => agree w' ∧ abs_of (db_tables (w_repo w'))
                         = ab_all_ready (abs_of (db_tables (w_repo w)))
    | Err e => ∃ text, e = StorageError text
    end.
Proof.
  intros Hw. destruct (wpc_run (λ _, True) eq (λ _ _, True) _ _ _ straight_Restore I
    (alone_Restore w Hw)) as (r & w' & Hrun & _ & H).
  exists r, w'. split; [done|]. destruct r as [[]|e]; [done|]. destruct H as [Htext Hup].
  split; [|done]. intros H. by destruct (Hup H).
Qed.

(** A queue of memory before and after. *)
Lemma letters_survive w w' x n r q :
  agree w → agree w' →
  abs_of (db_tables (w_repo w')) = ab_all_ready (abs_of (db_tables (w_repo w))) →
  durable_at (w_core w) x n r q →
  ∃ r' q', durable_at (w_core w') x n r' q' ∧ config_of q' = config_of q ∧
    q_InFlight q' = ∅ ∧
    ∀ d', d' ∈ q_Ready q' ↔ ∃ d, d ∈ held q ∧ d' = set_ConsumerID "" d.
Proof.
  intros [Hc _ Hs] [Hc' _ Hs'] Habs Hd. rewrite Habs in Hs'.
  assert (a_queues (abs_of (db_tables (w_repo w))) !! (x, n) = Some (config_of q)) as Hq
    by (apply (sh_queues _ _ Hs); eauto).
  apply (sh_queues _ _ Hs') in Hq as (r' & q' & Hd' & Hcfg).
  pose proof Hd as (_ & _ & _ & [_ _ Hr] & _). pose proof (cg_inv _ Hc r q Hr) as Hinv.
  pose proof Hd' as (_ & _ & _ & [_ _ Hr'] & _). pose proof (cg_inv _ Hc' r' q' Hr') as Hinv'.
  assert (∀ id l, holds_letter (x, n) q' id l ↔
            ∃ l0, holds_letter (x, n) q id l0 ∧ l = released l0) as Hl.
  { intros id l.
    pose proof (λ l, shows_queue_letters _ _ _ _ _ _ id l Hs Hd) as H0.
    rewrite (shows_queue_letters _ _ _ _ _ _ id l Hs' Hd'). simpl.
    rewrite lookup_fmap, fmap_Some. setoid_rewrite H0. naive_solver. }
  exists r', q'. split; [done|]. split; [done|]. split.
  - apply map_eq. intros id. rewrite lookup_empty.
    destruct (q_InFlight q' !! id) as [d|] eqn:Hf; [|done].
    assert (holds_letter (x, n) q' id (letter (x, n) d (Some (dl_ConsumerID d)))) as Hh
      by (right; eauto).
    by apply Hl in Hh as (l0 & _ & ?).
  - intros d'. split.
    + intros Hin. assert (holds_letter (x, n) q' (dl_ID d') (letter (x, n) d' None)) as Hh
        by (left; eauto).
      pose proof (inv_unowned q' Hinv') as Hun. rewrite Forall_forall in Hun.
      apply Hun in Hin. apply Hl in Hh as (l0 & Hh & Heq).
      destruct d' as [id' m' c' a']. simpl in *.
      destruct Hh as [(d & Hd0 & Hid & ->)|(d & Hd0 & ->)]; exists d;
        (split; [apply elem_of_held; eauto|]).
      * unfold set_ConsumerID. injection Heq as -> ->. by rewrite <- Hid, Hin.
      * unfold set_ConsumerID. injection Heq as -> ->.
        by rewrite (inv_keyed q Hinv _ _ Hd0), Hin.
    + intros (d & Hin & ->).
      assert (∃ o, holds_letter (x, n) q (dl_ID d) (letter (x, n) d o)) as [o Hh].
      { apply elem_of_held in Hin as [Hin|[k Hk]]; [exists None; left; eauto|].
        exists (Some (dl_ConsumerID d)). right.
        rewrite (inv_keyed q Hinv _ _ Hk). eauto. }
      assert (holds_letter (x, n) q' (dl_ID d) (letter (x, n) d None)) as Hh'
        by (apply Hl; eauto).
      destruct Hh' as [(d1 & Hd1 & Hid & Heq)|(d1 & _ & ?)]; [|done].
      pose proof (inv_unowned q' Hinv') as Hun. rewrite Forall_forall in Hun.
      pose proof (Hun d1 Hd1) as Hc1. destruct d1 as [i1 m1 c1 a1], d as [i m c a].
      simpl in *. injection Heq as -> ->. by subst.
Qed.
End restart.

(** ** Properties *)

(** C3: agreement is kept by every call: run alone on a world in which memory and
    tables show the same durable state, on a storage that may fail anywhere, a call
    never panics, and when it returns - whatever its waits end with - it has either
    reported a storage error or left memory and tables in agreement; a call that
    does not wait does return. *)
Theorem service_keeps_agreement (E : GoEnv) (P : PgEnv) limits c w :
  GoEnvOk E → agree w →
  (∀ n ws, match exec n ws (perform limits c) w with
           | Finished e w' _ => (∃ text, e = Some (StorageError text)) ∨ agree w'
           | Panicked => False
           | Waiting _ _ | OutOfFuel => True
           end) ∧
  (waits c = false → ∃ n e w', exec n [] (perform limits c) w = Finished e w' []).
Proof.
  intros HE Hw. pose proof (alone_perform limits c w Hw) as Hc. split.
  - intros n ws. exact (alone_exec n ws _ _ _ Hc).
  - intros Hs%(straight_perform limits).
    destruct (wpc_run (λ _, True) eq (λ _ _, True) _ _ _ Hs I Hc)
      as (e & w' & Hrun & _ & _).
    destruct (exec_straight [] _ _ _ _ Hs Hrun) as [n Hn]. eauto.
Qed.

(** The holder of the first message gives it back, and the message is dead: no other
    consumer is there. *)
Lemma service_keeps_agreement_witness :
  ∃ w', exec 200 [] (perform (E := demo_env) (P := demo_pg) (mkLimits 100 100 10 10)
                       (CallNAck "events" "users" "id-0" "c1")) demo_lived
        = Finished None w' [] ∧
    agree (E := demo_env) (P := demo_pg) w' ∧
    t_deliveries (db_tables (w_repo w')) !! "id-0" = None.
Proof.
  pose proof (proj1 (service_keeps_agreement demo_env demo_pg (mkLimits 100 100 10 10)
    (CallNAck "events" "users" "id-0" "c1") demo_lived demo_env_ok demo_lived_agree)
    200 []) as H.
  assert (∃ w', exec 200 [] (perform (E := demo_env) (P := demo_pg)
            (mkLimits 100 100 10 10) (CallNAck "events" "users" "id-0" "c1")) demo_lived
          = Finished None w' [] ∧
          t_deliveries (db_tables (w_repo w')) !! "id-0" = None) as (w' & Heq & Hgone).
  { eexists. split; vm_compute; reflexivity. }
  rewrite Heq in H. exists w'. split; [exact Heq|]. split; [|exact Hgone].
  destruct H as [[text Ht]|H]; [discriminate Ht|exact H].
Defined.

(** C4: a restart restores: from the tables of a world in agreement, [Restore] on a
    new broker never panics, succeeds when the server answers, reports a storage
    error otherwise; when it succeeds memory and tables agree again, on the same
    exchanges, the same durable queues with the same configuration and the same
    durable messages with the same attempts, all of them ready and held by nobody. *)
Theorem restart_restores (E : GoEnv) (P : PgEnv) w :
  GoEnvOk E → PgEnvOk P → agree w →
  ∃ r w', run BrokerService.Restore (restarted w) = Val (r, w') ∧
    (server_up → r = Ok tt) ∧
    match r with
    | Ok _ => agree w' ∧ abs_of (db_tables (w_repo w'))
                         = ab_all_ready (abs_of (db_tables (w_repo w)))
    | Err e => ∃ text, e = StorageError text
    end.
Proof. intros HE HP Hw. by apply run_Restore. Qed.

Lemma restart_restores_witness :
  ∃ w', run (BrokerService.Restore (Repo := postgres (P := demo_pg)))
          (restarted demo_lived) = Val (Ok tt, w') ∧
    agree (E := demo_env) (P := demo_pg) w' ∧
    dr_status <$> t_deliveries (db_tables (w_repo w')) !! "id-0" = Some ready.
Proof.
  destruct (restart_restores demo_env demo_pg demo_lived demo_env_ok
    (demo_server_ok _) demo_lived_agree) as (r & w' & Hrun & Hup & H).
  assert (r = Ok tt) as -> by (apply Hup; intros n; reflexivity).
  exists w'. split; [exact Hrun|]. split; [apply H|].
  apply (f_equal (λ o, match o with
    | Val (_, w') => dr_status <$> t_deliveries (db_tables (w_repo w')) !! "id-0"
    | Panic => None end)) in Hrun.
  transitivity (match run (BrokerService.Restore
      (Repo := postgres (P := demo_pg))) (restarted demo_lived) with
    | Val (_, w') => dr_status <$> t_deliveries (db_tables (w_repo w')) !! "id-0"
    | Panic => None end); [symmetry; exact Hrun|vm_compute; reflexivity].
Defined.

(** C2: durable messages survive a crash: whatever a durable queue of a broker in
    agreement with its tables held when the process stopped, ready or in flight, is
    ready in the queue of that name after a restart with a server that answers, with
    its id, message and attempts; nothing else is in the queue, which has its
    configuration, and nothing is in flight. *)
Theorem durable_messages_survive (E : GoEnv) (P : PgEnv) w x n r q :
  GoEnvOk E → PgEnvOk P → server_up → agree w → durable_at (w_core w) x n r q →
  ∃ w' r' q', run BrokerService.Restore (restarted w) = Val (Ok tt, w') ∧
    durable_at (w_core w') x n r' q' ∧ config_of q' = config_of q ∧
    q_InFlight q' = ∅ ∧
    ∀ d', d' ∈ q_Ready q' ↔ ∃ d, d ∈ held q ∧ d' = set_ConsumerID "" d.
Proof.
  intros HE HP Hup Hw Hd. destruct (run_Restore w Hw) as (res & w' & Hrun & Hok & H).
  rewrite (Hok Hup) in Hrun, H. destruct H as [Hw' Habs].
  destruct (letters_survive w w' x n r q Hw Hw' Habs Hd) as (r' & q' & ?).
  by exists w', r', q'.
Qed.

(** The queue "users" of the history, and the message that [c1] held. *)
Lemma durable_messages_survive_witness :
  ∃ w' r' q',
    run (BrokerService.Restore (Repo := postgres (P := demo_pg)))
      (restarted demo_lived) = Val (Ok tt, w') ∧
    durable_at (w_core w') "events" "users" r' q' ∧
    mkDelivery "id-0" (mkMessage [Byte.x68] "corp.users.create") "" 1 ∈ q_Ready q'.
Proof.
  set (q := default (mkQueue "" [] true false 0 [] ∅ ∅ 1%positive)
              (co_qheap (w_core demo_lived) !! 1%positive)).
  destruct (durable_messages_survive demo_env demo_pg demo_lived "events" "users"
    1%positive q demo_env_ok (demo_server_ok _) (λ n, eq_refl) demo_lived_agree)
    as (w' & r' & q' & Hrun & Hd & _ & _ & H).
  - exists 1%positive, (default (mkExchange "" ∅) (co_eheap (w_core demo_lived) !! 1%positive)).
    split; [vm_compute; reflexivity|].
    split; [split; vm_compute; reflexivity|vm_compute; reflexivity].
  - exists w', r', q'. split; [exact Hrun|]. split; [exact Hd|]. apply H.
    exists (mkDelivery "id-0" (mkMessage [Byte.x68] "corp.users.create") "c1" 1).
    split; [|reflexivity]. apply elem_of_held. right. exists "id-0".
    vm_compute. reflexivity.
Defined.
