(* ===== verification/Main.v ===== *)
(** * The program ([cmd/broker/main.go])

    [main] up to the point where the server takes calls, what is then known about
    it, and how the process ends.  The gRPC server and the listener are libraries:
    their errors are arguments, and the server that is started is
    [Transport.serving].  A signal cancels the context that [Connect] waits on
    ([CtxDone]) and makes the goroutine of [main] call [GracefulStop], after which
    [Serve] returns without an error. *)

From S2P Require Import Prelude Errors Process Routing CoreQueue QueueSpec.
From S2P Require Import CoreExchange CoreSafety Scenario ExchangeSpec AppConfig Connect.
From S2P Require Import Repository Service Transport ServiceSafety Database Postgres.
From S2P Require Import PostgresSpec ServerSafety ConfigSpec Mirror MirrorCore MirrorHeap.
From S2P Require Import MirrorService Recovery History.

(** The state of a process that starts: its connection pools, its memory and the
    database. *)
Record ProcessState : Type := mkProcess {
  pr_connecting : Connecting;
  pr_world : World DB;
}.

Definition connecting_lens : lens ProcessState Connecting :=
  Lens pr_connecting (λ c p, mkProcess c (pr_world p)).

Definition world_lens : lens ProcessState (World DB) :=
  Lens pr_world (λ w p, mkProcess (pr_connecting p) w).

#[export] Instance connecting_lens_ok : LensOk connecting_lens.
Proof. by split; intros; try match goal with p : ProcessState |- _ => destruct p end. Qed.

#[export] Instance world_lens_ok : LensOk world_lens.
Proof. by split; intros; try match goal with p : ProcessState |- _ => destruct p end. Qed.

(** What [server.Serve] may return besides nil. *)
Inductive serve_error : Type :=
| ErrServerStopped
| ServeFailed (text : string).

(** What ends the process with [os.Exit(1)]. *)
Inductive exit_reason : Type :=
| ExitConfig (e : config_error)
| ExitConnect (e : connect_error)
| ExitRestore (e : error)
| ExitListen (text : string)
| ExitServe (text : string).

Section main.
Context `{D : PoolEnv} `{P : PgEnv}.

(** [core.NewBroker()]: nothing of an earlier process is left in memory. *)
Definition new_broker : GoM (World DB) unit := modify restarted.

(** What follows once a pool is connected.  [listen addr] is the error of
    [net.Listen], if any; the result is the pool and the configuration that the server
    runs with. *)
Definition start (listen : string → option string) (appConfig : Config) (p : pool) :
    prog ProcessState (exit_reason + pool * Config) :=
  zoom world_lens (atomic new_broker);;
  r ← zoom world_lens BrokerService.Restore;
  match r with
  | Err err => Ret (inl (ExitRestore err))
  | Ok _ =>
      match listen (GRPCAddr appConfig) with
      | Some text => Ret (inl (ExitListen text))
      | None => Ret (inr (p, appConfig))
      end
  end.

Definition main (env : environment) (listen : string → option string) :
    prog ProcessState (exit_reason + pool * Config) :=
  match Load env with
  | inl err => Ret (inl (ExitConfig err))
  | inr appConfig =>
      conn ← zoom connecting_lens (Connect (cfg_DB appConfig));
      match conn with
      | inl err => Ret (inl (ExitConnect err))
      | inr p => start listen appConfig p
      end
  end.

(** What follows when [server.Serve] has returned [err]: [main] returns, which runs
    [defer pool.Close()], or calls [os.Exit], which runs no deferred call. *)
Definition served (p : pool) (err : option serve_error) :
    prog ProcessState (option exit_reason) :=
  match err with
  | None | Some ErrServerStopped =>
      zoom connecting_lens (atomic (close_pool p));; Ret None
  | Some (ServeFailed text) => Ret (Some (ExitServe text))
  end.

(** The server that [main] starts with this configuration. *)
Definition serving_with `{E : GoEnv} (c : Config)
    (send : DeliveryMessage → prog (World DB) (option status))
    (w : World DB) (calls : list (metadata * request)) : config (World DB) :=
  serving (cfg_Limits c) (RootToken (cfg_Auth c)) send w calls.
End main.

Section boot.
Context `{E : GoEnv} `{!GoEnvOk E} `{D : PoolEnv} `{P : PgEnv} `{!PgEnvOk P}.

(** The state in which a process is ready to take calls with the configuration [c];
    [w] is what the process before it left. *)
Record booted (env : environment) (w : World DB) (k : pool) (c : Config)
    (p : ProcessState) : Prop := {
  bt_load : Load env = inr c;
  bt_config : config_loaded env c;
  bt_pool : cn_open (pr_connecting p) = {[k]};
  bt_agree : agree (pr_world p);
  bt_state : abs_of (db_tables (w_repo (pr_world p)))
             = ab_all_ready (abs_of (db_tables (w_repo w)));
}.

(** How [main] ends, or comes to serve; [ws] says how the waits between two attempts
    to connect end. *)
Definition boot_result (env : environment) (listen : string → option string)
    (w : World DB) (ws : list wake) (r : exit_reason + pool * Config) (p : ProcessState) : Prop :=
  match r with
  | inr (k, c) => booted env w k c p ∧ listen (GRPCAddr c) = None
  | inl (ExitConfig e) => first_complaint env = Some e ∧ p = mkProcess connect_start w
  | inl (ExitConnect e) =>
      (∃ c rest, Load env = inr c ∧
         finishes ws (Connect (cfg_DB c)) connect_start (inl e) (pr_connecting p) rest) ∧
      cn_open (pr_connecting p) = ∅ ∧ pr_world p = w
  | inl (ExitRestore e) => (∃ text, e = StorageError text) ∧ ¬ server_up
  | inl (ExitListen text) => ∃ k c, booted env w k c p ∧ listen (GRPCAddr c) = Some text
  | inl (ExitServe _) => False
  end.

(** The first step: a pool, or no process. *)
Lemma Connect_finishes cfg ws :
  (0 < ConnectRetries cfg)%Z → in_int64 (ConnectRetries cfg) →
  Forall (λ w, w ≠ Woken) ws → (ConnectRetries cfg ≤ Z.of_nat (length ws) + 1)%Z →
  ∃ r s rest, finishes ws (Connect cfg) connect_start r s rest ∧
    match r with inl _ => cn_open s = ∅ | inr k => cn_open s = {[k]} end.
Proof.
  intros H1 H2 H3 H4. destruct (Connect_ends cfg ws H1 H2 H3 H4)
    as (fuel & j & _ & _ & rest & last & H).
  destruct (attempt_fails cfg j) as [err|].
  - destruct H as [_ H]. case_decide.
    + destruct H as [_ H]. eexists _, _, rest. split; [exists fuel; exact H|done].
    + destruct H as (e & _ & H). eexists _, _, rest. split; [exists fuel; exact H|done].
  - destruct H as [_ H]. eexists _, _, rest. split; [exists fuel; exact H|done].
Qed.

(** The second step: the state of the earlier process, or no process. *)
Lemma start_finishes env listen c s k w ws0 ws :
  agree w → Load env = inr c → config_loaded env c → cn_open s = {[k]} →
  ∃ r p, finishes ws (start listen c k) (mkProcess s w) r p ws ∧
    boot_result env listen w ws0 r p.
Proof.
  intros Hw HL Hcfg Hopen. destruct (run_Restore w Hw) as (res & w' & Hrun & Hup & Hres).
  assert (∀ A (after : _ → prog ProcessState A) a p',
    finishes ws (after res) (mkProcess s w') a p' ws →
    finishes ws (zoom world_lens (atomic new_broker);;
                 r ← zoom world_lens BrokerService.Restore; after r)
      (mkProcess s w) a p' ws) as Hgo.
  { intros A after a p' Hk. eapply (finishes_bind _ _ _ _ tt (mkProcess s (restarted w))).
    { apply (finishes_zoom world_lens ws _ (mkProcess s w) _ (restarted w)).
      by apply finishes_run. }
    eapply (finishes_bind _ _ _ _ res (mkProcess s w')); [|exact Hk].
    apply (finishes_zoom world_lens ws _ (mkProcess s (restarted w)) _ w').
    by apply finishes_run. }
  unfold start. destruct res as [u|err].
  - assert (booted env w k c (mkProcess s w')) as Hboot.
    { destruct Hres as [Ha Hs]. by split. }
    destruct (listen (GRPCAddr c)) as [text|] eqn:Hl.
    + exists (inl (ExitListen text)), (mkProcess s w'). split; [|by exists k, c].
      apply Hgo, finishes_ret.
    + exists (inr (k, c)), (mkProcess s w'). split; [|by split]. apply Hgo, finishes_ret.
  - exists (inl (ExitRestore err)), (mkProcess s w'). split; [apply Hgo, finishes_ret|].
    split; [done|]. intros H. by specialize (Hup H).
Qed.

Lemma main_finishes env listen w ws :
  agree w → Forall (λ w, w ≠ Woken) ws →
  (∀ c, Load env = inr c → ConnectRetries (cfg_DB c) ≤ Z.of_nat (length ws) + 1)%Z →
  ∃ r p rest, finishes ws (main env listen) (mkProcess connect_start w) r p rest ∧
    boot_result env listen w ws r p.
Proof.
  intros Hw Hws Hlen. unfold main. pose proof (Load_spec env) as Hload.
  destruct (Load env) as [err|c] eqn:HL.
  { exists (inl (ExitConfig err)), (mkProcess connect_start w), ws.
    split; [apply finishes_ret|done]. }
  destruct Hload as (_ & Hcfg & Hpos).
  assert (0 < ConnectRetries (cfg_DB c) ∧ in_int64 (ConnectRetries (cfg_DB c)))%Z as [Hr1 Hr2]
    by by inv Hpos.
  destruct (Connect_finishes (cfg_DB c) ws Hr1 Hr2 Hws (Hlen c eq_refl))
    as (r & s & rest & Hconn & Hopen).
  pose proof (finishes_zoom connecting_lens ws _ (mkProcess connect_start w) _ _ _ Hconn)
    as Hconn'.
  destruct r as [err|k].
  { exists (inl (ExitConnect err)), (mkProcess s w), rest.
    split; [|split; [by exists c, rest|done]].
    eapply finishes_bind; [exact Hconn'|apply finishes_ret]. }
  destruct (start_finishes env listen c s k w ws rest Hw HL Hcfg Hopen)
    as (r & p & Hfin & Hres).
  exists r, p, rest. split; [|done]. eapply finishes_bind; [exact Hconn'|exact Hfin].
Qed.

(** The end: [main] returns without an open pool, or the process exits with it. *)
Definition ends (k : pool) (err : option serve_error) (p : ProcessState) : Prop :=
  match err with
  | Some (ServeFailed text) => finishes [] (served k err) p (Some (ExitServe text)) p []
  | None | Some ErrServerStopped =>
      ∃ p', finishes [] (served k err) p None p' [] ∧
        cn_open (pr_connecting p') = ∅ ∧ pr_world p' = pr_world p
  end.

Lemma served_ends k err p : cn_open (pr_connecting p) = {[k]} → ends k err p.
Proof.
  intros Hk. set (s := pr_connecting p).
  assert (finishes [] (zoom connecting_lens (atomic (close_pool k));; Ret (None (A:=exit_reason)))
    p None (mkProcess (mkConnecting (cn_attempt s) (cn_lastErr s) (cn_calls s)
                         (cn_open s ∖ {[k]})) (pr_world p)) []) as Hfin.
  { eapply finishes_bind; [|apply finishes_ret].
    apply (finishes_zoom connecting_lens [] _ p). by apply finishes_run. }
  assert (cn_open s ∖ {[k]} = ∅) as Hclosed by (unfold s; rewrite Hk; set_solver).
  destruct err as [[|text]|]; [by eexists|apply finishes_ret|by eexists].
Qed.
End boot.

(** ** Properties *)

(** C5: the program comes up, or says why not: [main], started on the database that
    an earlier process in agreement with it has left, ends after finitely many steps
    whatever the driver, the storage and the waits do.  It exits because of the first
    complaint about the environment, with nothing done; or because no pool could be
    connected, with none open and the tables untouched; or because a statement of
    [Restore] failed; or because the address cannot be listened on.  Otherwise it takes
    calls with the configuration of the environment and a non-empty root token, one
    open pool, and a memory that agrees with the tables on the durable state of the
    earlier process, all of it ready; and however many calls then run at once, the
    process does not panic and storage keeps its integrity.  When the server has
    stopped, without an error or with [ErrServerStopped], no pool is left open and
    [main] returns; with another error the process exits. *)
Theorem main_boots (E : GoEnv) (D : PoolEnv) (P : PgEnv) env listen w ws :
  GoEnvOk E → PgEnvOk P → agree w → Forall (λ w, w ≠ Woken) ws →
  (∀ c, Load env = inr c → ConnectRetries (cfg_DB c) ≤ Z.of_nat (length ws) + 1)%Z →
  ∃ r p rest, finishes ws (main env listen) (mkProcess connect_start w) r p rest ∧
    boot_result env listen w ws r p ∧
    ∀ k c, r = inr (k, c) →
      (∀ send calls cf,
        (∀ m v, spec (world_wf db_ok) world_le (send m) v (λ _ _, True)) →
        rtc pool_step (serving_with c send (pr_world p) calls) cf →
        ∃ w' ts, cf = Running w' ts ∧ core_wf (w_core w') ∧ db_ok (w_repo w')) ∧
      (∀ err w', ends k err (mkProcess (pr_connecting p) w')).
Proof.
  intros HE HP Hw Hws Hlen.
  destruct (main_finishes env listen w ws Hw Hws Hlen) as (r & p & rest & Hfin & Hres).
  exists r, p, rest. split; [done|]. split; [done|].
  intros k c ->. destruct Hres as [[_ _ Hk Ha _] _].
  split; [|intros; by apply served_ends]. intros send calls cf Hsend Hsteps.
  eapply serving_safe; [apply _|done| | |exact Hsteps].
  - apply (cg_wf _ (ag_core _ Ha)).
  - apply (dg_ok _ (ag_db _ Ha)).
Qed.

(** The process of the history crashes; the next one has a token, a server that is up
    at the third attempt, and a free port. *)
Definition demo_environment : environment := λ key,
  if decide (key = "ROOT_TOKEN") then Some "secret" else None.

Definition demo_config : Config :=
  mkConfig ":50051"
    (mkDBConfig "localhost" "5432" "message_broker" "message_broker" "message_broker"
       "disable" 5 1000000000)
    (mkAuthConfig "secret") (mkLimits 1048576 255 32 32).

Lemma demo_config_loads : Load demo_environment = inr demo_config.
Proof. vm_compute. reflexivity. Qed.

Lemma demo_connects :
  ∃ s rest, finishes (replicate 4 TimerFired)
    (Connect (D := demo_driver) (cfg_DB demo_config)) connect_start (inr 2) s rest.
Proof. eexists _, _. exists 100. vm_compute. reflexivity. Qed.

(** Only the good end is possible there. *)
Lemma demo_boot_result (w : World DB) r p :
  boot_result (E := demo_env) (D := demo_driver) (P := demo_pg) demo_environment
    (λ _, None) w (replicate 4 TimerFired) r p →
  ∃ k, r = inr (k, demo_config) ∧
  booted (E := demo_env) (P := demo_pg) demo_environment w k demo_config p.
Proof.
  intros H. destruct r as [[e|e|e|t|t]|[k c]]; simpl in H.
  - destruct H as [H _]. vm_compute in H. discriminate H.
  - destruct H as [(c & rest & Hc & Hf) _]. rewrite demo_config_loads in Hc.
    injection Hc as <-. destruct demo_connects as (s & rest' & Hf').
    destruct (finishes_det _ _ _ _ _ _ _ _ _ Hf Hf') as [Heq _]. discriminate Heq.
  - destruct H as [_ H]. destruct H. intros n. reflexivity.
  - destruct H as (k & c & _ & H). discriminate H.
  - destruct H.
  - destruct H as [H _]. pose proof (bt_load _ _ _ _ _ H) as Hc.
    rewrite demo_config_loads in Hc. injection Hc as <-. by exists k.
Qed.

Lemma main_boots_witness :
  ∃ k p rest, finishes (replicate 4 TimerFired)
      (main (D := demo_driver) (P := demo_pg) demo_environment (λ _, None))
      (mkProcess connect_start demo_lived) (inr (k, demo_config)) p rest ∧
    booted (E := demo_env) (P := demo_pg) demo_environment demo_lived k demo_config p ∧
    ends k (Some ErrServerStopped) p.
Proof.
  destruct (main_boots demo_env demo_driver demo_pg demo_environment (λ _, None)
    demo_lived (replicate 4 TimerFired) demo_env_ok (demo_server_ok _) demo_lived_agree)
    as (r & p & rest & Hfin & Hres & Hserved).
  - repeat constructor; discriminate.
  - intros c Hc. rewrite demo_config_loads in Hc. injection Hc as <-. discriminate.
  - destruct (demo_boot_result _ _ _ Hres) as (k & -> & Hb).
    exists k, p, rest. split; [exact Hfin|]. split; [exact Hb|].
    destruct (Hserved k demo_config eq_refl) as [_ Hend].
    destruct p as [s w]. exact (Hend (Some ErrServerStopped) w).
Defined.
