(* ===== verification/FetchSpec.v ===== *)
(** * Fetching, run alone

    [BlockingFetch] waits in a loop around a [select].  Without interference its
    outcome is a function of the queue, of the storage and of what ends the wait. *)

From S2P Require Import Prelude Errors Process Routing CoreQueue QueueSpec.
From S2P Require Import CoreExchange CoreSafety Scenario ExchangeSpec AppConfig Repository.
From S2P Require Import Service Database Postgres ServiceSafety PostgresSpec.
From S2P Require Import Mirror MirrorCore MirrorHeap MirrorService Recovery History.

Section fetch.
Context `{E : GoEnv} `{!GoEnvOk E} `{P : PgEnv} (limits : LimitsConfig).

(** The loop of a fetch after an iteration. *)
Definition again (e : eref) (r : qref) (n c : string) (timeout : Z)
    (res : option (result Delivery)) : prog (World DB) (result Delivery) :=
  match res with
  | Some a => Ret a
  | None => Loop (BrokerService.fetch_iteration limits e r n c timeout) Ret
  end.

(** A fetch that waits for the channel [ch], having found the exchange [e] and the
    queue [r]. *)
Definition waiting (e : eref) (r : qref) (n c : string) (timeout : Z) (ch : option chan) :
    prog (World DB) (result Delivery) :=
  Select (BrokerService.wait_closed ch) (λ w,
    match w with
    | CtxDone err => Ret (Some (Err (CtxError err)))
    | TimerFired => Ret (Some (Err QueueEmpty))
    | Woken => Ret None
    end) ≫= again e r n c timeout.

(** What a fetch by [c] comes to that finds the queue [q] at [r'] under its name;
    [durable] is the flag of the queue [r] that it found first, [ws] says how its waits
    end.  A wait of a goroutine that is alone is not woken by a delivery. *)
Definition fetch_result (e : eref) (r : qref) (n : string) (r' : qref) (q : Queue)
    (durable : bool) (c : string) (timeout : Z)
    (w : World DB) (ws : list wake) (o : exec_result (World DB) (result Delivery)) : Prop :=
  let '(delivery, _, err, q') := attempt (MaxInFlight limits) c q in
  let s := set_queue r' q' (co_chans (w_core w)) (tick (w_core w)) in
  let w1 := mkWorld s (w_repo w) in
  match err with
  | None =>
      if durable then
        ∃ m db, run (MarkInFlight (dl_ID delivery) c (dl_Attempts delivery)) (w_repo w)
                = Val (m, db) ∧
          o = Finished (match m with Ok _ => Ok delivery | Err err => Err err end)
                (mkWorld s db) ws
      else o = Finished (Ok delivery) w1 ws
  | Some QueueEmpty =>
      if decide (timeout ≤ 0)%Z then o = Finished (Err QueueEmpty) w1 ws
      else
        match ws with
        | CtxDone err :: ws => o = Finished (Err (CtxError err)) w1 ws
        | TimerFired :: ws => o = Finished (Err QueueEmpty) w1 ws
        | _ => o = Waiting (waiting e r n c timeout (Some (q_readyNotify q))) w1
        end
  | Some err => o = Finished (Err err) w1 ws
  end.

(** A notification that has not come wakes nobody. *)
Lemma exec_asleep {S A B} n ws closed (k : wake → prog S A) (k' : A → prog S B) s :
  closed s = false →
  exec (Datatypes.S n) (Woken :: ws) (Select closed k ≫= k') s
  = Waiting (Select closed k ≫= k') s.
Proof. intros H. simpl. by rewrite H. Qed.

Lemma straight_core {A} (p : prog Core A) :
  straight p → straight (BrokerService.core (R := DB) p).
Proof. apply straight_zoom. Qed.

(** The first part of a program is run first. *)
Lemma exec_prefix {A} (p p1 : nat → list wake → exec_result (World DB) A)
    (Q : list wake → exec_result (World DB) A → Prop) :
  (∃ m, ∀ n ws, p (m + n) ws = p1 n ws) → (∃ n, ∀ ws, Q ws (p1 n ws)) →
  ∃ n, ∀ ws, Q ws (p n ws).
Proof. intros [m Hm] [n Hn]. exists (m + n). intros ws. rewrite Hm. apply Hn. Qed.

Lemma exec_mono {A} (p : nat → list wake → exec_result (World DB) A)
    (P' Q : list wake → exec_result (World DB) A → Prop) :
  (∀ ws o, P' ws o → Q ws o) → (∃ n, ∀ ws, P' ws (p n ws)) → ∃ n, ∀ ws, Q ws (p n ws).
Proof. intros HPQ [n Hn]. exists n. intros ws. apply HPQ, Hn. Qed.

Lemma run_MarkInFlight_total id c att db :
  straight (MarkInFlight id c att) ∧
  ∃ m db', run (MarkInFlight id c att) db = Val (m, db').
Proof.
  change (MarkInFlight id c att) with (pg_MarkInFlight id c att).
  unfold pg_MarkInFlight. split; [unfold Exec; straight_tac|].
  destruct (run_Exec (update_in_flight id c att) db) as (r & db' & Hrun & _).
  rewrite run_try, Hrun. destruct r as [n|err]; [|by eexists _, _].
  destruct (decide (n = 0)); by eexists _, _.
Qed.

Lemma run_repo {A} (p : prog DB A) (w : World DB) a db :
  run p (w_repo w) = Val (a, db) →
  run (BrokerService.repo p) w = Val (a, mkWorld (w_core w) db).
Proof.
  intros H. unfold BrokerService.repo. rewrite run_zoom by apply _. unfold zoomM.
  change (view repo_lens w) with (w_repo w). by rewrite H.
Qed.

(** A fetch that was given [d]: the lease of a durable delivery is stored. *)
Definition handed_out (d : Delivery) (c : string) (q : Queue) (s : Core) (db : DB)
    (ws : list wake) (o : exec_result (World DB) (result Delivery)) : Prop :=
  if q_IsDurable q then
    ∃ m db', run (MarkInFlight (dl_ID d) c (dl_Attempts d)) db = Val (m, db') ∧
      o = Finished (match m with Ok _ => Ok d | Err err => Err err end)
            (mkWorld s db') ws
  else o = Finished (Ok d) (mkWorld s db) ws.

Lemma exec_handed_out (k : option (result Delivery) → prog (World DB) (result Delivery))
    c d r q s db :
  (∀ a, k (Some a) = Ret a) → co_qheap s !! r = Some q →
  ∃ fuel, ∀ ws, handed_out d c q s db ws
    (exec fuel ws
      ((q ← BrokerService.core (atomic (read_queue r));
        if q_IsDurable q then
          m ← BrokerService.repo (MarkInFlight (dl_ID d) c (dl_Attempts d));
          match m with
          | Err err => Ret (Some (Err err))
          | Ok _ => Ret (Some (Ok d))
          end
        else Ret (Some (Ok d))) ≫= k) (mkWorld s db)).
Proof.
  intros Hk Hq. eapply exec_prefix.
  { apply exec_bind_bind_run; [apply straight_core; auto with straight|].
    by apply run_core, run_read_queue. }
  unfold handed_out. cbn [w_core w_repo]. destruct (q_IsDurable q).
  - destruct (run_MarkInFlight_total (dl_ID d) c (dl_Attempts d) db)
      as (Hst & m & db' & Hmark).
    eapply (exec_prefix _ _ (λ ws o, ∃ m db', _ ∧ o = Finished _ _ ws)).
    { apply exec_bind_bind_run; [by apply straight_zoom|].
      by apply (run_repo _ (mkWorld s db)). }
    exists 1. intros ws. exists m, db'. split; [done|]. destruct m; simpl; by rewrite Hk.
  - exists 1. intros ws. simpl. by rewrite Hk.
Qed.

(** The loop, from any state in which the name is bound. *)
Lemma exec_iteration n c timeout e ex r q0 r' q w :
  core_wf (w_core w) → bound e n ex r' q (w_core w) →
  co_qheap (w_core w) !! r = Some q0 →
  ∃ fuel, ∀ ws, fetch_result e r n r' q (q_IsDurable q0) c timeout w ws
    (exec fuel ws (Loop (BrokerService.fetch_iteration limits e r n c timeout) Ret) w).
Proof.
  intros Hwf Hb Hr0. pose proof Hb as [Hex Hr Hq]. destruct w as [s db].
  cbn [w_core w_repo] in *.
  apply (exec_prefix _ (λ m ws, exec m ws
    (BrokerService.fetch_iteration limits e r n c timeout ≫= again e r n c timeout)
    (mkWorld s db))); [exists 1; intros m ws; reflexivity|].
  unfold BrokerService.fetch_iteration. set (max := MaxInFlight limits).
  pose proof (run_attempt e n ex r' q max c s Hb) as Hrun.
  assert (same_config q (attempt max c q).2) as Hcfg by (attempt_cases; by split).
  assert ((attempt max c q).1.2 = Some QueueEmpty →
          (attempt max c q).1.1.2 = Some (q_readyNotify q) ∧ (attempt max c q).2 = q)
    as Hempty by (attempt_cases; naive_solver).
  destruct (attempt max c q) as [[[d ch] err] q'] eqn:Hatt. cbn [fst snd] in *.
  set (s' := set_queue r' q' (co_chans s) (tick s)) in *.
  eapply exec_prefix.
  { apply exec_bind_bind_run; [apply straight_core; auto with straight|].
    by apply run_core. }
  cbn [w_core w_repo]. destruct err as [err|].
  - exists 3. intros ws. unfold fetch_result. fold max. rewrite Hatt.
    cbn [w_core w_repo]. fold s'.
    destruct (errors_Is err QueueEmpty) eqn:He; cbn [negb]; [|by destruct err].
    apply bool_decide_eq_true in He. subst err. destruct (Hempty eq_refl) as [-> Hqq].
    destruct (decide (timeout ≤ 0)%Z); [done|].
    destruct ws as [|[ce| |] ws]; [done..|].
    apply exec_asleep. apply bool_decide_eq_false. apply (wf_open s Hwf r' q Hq).
  - assert (∃ q1, co_qheap s' !! r = Some q1 ∧ q_IsDurable q1 = q_IsDurable q0)
      as (q1 & Hq1 & <-).
    { destruct (decide (r = r')) as [->|Hne]; unfold s'; simpl.
      - simplify_eq. exists q'. rewrite lookup_insert_eq.
        by rewrite (sc_IsDurable _ _ Hcfg).
      - exists q0. by rewrite lookup_insert_ne. }
    refine (exec_mono _ (handed_out d c q1 s' db) _ _ _); [|by apply exec_handed_out].
    intros ws o Ho. unfold fetch_result. fold max. rewrite Hatt. exact Ho.
Qed.

(** A fetch whose exchange or queue is not there. *)
Lemma exec_no_exchange x n c timeout w :
  co_Exchanges (w_core w) !! x = None →
  ∃ fuel, ∀ ws, exec fuel ws (BrokerService.BlockingFetch limits x n c timeout) w
    = Finished (Err ExchangeNotFound) w ws.
Proof.
  intros Hx. exists 2. intros ws. destruct w as [s db].
  unfold BrokerService.BlockingFetch, Broker.GetExchange, try. simpl in *.
  unfold zoomM. simpl. go_unfold. by rewrite Hx.
Qed.

Lemma exec_no_queue x n c timeout e ex w :
  co_Exchanges (w_core w) !! x = Some e → co_eheap (w_core w) !! e = Some ex →
  ex_Queues ex !! n = None →
  ∃ fuel, ∀ ws, exec fuel ws (BrokerService.BlockingFetch limits x n c timeout) w
    = Finished (Err QueueNotFound) w ws.
Proof.
  intros Hx Hex Hn. destruct w as [s db]. cbn [w_core] in *.
  unfold BrokerService.BlockingFetch, try.
  apply (exec_prefix _ _ (λ ws o, o = Finished (Err QueueNotFound) (mkWorld s db) ws)
    (exec_bind_run _ _ _ _ _ (straight_core _ (straight_GetExchange x))
       (run_core _ (mkWorld s db) _ _ (run_GetExchange x e s Hx)))).
  apply (exec_prefix _ _ (λ ws o, o = Finished (Err QueueNotFound) (mkWorld s db) ws)
    (exec_bind_run _ _ _ _ _ (straight_core _ (straight_GetQueue e n))
       (run_core _ (mkWorld s db) _ _ (run_GetQueue e n ex s Hex)))).
  exists 1. intros ws. by rewrite Hn.
Qed.

Lemma exec_fetch x n c timeout e ex r q w :
  core_wf (w_core w) → co_Exchanges (w_core w) !! x = Some e →
  bound e n ex r q (w_core w) →
  ∃ fuel, ∀ ws, fetch_result e r n r q (q_IsDurable q) c timeout w ws
    (exec fuel ws (BrokerService.BlockingFetch limits x n c timeout) w).
Proof.
  intros Hwf Hx Hb. pose proof Hb as [Hex Hr Hq]. destruct w as [s db].
  cbn [w_core w_repo] in *. unfold BrokerService.BlockingFetch, try.
  eapply exec_prefix.
  { apply exec_bind_run; [apply straight_core; auto with straight|].
    by apply run_core, run_GetExchange. }
  eapply exec_prefix.
  { apply exec_bind_run; [apply straight_core; auto with straight|].
    by apply run_core, (run_GetQueue e n ex). }
  cbn [w_core w_repo]. rewrite Hr. by eapply exec_iteration.
Qed.

(** How a wait ends: a closed channel makes the fetch try again. *)
Lemma exec_woken n c timeout e ex r q0 r' q ch w :
  core_wf (w_core w) → bound e n ex r' q (w_core w) →
  co_qheap (w_core w) !! r = Some q0 → BrokerService.wait_closed ch w = true →
  ∃ fuel, ∀ ws, fetch_result e r n r' q (q_IsDurable q0) c timeout w ws
    (exec fuel (Woken :: ws) (waiting e r n c timeout ch) w).
Proof.
  intros Hwf Hb Hr Hch. eapply exec_prefix; [|by eapply exec_iteration].
  exists 1. intros m ws. unfold waiting. simpl. by rewrite Hch.
Qed.

Lemma exec_woken_unbound n c timeout e ex r ch w :
  co_eheap (w_core w) !! e = Some ex → ex_Queues ex !! n = None →
  BrokerService.wait_closed ch w = true →
  ∃ fuel, ∀ ws, exec fuel (Woken :: ws) (waiting e r n c timeout ch) w
    = Finished (Err QueueNotFound) w ws.
Proof.
  intros Hex Hn Hch. exists 6. intros ws. destruct w as [s db].
  unfold waiting. simpl in *. rewrite Hch. simpl.
  unfold zoomM. simpl. go_unfold. unfold read_exchange. go_unfold. rewrite Hex. simpl.
  by rewrite Hn.
Qed.

(** A fetch in [w], on every branch. *)
Definition fetch_starts (x n c : string) (timeout : Z) (w : World DB) : Prop :=
  match co_Exchanges (w_core w) !! x with
  | None => ∃ fuel, ∀ ws,
      exec fuel ws (BrokerService.BlockingFetch limits x n c timeout) w
      = Finished (Err ExchangeNotFound) w ws
  | Some e => ∃ ex, co_eheap (w_core w) !! e = Some ex ∧
      match ex_Queues ex !! n with
      | None => ∃ fuel, ∀ ws,
          exec fuel ws (BrokerService.BlockingFetch limits x n c timeout) w
          = Finished (Err QueueNotFound) w ws
      | Some r => ∃ q, co_qheap (w_core w) !! r = Some q ∧
          ∃ fuel, ∀ ws, fetch_result e r n r q (q_IsDurable q) c timeout w ws
            (exec fuel ws (BrokerService.BlockingFetch limits x n c timeout) w)
      end
  end.

(** The end of a wait for [ch], in the world [w]; [ex] is the exchange and [q0] the
    queue that the fetch found before it waited. *)
Definition wait_ends (e : eref) (ex : Exchange) (r : qref) (q0 : Queue) (n c : string)
    (timeout : Z) (ch : option chan) (w : World DB) : Prop :=
  (∀ err ws, exec 2 (CtxDone err :: ws) (waiting e r n c timeout ch) w
             = Finished (Err (CtxError err)) w ws) ∧
  (∀ ws, exec 2 (TimerFired :: ws) (waiting e r n c timeout ch) w
         = Finished (Err QueueEmpty) w ws) ∧
  (BrokerService.wait_closed ch w = true →
   match ex_Queues ex !! n with
   | None => ∃ fuel, ∀ ws, exec fuel (Woken :: ws) (waiting e r n c timeout ch) w
                           = Finished (Err QueueNotFound) w ws
   | Some r' => ∃ q, co_qheap (w_core w) !! r' = Some q ∧
       ∃ fuel, ∀ ws, fetch_result e r n r' q (q_IsDurable q0) c timeout w ws
         (exec fuel (Woken :: ws) (waiting e r n c timeout ch) w)
   end).
End fetch.

(** The case of a durable queue with a ready delivery and a storage that answers. *)
Lemma fetch_result_leased `{E : GoEnv} `{P : PgEnv} limits x n c timeout e ex r q w d q' db :
  fetch_starts limits x n c timeout w → co_Exchanges (w_core w) !! x = Some e →
  bound e n ex r q (w_core w) →
  attempt (MaxInFlight limits) c q = (d, None, None, q') → q_IsDurable q = true →
  run (MarkInFlight (dl_ID d) c (dl_Attempts d)) (w_repo w) = Val (Ok tt, db) →
  ∃ fuel w', exec fuel [] (BrokerService.BlockingFetch limits x n c timeout) w
    = Finished (Ok d) w' [].
Proof.
  intros H Hx [Hex Hr Hq] Ha Hd Hm. unfold fetch_starts in H. rewrite Hx in H.
  destruct H as (ex' & Hex' & H). rewrite Hex in Hex'. injection Hex' as <-.
  rewrite Hr in H. destruct H as (q1 & Hq1 & fuel & H). rewrite Hq in Hq1.
  injection Hq1 as <-. specialize (H []). unfold fetch_result in H. rewrite Ha, Hd in H.
  destruct H as (m & db' & Hm' & H). rewrite Hm in Hm'. injection Hm' as <- <-. eauto.
Qed.

(** ** The queue "users" of the history *)

Definition demo_limited : LimitsConfig := mkLimits 100 100 10 10.

Definition demo_events : Exchange :=
  default (mkExchange "" ∅) (co_eheap (w_core demo_lived) !! 1%positive).

Definition demo_kept : Queue :=
  default (mkQueue "" [] true false 0 [] ∅ ∅ 1%positive)
    (co_qheap (w_core demo_lived) !! 1%positive).

Definition demo_second : Delivery :=
  mkDelivery "id-2" (mkMessage [Byte.x69] "corp.users.delete") "c1" 1.

Lemma demo_events_at : co_Exchanges (w_core demo_lived) !! "events" = Some 1%positive.
Proof. vm_compute. reflexivity. Qed.

Lemma demo_kept_bound :
  bound 1%positive "users" demo_events 1%positive demo_kept (w_core demo_lived).
Proof. split; vm_compute; reflexivity. Qed.

Lemma demo_kept_attempt :
  ∃ q', attempt (MaxInFlight demo_limited) "c1" demo_kept = (demo_second, None, None, q') ∧
        q_IsDurable demo_kept = true.
Proof. eexists. split; vm_compute; reflexivity. Qed.

Lemma demo_kept_mark :
  ∃ db, run (MarkInFlight (Repository := postgres (P := demo_pg))
               (dl_ID demo_second) "c1" (dl_Attempts demo_second)) (w_repo demo_lived)
        = Val (Ok tt, db).
Proof. eexists. vm_compute. reflexivity. Qed.

(** ** Properties *)

(** C14: what a fetch does on every branch.  Without the exchange, or without the
    queue, it says so and changes nothing.  Otherwise an unregistered consumer and one
    at its limit are refused; the first ready delivery is leased, with one attempt
    more, and for a durable queue the lease is stored, a failure of which is the
    result; when nothing is ready a fetch without a timeout reports an empty queue at
    once, and any other waits for the channel of the queue.  The wait ends, whatever
    has happened to the broker meanwhile, with the cause when the context ends and
    with an empty queue when the timer fires; and when the channel has been closed,
    the fetch tries again, with the same branches and on the queue that then has the
    name (only the durable flag is still that of the first one), and reports that
    there is no such queue when it has been deleted.  All this takes finitely many
    steps. *)
Theorem fetch_outcome (E : GoEnv) (P : PgEnv) limits x n c timeout w :
  GoEnvOk E → core_wf (w_core w) →
  fetch_starts limits x n c timeout w ∧
  ∀ e ex r q0 ch, co_eheap (w_core w) !! e = Some ex → co_qheap (w_core w) !! r = Some q0 →
    wait_ends limits e ex r q0 n c timeout ch w.
Proof.
  intros HE Hwf. split.
  - unfold fetch_starts.
    destruct (co_Exchanges (w_core w) !! x) as [e|] eqn:Hx; [|by apply exec_no_exchange].
    destruct (wf_exchanges _ Hwf _ _ Hx) as (ex & Hex & _). exists ex. split; [done|].
    destruct (ex_Queues ex !! n) as [r|] eqn:Hn; [|by eapply exec_no_queue].
    destruct (bound_ex _ _ _ _ _ Hwf Hex Hn) as (q & Hb & _). exists q.
    split; [apply Hb|]. by eapply exec_fetch.
  - intros e ex r q0 ch Hex Hr. split; [done|]. split; [done|]. intros Hch.
    destruct (ex_Queues ex !! n) as [r'|] eqn:Hn; [|by eapply exec_woken_unbound].
    destruct (bound_ex _ _ _ _ _ Hwf Hex Hn) as (q & Hb & _). exists q.
    split; [apply Hb|]. by eapply exec_woken.
Qed.

(** The consumer of "users" holds one message, and gets the other one. *)
Lemma fetch_outcome_witness :
  ∃ fuel w', exec fuel [] (BrokerService.BlockingFetch (E := demo_env)
      (Repo := postgres (P := demo_pg)) demo_limited "events" "users" "c1" 0) demo_lived
    = Finished (Ok demo_second) w' [].
Proof.
  destruct (fetch_outcome demo_env demo_pg demo_limited "events" "users" "c1" 0
    demo_lived demo_env_ok (cg_wf _ (ag_core _ demo_lived_agree))) as [H _].
  destruct demo_kept_attempt as (q1 & Hq1 & Hd). destruct demo_kept_mark as (db & Hmark).
  exact (fetch_result_leased _ _ _ _ _ _ _ _ _ _ _ _ _ H demo_events_at demo_kept_bound
           Hq1 Hd Hmark).
Defined.
