(* ===== verification/Lost.v ===== *)
(** * Statements that are lost

    What a lost statement does to a broker whose memory and tables agreed before:
    the two calls that change memory first and then have nothing left to repair it
    with.  (The schedules of [Hazards] are about calls that run at once.) *)

From S2P Require Import Prelude Errors Process Routing CoreQueue QueueSpec.
From S2P Require Import CoreExchange CoreSafety Scenario ExchangeSpec AppConfig Repository.
From S2P Require Import Service Database Postgres ServiceSafety PostgresSpec.
From S2P Require Import Mirror MirrorCore MirrorHeap MirrorService Recovery History FetchSpec.

Section lost.
Context `{E : GoEnv} `{!GoEnvOk E} `{P : PgEnv} (limits : LimitsConfig).

(** A statement that does not reach the server. *)
Lemma run_Exec_lost st db text :
  fault_at (db_time db) = FailBefore text →
  run (Exec st) db
  = Val (Err (StorageError text), mkDB (db_tables db) (S (db_time db)) (db_uuids db)).
Proof. intros H. unfold Exec. rewrite run_atomic. unfold exec_stmt. by rewrite H. Qed.

(** The statement sent at [time] with this payload does not store it: it does not reach
    the server, or the payload is empty, hence NULL. *)
Definition not_stored (time : nat) (payload : list Byte.byte) : Prop :=
  (∃ text, fault_at time = FailBefore text) ∨ payload = [].

Lemma run_SaveDeadLetter_lost x letter db :
  not_stored (db_time db) (msg_Payload (dead_Message letter)) →
  ∃ text, run (SaveDeadLetter x letter) db
  = Val (Err (StorageError text),
         mkDB (db_tables db) (S (db_time db)) (S (db_uuids db))).
Proof.
  intros H. change (SaveDeadLetter x letter) with (pg_SaveDeadLetter x letter).
  unfold pg_SaveDeadLetter, draw_uuid. rewrite run_bind, run_atomic.
  destruct H as [[text H]|H]; [exists text; by rewrite run_try, (run_Exec_lost _ _ text)|].
  rewrite run_try. unfold Exec. rewrite run_atomic. unfold exec_stmt, insert_dead.
  cbn [db_time db_tables db_uuids]. rewrite H.
  destruct (negb _); [|destruct (decide (¬ in_int32 _)); [|rewrite decide_True by done]];
    destruct (fault_at (db_time db)); eexists; reflexivity.
Qed.

Lemma run_MarkInFlight_lost id c att db text :
  fault_at (db_time db) = FailBefore text →
  run (MarkInFlight id c att) db
  = Val (Err (StorageError text), mkDB (db_tables db) (S (db_time db)) (db_uuids db)).
Proof.
  intros H. change (MarkInFlight id c att) with (pg_MarkInFlight id c att).
  unfold pg_MarkInFlight. by rewrite run_try, (run_Exec_lost _ _ text).
Qed.

(** A deletion that goes through. *)
Lemma run_DeleteDelivery_up id db :
  fault_at (db_time db) = NoFault → text_ok id = true →
  ∃ db', run (DeleteDelivery id) db = Val (Ok tt, db') ∧
    db_time db' = S (db_time db) ∧
    t_deliveries (db_tables db') = delete id (t_deliveries (db_tables db)) ∧
    t_dead (db_tables db') = t_dead (db_tables db).
Proof.
  intros H Ht. change (DeleteDelivery id) with (pg_DeleteDelivery id).
  unfold pg_DeleteDelivery. eexists. split.
  - rewrite run_try. unfold Exec. rewrite run_atomic. unfold exec_stmt. rewrite H.
    unfold delete_delivery, texts_ok. simpl. rewrite Ht. simpl. reflexivity.
  - done.
Qed.

(** The two statements of a dead letter: the deletion of the row of a durable delivery,
    which is answered, and [SaveDeadLetter], which stores nothing. *)
Definition dead_letter_lost (durable : bool) (db : DB) (payload : list Byte.byte) : Prop :=
  if durable then fault_at (db_time db) = NoFault ∧ not_stored (S (db_time db)) payload
  else not_stored (db_time db) payload.

Lemma run_dead_letter_lost (durable : bool) x id letter s db :
  (durable = true → text_ok id = true) →
  dead_letter_lost durable db (msg_Payload (dead_Message letter)) →
  ∃ text db', run ((if durable then BrokerService.repo (DeleteDelivery id) else Ret (Ok tt)) ?;
              BrokerService.repo (SaveDeadLetter x letter) ?; Ret (Ok tt)) (mkWorld s db)
         = Val (Err (StorageError text), mkWorld s db') ∧
    t_deliveries (db_tables db')
    = (if durable then delete id else (λ m, m)) (t_deliveries (db_tables db)) ∧
    t_dead (db_tables db') = t_dead (db_tables db).
Proof.
  intros Ht H. destruct durable; simpl in H.
  - destruct H as [Hok Hlost]. destruct (run_DeleteDelivery_up id db Hok (Ht eq_refl))
      as (db1 & Hrun & Htime & Hd & Hx). rewrite <- Htime in Hlost.
    destruct (run_SaveDeadLetter_lost x letter db1 Hlost) as [text Hsave].
    eexists text, _.
    rewrite (run_try_ok _ _ _ tt (mkWorld s db1)) by by apply (run_repo _ (mkWorld s db)).
    rewrite run_try, (run_repo _ (mkWorld s db1) _ _ Hsave). by split.
  - destruct (run_SaveDeadLetter_lost x letter db H) as [text Hsave]. eexists text, _.
    rewrite (run_try_ok _ _ _ tt (mkWorld s db)) by done.
    rewrite run_try, (run_repo _ (mkWorld s db) _ _ Hsave). by split.
Qed.

(** The id of a delivery that a durable queue holds is a text of the tables. *)
Lemma held_text x e n ex r q d w :
  agree w → co_Exchanges (w_core w) !! x = Some e → bound e n ex r q (w_core w) →
  d ∈ held q → q_IsDurable q = true → text_ok (dl_ID d) = true.
Proof using GoEnvOk0.
  intros Hw Hx Hb Hd Hdur.
  assert (∃ l, a_letters (abs_of (db_tables (w_repo w))) !! dl_ID d = Some l) as [l Hl].
  { pose proof (cg_inv _ (ag_core _ Hw) r q (b_queue _ _ _ _ _ _ Hb)) as Hinv.
    apply elem_of_held in Hd as [Hd|[k Hd]]; eexists;
      apply (sh_letters _ _ (ag_shows _ Hw)); exists x, n, r, q;
      (split; [by exists e, ex|]); [by left; exists d|].
    right. exists d. by rewrite (inv_keyed q Hinv _ _ Hd). }
  rewrite abs_letter in Hl. apply (rd_text _ (dg_rows _ (ag_db _ Hw))).
  destruct (t_deliveries (db_tables (w_repo w)) !! dl_ID d); [by eexists|done].
Qed.
End lost.

(** ** Properties *)

(** C39: a hazard, on every broker and for durable queues and others alike: when the
    holder of a delivery gives it back for good and the [SaveDeadLetter] of that
    negative acknowledgement stores nothing - its statement is lost, or, on the
    healthiest server, the message is empty -, the caller gets an error, and the
    message is nowhere any more: not in the queue, not among the stored deliveries - the
    row of a durable one has been deleted -, and not among the dead letters. *)
Theorem lost_dead_letter (E : GoEnv) (P : PgEnv) x n id c d e ex r q w :
  GoEnvOk E → agree w → co_Exchanges (w_core w) !! x = Some e →
  bound e n ex r q (w_core w) → q_InFlight q !! id = Some d → dl_ConsumerID d = c →
  (0 < q_MaxAttempts q ∧ q_MaxAttempts q ≤ dl_Attempts d)%Z ∨ q_Consumers q ⊆ {[c]} →
  dead_letter_lost (q_IsDurable q) (w_repo w) (msg_Payload (dl_Message d)) →
  ∃ text w' q', run (BrokerService.NAck x n id c) w = Val (Err (StorageError text), w') ∧
    bound e n ex r q' (w_core w') ∧ id ∉ ids q' ∧
    t_deliveries (db_tables (w_repo w'))
    = (if q_IsDurable q then delete id else (λ m, m)) (t_deliveries (db_tables (w_repo w))) ∧
    t_dead (db_tables (w_repo w')) = t_dead (db_tables (w_repo w)).
Proof.
  intros HE Hw Hx Hb Hd Hc Hup Hlost. destruct w as [s db]. cbn [w_core w_repo] in *.
  pose proof Hb as [Hex Hr Hq].
  pose proof (cg_inv _ (ag_core _ Hw) r q Hq) as Hinv.
  pose proof (inv_keyed q Hinv _ _ Hd) as Hid.
  pose proof (run_NAck e n ex r q id c s (cg_wf _ (ag_core _ Hw)) Hb) as Hrun.
  rewrite Hd, decide_True in Hrun by done. cbv zeta in Hrun.
  rewrite (proj2 (gives_up_iff (range_at (co_ranges s)) q d c) Hup) in Hrun.
  set (q' := set_InFlight (delete id (q_InFlight q)) q) in *.
  set (s' := set_queue r q' (co_chans s) (tick s)) in *.
  destruct (run_dead_letter_lost (q_IsDurable q) x (dl_ID d)
    (mkDeadLetter (dl_Message d) n Exchange.dead_reason (dl_Attempts d)) s' db)
    as (text & db' & Hdead & Hds & Hxs); [|done|].
  { apply (held_text x e n ex r q d (mkWorld s db)); [done..|]. apply elem_of_held. eauto. }
  exists text, (mkWorld s' db'), q'. split; [|split; [by split; [..|apply lookup_insert_eq]|]].
  - unfold BrokerService.NAck.
    rewrite (run_try_ok _ _ _ _ _ (run_core _ (mkWorld s db) _ _ (run_GetExchange x e s Hx))).
    pose proof (run_GetQueue e n ex s Hex) as Hget. rewrite Hr in Hget.
    rewrite (run_try_ok _ _ _ _ _ (run_core _ (mkWorld s db) _ _ Hget)).
    rewrite (run_try_ok _ _ _ _ _ (run_core _ (mkWorld s db) _ _ Hrun)).
    assert (co_qheap s' !! r = Some q') as Hq' by apply lookup_insert_eq.
    rewrite (run_bind_val _ _ _ _ _ (run_core _ (mkWorld s' db) _ _ (run_read_queue r q' s' Hq'))).
    exact Hdead.
  - split; [rewrite <- Hid; by eapply taken_not_held|]. rewrite <- Hid. by split.
Qed.

(** The history's broker with a server that loses one statement. *)
Lemma agree_server f g w :
  agree (P := demo_server f) w → agree (P := demo_server g) w.
Proof. intros [H1 [H2 [Q O T]] H3]. split; [done|split; [done|by split]|done]. Qed.

(** The statement that is [k] statements away. *)
Definition loses (k : nat) : PgEnv := demo_server (lossy (k + db_time (w_repo demo_lived))).

Lemma loses_agree k : agree (P := loses k) demo_lived.
Proof. apply (agree_server (λ _, NoFault)), demo_lived_agree. Qed.

Lemma lossy_here n : lossy n n = FailBefore "connection lost".
Proof. unfold lossy. by rewrite decide_True. Qed.

Lemma lossy_before n : lossy (S n) n = NoFault.
Proof. unfold lossy. rewrite decide_False; [done|lia]. Qed.

(** "c1", the only consumer of "users", holds its first message. *)
Definition demo_first : Delivery :=
  mkDelivery "id-0" (mkMessage [Byte.x68] "corp.users.create") "c1" 1.

Lemma demo_kept_facts :
  q_InFlight demo_kept !! "id-0" = Some demo_first ∧
  bool_decide (q_Consumers demo_kept ⊆ {["c1"]}) = true ∧
  q_IsDurable demo_kept = true ∧
  bool_decide ("c1" ∈ q_Consumers demo_kept) = true ∧
  at_limit "c1" (MaxInFlight demo_limited) demo_kept = false ∧
  q_Ready demo_kept
  = [mkDelivery "id-2" (mkMessage [Byte.x69] "corp.users.delete") "" 0].
Proof. split_and!; vm_compute; reflexivity. Qed.

Lemma lost_dead_letter_witness :
  ∃ text w' q', run (BrokerService.NAck (E := demo_env) (Repo := postgres (P := loses 1))
                  "events" "users" "id-0" "c1") demo_lived
           = Val (Err (StorageError text), w') ∧
    bound 1%positive "users" demo_events 1%positive q' (w_core w') ∧ "id-0" ∉ ids q'.
Proof.
  destruct demo_kept_facts as (Hd & Hsub & Hdur & _). apply bool_decide_eq_true in Hsub.
  destruct (lost_dead_letter demo_env (loses 1) "events" "users" "id-0" "c1" demo_first
    1%positive demo_events 1%positive demo_kept demo_lived demo_env_ok (loses_agree 1)
    demo_events_at demo_kept_bound Hd eq_refl (or_intror Hsub))
    as (text & w' & q' & H1 & H2 & H3 & _).
  - rewrite Hdur. split; [apply lossy_before|]. left. eexists. apply lossy_here.
  - exists text, w', q'. split; [exact H1|]. split; [exact H2|exact H3].
Defined.

(** C40: a hazard, on every broker: when a fetch takes a ready delivery of a durable
    queue and its [MarkInFlight] is lost, the caller gets an error and no delivery, and
    memory has the delivery in flight for this consumer, which has never seen its id, and
    not ready for anybody, while the tables still say what they said - that it is
    ready. *)
Theorem lost_mark_in_flight (E : GoEnv) (P : PgEnv) limits x n c timeout d rest e ex r q w
    text :
  GoEnvOk E → agree w → co_Exchanges (w_core w) !! x = Some e →
  bound e n ex r q (w_core w) → q_IsDurable q = true → c ∈ q_Consumers q →
  at_limit c (MaxInFlight limits) q = false → q_Ready q = d :: rest →
  fault_at (db_time (w_repo w)) = FailBefore text →
  ∃ fuel w' q', (∀ ws, exec fuel ws (BrokerService.BlockingFetch limits x n c timeout) w
                        = Finished (Err (StorageError text)) w' ws) ∧
    bound e n ex r q' (w_core w') ∧ q_Ready q' = rest ∧
    q_InFlight q' = <[dl_ID d := leased c d]> (q_InFlight q) ∧
    dl_ID d ∉ dl_ID <$> q_Ready q' ∧
    db_tables (w_repo w') = db_tables (w_repo w) ∧
    dr_status <$> t_deliveries (db_tables (w_repo w)) !! dl_ID d = Some ready.
Proof.
  intros HE Hw Hx Hb Hdur Hc Hlim Hready Hlost. pose proof Hb as [Hex Hr Hq].
  destruct (exec_fetch limits x n c timeout e ex r q w (cg_wf _ (ag_core _ Hw)) Hx Hb)
    as [fuel Hfuel].
  unfold fetch_result, attempt in Hfuel. rewrite decide_True, Hlim, Hready, Hdur in Hfuel
    by done.
  exists fuel. eexists (mkWorld _ (mkDB _ _ _)), (after_lease c d rest q). split; [|split].
  { intros ws. destruct (Hfuel ws) as (m & db & Hmark & Hexec).
    rewrite (run_MarkInFlight_lost _ _ _ _ text Hlost) in Hmark. injection Hmark as <- <-.
    exact Hexec. }
  { split; [done|done|apply lookup_insert_eq]. }
  do 2 (split; [done|]). pose proof (cg_inv _ (ag_core _ Hw) r q Hq) as Hinv.
  split; [|split; [done|]].
  - pose proof (inv_nodup q Hinv) as Hnd. unfold ids, held in Hnd. rewrite Hready in Hnd.
    simpl in Hnd. apply NoDup_cons in Hnd as [Hno _]. intros Hin. apply Hno.
    rewrite fmap_app. apply elem_of_app. by left.
  - assert (a_letters (abs_of (db_tables (w_repo w))) !! dl_ID d
            = Some (letter (x, n) d None)) as Hl.
    { apply (sh_letters _ _ (ag_shows _ Hw)). exists x, n, r, q.
      split; [by exists e, ex|]. left. exists d. rewrite Hready. split; [by left|done]. }
    rewrite abs_letter in Hl.
    destruct (t_deliveries (db_tables (w_repo w)) !! dl_ID d) as [row|] eqn:Hrow; [|done].
    simpl in Hl |- *. f_equal. unfold letter_of in Hl.
    destruct (dr_status row) eqn:Hst; [done|].
    destruct (rd_owner _ (dg_rows _ (ag_db _ Hw)) _ _ Hrow Hst) as [o Ho].
    rewrite Ho in Hl. discriminate Hl.
Qed.

Lemma lost_mark_in_flight_witness :
  ∃ fuel w' q', exec fuel [] (BrokerService.BlockingFetch (E := demo_env)
      (Repo := postgres (P := loses 0)) demo_limited "events" "users" "c1" 0) demo_lived
    = Finished (Err (StorageError "connection lost")) w' [] ∧
    bound 1%positive "users" demo_events 1%positive q' (w_core w') ∧ q_Ready q' = [].
Proof.
  destruct demo_kept_facts as (_ & _ & Hdur & Hc & Hlim & Hready).
  apply bool_decide_eq_true in Hc.
  destruct (lost_mark_in_flight demo_env (loses 0) demo_limited "events" "users" "c1" 0 _ _
    1%positive demo_events 1%positive demo_kept demo_lived "connection lost" demo_env_ok
    (loses_agree 0) demo_events_at demo_kept_bound Hdur Hc Hlim Hready)
    as (fuel & w' & q' & H1 & H2 & H3 & _).
  - apply lossy_here.
  - exists fuel, w', q'. split; [exact (H1 [])|]. split; [exact H2|exact H3].
Defined.
