(* ===== verification/StreamSpec.v ===== *)
(** * Streams clean up behind themselves

    The handler of [StreamFetch] registers a consumer, fetches in a loop, and
    disconnects the consumer whatever ends the loop. *)

From S2P Require Import Prelude Errors Process Routing CoreQueue QueueSpec.
From S2P Require Import CoreExchange CoreSafety Scenario ExchangeSpec AppConfig Repository.
From S2P Require Import Service Transport Database Postgres ServiceSafety PostgresSpec.
From S2P Require Import Mirror MirrorCore MirrorHeap MirrorService Recovery History FetchSpec.

(** The queue [n] of [x], if there still is one, knows nothing of the consumer. *)
Definition gone (x n c : string) (s : Core) : Prop :=
  ∀ e ex r q, co_Exchanges s !! x = Some e → bound e n ex r q s →
    (c ∉ q_Consumers q) ∧ ∀ id d, q_InFlight q !! id = Some d → dl_ConsumerID d ≠ c.

Section stream.
Context `{E : GoEnv} `{!GoEnvOk E} `{P : PgEnv} (limits : LimitsConfig).
Context (x n c : string) (e : eref) (r : qref).

(** While the stream is on: its queue is there. *)
Definition streaming (w : World DB) : Prop :=
  core_wf (w_core w) ∧ co_Exchanges (w_core w) !! x = Some e ∧
  ∃ ex q, bound e n ex r q (w_core w).

Lemma streaming_attempt ex q s :
  core_wf s → bound e n ex r q s →
  core_wf (set_queue r (attempt (MaxInFlight limits) c q).2 (co_chans s) (tick s)).
Proof.
  intros Hs Hb. pose proof (run_attempt e n ex r q (MaxInFlight limits) c s Hb) as Hrun.
  destruct (attempt (MaxInFlight limits) c q) as [o q']. cbn [snd].
  assert (cspec (Exchange.FetchOrWait e n c (MaxInFlight limits)) s (λ _ _, True)) as Hspec
    by (apply cspec_FetchOrWait; exists ex; apply Hb).
  destruct (wpc_run core_wf core_le core_le _ _ s
    (straight_FetchOrWait e n c (MaxInFlight limits)) Hs Hspec) as (a & s' & Hrun' & Hs' & _).
  rewrite Hrun in Hrun'. by injection Hrun' as _ <-.
Qed.

(** One iteration of a fetch, whatever storage does. *)
Lemma streaming_iteration timeout w :
  streaming w →
  alone (BrokerService.fetch_iteration limits e r n c timeout) w (λ _ w', streaming w').
Proof.
  intros (Hwf & Hx & ex & q & Hb). pose proof (run_attempt e n ex r q (MaxInFlight limits) c _ Hb) as Hrun.
  pose proof (streaming_attempt ex q _ Hwf Hb) as Hwf'.
  destruct (attempt (MaxInFlight limits) c q) as [[[d ch] err] q'] eqn:Ha. cbn [snd] in Hwf'.
  set (s' := set_queue r q' _ _) in *.
  assert (∀ db, streaming (mkWorld s' db)) as Hs'.
  { intros db. split; [done|]. split; [done|]. exists ex, q'. destruct Hb as [Hex Hr _].
    split; [done|done|apply lookup_insert_eq]. }
  eapply alone_core; [exact Hrun|]. destruct err as [err|]; cbv beta iota.
  - destruct (negb (errors_Is err QueueEmpty)); [apply Hs'|].
    destruct (decide _); [apply Hs'|]. apply alone_select. intros [ce| |]; apply Hs'.
  - eapply (alone_read r q'); [apply lookup_insert_eq|].
    destruct (q_IsDurable q'); [|apply Hs'].
    destruct (run_MarkInFlight_total (dl_ID d) c (dl_Attempts d) (w_repo w))
      as (_ & m & db & Hmark).
    eapply (alone_bind _ _ _ (λ _ w', streaming w')).
    + eapply alone_run; [apply (run_repo _ (mkWorld s' (w_repo w)) m db Hmark)|apply Hs'].
    + intros [u|er] w' Hw'; exact Hw'.
Qed.

Lemma streaming_get {B} (k : eref → qref → prog (World DB) (result B)) w Q :
  streaming w → alone (k e r) w Q →
  alone (try (BrokerService.core (Broker.GetExchange x)) (λ e',
         try (BrokerService.core (Exchange.GetQueue e' n)) (k e'))) w Q.
Proof.
  intros (Hwf & Hx & ex & q & [Hex Hr Hq]) Hk. destruct w as [s db]. cbn [w_core] in *.
  eapply alone_try_core; [by apply run_GetExchange|]. cbn [w_core w_repo].
  eapply alone_try_core; [by apply (run_GetQueue e n ex)|]. by rewrite Hr.
Qed.

Lemma streaming_StreamFetch w :
  streaming w →
  alone (BrokerService.StreamFetch limits x n c) w (λ _ w', streaming w').
Proof.
  intros Hw. apply (alone_loop _ _ streaming); [done|]. intros w1 Hw1.
  eapply (alone_bind _ _ _ (λ _ w', streaming w')).
  - apply streaming_get; [done|]. apply (alone_loop _ _ streaming); [done|].
    intros w2 Hw2. eapply alone_mono; [by apply streaming_iteration|]. by intros [res|].
  - intros [d|err] w2 Hw2; [done|]. by destruct (negb (errors_Is err QueueEmpty)).
Qed.

(** The end of the stream. *)
Lemma kept_lookup m id d : kept_of c m !! id = Some d → dl_ConsumerID d ≠ c.
Proof. by intros [_ H]%map_lookup_filter_Some. Qed.

Lemma gone_disconnect w :
  streaming w →
  alone (BrokerService.DisconnectConsumer x n c) w (λ _ w', gone x n c (w_core w')).
Proof.
  intros Hw. pose proof Hw as (Hwf & Hx & ex & q & Hb).
  apply streaming_get; [done|].
  pose proof (run_DisconnectConsumer e n ex r q c _ Hwf Hb) as Hrun. cbv zeta in Hrun.
  set (returned := returned_of _ _ _) in Hrun.
  pose proof (after_disconnect_fields c returned q (co_chans (w_core w)))
    as (_ & Hcons & Hfl & _).
  destruct (after_disconnect _ _ _ _) as [q' cs']. cbn [fst] in Hcons, Hfl.
  set (s1 := if _ && _ then _ else _) in Hrun.
  assert (gone x n c s1 ∧ co_qheap s1 !! r = Some q') as [Hgone Hq'].
  { destruct Hb as [Hex Hr Hq]. unfold s1. split.
    - intros e' ex' r' q1 Hx' [Hex' Hr' Hq1].
      destruct (q_IsAutoDelete q && bool_decide _); simpl in *; simplify_eq.
      + rewrite lookup_insert_eq in Hex'. simplify_eq. simpl in Hr'.
        by rewrite lookup_delete_eq in Hr'.
      + rewrite lookup_insert_eq in Hq1. simplify_eq. rewrite Hcons, Hfl.
        split; [set_solver|]. intros id d. apply kept_lookup.
    - destruct (q_IsAutoDelete q && bool_decide _); apply lookup_insert_eq. }
  eapply alone_try_core; [exact Hrun|]. cbv beta iota.
  eapply (alone_read r q'); [exact Hq'|]. destruct (q_IsDurable q'); [|done].
  eapply (alone_try _ _ _ (λ _ w', w_core w' = s1)); [| |].
  2: { intros [] w' Hc. apply alone_ret. by rewrite Hc. }
  2: { intros err w' Hc. by rewrite Hc. }
  apply (alone_for_each (λ _ w', w_core w' = s1)); [done| |done].
  intros d l w' Hcore.
  destruct (run_Exec (update_ready (dl_ID d)) (w_repo w')) as (res & db & Hex' & _).
  assert (∃ m, run (MarkReady (dl_ID d)) (w_repo w') = Val (m, db)) as [m Hm].
  { change (MarkReady (dl_ID d)) with (pg_MarkReady (dl_ID d)). unfold pg_MarkReady.
    rewrite run_try, Hex'. destruct res; by eexists. }
  eapply alone_run; [apply (run_repo _ w' m db Hm)|]. by destruct m.
Qed.

(** What the handler's [send] may do: nothing to the broker. *)
Context (send : DeliveryMessage → prog (World DB) (option status)).
Context (Hsend : ∀ m w, alone (send m) w (λ _ w', w' = w)).

Lemma streaming_loop w :
  streaming w →
  alone (BrokerHandler.stream_loop limits send x n c) w (λ _ w', streaming w').
Proof using All.
  intros Hw. apply (alone_loop _ _ streaming); [done|]. intros w1 Hw1.
  eapply (alone_bind _ _ _ (λ _ w', streaming w')); [by apply streaming_StreamFetch|].
  intros [d|err] w2 Hw2; [|done].
  eapply alone_mono; [apply Hsend|]. by intros [st|] w3 ->.
Qed.
End stream.

Section handler.
Context `{E : GoEnv} `{!GoEnvOk E} `{P : PgEnv} (limits : LimitsConfig).
Context (send : DeliveryMessage → prog (World DB) (option status)).
Context (Hsend : ∀ m w, alone (send m) w (λ _ w', w' = w)).

(** Registering the consumer, or finding no queue of that name. *)
Lemma alone_register x n c w :
  core_wf (w_core w) →
  alone (BrokerService.AddConsumer x n c) w (λ res w',
    match res with
    | Ok _ => ∃ e r, streaming x n e r w'
    | Err err => gone x n c (w_core w') ∧ w' = w
    end).
Proof.
  intros Hwf. destruct w as [s db]. cbn [w_core] in Hwf. unfold BrokerService.AddConsumer.
  destruct (co_Exchanges s !! x) as [e|] eqn:Hx.
  2: { apply (alone_try_core _ _ _ (Err ExchangeNotFound) s).
       - unfold Broker.GetExchange. rewrite run_atomic. go_unfold. by rewrite Hx.
       - split; [|done]. intros e ex r q He. simpl in He. congruence. }
  destruct (wf_exchanges s Hwf _ _ Hx) as (ex & Hex & _).
  eapply alone_try_core; [by apply run_GetExchange|]. cbn [w_core w_repo].
  assert (cspec (Exchange.AddConsumer e n c) s (λ _ _, True)) as Hspec
    by (apply cspec_AddConsumer; by exists ex).
  destruct (wpc_run core_wf core_le core_le _ _ s (straight_AddConsumer e n c) Hwf Hspec)
    as (res & s' & Hrun & Hwf' & _).
  eapply alone_run; [apply run_core, Hrun|]. unfold Exchange.AddConsumer in Hrun.
  destruct (ex_Queues ex !! n) as [r|] eqn:Hr.
  - destruct (wf_queues s Hwf _ _ _ _ Hex Hr) as (q & Hq & _).
    rewrite (run_with_queue e n ex r q) in Hrun by done.
    rewrite run_bind, run_atomic,
      (run_on_queue r q _ _ _ _ _ Hq (AddConsumer_eq c q (co_chans s))) in Hrun.
    injection Hrun as <- <-. exists e, r. split; [done|]. split; [done|].
    exists ex, (set_Consumers ({[c]} ∪ q_Consumers q) q).
    split; [done|done|apply lookup_insert_eq].
  - rewrite (run_without_queue e n ex) in Hrun by done. injection Hrun as <- <-.
    split; [|done]. intros e' ex' r q Hx' [Hex' Hr' _]. simpl in *. by simplify_eq.
Qed.

Lemma alone_stream x n c w :
  core_wf (w_core w) →
  alone (BrokerHandler.StreamFetch limits send x n c) w
    (λ o w', is_Some o ∧ gone x n c (w_core w')).
Proof using All.
  intros Hwf. eapply alone_bind; [by apply alone_register|].
  intros [u|err] w1 H1; [|split; [by eexists|apply H1]].
  destruct H1 as (e & r & H1).
  eapply alone_bind; [by apply (streaming_loop limits x n c e r send)|].
  intros err w2 H2. eapply alone_bind; [by apply (gone_disconnect x n c e r)|].
  intros res w3 H3. apply alone_ret. split; [by eexists|done].
Qed.
End handler.

(** ** Properties *)

(** C15: a stream cleans up behind itself: run alone, whatever ends it - its context, an
    error of the broker or of storage, or a [Send] that fails -, the handler of
    [StreamFetch] never panics, and when it returns it reports what ended it, its
    consumer is not registered with the queue any more, and no delivery of the queue
    is in flight for it. *)
Theorem stream_releases (E : GoEnv) (P : PgEnv) limits send x n c w k ws :
  GoEnvOk E → core_wf (w_core w) → (∀ m v, alone (send m) v (λ _ v', v' = v)) →
  match exec k ws (BrokerHandler.StreamFetch limits send x n c) w with
  | Finished o w' _ => is_Some o ∧ gone x n c (w_core w')
  | Panicked => False
  | Waiting _ _ | OutOfFuel => True
  end.
Proof. intros HE Hwf Hsend. by apply alone_exec, alone_stream. Qed.

(** The consumer "c1" streams from "users": it gets the message that was ready, and
    the stream ends when its context is cancelled while it waits for the next one. *)
Definition demo_stream : prog (World DB) (option status) :=
  BrokerHandler.StreamFetch (E := demo_env) (Repo := postgres (P := demo_pg)) demo_limited
    (λ _, Ret None) "events" "users" "c1".

Lemma demo_stream_ends :
  ∃ w', exec 200 [CtxDone Canceled] demo_stream demo_lived
        = Finished (Some (mkStatus Internal "context canceled")) w' [].
Proof. eexists. vm_compute. reflexivity. Qed.

Lemma stream_releases_witness :
  ∃ w', exec 200 [CtxDone Canceled] demo_stream demo_lived
        = Finished (Some (mkStatus Internal "context canceled")) w' [] ∧
    gone "events" "users" "c1" (w_core w').
Proof.
  pose proof (stream_releases demo_env demo_pg demo_limited (λ _, Ret None) "events"
    "users" "c1" demo_lived 200 [CtxDone Canceled] demo_env_ok
    (cg_wf _ (ag_core _ demo_lived_agree)) (λ _ _, eq_refl)) as H.
  destruct demo_stream_ends as [w' Hw']. unfold demo_stream in Hw'. rewrite Hw' in H.
  exists w'. split; [exact Hw'|apply H].
Defined.
