(* ===== verification/PublishSpec.v ===== *)
(** * Publishing through the service, run alone

    [BrokerService.Publish] routes a message, then stores and enqueues its
    deliveries one queue at a time.  On memory it does what [Exchange.Publish] of
    the core does, on the tables it stores the deliveries of the durable queues. *)

From S2P Require Import Prelude Errors Process Routing CoreQueue QueueSpec.
From S2P Require Import CoreExchange CoreSafety Scenario ExchangeSpec AppConfig Repository.
From S2P Require Import Service Database Postgres ServiceSafety PostgresSpec.
From S2P Require Import Mirror MirrorCore MirrorHeap MirrorService Recovery History FetchSpec.

(** The queue of a publication is durable. *)
Definition durable_in (s : Core) (p : PublishedDelivery) : bool :=
  match co_qheap s !! pd_Queue p with Some q => q_IsDurable q | None => false end.

Lemma durable_in_delivered new s s' p :
  delivered new s s' → valid_queue (pd_Queue p) s → durable_in s' p = durable_in s p.
Proof.
  intros Hd [q Hq]. destruct (dv_queue _ _ _ Hd _ _ Hq) as (q' & Hq' & Hc & _).
  unfold durable_in. by rewrite Hq, Hq', (sc_IsDurable _ _ Hc).
Qed.

(** What holds of every run that is alone holds of the sequential run. *)
Lemma alone_run_inv {S A} (p : prog S A) s a s' Q :
  alone p s Q → run p s = Val (a, s') → Q a s'.
Proof.
  unfold alone. revert s. induction p as [A a0|A X f k IH|A c k IH|A X body IHb k IH];
    intros s H Hrun; simpl in *; [by simplify_eq| |done|done].
  destruct (H s eq_refl I) as (x & s2 & Hf & _ & _ & Hk). rewrite Hf in Hrun.
  by eapply IH.
Qed.

(** A drawn id. *)
Lemma delivered_drawn new s s' :
  delivered new (drawn_uuid s) s' → delivered new s s'.
Proof. by intros []. Qed.

Section publish.
Context `{E : GoEnv} `{!GoEnvOk E} `{P : PgEnv} (limits : LimitsConfig).

(** Storing the deliveries of the durable queues, in order. *)
Definition save_all (x : string) (s : Core) (l : list PublishedDelivery) :
    prog DB (result unit) :=
  for_each (filter (λ p, durable_in s p = true) l)
    (λ p, SaveReadyDelivery x (pd_QueueName p) (pd_Delivery p)).

Lemma save_all_ext x s s' l :
  Forall (λ p, durable_in s' p = durable_in s p) l → save_all x s' l = save_all x s l.
Proof.
  intros Hl. unfold save_all. f_equal. induction Hl as [|p l Hp _ IH]; [done|].
  rewrite !filter_cons, Hp. by rewrite IH.
Qed.

Lemma durable_in_stored s p d : durable_in s (stored p d) = durable_in s p.
Proof. done. Qed.

Lemma run_SaveReadyDelivery x n d db :
  ∃ r db', run (SaveReadyDelivery x n d) db = Val (r, db') ∧
    (∀ err, r = Err err → ∃ text, err = StorageError text).
Proof.
  change (SaveReadyDelivery x n d) with (pg_SaveReadyDelivery x n d).
  unfold pg_SaveReadyDelivery.
  destruct (run_Exec (insert_ready (dl_ID d) x n (msg_RoutingKey (dl_Message d))
    (msg_Payload (dl_Message d)) (dl_Attempts d)) db) as ([k|err] & db' & Hrun & H);
    rewrite run_try, Hrun; eexists _, _; (split; [done|]); [done|].
  by intros err' [= <-].
Qed.

(** One delivery on memory: [Exchange.append_one] and [Exchange.EnqueueDelivery]
    with a delivery made on the spot are the same. *)
Lemma run_enqueue_one e ex p q s :
  core_wf s → bound e (pd_QueueName p) ex (pd_Queue p) q s →
  ∃ s', run (Exchange.append_one p) s
        = Val (stored p (mkDelivery (uuid_at (co_uuids s)) (pd_Message p) "" 0), s') ∧
    run (Exchange.EnqueueDelivery e (pd_QueueName p)
           (mkDelivery (uuid_at (co_uuids s)) (pd_Message p) "" 0)) (drawn_uuid s)
    = Val (Ok tt, s') ∧
    core_wf s' ∧ co_uuids s' = S (co_uuids s) ∧
    delivered (into (pd_Queue p)
      (mkDelivery (uuid_at (co_uuids s)) (pd_Message p) "" 0)) s s'.
Proof.
  intros Hs [Hex Hr Hq].
  destruct (wf_counters s (S (co_uuids s)) (co_ranges s) Hs) as [Hs1 _]; [lia|].
  change (core_wf (drawn_uuid s)) in Hs1.
  destruct (run_append (uuid_at (co_uuids s)) (pd_Message p) (pd_Queue p) q
    (drawn_uuid s) Hs1 Hq) as (s' & Hrun & Hs' & Hd & Hu).
  exists s'. split; [|split; [|split; [done|split; [done|by apply delivered_drawn]]]].
  - unfold Exchange.append_one. rewrite run_bind, run_atomic.
    rewrite (GoM_bind_val _ _ s (uuid_at (co_uuids s)) (drawn_uuid s)) by done.
    by rewrite Hrun.
  - unfold Exchange.EnqueueDelivery.
    rewrite (run_with_queue e (pd_QueueName p) ex (pd_Queue p) q) by done.
    rewrite run_bind, run_atomic.
    pose proof (wf_open _ Hs1 _ _ Hq) as Ho.
    rewrite (run_on_queue (pd_Queue p) q _ (drawn_uuid s) _ _ _ Hq
               (EnqueueDelivery_eq _ q _ Ho)).
    rewrite (run_on_queue (pd_Queue p) q _ (drawn_uuid s) _ _ _ Hq
               (Append_eq _ _ q _ Ho)) in Hrun.
    by injection Hrun as <-.
Qed.

(** Where the loop of [Publish] stands after the publications [l]: all done, or
    stopped at a durable queue by the storage, with those before it done. *)
Definition published_until (s s' : Core) (l : list PublishedDelivery) (r : result unit)
    (done_state : Core) : Prop :=
  match r with
  | Ok _ => s' = done_state
  | Err err =>
      (∃ text, err = StorageError text) ∧
      ∃ l1 p l2, l = l1 ++ p :: l2 ∧ durable_in s p = true ∧ delivered (sent_to l1) s s'
  end.

(** One item of the loop. *)
Lemma run_publish_item x e ex p q s db :
  core_wf s → bound e (pd_QueueName p) ex (pd_Queue p) q s →
  let d := mkDelivery (uuid_at (co_uuids s)) (pd_Message p) "" 0 in
  ∃ s1, run (Exchange.append_one p) s = Val (stored p d, s1) ∧
    core_wf s1 ∧ co_uuids s1 = S (co_uuids s) ∧ delivered (into (pd_Queue p) d) s s1 ∧
    run (BrokerService.publish_item x e p) (mkWorld s db) =
    if q_IsDurable q then
      match run (SaveReadyDelivery x (pd_QueueName p) d) db with
      | Val (Ok _, db1) => Val (Ok tt, mkWorld s1 db1)
      | Val (Err err, db1) => Val (Err err, mkWorld (drawn_uuid s) db1)
      | Panic => Panic
      end
    else Val (Ok tt, mkWorld s1 db).
Proof.
  intros Hs Hb d.
  destruct (run_enqueue_one e ex p q s Hs Hb) as (s1 & Hrun & Henq & Hs1 & Hu & Hd).
  exists s1. split_and!; [done..|]. unfold BrokerService.publish_item.
  rewrite (run_bind_val _ _ _ q (mkWorld s db))
    by exact (run_core _ (mkWorld s db) _ _ (run_read_queue _ _ _ (b_queue _ _ _ _ _ _ Hb))).
  assert (run (BrokerService.core (R := DB) (atomic new_uuid)) (mkWorld s db)
          = Val (uuid_at (co_uuids s), mkWorld (drawn_uuid s) db)) as Huuid
    by (apply (run_core _ (mkWorld s db)); done).
  destruct (q_IsDurable q); simpl negb; cbv iota zeta;
    rewrite (run_bind_val _ _ _ _ _ Huuid); fold d.
  - rewrite run_try. unfold BrokerService.repo at 1. rewrite run_zoom by apply _.
    unfold zoomM. change (view repo_lens (mkWorld (drawn_uuid s) db)) with db.
    destruct (run (SaveReadyDelivery x (pd_QueueName p) d) db) as [[[u|err] db1]|];
      [|done|done].
    by rewrite (run_try_ok _ _ _ _ _
      (run_core _ (mkWorld (drawn_uuid s) db1) _ _ Henq)).
  - by rewrite (run_try_ok _ _ _ _ _ (run_core _ (mkWorld (drawn_uuid s) db) _ _ Henq)).
Qed.
Lemma save_all_cons x s p l db :
  run (save_all x s (p :: l)) db =
  if durable_in s p then
    match run (SaveReadyDelivery x (pd_QueueName p) (pd_Delivery p)) db with
    | Val (Ok _, db1) => run (save_all x s l) db1
    | Val (Err err, db1) => Val (Err err, db1)
    | Panic => Panic
    end
  else run (save_all x s l) db.
Proof.
  unfold save_all. rewrite filter_cons.
  destruct (durable_in s p); [rewrite decide_True by done|by rewrite decide_False].
  cbn [for_each]. by rewrite run_try.
Qed.

Lemma published_until_cons s s1 s' p l r sdone :
  delivered (into (pd_Queue p) (pd_Delivery p)) s s1 →
  (∀ p', p' ∈ l → valid_queue (pd_Queue p') s) →
  published_until s1 s' l r sdone → published_until s s' (p :: l) r sdone.
Proof.
  intros Hd Hv H. destruct r as [u|err]; [done|].
  destruct H as [Htext (l1 & p' & l2 & -> & Hp' & Hd')]. split; [done|].
  exists (p :: l1), p', l2. split; [done|]. split.
  - rewrite <- (durable_in_delivered _ s s1 p' Hd); [done|]. apply Hv. set_solver.
  - eapply delivered_ext; [|by eapply (delivered_trans (into (pd_Queue p) _))].
    intros r. unfold sent_to, into. csimpl. rewrite filter_cons.
    repeat case_decide; simplify_eq; done.
Qed.

Lemma run_publish_items x e ex l s db :
  core_wf s → co_eheap s !! e = Some ex →
  Forall (λ p, ex_Queues ex !! pd_QueueName p = Some (pd_Queue p)) l →
  ∃ s1 r db1 s', run (map_prog Exchange.append_one l) s
                 = Val (drawn (co_uuids s) l, s1) ∧
    run (save_all x s (drawn (co_uuids s) l)) db = Val (r, db1) ∧
    run (for_each l (BrokerService.publish_item x e)) (mkWorld s db)
    = Val (r, mkWorld s' db1) ∧
    published_until s s' (drawn (co_uuids s) l) r s1.
Proof.
  intros Hs Hex Hl. revert s db Hs Hex.
  induction Hl as [|p l Hp Hl IH]; intros s db Hs Hex; cbn [drawn map_prog for_each].
  { by exists s, (Ok tt), db, s. }
  destruct (bound_ex _ _ _ _ _ Hs Hex Hp) as (q & Hb & _).
  destruct (run_publish_item x e ex p q s db Hs Hb)
    as (s1 & Happ & Hs1 & Hu & Hd & Hitem).
  set (d := mkDelivery (uuid_at (co_uuids s)) (pd_Message p) "" 0) in *.
  assert (durable_in s (stored p d) = q_IsDurable q) as Hdur
    by (unfold durable_in; simpl; by rewrite (b_queue _ _ _ _ _ _ Hb)).
  assert (∀ p', p' ∈ drawn (S (co_uuids s)) l → valid_queue (pd_Queue p') s) as Hv.
  { intros p' Hp'. assert (destination p' ∈ destination <$> l) as Hin.
    { rewrite <- (destination_drawn (S (co_uuids s))). by apply list_elem_of_fmap_2. }
    apply list_elem_of_fmap in Hin as (p0 & Heq & Hin). injection Heq as Hn Hr.
    rewrite Forall_forall in Hl. specialize (Hl p0 Hin). rewrite Hr.
    destruct (bound_ex _ _ _ _ _ Hs Hex Hl) as (q0 & [_ _ Hq0] & _). by exists q0. }
  assert (∀ db0, ∃ s2 r db1 s', run (map_prog Exchange.append_one l) s1
                 = Val (drawn (S (co_uuids s)) l, s2) ∧
    run (save_all x s (drawn (S (co_uuids s)) l)) db0 = Val (r, db1) ∧
    run (for_each l (BrokerService.publish_item x e)) (mkWorld s1 db0)
    = Val (r, mkWorld s' db1) ∧
    published_until s s' (stored p d :: drawn (S (co_uuids s)) l) r s2) as Hrest.
  { intros db0. destruct (IH s1 db0 Hs1) as (s2 & r & db1 & s' & H1 & H2 & H3 & H4).
    { by rewrite (dv_eheap _ _ _ Hd). }
    rewrite Hu in H1, H2, H4. exists s2, r, db1, s'. split_and!; [done| |done|].
    - rewrite <- H2. f_equal. symmetry. apply save_all_ext, Forall_forall.
      intros p' Hp'. eapply durable_in_delivered; eauto.
    - by eapply published_until_cons. }
  clear IH. rewrite (run_bind_val _ _ _ _ _ Happ), save_all_cons, Hdur, run_try, Hitem.
  destruct (q_IsDurable q).
  - change (pd_Delivery (stored p d)) with d. change (pd_QueueName (stored p d)) with (pd_QueueName p).
    destruct (run_SaveReadyDelivery x (pd_QueueName p) d db) as (r & db0 & Hsave & Herr).
    rewrite Hsave. destruct (Hrest db0) as (s2 & r' & db1 & s' & H1 & H2 & H3 & H4).
    destruct r as [u|err].
    + exists s2, r', db1, s'. by rewrite (run_bind_val _ _ _ _ _ H1).
    + exists s2, (Err err), db0, (drawn_uuid s). rewrite (run_bind_val _ _ _ _ _ H1).
      split_and!; [done..|]. split; [by apply Herr|].
      exists [], (stored p d), (drawn (S (co_uuids s)) l). split_and!; [done|done|].
      apply delivered_drawn. exact (delivered_refl (drawn_uuid s)).
  - destruct (Hrest db) as (s2 & r' & db1 & s' & H1 & H2 & H3 & H4).
    exists s2, r', db1, s'. by rewrite (run_bind_val _ _ _ _ _ H1).
Qed.
(** ** [Publish] *)

(** Why a publication is refused, before anything is done. *)
Definition publish_refusal (x : string) (key : RoutingKey) (payload : list Byte.byte)
    (s : Core) : option error :=
  if decide (MaxMessageSize limits < Z.of_nat (length payload))%Z then Some MessageTooLarge
  else if decide (MaxRoutingKeyLength limits < Z.of_nat (String.length key))%Z
  then Some RoutingKeyTooLong
  else match co_Exchanges s !! x with
       | None => Some ExchangeNotFound
       | Some _ => if RoutingKey.IsValid key then None else Some InvalidRoutingKey
       end.

Lemma run_service_Publish x key payload s db :
  core_wf s →
  match publish_refusal x key payload s with
  | Some err =>
      run (BrokerService.Publish limits x key payload) (mkWorld s db)
      = Val (Err err, mkWorld s db)
  | None =>
      ∃ e ex l s1 r db1 s',
        co_Exchanges s !! x = Some e ∧ co_eheap s !! e = Some ex ∧
        run (Exchange.Publish e key payload) s = Val (Ok l, s1) ∧
        routed_to key payload ex s l ∧
        (∃ l0, l = drawn (co_uuids s) l0 ∧ run (Exchange.Route e key payload) s
                                          = Val (Ok l0, tick s)) ∧
        run (save_all x s l) db = Val (r, db1) ∧
        run (BrokerService.Publish limits x key payload) (mkWorld s db)
        = Val (r, mkWorld s' db1) ∧
        published_until s s' l r s1
  end.
Proof.
  intros Hs. unfold publish_refusal, BrokerService.Publish.
  case_decide; [done|]. case_decide; [done|].
  destruct (co_Exchanges s !! x) as [e|] eqn:Hx.
  2: { assert (run (Broker.GetExchange x) s = Val (Err ExchangeNotFound, s)) as Hget
         by (unfold Broker.GetExchange; rewrite run_atomic; go_unfold; by rewrite Hx).
       exact (run_try_err _ _ _ _ _ (run_core _ (mkWorld s db) _ _ Hget)). }
  destruct (wf_exchanges s Hs _ _ Hx) as (ex & Hex & _).
  rewrite (run_try_ok _ _ _ _ _ (run_core _ (mkWorld s db) _ _ (run_GetExchange x e s Hx))).
  cbn [w_core w_repo]. pose proof (run_Route e ex key payload s Hex Hs) as HR.
  destruct (RoutingKey.IsValid key).
  2: exact (run_try_err _ _ _ _ _ (run_core _ (mkWorld s db) _ _ HR)).
  rewrite (run_try_ok _ _ _ _ _ (run_core _ (mkWorld s db) _ _ HR)). cbn [w_core w_repo].
  set (l := omap _ _) in HR |- *.
  assert (routed_to key payload ex s l) as Hl
    by (eapply routed_to_snapshot; [done..|apply (range_perm (keys _))]).
  destruct (run_publish_items x e ex l (tick s) db) as (s1 & r & db1 & s' & H1 & H2 & H3 & H4).
  { by apply wf_tick. }
  { done. }
  { apply Forall_forall. intros p Hp.
    apply (rt_exact _ _ _ _ _ Hl (pd_QueueName p) (pd_Queue p)).
    by apply (list_elem_of_fmap_2' _ _ p). }
  exists e, ex, (drawn (co_uuids s) l), s1, r, db1, s'. split_and!; try done.
  - unfold Exchange.Publish. rewrite (run_try_ok _ _ _ _ _ HR).
    by rewrite (run_bind_val _ _ _ _ _ H1).
  - by apply routed_to_drawn.
  - by exists l.
  - rewrite run_try, H3. by destruct r as [[]|].
  - destruct r as [u|err]; [done|]. destruct H4 as [Ht (l1 & p & l2 & Heq & Hp & Hd)].
    split; [done|]. exists l1, p, l2. split; [done|]. split; [done|]. by destruct Hd.
Qed.
(** The same, in terms of [Exchange.Publish] and [SaveReadyDelivery] alone. *)
Definition publishes_like_core (x : string) (key : RoutingKey) (payload : list Byte.byte)
    (s : Core) (db : DB) : Prop :=
  match publish_refusal x key payload s with
  | Some err =>
      run (BrokerService.Publish limits x key payload) (mkWorld s db)
      = Val (Err err, mkWorld s db)
  | None =>
      ∃ e l s1 r db1 s', co_Exchanges s !! x = Some e ∧
        run (Exchange.Publish e key payload) s = Val (Ok l, s1) ∧
        run (save_all x s l) db = Val (r, db1) ∧
        run (BrokerService.Publish limits x key payload) (mkWorld s db)
        = Val (r, mkWorld s' db1) ∧
        published_until s s' l r s1
  end.

Lemma published_all x key payload s db w' :
  publishes_like_core x key payload s db → publish_refusal x key payload s = None →
  run (BrokerService.Publish limits x key payload) (mkWorld s db) = Val (Ok tt, w') →
  ∃ e l, run (Exchange.Publish e key payload) s = Val (Ok l, w_core w').
Proof.
  unfold publishes_like_core. intros H Hno Hok. rewrite Hno in H.
  destruct H as (e & l & s1 & r & db1 & s' & _ & H1 & _ & H3 & H4).
  rewrite Hok in H3. injection H3 as <- ->. exists e, l. simpl in H4 |- *. by rewrite H4.
Qed.

(** ** What arrives in a queue *)

Lemma filter_one {A} (f : A → Prop) `{!∀ a, Decision (f a)} (g : A → string) (l : list A) a :
  NoDup (g <$> l) → a ∈ l → f a → (∀ b, b ∈ l → f b → g b = g a) → filter f l = [a].
Proof.
  induction l as [|b l IH]; intros Hnd Ha Hf Huniq; [by apply not_elem_of_nil in Ha|].
  csimpl in Hnd. apply NoDup_cons in Hnd as [Hb Hnd]. rewrite filter_cons.
  apply elem_of_cons in Ha as [->|Ha].
  - rewrite decide_True by done. f_equal. apply filter_none, Forall_forall.
    intros c Hc Hfc. apply Hb. rewrite <- (Huniq c); [by apply list_elem_of_fmap_2|by right|done].
  - rewrite decide_False.
    + apply IH; [done..|]. intros c Hc. apply Huniq. by right.
    + intros Hfb. apply Hb. rewrite (Huniq b); [by apply list_elem_of_fmap_2|by left|done].
Qed.

Lemma drawn_fields n l p :
  p ∈ drawn n l →
  ∃ i, n ≤ i ∧ pd_Delivery p = mkDelivery (uuid_at i) (pd_Message p) "" 0.
Proof.
  revert n. induction l as [|p0 l IH]; intros n Hp; cbn [drawn] in Hp;
    [by apply not_elem_of_nil in Hp|].
  apply elem_of_cons in Hp as [->|Hp]; [by exists n|].
  destruct (IH (S n) Hp) as (i & ? & ?). exists i. split; [lia|done].
Qed.

(** An id that was not drawn yet has no letter. *)
Lemma undrawn_letter s a i :
  core_good s → shows s a → co_uuids s ≤ i → a_letters a !! uuid_at i = None.
Proof.
  intros Hc Hsh Hi.
  assert (∀ r q, co_qheap s !! r = Some q → uuid_at i ∉ ids q) as Hnew.
  { intros r q Hq Hin. destruct (cg_ids s Hc r q _ Hq Hin) as (j & Hj & Heq).
    apply uuid_inj in Heq. lia. }
  apply (shows_fresh s); [done|..]; intros r q Hq.
  - intros Hin. apply (Hnew r q Hq). unfold ids, held. rewrite fmap_app, elem_of_app. by left.
  - destruct (q_InFlight q !! uuid_at i) as [d|] eqn:Hd; [|done].
    exfalso. apply (Hnew r q Hq). eapply flight_in_ids; [|done]. by apply (cg_inv s Hc r q).
Qed.

(** A queue that receives a message gets exactly one delivery of it. *)
Lemma sent_once key payload ex e s l n r :
  core_wf s → co_eheap s !! e = Some ex → routed_to key payload ex s l →
  receives key ex s n r →
  ∃ p, p ∈ l ∧ sent_to l r = [pd_Delivery p].
Proof.
  intros Hs Hex Hl Hr. pose proof Hr as Hin.
  apply (rt_exact _ _ _ _ _ Hl) in Hin. apply list_elem_of_fmap in Hin as (p & Heq & Hp).
  injection Heq as Hn Hpr. exists p. split; [done|]. unfold sent_to.
  rewrite (filter_one _ pd_QueueName l p); [done|apply Hl|done|done|].
  intros p' Hp' Hpr'. assert (receives key ex s (pd_QueueName p') r) as [Hr' _].
  { apply (rt_exact _ _ _ _ _ Hl). rewrite <- Hpr'.
    by apply (list_elem_of_fmap_2' _ _ p'). }
  destruct Hr as [Hr _].
  destruct (bound_ex _ _ _ _ _ Hs Hex Hr) as (q & [_ _ Hq] & Hnq).
  destruct (bound_ex _ _ _ _ _ Hs Hex Hr') as (q' & [_ _ Hq'] & Hnq'). congruence.
Qed.

(** After a publication that ends well every queue that receives it has one more
    delivery. *)
Lemma published_arrives x key payload s db w' e ex n r q :
  core_wf s → co_Exchanges s !! x = Some e → bound e n ex r q s →
  Exists (λ f, RoutingFilter.Match f key = true) (q_Filters q) →
  run (BrokerService.Publish limits x key payload) (mkWorld s db) = Val (Ok tt, w') →
  co_Exchanges (w_core w') !! x = Some e ∧
  ∃ id q', bound e n ex r q' (w_core w') ∧ same_config q q' ∧
    q_Ready q' = q_Ready q ++ [mkDelivery id (mkMessage payload key) "" 0] ∧
    q_InFlight q' = q_InFlight q ∧ q_Consumers q' = q_Consumers q.
Proof.
  intros Hs Hx Hb Hrec Hrun. pose proof (run_service_Publish x key payload s db Hs) as H.
  destruct (publish_refusal x key payload s) as [err|]; [congruence|].
  destruct H as (e' & ex' & l & s1 & res & db1 & s' & Hx' & Hex & Hpub & Hl & Hdraw & _
    & Hrun' & Hend).
  rewrite Hrun in Hrun'. injection Hrun' as <- ->. simpl in Hend. subst s'. simplify_eq.
  pose proof Hb as [Hex' Hr Hq]. rewrite Hex in Hex'. injection Hex' as ->.
  destruct Hdraw as (l0 & -> & HR). unfold Exchange.Publish in Hpub.
  rewrite (run_try_ok _ _ _ _ _ HR) in Hpub.
  destruct (run_append_all l0 (tick s)) as (s2 & Hrun2 & _ & Hd & _).
  { by apply wf_tick. }
  { apply Forall_forall. intros p Hp.
    destruct (rt_exact _ _ _ _ _ Hl (pd_QueueName p) (pd_Queue p)) as [_ H].
    destruct H as (_ & q0 & Hq0 & _); [|by exists q0].
    rewrite destination_drawn. by apply (list_elem_of_fmap_2' _ _ p). }
  rewrite (run_bind_val _ _ _ _ _ Hrun2) in Hpub. injection Hpub as ->.
  destruct (sent_once key payload ex e s _ n r Hs Hex Hl) as (p & Hp & Hsent).
  { split; [done|]. eauto. }
  destruct (dv_queue _ _ _ Hd r q Hq) as (q' & Hq' & Hcfg & Hready & Hfl & Hcons & _).
  change (co_uuids (tick s)) with (co_uuids s) in Hready. rewrite Hsent in Hready.
  cbn [w_core]. split; [by rewrite (dv_exchanges _ _ _ Hd)|].
  assert (pd_Delivery p = mkDelivery (dl_ID (pd_Delivery p)) (mkMessage payload key) "" 0)
    as Hpd.
  { destruct (drawn_fields _ _ _ Hp) as (i & _ & ->). simpl. f_equal.
    pose proof (rt_message _ _ _ _ _ Hl) as Hm. rewrite Forall_forall in Hm. by apply Hm. }
  exists (dl_ID (pd_Delivery p)), q'. rewrite <- Hpd. split_and!; try done.
  split; [by rewrite (dv_eheap _ _ _ Hd)|done|done].
Qed.
End publish.

(** ** Properties *)

(** C16: publishing through the service and through the core is the same on memory:
    unless it is refused - the message or its key are too long, the exchange does
    not exist, the key is invalid, in this order, and nothing changes -, [Publish]
    has the result of storing the deliveries of the durable queues one after the
    other, in routing order; when all are stored, memory is exactly as the core's own
    [Exchange.Publish] leaves it; when one is not, the queues before it have got
    their deliveries, and it and all later ones have not. *)
Theorem publish_equivalence (E : GoEnv) (P : PgEnv) limits x key payload s db :
  GoEnvOk E → core_wf s →
  publishes_like_core limits x key payload s db.
Proof.
  intros HE Hs. pose proof (run_service_Publish limits x key payload s db Hs) as H.
  unfold publishes_like_core.
  destruct (publish_refusal limits x key payload s); [done|].
  destruct H as (e & ex & l & s1 & r & db1 & s' & He & _ & H1 & _ & _ & H2 & H3 & H4).
  by exists e, l, s1, r, db1, s'.
Qed.

(** The world of the history, and a message for both of its queues. *)
Abbreviation demo_publish :=
  (BrokerService.Publish (E := demo_env) (Repo := postgres (P := demo_pg))
     demo_limited "events" "corp.users.create" [Byte.x68]).

Lemma demo_publish_ok :
  publish_refusal demo_limited "events" "corp.users.create" [Byte.x68] (w_core demo_lived) = None ∧
  ∃ w', run demo_publish (mkWorld (w_core demo_lived) (w_repo demo_lived))
        = Val (Ok tt, w').
Proof. split; [|eexists]; vm_compute; reflexivity. Qed.

Lemma publish_equivalence_witness :
  ∃ w' e l, run demo_publish (mkWorld (w_core demo_lived) (w_repo demo_lived))
          = Val (Ok tt, w') ∧
    run (Exchange.Publish (E := demo_env) e "corp.users.create" [Byte.x68])
      (w_core demo_lived) = Val (Ok l, w_core w').
Proof.
  destruct demo_publish_ok as (Hno & w' & Hok).
  destruct (published_all _ _ _ _ _ _ w'
    (publish_equivalence demo_env demo_pg demo_limited "events" "corp.users.create" [Byte.x68]
       (w_core demo_lived) (w_repo demo_lived) demo_env_ok
       (cg_wf _ (ag_core _ demo_lived_agree))) Hno Hok) as (e & l & H).
  exists w', e, l. split; [exact Hok|exact H].
Defined.
