(* ===== verification/Answered.v ===== *)
(** * A server that answers

    What the service does on a storage that executes and answers every statement: a
    publication that is not refused and whose durable deliveries the tables can take
    ends well, and a consumer below its limit gets the first ready delivery. *)

From S2P Require Import Prelude Errors Process Routing CoreQueue QueueSpec.
From S2P Require Import CoreExchange CoreSafety Scenario ExchangeSpec AppConfig Repository.
From S2P Require Import Service Database Postgres ServiceSafety PostgresSpec.
From S2P Require Import Mirror MirrorCore MirrorHeap MirrorService Recovery History.
From S2P Require Import FetchSpec PublishSpec.

Section answered.
Context `{E : GoEnv} `{!GoEnvOk E} `{P : PgEnv} (limits : LimitsConfig).
Context (Hup : server_up).

Lemma run_Exec_up st db n t :
  st (now_at (db_time db)) (db_tables db) = inr (n, t) →
  run (Exec st) db = Val (Ok n, mkDB t (S (db_time db)) (db_uuids db)).
Proof using Hup.
  intros H. unfold Exec. rewrite run_atomic. unfold exec_stmt. by rewrite Hup, H.
Qed.

(** A delivery that the tables can take. *)
Record storable (t : Tables) (k : string * string) (d : Delivery) : Prop := {
  so_attempts : dl_Attempts d = 0%Z;
  so_queue : is_Some (t_queues t !! k);
  so_fresh : t_deliveries t !! dl_ID d = None;
  so_texts : texts_ok [dl_ID d; k.1; k.2; msg_RoutingKey (dl_Message d)] = true;
  so_payload : msg_Payload (dl_Message d) ≠ [];
}.

(** A publication whose deliveries the tables can take: a queue that is durable and
    receives it has a name, an exchange and a key that are legal texts, and the
    message is not empty. *)
Definition fits (x : string) (key : RoutingKey) (payload : list Byte.byte)
    (ex : Exchange) (s : Core) : Prop :=
  ∀ n r q, receives key ex s n r → co_qheap s !! r = Some q → q_IsDurable q = true →
    payload ≠ [] ∧ texts_ok [x; n; key] = true.

Context (Huuid : ∀ i, text_ok (uuid_at i) = true).

Lemma run_SaveReady_up x n d db :
  storable (db_tables db) (x, n) d →
  ∃ db', run (SaveReadyDelivery x n d) db = Val (Ok tt, db') ∧
    t_queues (db_tables db') = t_queues (db_tables db) ∧
    ∀ id, id ≠ dl_ID d →
      t_deliveries (db_tables db') !! id = t_deliveries (db_tables db) !! id.
Proof using Hup.
  intros [Ha Hq Hd Ht Hp]. change (SaveReadyDelivery x n d) with (pg_SaveReadyDelivery x n d).
  unfold pg_SaveReadyDelivery. eexists. split; [|split].
  - erewrite run_try_ok; [reflexivity|]. apply run_Exec_up. unfold insert_ready.
    replace (texts_ok _) with true by (symmetry; exact Ht). cbn [negb]. rewrite Ha.
    rewrite (decide_False (P := _ = [])) by done.
    rewrite (decide_False (P := ¬ in_int32 0)).
    2: { intros H. apply H. unfold in_int32. lia. }
    rewrite decide_False by lia. rewrite decide_False by (rewrite Hd; by intros [? ?]).
    rewrite decide_True by done. reflexivity.
  - done.
  - intros id Hne. simpl. by rewrite lookup_insert_ne.
Qed.

Lemma save_all_up x s l db :
  Forall (λ p, durable_in s p = true →
            storable (db_tables db) (x, pd_QueueName p) (pd_Delivery p)) l →
  NoDup (dl_ID ∘ pd_Delivery <$> l) →
  ∃ db', run (save_all x s l) db = Val (Ok tt, db').
Proof using Hup.
  revert db. induction l as [|p l IH]; intros db Hl Hnd; [by exists db|].
  apply Forall_cons in Hl as [Hp Hl]. csimpl in Hnd. apply NoDup_cons in Hnd as [Hid Hnd].
  rewrite save_all_cons. destruct (durable_in s p) eqn:Hdur; [|by apply IH].
  destruct (run_SaveReady_up x (pd_QueueName p) (pd_Delivery p) db (Hp eq_refl))
    as (db1 & Hrun & Hqs & Hds).
  rewrite Hrun. apply IH; [|done]. apply Forall_forall. intros p' Hp' Hdur'.
  rewrite Forall_forall in Hl. destruct (Hl p' Hp' Hdur') as [Ha Hq Hf ??].
  split; [done|by rewrite Hqs| |done|done]. rewrite Hds; [done|]. intros Heq. apply Hid.
  apply list_elem_of_fmap. by exists p'.
Qed.

(** The publication of a message that is not refused ends well. *)
Lemma run_Publish_up x key payload e ex w :
  agree w → publish_refusal limits x key payload (w_core w) = None →
  co_Exchanges (w_core w) !! x = Some e → co_eheap (w_core w) !! e = Some ex →
  fits x key payload ex (w_core w) →
  ∃ w', run (BrokerService.Publish limits x key payload) w = Val (Ok tt, w') ∧ agree w'.
Proof using All.
  intros Hw Hno Hx' Hex' Hfits. destruct w as [s db]. cbn [w_core] in *.
  pose proof (cg_wf _ (ag_core _ Hw)) as Hs. cbn [w_core] in Hs.
  pose proof (run_service_Publish limits x key payload s db Hs) as H. rewrite Hno in H.
  destruct H as (e0 & ex0 & l & s1 & r & db1 & s' & Hx & Hex & _ & Hl & (l0 & -> & _)
    & Hsave & Hrun & _).
  assert (e0 = e) as -> by congruence. assert (ex0 = ex) as -> by congruence.
  destruct (save_all_up x s (drawn (co_uuids s) l0) db) as [db2 Hok].
  - apply Forall_forall. intros p Hp Hdur.
    assert (receives key ex s (pd_QueueName p) (pd_Queue p)) as (Hr & q & Hq & Hmatch).
    { apply (rt_exact _ _ _ _ _ Hl). by apply (list_elem_of_fmap_2' _ _ p). }
    unfold durable_in in Hdur. rewrite Hq in Hdur.
    destruct (drawn_fields _ _ _ Hp) as (i & Hi & Hd). rewrite Hd. simpl.
    destruct Hw as [Hc _ Hsh]. cbn [w_core w_repo] in *.
    destruct (Hfits (pd_QueueName p) (pd_Queue p) q) as [Hpay Htexts];
      [split; eauto|done|done|].
    pose proof (rt_message _ _ _ _ _ Hl) as Hm. rewrite Forall_forall in Hm.
    specialize (Hm p Hp). simpl in Hm.
    split; simpl; [done| | | |].
    + assert (a_queues (abs_of (db_tables db)) !! (x, pd_QueueName p) = Some (config_of q))
        as Haq.
      { apply (sh_queues _ _ Hsh). exists (pd_Queue p), q. split; [|done].
        exists e, ex. split; [done|]. by split. }
      rewrite abs_queue in Haq. by destruct (t_queues (db_tables db) !! (x, pd_QueueName p)).
    + pose proof (undrawn_letter s _ i Hc Hsh Hi) as Ha. rewrite abs_letter in Ha.
      by destruct (t_deliveries (db_tables db) !! _).
    + rewrite Hm. simpl. rewrite Huuid. exact Htexts.
    + by rewrite Hm.
  - rewrite drawn_ids. apply NoDup_fmap; [apply uuid_inj|apply NoDup_seq].
  - rewrite Hok in Hsave. injection Hsave as <- <-. eexists. split; [exact Hrun|].
    pose proof (alone_run_inv _ _ _ _ _ (settled_Publish limits x key payload _ Hw) Hrun)
      as Hset.
    exact Hset.
Qed.

Lemma run_MarkInFlight_up id c att db row :
  texts_ok [id; c] = true →
  t_deliveries (db_tables db) !! id = Some row → (0 ≤ att)%Z → in_int32 att →
  ∃ db', run (MarkInFlight id c att) db = Val (Ok tt, db').
Proof using Hup.
  intros Ht Hrow H0 H32. change (MarkInFlight id c att) with (pg_MarkInFlight id c att).
  unfold pg_MarkInFlight. eexists. erewrite run_try_ok.
  2: { apply (run_Exec_up _ _ 1). unfold update_in_flight. rewrite Ht. simpl.
       rewrite (decide_False (P := ¬ in_int32 att)) by tauto.
       rewrite decide_False by lia. unfold update_delivery. rewrite Hrow. reflexivity. }
  reflexivity.
Qed.

(** A consumer below its limit gets the first ready delivery. *)
Lemma exec_fetch_up x n c timeout e ex r q d rest w :
  agree w → co_Exchanges (w_core w) !! x = Some e → bound e n ex r q (w_core w) →
  c ∈ q_Consumers q → at_limit c (MaxInFlight limits) q = false →
  q_Ready q = d :: rest → dl_Attempts d = 0%Z →
  (q_IsDurable q = true → text_ok c = true) →
  ∃ fuel w', ∀ ws,
    exec fuel ws (BrokerService.BlockingFetch limits x n c timeout) w
    = Finished (Ok (leased c d)) w' ws.
Proof using GoEnvOk0 Hup.
  intros Hw Hx Hb Hc Hlim Hready Hatt Htext.
  destruct (exec_fetch limits x n c timeout e ex r q w (cg_wf _ (ag_core _ Hw)) Hx Hb)
    as [fuel Hfuel]. exists fuel.
  assert (attempt (MaxInFlight limits) c q
          = (leased c d, None, None, after_lease c d rest q)) as Ha
    by (unfold attempt; by rewrite decide_True, Hlim, Hready).
  unfold fetch_result in Hfuel. rewrite Ha in Hfuel.
  destruct (q_IsDurable q) eqn:Hdur; [|by eexists].
  assert (a_letters (abs_of (db_tables (w_repo w))) !! dl_ID d
          = Some (letter (x, n) d None)) as Hl.
  { apply (sh_letters _ _ (ag_shows _ Hw)). exists x, n, r, q. split; [by exists e, ex|].
    left. exists d. rewrite Hready. split; [by left|done]. }
  rewrite abs_letter in Hl.
  destruct (t_deliveries (db_tables (w_repo w)) !! dl_ID d) as [row|] eqn:Hrow; [|done].
  assert (dl_Attempts (leased c d) = 1%Z) as H1
    by (unfold leased; simpl; by rewrite Hatt).
  assert (texts_ok [dl_ID d; c] = true) as Hok.
  { simpl. rewrite (rd_text _ (dg_rows _ (ag_db _ Hw)) (dl_ID d)) by (by rewrite Hrow).
    by rewrite Htext. }
  destruct (run_MarkInFlight_up (dl_ID d) c (dl_Attempts (leased c d)) (w_repo w) row)
    as [db' Hmark];
    [done|done|by rewrite H1|rewrite H1; unfold in_int32; lia|].
  eexists. intros ws. destruct (Hfuel ws) as (m & db & Hmark' & Hexec).
  change (dl_ID (leased c d)) with (dl_ID d) in Hmark'.
  rewrite Hmark in Hmark'. injection Hmark' as <- <-. exact Hexec.
Qed.

Lemma run_AddConsumer x n c e ex r q w :
  agree w → co_Exchanges (w_core w) !! x = Some e → bound e n ex r q (w_core w) →
  ∃ w', run (BrokerService.AddConsumer x n c) w = Val (Ok tt, w') ∧ agree w' ∧
    co_Exchanges (w_core w') !! x = Some e ∧
    bound e n ex r (set_Consumers ({[c]} ∪ q_Consumers q) q) (w_core w').
Proof using GoEnvOk0.
  intros Hw Hx Hb. pose proof Hb as [Hex Hr Hq]. unfold BrokerService.AddConsumer.
  assert (run (Exchange.AddConsumer e n c) (w_core w)
    = Val (Ok tt, set_queue r (set_Consumers ({[c]} ∪ q_Consumers q) q)
                    (co_chans (w_core w)) (w_core w))) as Hrun.
  { unfold Exchange.AddConsumer. rewrite (run_with_queue e n ex r q) by done.
    by rewrite run_bind, run_atomic,
      (run_on_queue r q _ _ _ _ _ Hq (AddConsumer_eq c q (co_chans (w_core w)))). }
  assert (run (BrokerService.AddConsumer x n c) w
    = Val (Ok tt, mkWorld (set_queue r (set_Consumers ({[c]} ∪ q_Consumers q) q)
                    (co_chans (w_core w)) (w_core w)) (w_repo w))) as Hall.
  { unfold BrokerService.AddConsumer.
    rewrite (run_try_ok _ _ _ _ _ (run_core _ w _ _ (run_GetExchange x e _ Hx))).
    exact (run_core _ (mkWorld (w_core w) (w_repo w)) _ _ Hrun). }
  eexists. split; [exact Hall|]. split.
  { exact (alone_run_inv _ _ _ _ _ (settled_AddConsumer x n c _ Hw) Hall). }
  split; [done|]. split; [done|done|apply lookup_insert_eq].
Qed.
End answered.
