(* ===== verification/ClientSpec.v ===== *)
(** * Properties of the client library

    What a client makes of the broker at the other end of its connection: what it
    is let through with, what becomes of its numbers on the wire, what it fetches,
    and what its set of subscriptions is worth after a restart. *)

From S2P Require Import Prelude Errors Process Routing CoreQueue QueueSpec.
From S2P Require Import CoreExchange CoreSafety Scenario ExchangeSpec AppConfig Repository.
From S2P Require Import Service Transport Client Database Postgres ServiceSafety PostgresSpec.
From S2P Require Import ServerSafety Mirror MirrorCore MirrorHeap MirrorService Recovery.
From S2P Require Import History FetchSpec PublishSpec Answered.
From stdpp Require Import pretty.

(** ** A connection to test on

    Contexts are the list of the pairs that were appended to them. *)

Definition pairs_values (kvs : list (string * string)) (k : string) : list string :=
  snd <$> filter (λ kv, kv.1 = k) kvs.

Definition direct `{E : GoEnv} {R} `{Repo : Repository R} (limits : LimitsConfig)
    (rootToken : string) : GrpcConn (World R) status := {|
  ctx := list (string * string);
  Background := [];
  AppendToOutgoingContext cx k v := cx ++ [(k, v)];
  invoke cx req :=
    AuthInterceptor.Unary rootToken (Some (pairs_values cx)) (handle limits req);
  stream := Empty_set;
  open_stream _ _ := Ret (inl (mkStatus Internal "no streams"));
  Recv _ := Ret (inr None);
  close_conn := Ret (inr tt);
|}.

#[refine] Definition direct_loopback `{E : GoEnv} {R} `{Repo : Repository R} limits
    rootToken : Loopback limits rootToken (direct (R := R) limits rootToken) := {|
  values := pairs_values : ctx (GrpcConn := direct (R := R) limits rootToken) → _;
|}.
Proof.
  - done.
  - intros cx k v k'. unfold pairs_values. simpl. rewrite filter_app, fmap_app.
    rewrite filter_cons, filter_nil. simpl. case_decide; case_decide; try congruence;
      simpl; by rewrite ?app_nil_r.
  - done.
Defined.

(** ** Calls *)

Section calls.
Context `{E : GoEnv} {R : Type} `{Repo : Repository R}.
Context (limits : LimitsConfig) (rootToken : string).
Context `{C : GrpcConn (World R) status} `{L : !Loopback limits rootToken C}.

(** The first value of the header that a call of the client [c] sends. *)
Definition first_token (c : Client) (cx : ctx) : option string :=
  head (values limits rootToken cx rootTokenHeader ++ [cl_rootToken c]).

Lemma first_token_spec c cx :
  head (values limits rootToken (Client.withAuth c cx) rootTokenHeader) = first_token c cx.
Proof.
  unfold Client.withAuth. change "x-root-token" with rootTokenHeader.
  by rewrite (values_append limits rootToken), decide_True.
Qed.

Lemma invoke_let_through c cx req :
  first_token c cx = Some rootToken → invoke (Client.withAuth c cx) req = handle limits req.
Proof.
  intros H. rewrite (invoke_loopback limits rootToken). unfold AuthInterceptor.Unary, AuthInterceptor.authorize.
  rewrite <- first_token_spec in H.
  destruct (values limits rootToken (Client.withAuth c cx) rootTokenHeader) as [|v vs]; [done|].
  injection H as ->. rewrite decide_False; [done|tauto].
Qed.


End calls.

(** ** The operations of a client

    Only the error of an operation is looked at.  ([StreamFetch] and [Close] are
    more than one call of a unary method.) *)


#[export] Instance client_eq_dec : EqDecision Client.
Proof. solve_decision. Defined.

Section operations.
Context {W Err : Type} `{C : GrpcConn W Err}.



End operations.

(** ** The parts of [Fetch] *)

Section fetch.
Context `{E : GoEnv} `{!GoEnvOk E} `{P : PgEnv} (limits : LimitsConfig) (rootToken : string).
Context `{C : GrpcConn (World DB) status} `{L : !Loopback limits rootToken C}.

(** The timeout of a client as the broker gets it. *)
Definition wire_timeout (timeout : Z) : Z := timeout_of (Milliseconds timeout).

(** What [Fetch] of a client makes of the broker's answer. *)
Definition fetched (c : Client) (x n : string) (r : result Delivery) :
    status + option ClientMessage :=
  match r with
  | Ok d => inr (Client.newMessage c x n (Some (delivery_message d)))
  | Err err => inl (mapError err)
  end.

Lemma client_fetch_rest c cx x n timeout (check : prog (ClientState (World DB)) (status + unit))
    s subs w ws r w' ws' :
  first_token limits rootToken c cx = Some rootToken →
  finishes ws check s (inr tt) (mkClientState subs w) ws →
  finishes ws (BrokerService.BlockingFetch limits x n (cl_consumerID c)
                 (wire_timeout timeout)) w r w' ws' →
  finishes ws (r ← check;
      match r with
      | inl err => Ret (inl err)
      | inr _ =>
          resp ← Client.api (invoke (Client.withAuth c cx)
                   (FetchRequest x n (cl_consumerID c) (Milliseconds timeout)));
          match resp with
          | inl err => Ret (inl err)
          | inr delivery => Ret (inr (Client.newMessage c x n delivery))
          end
      end) s (fetched c x n r) (mkClientState subs w') ws'.
Proof.
  intros Htok Hcheck Hfetch. eapply finishes_bind; [exact Hcheck|].
  rewrite (invoke_let_through limits rootToken) by done.
  eapply (finishes_bind _ _ _ _ (match r with
    | Ok d => inr (Some (delivery_message d)) | Err err => inl (mapError err) end)).
  { apply (finishes_zoom conn_lens). cbn [handle]. unfold delivered_message.
    eapply (finishes_bind _ _ _ _ (match r with
      | Ok d => inr (delivery_message d) | Err err => inl (mapError err) end)).
    - unfold BrokerHandler.Fetch, reply_try. eapply finishes_bind; [exact Hfetch|].
      destruct r; apply finishes_ret.
    - destruct r; apply finishes_ret. }
  destruct r; apply finishes_ret.
Qed.

(** [ensureFetchSubscription] of a client that has or has not subscribed. *)
Lemma ensure_finishes c cx x n ws subs w :
  (x, n) ∈ subs →
  finishes ws (Client.ensureFetchSubscription c cx x n) (mkClientState subs w) (inr tt)
    (mkClientState subs w) ws.
Proof.
  intros Hsub. unfold Client.ensureFetchSubscription.
  eapply (finishes_bind _ _ _ _ true); [|apply finishes_ret].
  apply finishes_run. rewrite run_atomic. unfold Client.subscribed, gets. simpl.
  by rewrite bool_decide_true.
Qed.

(** A subscribed client's fetch is a [BlockingFetch] of the broker. *)
Lemma client_fetch_finishes c cx x n timeout subs w ws r w' ws' :
  first_token limits rootToken c cx = Some rootToken → (x, n) ∈ subs →
  finishes ws (BrokerService.BlockingFetch limits x n (cl_consumerID c)
                 (wire_timeout timeout)) w r w' ws' →
  finishes ws (Client.Fetch c cx x n timeout) (mkClientState subs w) (fetched c x n r)
    (mkClientState subs w') ws'.
Proof.
  intros Htok Hsub Hfetch.
  apply (client_fetch_rest c cx x n timeout (Client.ensureFetchSubscription c cx x n)
    _ subs w); [done|by apply ensure_finishes|done].
Qed.

(** Calls of unary methods that the broker answers. *)
Lemma call_finishes c cx req ws w w' :
  first_token limits rootToken c cx = Some rootToken →
  (∃ resp, run (handle limits req) w = Val (inr resp, w')) →
  ∀ subs, finishes ws (Client.call c cx req) (mkClientState subs w) (inr tt)
            (mkClientState subs w') ws.
Proof.
  intros Htok [resp Hrun] subs. unfold Client.call.
  rewrite (invoke_let_through limits rootToken) by done.
  eapply finishes_bind; [apply (finishes_zoom conn_lens), finishes_run, Hrun|].
  apply finishes_ret.
Qed.

Lemma client_publish_finishes c cx x key payload ws subs w w' :
  first_token limits rootToken c cx = Some rootToken →
  run (BrokerService.Publish limits x key payload) w = Val (Ok tt, w') →
  finishes ws (Client.Publish c cx x key payload) (mkClientState subs w) (inr tt)
    (mkClientState subs w') ws.
Proof.
  intros Htok Hrun. apply call_finishes; [done|]. exists tt. cbn [handle].
  unfold BrokerHandler.Publish, reply_try. by rewrite (run_bind_val _ _ _ _ _ Hrun).
Qed.

Lemma client_add_finishes c cx x n ws subs w w' :
  first_token limits rootToken c cx = Some rootToken →
  run (BrokerService.AddConsumer x n (cl_consumerID c)) w = Val (Ok tt, w') →
  finishes ws (Client.AddConsumer c cx x n) (mkClientState subs w) (inr tt)
    (mkClientState ({[(x, n)]} ∪ subs) w') ws.
Proof.
  intros Htok Hrun. unfold Client.AddConsumer.
  eapply finishes_bind; [apply call_finishes; [done|]|by apply finishes_run].
  exists tt. cbn [handle]. unfold BrokerHandler.AddConsumer, reply_try.
  by rewrite (run_bind_val _ _ _ _ _ Hrun).
Qed.

(** A client that has not subscribed does so first. *)
Lemma client_fetch_subscribes c cx x n timeout ws subs w w1 r w' ws' :
  first_token limits rootToken c cx = Some rootToken → (x, n) ∉ subs →
  run (BrokerService.AddConsumer x n (cl_consumerID c)) w = Val (Ok tt, w1) →
  finishes ws (BrokerService.BlockingFetch limits x n (cl_consumerID c)
                 (wire_timeout timeout)) w1 r w' ws' →
  finishes ws (Client.Fetch c cx x n timeout) (mkClientState subs w) (fetched c x n r)
    (mkClientState ({[(x, n)]} ∪ subs) w') ws'.
Proof.
  intros Htok Hno Hadd Hfetch.
  apply (client_fetch_rest c cx x n timeout (Client.ensureFetchSubscription c cx x n)
    _ ({[(x, n)]} ∪ subs) w1); [done| |done].
  unfold Client.ensureFetchSubscription.
  eapply (finishes_bind _ _ _ _ false (mkClientState subs w)).
  - apply finishes_run. rewrite run_atomic. unfold Client.subscribed, gets. simpl.
    by rewrite bool_decide_false.
  - by apply client_add_finishes.
Qed.

(** The consumer of a subscription is not known to the broker, as after a restart. *)
Definition stale (c : Client) (x n : string) (s : ClientState (World DB)) : Prop :=
  (x, n) ∈ cs_fetchSubscriptions s ∧ core_wf (w_core (cs_conn s)) ∧
  ∃ e ex r q, co_Exchanges (w_core (cs_conn s)) !! x = Some e ∧
    bound e n ex r q (w_core (cs_conn s)) ∧ cl_consumerID c ∉ q_Consumers q.

Lemma stale_fetch c cx x n timeout ws s :
  first_token limits rootToken c cx = Some rootToken → stale c x n s →
  ∃ s', finishes ws (Client.Fetch c cx x n timeout) s
          (inl (mkStatus NotFound "consumer not found")) s' ws ∧ stale c x n s'.
Proof.
  intros Htok (Hsub & Hwf & e & ex & r & q & Hx & Hb & Hno). destruct s as [subs w].
  cbn [cs_fetchSubscriptions cs_conn] in *.
  destruct (exec_fetch limits x n (cl_consumerID c) (wire_timeout timeout) e ex r q w
    Hwf Hx Hb) as [fuel Hfuel].
  specialize (Hfuel ws). unfold fetch_result, attempt in Hfuel.
  rewrite decide_False in Hfuel by done. cbv beta iota zeta in Hfuel.
  set (w' := mkWorld _ _) in Hfuel. exists (mkClientState subs w'). split.
  - apply (client_fetch_finishes c cx x n timeout subs w ws (Err ConsumerNotFound) w' ws);
      [done|done|]. by exists fuel.
  - pose proof Hb as [Hex Hr Hq]. split; [done|]. unfold w'. cbn [cs_conn w_core].
    change (co_chans (w_core w)) with (co_chans (tick (w_core w))).
    rewrite (set_queue_same r q (tick (w_core w)) Hq). split; [by apply wf_tick|].
    exists e, ex, r, q. split; [done|]. split; [by apply bound_tick|done].
Qed.
End fetch.

(** ** Numbers and options on the wire *)

Lemma wire_timeout_rem t :
  in_int64 t → wire_timeout t = (t - Z.rem t 1000000)%Z.
Proof.
  intros H. pose proof (Z.quot_rem' t 1000000) as Ht.
  pose proof (Z.rem_bound_abs t 1000000 ltac:(lia)) as Hr.
  unfold wire_timeout, timeout_of, Milliseconds.
  rewrite int64_id; [lia|]. unfold in_int64 in *.
  destruct (decide (0 ≤ t)%Z).
  - pose proof (Z.rem_nonneg t 1000000 ltac:(lia) ltac:(lia)). lia.
  - pose proof (Z.rem_nonpos t 1000000 ltac:(lia) ltac:(lia)). lia.
Qed.

(** A list of options: filters and limits. *)
Definition queue_option (o : string + Z) : QueueOption :=
  match o with inl filter => WithRoutingKey filter | inr m => WithMaxAttempts m end.

Definition as_filter (o : string + Z) : option string :=
  match o with inl filter => Some filter | inr _ => None end.

Definition as_limit (o : string + Z) : option Z :=
  match o with inl _ => None | inr m => Some m end.

Lemma queue_options_from os cfg :
  apply_options (queue_option <$> os) cfg =
  mkQueueOptions
    (match last (omap as_limit os) with Some m => int32 m | None => qo_maxAttempts cfg end)
    (qo_filters cfg ++ omap as_filter os).
Proof.
  revert cfg. induction os as [|o os IH]; intros cfg; csimpl.
  { rewrite app_nil_r. by destruct cfg. }
  unfold apply_options in *. simpl. rewrite IH. destruct o as [f|m]; csimpl.
  - by rewrite <- app_assoc.
  - f_equal. destruct (omap as_limit os) as [|m' l]; [done|].
    destruct (last (m' :: l)) as [m''|] eqn:Hl; [|by apply last_None in Hl].
    by rewrite last_cons, Hl.
Qed.

(** ** Properties *)


(** The broker of the history behind a direct connection. *)
#[local] Instance demo_conn : GrpcConn (World DB) status :=
  direct (E := demo_env) (Repo := postgres (P := demo_pg)) demo_limited "secret".

#[local] Instance demo_loopback : Loopback (E := demo_env)
    (Repo := postgres (P := demo_pg)) demo_limited "secret" demo_conn :=
  direct_loopback demo_limited "secret".


(** C34: what goes over the wire comes back as it was: the timeout that the broker
    waits is the client's with the part below a millisecond cut off, for every
    duration - so a positive one below a millisecond is no wait at all; the queue
    options give the filters in the order of the options and the last limit, which
    is the number asked for exactly when it fits 32 bits (and 2^32 is no limit); the
    message that the client makes of a reply to a fetch has the key, the payload and
    the id of the delivery that the broker put into it, and its attempts exactly when
    they fit, belongs to this client, exchange and queue, and a reply without a
    delivery makes none. *)
Theorem client_conversions c x n d os timeout :
  in_int64 timeout →
  wire_timeout timeout = (timeout - Z.rem timeout 1000000)%Z ∧
  (0 ≤ timeout < 1000000 → wire_timeout timeout = 0)%Z ∧
  apply_options (queue_option <$> os) (mkQueueOptions 0 []) =
    mkQueueOptions (int32 (default 0%Z (last (omap as_limit os)))) (omap as_filter os) ∧
  (∀ m, int32 m = m ↔ in_int32 m) ∧ int32 (2 ^ 32) = 0%Z ∧
  Client.newMessage c x n None = None ∧
  ∃ m, Client.newMessage c x n (Some (delivery_message d)) = Some m ∧
    cm_client m = c ∧ cm_exchangeName m = x ∧ cm_queueName m = n ∧
    ClientMessage.DeliveryID m = dl_ID d ∧
    ClientMessage.RoutingKey m = msg_RoutingKey (dl_Message d) ∧
    ClientMessage.Payload m = msg_Payload (dl_Message d) ∧
    (ClientMessage.Attempts m = dl_Attempts d ↔ in_int32 (dl_Attempts d)).
Proof.
  intros Ht. assert (∀ m, int32 m = m ↔ in_int32 m) as H32.
  { intros m. split; [|apply int32_id]. intros <-. apply int32_range. }
  split; [by apply wire_timeout_rem|]. split.
  { intros H. rewrite wire_timeout_rem by done. rewrite Z.rem_small by done. lia. }
  split.
  { rewrite queue_options_from. simpl. by destruct (last (omap as_limit os)). }
  do 3 (split; [done|]). eexists. split; [reflexivity|]. do 6 (split; [done|]). apply H32.
Qed.

(** 1.5 ms, two filters around two limits. *)
Lemma client_conversions_witness :
  in_int64 1500000 ∧ wire_timeout 1500000 = 1000000%Z ∧
  apply_options [WithRoutingKey "a.*"; WithMaxAttempts 5; WithRoutingKey "b.*";
                 WithMaxAttempts 4294967299] (mkQueueOptions 0 [])
    = mkQueueOptions 3 ["a.*"; "b.*"].
Proof.
  assert (in_int64 1500000) as H64 by (split; reflexivity || discriminate).
  destruct (client_conversions (mkClient "t" "c") "x" "n" Delivery_zero
    [inl "a.*"; inr 5%Z; inl "b.*"; inr 4294967299%Z] 1500000 H64) as (H1 & _ & H2 & _).
  split; [exact H64|]. split; [rewrite H1; reflexivity|exact H2].
Defined.

(** C19: a subscription outlives the consumer it stands for: a client that has
    subscribed to a queue and whose consumer the broker does not know any more - after
    a restart of the broker, or when another
    client of the same id has disconnected it -
    gets "consumer not found" from [Fetch], whatever its timeout, and is afterwards in
    the same situation, so that no later [Fetch] does better. *)
Theorem stale_subscription (E : GoEnv) (P : PgEnv) limits rootToken
    (C : GrpcConn (World DB) status) (L : Loopback limits rootToken C) c cx x n timeout ws s :
  GoEnvOk E → first_token limits rootToken c cx = Some rootToken → stale c x n s →
  ∃ s', finishes ws (Client.Fetch c cx x n timeout) s
          (inl (mkStatus NotFound "consumer not found")) s' ws ∧ stale c x n s'.
Proof. intros HE Htok Hs. by apply (stale_fetch limits rootToken). Qed.

(** The broker of the history after a restart, and its client "c1". *)
Definition demo_restarted : World DB :=
  match run (BrokerService.Restore (Repo := postgres (P := demo_pg)))
          (restarted demo_lived) with
  | Val (Ok _, w) => w
  | _ => demo_lived
  end.

Lemma demo_restarted_agree : agree (E := demo_env) (P := demo_pg) demo_restarted.
Proof.
  unfold demo_restarted.
  destruct (run_Restore (E := demo_env) (P := demo_pg) demo_lived demo_lived_agree)
    as (r & w' & Hrun & _ & H).
  rewrite Hrun. destruct r as [[]|err]; [apply H|apply demo_lived_agree].
Qed.

Definition demo_back : Queue :=
  default (mkQueue "" [] true false 0 [] ∅ ∅ 1%positive)
    (co_qheap (w_core demo_restarted) !! 1%positive).

Definition demo_back_exchange : Exchange :=
  default (mkExchange "" ∅) (co_eheap (w_core demo_restarted) !! 1%positive).

Lemma demo_back_facts :
  co_Exchanges (w_core demo_restarted) !! "events" = Some 1%positive ∧
  bound 1%positive "users" demo_back_exchange 1%positive demo_back
    (w_core demo_restarted) ∧
  bool_decide ("c1" ∈ q_Consumers demo_back) = false.
Proof. split; [|split; [split|]]; vm_compute; reflexivity. Qed.

Lemma demo_stale :
  stale (mkClient "secret" "c1") "events" "users"
    (mkClientState {[("events", "users")]} demo_restarted).
Proof.
  destruct demo_back_facts as (Hx & Hb & Hno). split; [apply elem_of_singleton; done|].
  split; [apply (cg_wf _ (ag_core _ demo_restarted_agree))|].
  exists 1%positive, demo_back_exchange, 1%positive, demo_back.
  split; [exact Hx|]. split; [exact Hb|]. by apply bool_decide_eq_false in Hno.
Qed.

Lemma stale_subscription_witness :
  ∃ s', finishes [] (Client.Fetch (mkClient "secret" "c1") Background "events" "users"
                       5000000000)
    (mkClientState {[("events", "users")]} demo_restarted)
    (inl (mkStatus NotFound "consumer not found")) s' [].
Proof.
  destruct (stale_subscription demo_env demo_pg demo_limited "secret" demo_conn
    demo_loopback (mkClient "secret" "c1") Background "events" "users" 5000000000 []
    (mkClientState {[("events", "users")]} demo_restarted) demo_env_ok)
    as (s' & H & _); [reflexivity|exact demo_stale|].
  exists s'. exact H.
Defined.

Lemma existsb_Exists {A} (f : A → bool) (l : list A) :
  existsb f l = true → Exists (λ a, f a = true) l.
Proof. rewrite existsb_exists, Exists_exists. by setoid_rewrite list_elem_of_In. Qed.

(** C6: what one client publishes is what another one fetches: with a broker whose
    memory and tables agree, and whose server answers, a client with the root token
    publishes a message that is not refused; should a durable queue receive it, it is
    not empty, and it, the queue and the consumer have texts that the tables can hold
    (an empty payload is NULL to the tables and refused); if a filter of the queue matches its key and nothing was ready there, the next client to fetch from
    that queue, below its limit and either not subscribed yet or known to the broker,
    gets a message with the same key and payload, after one attempt - durable queue or
    not, and without waiting. *)
Theorem publish_fetch_roundtrip (E : GoEnv) (P : PgEnv) limits rootToken
    (C : GrpcConn (World DB) status) (L : Loopback limits rootToken C)
    a cxa c cx x key n payload timeout subsa subs w e ex r q :
  GoEnvOk E → server_up → (∀ i, text_ok (uuid_at i) = true) →
  first_token limits rootToken a cxa = Some rootToken →
  first_token limits rootToken c cx = Some rootToken →
  agree w → publish_refusal limits x key payload (w_core w) = None →
  co_Exchanges (w_core w) !! x = Some e → bound e n ex r q (w_core w) →
  fits x key payload ex (w_core w) →
  (q_IsDurable q = true → text_ok (cl_consumerID c) = true) →
  Exists (λ f, RoutingFilter.Match f key = true) (q_Filters q) → q_Ready q = [] →
  at_limit (cl_consumerID c) (MaxInFlight limits) q = false →
  ((x, n) ∈ subs → cl_consumerID c ∈ q_Consumers q) →
  ∃ w1 m s2,
    finishes [] (Client.Publish a cxa x key payload) (mkClientState subsa w) (inr tt)
      (mkClientState subsa w1) [] ∧
    finishes [] (Client.Fetch c cx x n timeout) (mkClientState subs w1) (inr (Some m)) s2 [] ∧
    m = mkClientMessage c x n (cm_deliveryID m) key payload 1.
Proof.
  intros HE Hup Huuid Ha Hc Hw Hno Hx Hb Hfits Htext Hmatch Hready Hlim Hsub.
  destruct (run_Publish_up limits Hup Huuid x key payload e ex w Hw Hno Hx) as (w1 & Hpub & Hw1);
    [apply Hb|done|].
  destruct w as [s db]. cbn [w_core] in *.
  destruct (published_arrives limits x key payload s db w1 e ex n r q
    (cg_wf _ (ag_core _ Hw)) Hx Hb Hmatch Hpub)
    as (Hx1 & id & q1 & Hb1 & Hcfg & Hq1 & Hfl & Hcons).
  rewrite Hready in Hq1. simpl in Hq1.
  set (d := mkDelivery id (mkMessage payload key) "" 0) in *.
  set (cid := cl_consumerID c) in *.
  assert (at_limit cid (MaxInFlight limits) q1 = false) as Hlim1
    by (unfold at_limit in *; by rewrite Hfl).
  exists w1, (mkClientMessage c x n id key payload 1).
  assert (q_IsDurable q1 = true → text_ok cid = true) as Htext1
    by (by rewrite (sc_IsDurable _ _ Hcfg)).
  destruct (decide ((x, n) ∈ subs)) as [Hin|Hout].
  - destruct (exec_fetch_up limits Hup x n cid (wire_timeout timeout) e ex r q1 d []
      w1 Hw1 Hx1 Hb1) as (fuel & w2 & Hfetch); [rewrite Hcons; auto|done..|].
    exists (mkClientState subs w2). split; [by apply (client_publish_finishes limits rootToken)|].
    split; [|done].
    apply (client_fetch_finishes limits rootToken c cx x n timeout subs w1 []
      (Ok (leased cid d)) w2 []);
      [done|done|by exists fuel].
  - destruct (run_AddConsumer x n cid e ex r q1 w1 Hw1 Hx1 Hb1)
      as (w2 & Hadd & Hw2 & Hx2 & Hb2).
    destruct (exec_fetch_up limits Hup x n cid (wire_timeout timeout) e ex r _ d []
      w2 Hw2 Hx2 Hb2) as (fuel & w3 & Hfetch); [simpl; set_solver|done..|].
    exists (mkClientState ({[(x, n)]} ∪ subs) w3).
    split; [by apply (client_publish_finishes limits rootToken)|]. split; [|done].
    apply (client_fetch_subscribes limits rootToken c cx x n timeout [] subs w1 w2
      (Ok (leased cid d)) w3 []);
      [done|done|done|by exists fuel].
Qed.

(** A broker with two queues and no messages. *)
Definition demo_fresh : World DB :=
  default first_world
    (live (E := demo_env) (P := demo_pg) demo_limited 200 (firstn 3 demo_calls) first_world).

Lemma demo_fresh_agree : agree (E := demo_env) (P := demo_pg) demo_fresh.
Proof.
  unfold demo_fresh.
  destruct (live demo_limited 200 (firstn 3 demo_calls) first_world) as [w|] eqn:Hl.
  - apply (live_agree (E := demo_env) (P := demo_pg) _ _ _ _ _ Hl). apply agree_first.
  - apply agree_first.
Qed.

Definition demo_fresh_queue : Queue :=
  default (mkQueue "" [] true false 0 [] ∅ ∅ 1%positive)
    (co_qheap (w_core demo_fresh) !! 1%positive).

Definition demo_fresh_exchange : Exchange :=
  default (mkExchange "" ∅) (co_eheap (w_core demo_fresh) !! 1%positive).

Lemma demo_fresh_facts :
  publish_refusal demo_limited "events" "corp.users.create" [Byte.x68]
    (w_core demo_fresh) = None ∧
  co_Exchanges (w_core demo_fresh) !! "events" = Some 1%positive ∧
  bound 1%positive "users" demo_fresh_exchange 1%positive demo_fresh_queue
    (w_core demo_fresh) ∧
  existsb (λ f, RoutingFilter.Match f "corp.users.create") (q_Filters demo_fresh_queue)
    = true ∧
  q_Ready demo_fresh_queue = [] ∧
  at_limit "c2" (MaxInFlight demo_limited) demo_fresh_queue = false ∧
  bool_decide (map_Forall (λ n _, no_nul n = true) (ex_Queues demo_fresh_exchange)) = true.
Proof.
  split; [|split; [|split; [split|split; [|split; [|split]]]]]; vm_compute; reflexivity.
Qed.

(** The ids of the demonstration are texts. *)
Lemma no_nul_app s t : no_nul (s +:+ t) = no_nul s && no_nul t.
Proof. induction s as [|a s IH]; simpl; [done|]. by rewrite IH, andb_assoc. Qed.

Lemma no_nul_go x s : no_nul s = true → no_nul (pretty_N_go x s) = true.
Proof.
  revert s. induction (N.lt_wf_0 x) as [x _ IH]; intros s Hs.
  destruct (decide (x = 0)%N) as [->|]; [by rewrite pretty_N_go_0|].
  rewrite pretty_N_go_step by lia. apply IH; [apply N.div_lt; lia|]. simpl. rewrite Hs.
  unfold pretty_N_char. by repeat case_match.
Qed.

Lemma demo_ids_text i : no_nul (uuid_at (GoEnv := demo_env) i) = true.
Proof.
  change (uuid_at i) with ("id-" +:+ pretty (N.of_nat i)). rewrite no_nul_app.
  unfold pretty, pretty_N. case_decide; [done|]. by rewrite no_nul_go.
Qed.

(** A message that the tables can take, whichever queue of this exchange gets it. *)
Lemma demo_fits x key payload ex s :
  no_nul x = true → no_nul key = true → payload ≠ [] →
  bool_decide (map_Forall (λ n _, no_nul n = true) (ex_Queues ex)) = true →
  fits (P := demo_pg) x key payload ex s.
Proof.
  intros Hx Hk Hp Hall n r q [Hn _] _ _. split; [done|].
  apply bool_decide_eq_true in Hall. specialize (Hall n r Hn). simpl.
  change (no_nul x && (no_nul n && (no_nul key && true)) = true). by rewrite Hx, Hall, Hk.
Qed.

Lemma publish_fetch_roundtrip_witness :
  ∃ w1 s2 id,
    finishes [] (Client.Publish (mkClient "secret" "c1") Background "events"
                   "corp.users.create" [Byte.x68]) (mkClientState ∅ demo_fresh) (inr tt)
      (mkClientState ∅ w1) [] ∧
    finishes [] (Client.Fetch (mkClient "secret" "c2") Background "events" "users" 0)
      (mkClientState ∅ w1)
      (inr (Some (mkClientMessage (mkClient "secret" "c2") "events" "users" id
                    "corp.users.create" [Byte.x68] 1))) s2 [].
Proof.
  destruct demo_fresh_facts as (Hno & Hx & Hb & Hm & Hready & Hlim & Hnames).
  apply existsb_Exists in Hm.
  assert (server_up (P := demo_pg)) as Hup by (intros k; reflexivity).
  pose proof (demo_fits "events" "corp.users.create" [Byte.x68] demo_fresh_exchange
    (w_core demo_fresh) eq_refl eq_refl ltac:(discriminate) Hnames) as Hfits.
  assert (first_token (E := demo_env) (Repo := postgres (P := demo_pg)) demo_limited
    "secret" (mkClient "secret" "c1") Background = Some "secret") as H1 by reflexivity.
  assert (first_token (E := demo_env) (Repo := postgres (P := demo_pg)) demo_limited
    "secret" (mkClient "secret" "c2") Background = Some "secret") as H2 by reflexivity.
  pose proof (publish_fetch_roundtrip demo_env demo_pg demo_limited "secret" demo_conn
    demo_loopback (mkClient "secret" "c1") Background (mkClient "secret" "c2") Background
    "events" "corp.users.create" "users" [Byte.x68] 0 ∅ ∅ demo_fresh 1%positive
    demo_fresh_exchange 1%positive demo_fresh_queue demo_env_ok Hup demo_ids_text H1
    H2 demo_fresh_agree Hno Hx Hb Hfits (λ _, eq_refl) Hm Hready Hlim) as H.
  destruct H as (w1 & m & s2 & H3 & H4 & Heq).
  - intros H. destruct (not_elem_of_empty (C := gset _) _ H).
  - exists w1, s2, (cm_deliveryID m). split; [exact H3|]. rewrite <- Heq. exact H4.
Defined.
